(** * Verification of enzoblain/Datastructures

    Shallow embeddings of
    - [src/workstealing/sized.rs]        (SizedWorkStealingPool),
    - [src/double_linked_list/sized.rs]  (SizedDoubleLinkedList),
    - [src/array/core.rs]                (keep_lowest_by, swap_maybeuninit_to_option),
    - [src/vec/core.rs]                  (keep_lowest_vec_by, swap_maybeuninit_to_option_vec),
    - [src/option/core.rs]               (put_option_first, put_option_last),
    - [src/double_linked_list/dynamic.rs] (DoubleLinkedList),
    with the properties of their specification. *)

From Stdlib Require Import ZArith Lia.
From stdpp Require Import prelude sorting gmap.

(** Rust's [Result<A, E>]. *)
Inductive result (A E : Type) : Type :=
| Ok (a : A)
| Err (e : E).
Arguments Ok {A E} _.
Arguments Err {A E} _.

(* ===================================================================== *)
(** * Work-stealing pool ([src/workstealing/sized.rs]) *)
(* ===================================================================== *)

Module WorkStealing.

Open Scope Z_scope.

(** [SizedWorkStealingPoolError] *)
Inductive SizedWorkStealingPoolError := IsFull | IsEmpty.

(** [x as u32] and the u32 arithmetic of the pool.  Arithmetic is taken as
    in a release build: [+], [-] on [u32] wrap around modulo 2^32. *)
Definition wrap32 (x : Z) : Z := x mod 2 ^ 32.

(** [fn pack(top: u32, bot: u32) -> u64] *)
Definition pack (top bot : Z) : Z := Z.lor (Z.shiftl top 32) bot.

(** [fn unpack(value: u64) -> (u32, u32)] *)
Definition unpack (value : Z) : Z * Z :=
  let top := wrap32 (Z.shiftr value 32) in
  let bot := wrap32 (Z.land value (2 ^ 32 - 1)) in
  (top, bot).

Section Pool.
Context {T : Type}.

(** [SizedWorkStealingPool<T, N>]: the ring of [N] [MaybeUninit<T>] slots
    ([None] = uninitialised) and the packed atomic state word. *)
Record pool := mk_pool { queue : list (option T); state : Z }.

Definition cap (p : pool) : nat := length (queue p).

(** [SizedWorkStealingPool::new] *)
Definition new (N : nat) : pool := mk_pool (replicate N None) 0.

(** [AtomicU64::compare_exchange] on the state word: [(true, new)] when the
    current value is the expected one, [(false, current)] otherwise. *)
Definition compare_exchange (cur expected new_ : Z) : bool * Z :=
  if Z.eqb cur expected then (true, new_) else (false, cur).

(** [i as usize % N]: a division by zero panics ([None]). *)
Definition slot_of (i : Z) (N : nat) : option nat :=
  if (N =? 0)%nat then None else Some (Z.to_nat (i mod Z.of_nat N)).

(** [assume_init_read] of a ring slot; reading an uninitialised slot is
    undefined behaviour, modelled as [None]. *)
Definition read_slot (q : list (option T)) (i : nat) : option T :=
  match q !! i with Some (Some v) => Some v | _ => None end.

(** Each operation is a [loop] that retries when its [compare_exchange]
    fails.  The loops are run with [fuel] iterations; [None] is a panic
    (or running out of fuel).  In a sequential run the state word cannot
    change between the [load] and the [compare_exchange], so one
    iteration always suffices. *)

(** [SizedWorkStealingPool::insert] *)
Fixpoint insert_loop (fuel : nat) (p : pool) (value : T)
  : option (result unit SizedWorkStealingPoolError * pool) :=
  match fuel with
  | O => None
  | S fuel' =>
      let state_old := state p in
      let '(top, bot) := unpack state_old in
      if Z.eqb (wrap32 (bot - top)) (wrap32 (Z.of_nat (cap p)))
      then Some (Err IsFull, p)
      else
        let new_bot := wrap32 (bot + 1) in
        let state_new := pack top new_bot in
        match slot_of bot (cap p) with
        | None => None
        | Some i =>
            let q := <[i := Some value]> (queue p) in
            match compare_exchange (state p) state_old state_new with
            | (true, s) => Some (Ok tt, mk_pool q s)
            | (false, s) => insert_loop fuel' (mk_pool q s) value
            end
        end
  end.

(** [SizedWorkStealingPool::steal] *)
Fixpoint steal_loop (fuel : nat) (p : pool) : option (option T * pool) :=
  match fuel with
  | O => None
  | S fuel' =>
      let state_old := state p in
      let '(top, bot) := unpack state_old in
      if Z.eqb top bot then Some (None, p)
      else
        (* [let new_bot = bot.checked_sub(1)?;] *)
        if Z.eqb bot 0 then Some (None, p)
        else
          let new_bot := bot - 1 in
          match slot_of new_bot (cap p) with
          | None => None
          | Some index =>
              match read_slot (queue p) index with
              | None => None
              | Some value =>
                  let state_new := pack top new_bot in
                  match compare_exchange (state p) state_old state_new with
                  | (true, s) => Some (Some value, mk_pool (queue p) s)
                  | (false, s) => steal_loop fuel' (mk_pool (queue p) s)
                  end
              end
          end
  end.

(** [SizedWorkStealingPool::take] *)
Fixpoint take_loop (fuel : nat) (p : pool) : option (option T * pool) :=
  match fuel with
  | O => None
  | S fuel' =>
      let state_old := state p in
      let '(top, bot) := unpack state_old in
      if Z.eqb top bot then Some (None, p)
      else
        match slot_of top (cap p) with
        | None => None
        | Some index =>
            match read_slot (queue p) index with
            | None => None
            | Some value =>
                let new_top := wrap32 (top + 1) in
                let state_new := pack new_top bot in
                match compare_exchange (state p) state_old state_new with
                | (true, s) => Some (Some value, mk_pool (queue p) s)
                | (false, s) => take_loop fuel' (mk_pool (queue p) s)
                end
            end
        end
  end.

Definition insert (p : pool) (v : T) := insert_loop 1 p v.
Definition steal (p : pool) := steal_loop 1 p.
Definition take (p : pool) := take_loop 1 p.

(** A sequential client: a list of calls and what each returned. *)
Inductive op := DInsert (v : T) | DTake | DSteal.
Inductive outcome :=
| Inserted (r : result unit SizedWorkStealingPoolError)
| Got (o : option T).

Definition step (p : pool) (o : op) : option (outcome * pool) :=
  match o with
  | DInsert v => '(r, p') ← insert p v; Some (Inserted r, p')
  | DTake => '(r, p') ← take p; Some (Got r, p')
  | DSteal => '(r, p') ← steal p; Some (Got r, p')
  end.

Fixpoint run (p : pool) (ops : list op) : option (list outcome * pool) :=
  match ops with
  | [] => Some ([], p)
  | o :: ops' =>
      '(out, p') ← step p o;
      '(outs, p'') ← run p' ops';
      Some (out :: outs, p'')
  end.

(** The sequential deque the specification describes: [insert] pushes at
    the back, [take] pops the oldest element, [steal] the newest. *)
Definition step_deque (N : nat) (l : list T) (o : op) : outcome * list T :=
  match o with
  | DInsert v =>
      if (length l =? N)%nat then (Inserted (Err IsFull), l)
      else (Inserted (Ok tt), l ++ [v])
  | DTake =>
      match l with [] => (Got None, l) | x :: r => (Got (Some x), r) end
  | DSteal =>
      match last l with
      | None => (Got None, l)
      | Some x => (Got (Some x), removelast l)
      end
  end.

Fixpoint run_deque (N : nat) (l : list T) (ops : list op) : list outcome * list T :=
  match ops with
  | [] => ([], l)
  | o :: ops' =>
      let '(out, l') := step_deque N l o in
      let '(outs, l'') := run_deque N l' ops' in
      (out :: outs, l'')
  end.

Fixpoint inserts (ops : list op) : nat :=
  match ops with
  | [] => 0
  | DInsert _ :: ops' => S (inserts ops')
  | _ :: ops' => inserts ops'
  end.

End Pool.
Arguments pool : clear implicits.
Arguments op : clear implicits.
Arguments outcome : clear implicits.

End WorkStealing.

(* ===================================================================== *)
(** * Fixed-capacity list ([src/double_linked_list/sized.rs]) *)
(* ===================================================================== *)

Module ArenaList.

(** [LinkedListError] ([src/lib.rs]) *)
Inductive LinkedListError := IndexOutOfRange | ListIsFull.

(** u64 helpers for the [used] mask. *)
Definition u64_not (x : Z) : Z := Z.lxor x (Z.ones 64).

(** [1u64 << index]; a shift by 64 or more overflows (a panic). *)
Definition shl1 (index : nat) : option Z :=
  if (index <? 64)%nat then Some (Z.shiftl 1 (Z.of_nat index)) else None.

(** [u64::trailing_zeros]: the lowest set bit, 64 for zero. *)
Fixpoint tz_from (x : Z) (i fuel : nat) : nat :=
  match fuel with
  | O => i
  | S fuel' => if Z.testbit x (Z.of_nat i) then i else tz_from x (S i) fuel'
  end.
Definition trailing_zeros (x : Z) : nat := tz_from x 0 64.

(** [usize] subtraction; an underflow panics. *)
Definition sub_usize (a b : nat) : option nat :=
  if (b <=? a)%nat then Some (a - b)%nat else None.

Section List.
Context {T : Type}.

(** [Node<T>] *)
Record Node := mk_node {
  value : T;
  index : nat;
  prev : option nat;
  next : option nat
}.

(** [n.index], under a name that function parameters called [index] do
    not shadow. *)
Definition node_index (n : Node) : nat := index n.

Definition set_prev (p : option nat) (n : Node) : Node :=
  mk_node (value n) (index n) p (next n).
Definition set_next (x : option nat) (n : Node) : Node :=
  mk_node (value n) (index n) (prev n) x.

(** [SizedDoubleLinkedList<T, K>]: [K = length nodes] slots, [None] for an
    uninitialised one. *)
Record SizedDoubleLinkedList := mk_list {
  nodes : list (option Node);
  used : Z;
  len : nat;
  tail : option nat;
  head : option nat
}.

Definition K (s : SizedDoubleLinkedList) : nat := length (nodes s).

(** [Default::default] *)
Definition empty (k : nat) : SizedDoubleLinkedList :=
  mk_list (replicate k None) 0 0 None None.

(** [self.nodes[i].assume_init_ref()]: an index out of bounds panics and an
    uninitialised slot is undefined behaviour; both are [None]. *)
Definition node_at (ns : list (option Node)) (i : nat) : option Node :=
  match ns !! i with Some (Some n) => Some n | _ => None end.

(** [self.nodes[i].assume_init_mut().field = ...] *)
Definition update_node (ns : list (option Node)) (i : nat) (f : Node -> Node)
  : option (list (option Node)) :=
  n ← node_at ns i; Some (<[i := Some (f n)]> ns).

(** [self.nodes[i] = MaybeUninit::new(n)] / [MaybeUninit::uninit()] *)
Definition write_slot (ns : list (option Node)) (i : nat) (x : option Node)
  : option (list (option Node)) :=
  if (i <? length ns)%nat then Some (<[i := x]> ns) else None.

Definition is_full (s : SizedDoubleLinkedList) : bool := (len s =? K s)%nat.

Definition remove_used (used : Z) (index : nat) : option Z :=
  m ← shl1 index; Some (Z.land used (u64_not m)).
Definition add_used (used : Z) (index : nat) : option Z :=
  m ← shl1 index; Some (Z.lor used m).
Definition first_free (s : SizedDoubleLinkedList) : nat :=
  trailing_zeros (u64_not (used s)).

(** [for _ in 0..steps { current = node.next.unwrap() / node.prev.unwrap() }] *)
Fixpoint walk (ns : list (option Node)) (current steps : nat) (forward : bool)
  : option nat :=
  match steps with
  | O => Some current
  | S steps' =>
      node ← node_at ns current;
      current' ← (if forward then next node else prev node);
      walk ns current' steps' forward
  end.

(** The traversal shared by [insert_after], [insert_before], [get] and
    [remove]: start from the closer end and walk to position [index]. *)
Definition seek (s : SizedDoubleLinkedList) (index : nat) : option nat :=
  if (index <? len s / 2)%nat then
    h ← head s; walk (nodes s) h index true
  else
    t ← tail s;
    l1 ← sub_usize (len s) 1;
    steps ← sub_usize l1 index;
    walk (nodes s) t steps false.

Definition Res := option (result unit LinkedListError * SizedDoubleLinkedList).

(** [SizedDoubleLinkedList::insert_after] *)
Definition insert_after (s : SizedDoubleLinkedList) (index : nat) (v : T) : Res :=
  if (len s <=? index)%nat then Some (Err IndexOutOfRange, s) else
  if is_full s then Some (Err ListIsFull, s) else
  current ← seek s index;
  let new := first_free s in
  let after := current in
  after_node ← node_at (nodes s) after;
  let after_next := next after_node in
  '(ns1, tail1) ←
    match after_next with
    | Some n => ns ← update_node (nodes s) n (set_prev (Some new)); Some (ns, tail s)
    | None => Some (nodes s, Some new)
    end;
  let new_node := mk_node v new (Some after) after_next in
  ns2 ← update_node ns1 after (set_next (Some new));
  used1 ← add_used (used s) new;
  ns3 ← write_slot ns2 new (Some new_node);
  Some (Ok tt, mk_list ns3 used1 (len s + 1) tail1 (head s)).

(** [SizedDoubleLinkedList::insert_before] *)
Definition insert_before (s : SizedDoubleLinkedList) (index : nat) (v : T) : Res :=
  if (len s <? index)%nat then Some (Err IndexOutOfRange, s) else
  if is_full s then Some (Err ListIsFull, s) else
  if (index =? 0)%nat then
    if (len s =? 0)%nat then
      let new := first_free s in
      let node := mk_node v new None None in
      used1 ← add_used (used s) new;
      ns1 ← write_slot (nodes s) new (Some node);
      Some (Ok tt, mk_list ns1 used1 1 (Some new) (Some new))
    else
      old ← head s;
      let new := first_free s in
      ns1 ← update_node (nodes s) old (set_prev (Some new));
      let node := mk_node v new None (Some old) in
      used1 ← add_used (used s) new;
      ns2 ← write_slot ns1 new (Some node);
      Some (Ok tt, mk_list ns2 used1 (len s + 1) (tail s) (Some new))
  else
    current ← seek s index;
    let before := current in
    before_node ← node_at (nodes s) before;
    let old_prev := prev before_node in
    let new := first_free s in
    '(ns1, head1) ←
      match old_prev with
      | Some p => ns ← update_node (nodes s) p (set_next (Some new)); Some (ns, head s)
      | None => Some (nodes s, Some new)
      end;
    let new_node := mk_node v new old_prev (Some before) in
    ns2 ← update_node ns1 before (set_prev (Some new));
    used1 ← add_used (used s) new;
    ns3 ← write_slot ns2 new (Some new_node);
    Some (Ok tt, mk_list ns3 used1 (len s + 1) (tail s) head1).

(** [SizedDoubleLinkedList::insert_tail] *)
Definition insert_tail (s : SizedDoubleLinkedList) (v : T) : Res :=
  if (len s =? 0)%nat then insert_before s 0 v else insert_after s (len s - 1) v.

(** [SizedDoubleLinkedList::insert_head] *)
Definition insert_head (s : SizedDoubleLinkedList) (v : T) : Res :=
  insert_before s 0 v.

(** [SizedDoubleLinkedList::get] *)
Definition get (s : SizedDoubleLinkedList) (index : nat) : option (result T LinkedListError) :=
  if (len s <=? index)%nat then Some (Err IndexOutOfRange) else
  current ← seek s index;
  n ← node_at (nodes s) current;
  Some (Ok (value n)).

(** [SizedDoubleLinkedList::remove] *)
Definition remove (s : SizedDoubleLinkedList) (index : nat) : Res :=
  if (len s <=? index)%nat then Some (Err IndexOutOfRange, s) else
  if (len s =? 1)%nat then
    only ← head s;
    n ← node_at (nodes s) only;
    _ ← remove_used (used s) (node_index n);
    ns1 ← write_slot (nodes s) only None;
    Some (Ok tt, mk_list ns1 0 0 None None)
  else if (index =? 0)%nat then
    old ← head s;
    n ← node_at (nodes s) old;
    next_index ← next n;
    ns1 ← update_node (nodes s) next_index (set_prev None);
    used1 ← remove_used (used s) (node_index n);
    ns2 ← write_slot ns1 old None;
    Some (Ok tt, mk_list ns2 used1 (len s - 1) (tail s) (Some next_index))
  else if (index =? len s - 1)%nat then
    old ← tail s;
    n ← node_at (nodes s) old;
    prev_index ← prev n;
    ns1 ← update_node (nodes s) prev_index (set_next None);
    used1 ← remove_used (used s) (node_index n);
    ns2 ← write_slot ns1 old None;
    Some (Ok tt, mk_list ns2 used1 (len s - 1) (Some prev_index) (head s))
  else
    current ← seek s index;
    n ← node_at (nodes s) current;
    let prev_index := prev n in
    let next_index := next n in
    '(ns1, head1) ←
      match prev_index with
      | Some p => ns ← update_node (nodes s) p (set_next next_index); Some (ns, head s)
      | None => Some (nodes s, next_index)
      end;
    '(ns2, tail1) ←
      match next_index with
      | Some x => ns ← update_node ns1 x (set_prev prev_index); Some (ns, tail s)
      | None => Some (ns1, prev_index)
      end;
    used1 ← remove_used (used s) (node_index n);
    ns3 ← write_slot ns2 current None;
    Some (Ok tt, mk_list ns3 used1 (len s - 1) tail1 head1).

(** [SizedDoubleLinkedList::get_where]: the [loop] follows [next] from
    [head] until the predicate holds or [next] is [None].  It is run with
    [fuel] iterations ([None] when exhausted); the chain of a list has at
    most [K] nodes, so [K + 1] iterations suffice. *)
Fixpoint get_where_from (ns : list (option Node)) (f : T -> bool) (current fuel : nat)
  : option (option Node) :=
  match fuel with
  | O => None
  | S fuel' =>
      node ← node_at ns current;
      if f (value node) then Some (Some node)
      else match next node with
           | Some next_idx => get_where_from ns f next_idx fuel'
           | None => Some None
           end
  end.

Definition get_where (s : SizedDoubleLinkedList) (f : T -> bool) : option (option Node) :=
  match head s with
  | None => Some None
  | Some current => get_where_from (nodes s) f current (S (K s))
  end.

(** [SizedDoubleLinkedList::get_index_where]: [self.get_where(f).map(|n| n.index)] *)
Definition get_index_where (s : SizedDoubleLinkedList) (f : T -> bool) : option (option nat) :=
  r ← get_where s f; Some (option_map node_index r).

(** [SizedDoubleLinkedList::get_value_where] *)
Definition get_value_where (s : SizedDoubleLinkedList) (f : T -> bool) : option (option T) :=
  r ← get_where s f; Some (option_map value r).

(** The values read with [get] at positions [0 .. len - 1]. *)
Definition contents (s : SizedDoubleLinkedList) : option (list T) :=
  mapM (fun i => r ← get s i; match r with Ok v => Some v | Err _ => None end)
       (seq 0 (len s)).

(** [SizedDoubleLinkedList::iter_and_compute]: [f(&mut node.value)] on
    each node from [head] along [next]; an [Fn(&mut T)] closure captures
    nothing mutable, so it is a function [T -> T] applied in place.  The
    [loop] is run with [fuel] iterations as in [get_where]. *)
Fixpoint iter_from (ns : list (option Node)) (f : T -> T) (current fuel : nat)
  : option (list (option Node)) :=
  match fuel with
  | O => None
  | S fuel' =>
      node ← node_at ns current;
      let node' := mk_node (f (value node)) (index node) (prev node) (next node) in
      let ns' := <[current := Some node']> ns in
      match next node' with
      | Some next_idx => iter_from ns' f next_idx fuel'
      | None => Some ns'
      end
  end.

Definition iter_and_compute (s : SizedDoubleLinkedList) (f : T -> T) : option SizedDoubleLinkedList :=
  match head s with
  | None => Some s
  | Some current =>
      ns ← iter_from (nodes s) f current (S (K s));
      Some (mk_list ns (used s) (len s) (tail s) (head s))
  end.

(** [Clone for SizedDoubleLinkedList]: from [Default::default()] (an empty
    list of the same capacity), [insert_tail(node.value.clone()).unwrap()]
    for each node from [head] along [next]; [clone_t] is [T::clone], and an
    [Err] from [insert_tail] makes [unwrap] panic ([None]). *)
Fixpoint clone_from (clone_t : T -> T) (ns : list (option Node)) (new_list : SizedDoubleLinkedList)
    (current fuel : nat) : option SizedDoubleLinkedList :=
  match fuel with
  | O => None
  | S fuel' =>
      node ← node_at ns current;
      '(r, new_list') ← insert_tail new_list (clone_t (value node));
      match r with
      | Err _ => None
      | Ok _ =>
          match next node with
          | Some next_idx => clone_from clone_t ns new_list' next_idx fuel'
          | None => Some new_list'
          end
      end
  end.

Definition clone (clone_t : T -> T) (s : SizedDoubleLinkedList) : option SizedDoubleLinkedList :=
  let new_list := empty (K s) in
  match head s with
  | None => Some new_list
  | Some current => clone_from clone_t (nodes s) new_list current (S (K s))
  end.

(** [SizedDoubleLinkedList::copy]: [Clone::clone(self)] *)
Definition copy (clone_t : T -> T) (s : SizedDoubleLinkedList) : option SizedDoubleLinkedList :=
  clone clone_t s.

(** A client issuing inserts and removes, and the results it gets back. *)
Inductive lop :=
| InsertHead (v : T)
| InsertTail (v : T)
| InsertAfter (i : nat) (v : T)
| InsertBefore (i : nat) (v : T)
| Remove (i : nat).

Definition lstep (s : SizedDoubleLinkedList) (o : lop) : Res :=
  match o with
  | InsertHead v => insert_head s v
  | InsertTail v => insert_tail s v
  | InsertAfter i v => insert_after s i v
  | InsertBefore i v => insert_before s i v
  | Remove i => remove s i
  end.

Fixpoint lrun (s : SizedDoubleLinkedList) (ops : list lop)
  : option (list (result unit LinkedListError) * SizedDoubleLinkedList) :=
  match ops with
  | [] => Some ([], s)
  | o :: ops' =>
      '(r, s') ← lstep s o;
      '(rs, s'') ← lrun s' ops';
      Some (r :: rs, s'')
  end.

(** [link_at src len pos]: the [prev] and [next] fields [sort_by] gives the
    node at position [pos] of the sorted buffer [src] (indexing out of
    bounds panics). *)
Definition link_at (src : list nat) (len pos : nat) : option (option nat * option nat) :=
  prev ← (if (pos =? 0)%nat then Some None else p ← src !! (pos - 1); Some (Some p));
  next ← (if (pos + 1 =? len)%nat then Some None else x ← src !! (pos + 1); Some (Some x));
  Some (prev, next).

(** [for (pos, &idx) in src.iter().enumerate() { n.prev = prev; n.next = next; }] *)
Fixpoint relink (ns : list (option Node)) (src : list nat) (len pos : nat) (rest : list nat)
  : option (list (option Node)) :=
  match rest with
  | [] => Some ns
  | idx :: rest' =>
      '(p, x) ← link_at src len pos;
      ns' ← update_node ns idx (fun n => mk_node (value n) (index n) p x);
      relink ns' src len (S pos) rest'
  end.

(** The index collection of the default-build [sort_by]: push [current] and
    follow [next] until [None].  The loop ends on a list of at most [K]
    nodes; it is run with [fuel] iterations. *)
Fixpoint collect_all (ns : list (option Node)) (current fuel : nat) : option (list nat) :=
  match fuel with
  | O => None
  | S fuel' =>
      node ← node_at ns current;
      match next node with
      | Some nx => rest ← collect_all ns nx fuel'; Some (current :: rest)
      | None => Some [current]
      end
  end.

(** [SizedDoubleLinkedList::sort_by] (default build): the slot indices are
    sorted with [sort_unstable_by], which compares the nodes' values; it is
    a parameter here, standing for the standard library's sort. *)
Definition sort_by_std
    (sort_unstable_by : list (option Node) -> list nat -> option (list nat))
    (s : SizedDoubleLinkedList) : option SizedDoubleLinkedList :=
  if (len s <=? 1)%nat then Some s else
  h ← head s;
  indices ← collect_all (nodes s) h (S (K s));
  sorted ← sort_unstable_by (nodes s) indices;
  h' ← sorted !! 0;
  t' ← last sorted;
  ns ← relink (nodes s) sorted (len s) 0 sorted;
  Some (mk_list ns (used s) (len s) (Some t') (Some h')).

(** The index collection of the [no-std] [sort_by]: [len] iterations of
    [indices_buf.iter_mut().take(len)]; a [break] before the last one
    leaves part of the buffer uninitialised, which is then read. *)
Fixpoint collect_n (ns : list (option Node)) (current n : nat) : option (list nat) :=
  match n with
  | O => Some []
  | S n' =>
      node ← node_at ns current;
      match next node with
      | Some nx => rest ← collect_n ns nx n'; Some (current :: rest)
      | None => if (n' =? 0)%nat then Some [current] else None
      end
  end.

(** [cmp_indices]: compare the values of the nodes in two slots. *)
Definition cmp_indices (compare : T -> T -> comparison) (ns : list (option Node)) (a b : nat)
  : option comparison :=
  va ← node_at ns a; vb ← node_at ns b; Some (compare (value va) (value vb)).

(** Merge [[i, mid)] and [[mid, end)]: the left element is taken unless it
    compares [Greater]. *)
Fixpoint merge (cmpi : nat -> nat -> option comparison) (l : list nat)
  : list nat -> option (list nat) :=
  fix merge_r (r : list nat) : option (list nat) :=
  match l, r with
  | [], _ => Some r
  | _, [] => Some l
  | a :: l', b :: r' =>
      c ← cmpi a b;
      match c with
      | Gt => rest ← merge_r r'; Some (b :: rest)
      | _ => rest ← merge cmpi l' r; Some (a :: rest)
      end
  end.

(** One pass [while i < len]: merge the blocks [[i, i + width)] and
    [[i + width, i + 2 width)] of [src] into [dst].  [i] grows by at least 2
    each iteration, so [len] iterations ([fuel]) suffice. *)
Fixpoint merge_pass (cmpi : nat -> nat -> option comparison) (src : list nat) (width fuel : nat)
  : option (list nat) :=
  match fuel with
  | O => Some src
  | S fuel' =>
      match src with
      | [] => Some []
      | _ =>
          m ← merge cmpi (take width src) (take width (drop width src));
          rest ← merge_pass cmpi (drop (2 * width) src) width fuel';
          Some (m ++ rest)
      end
  end.

(** [while width < len { ...; width *= 2; swap(&mut src, &mut dst); }]; the
    width doubles each pass, so [len] passes ([fuel]) suffice. *)
Fixpoint merge_passes (cmpi : nat -> nat -> option comparison) (src : list nat) (width len fuel : nat)
  : option (list nat) :=
  match fuel with
  | O => Some src
  | S fuel' =>
      if (width <? len)%nat then
        dst ← merge_pass cmpi src width len;
        merge_passes cmpi dst (2 * width) len fuel'
      else Some src
  end.

(** [SizedDoubleLinkedList::sort_by] ([no-std] build). *)
Definition sort_by_nostd (compare : T -> T -> comparison) (s : SizedDoubleLinkedList)
  : option SizedDoubleLinkedList :=
  if (len s <=? 1)%nat then Some s else
  h ← head s;
  src ← collect_n (nodes s) h (len s);
  sorted ← merge_passes (cmp_indices compare (nodes s)) src 1 (len s) (len s);
  h' ← sorted !! 0;
  t' ← last sorted;
  ns ← relink (nodes s) sorted (len s) 0 sorted;
  Some (mk_list ns (used s) (len s) (Some t') (Some h')).

(** * [select_n_first_by] *)

(** [arr.swap(i, j)] (panics out of bounds). *)
Definition swap (arr : list nat) (i j : nat) : option (list nat) :=
  a ← arr !! i; b ← arr !! j; Some (<[i := b]> (<[j := a]> arr)).

(** [while cmp(arr[i], pivot) == Ordering::Less { i += 1; }] *)
Fixpoint scan_up (cmpi : nat -> nat -> option comparison) (arr : list nat) (pivot i fuel : nat)
  : option nat :=
  match fuel with
  | O => None
  | S fuel' =>
      a ← arr !! i; c ← cmpi a pivot;
      match c with Lt => scan_up cmpi arr pivot (S i) fuel' | _ => Some i end
  end.

(** [while cmp(arr[j], pivot) == Ordering::Greater { if j == 0 { break; } j -= 1; }] *)
Fixpoint scan_down (cmpi : nat -> nat -> option comparison) (arr : list nat) (pivot j fuel : nat)
  {struct fuel} : option nat :=
  match fuel with
  | O => None
  | S fuel' =>
      a ← arr !! j; c ← cmpi a pivot;
      match c with
      | Gt => match j with O => Some O | S j' => scan_down cmpi arr pivot j' fuel' end
      | _ => Some j
      end
  end.

(** The [loop] of [partition]; [i] grows each iteration, so [fuel = len + 1]
    iterations suffice. *)
Fixpoint partition_loop (cmpi : nat -> nat -> option comparison) (arr : list nat)
    (pivot i j fuel : nat) : option (list nat * nat) :=
  match fuel with
  | O => None
  | S fuel' =>
      i' ← scan_up cmpi arr pivot i (S (length arr));
      j' ← scan_down cmpi arr pivot j (S (length arr));
      if (j' <=? i')%nat then Some (arr, j') else
      arr' ← swap arr i' j';
      match j' with
      | O => Some (arr', O)
      | S j'' => partition_loop cmpi arr' pivot (S i') j'' fuel'
      end
  end.

(** [fn partition(arr, left, right, cmp) -> usize] (Hoare partition). *)
Definition partition (cmpi : nat -> nat -> option comparison) (arr : list nat) (left right : nat)
  : option (list nat * nat) :=
  pivot ← arr !! ((left + right) / 2);
  partition_loop cmpi arr pivot left right (S (length arr)).

(** [while left < right { ... }]: quickselect; [right - left] shrinks each
    iteration, so [fuel = len] iterations suffice. *)
Fixpoint select_loop (cmpi : nat -> nat -> option comparison) (arr : list nat)
    (select_pos left right fuel : nat) : option (list nat) :=
  match fuel with
  | O => None
  | S fuel' =>
      if (left <? right)%nat then
        '(arr', pivot) ← partition cmpi arr left right;
        if (select_pos <=? pivot)%nat then
          if (pivot =? 0)%nat then Some arr'
          else select_loop cmpi arr' select_pos left pivot fuel'
        else select_loop cmpi arr' select_pos (S pivot) right fuel'
      else Some arr
  end.

(** [let mut j = i; while j > 0 && cmp(indices[j], indices[j - 1]) == Less
    { indices.swap(j, j - 1); j -= 1; }] *)
Fixpoint sink (cmpi : nat -> nat -> option comparison) (arr : list nat) (j fuel : nat)
  {struct fuel} : option (list nat) :=
  match fuel with
  | O => None
  | S fuel' =>
      match j with
      | O => Some arr
      | S j' =>
          a ← arr !! j; b ← arr !! j'; c ← cmpi a b;
          match c with
          | Lt => arr' ← swap arr j j'; sink cmpi arr' j' fuel'
          | _ => Some arr
          end
      end
  end.

(** [for i in i..i + count { sink }] *)
Fixpoint insertion_sort (cmpi : nat -> nat -> option comparison) (arr : list nat) (i count : nat)
  : option (list nat) :=
  match count with
  | O => Some arr
  | S count' => arr' ← sink cmpi arr i (S i); insertion_sort cmpi arr' (S i) count'
  end.

(** [swap_maybeuninit_to_option(out, size)]: the first [size] entries
    [Some], the others [None]. *)
Definition to_option_array (N : nat) (vs : list T) : list (option T) :=
  map Some vs ++ replicate (N - length vs) None.

(** [SizedDoubleLinkedList::select_n_first_by::<N>] ([no-std] build). *)
Definition select_n_first_by_nostd (N : nat) (compare : T -> T -> comparison)
    (s : SizedDoubleLinkedList) : option (list (option T)) :=
  if (len s =? 0)%nat || (N =? 0)%nat then Some (replicate N None) else
  h ← head s;
  indices ← collect_n (nodes s) h (len s);
  let target := Nat.min N (len s) in
  let cmpi := cmp_indices compare (nodes s) in
  arr ← (if (1 <? len s)%nat
         then select_loop cmpi indices (target - 1) 0 (len s - 1) (len s)
         else Some indices);
  arr' ← (if (1 <? target)%nat then insertion_sort cmpi arr 1 (target - 1) else Some arr);
  vs ← mapM (fun idx => n ← node_at (nodes s) idx; Some (value n)) (take target arr');
  Some (to_option_array N vs).

(** [SizedDoubleLinkedList::select_n_first_by::<N>] (default build): the
    standard library's [select_nth_unstable_by] and [sort_unstable_by] are
    parameters. *)
Definition select_n_first_by_std
    (select_nth_unstable_by : (nat -> nat -> option comparison) -> nat -> list nat -> option (list nat))
    (sort_unstable_by : (nat -> nat -> option comparison) -> list nat -> option (list nat))
    (N : nat) (compare : T -> T -> comparison) (s : SizedDoubleLinkedList) : option (list T) :=
  if (len s =? 0)%nat || (N =? 0)%nat then Some [] else
  h ← head s;
  indices ← collect_all (nodes s) h (S (K s));
  let target := Nat.min N (len s) in
  let cmpi := cmp_indices compare (nodes s) in
  arr ← (if (target <? len s)%nat then select_nth_unstable_by cmpi (target - 1) indices
         else Some indices);
  sorted ← sort_unstable_by cmpi (take target arr);
  mapM (fun idx => n ← node_at (nodes s) idx; Some (value n)) sorted.

(** * The structural invariant *)

Definition hd_or (l : list nat) (q : option nat) : option nat :=
  match l with [] => q | j :: _ => Some j end.

(** [seg ns p ch q]: the slots [ch] hold initialised nodes, each carrying
    its own slot number, linked by [next] from each to the following one and
    by [prev] from each to the preceding one; the first one's [prev] is [p]
    and the last one's [next] is [q]. *)
Fixpoint seg (ns : list (option Node)) (p : option nat) (ch : list nat) (q : option nat) : Prop :=
  match ch with
  | [] => True
  | i :: rest =>
      exists n, node_at ns i = Some n /\ node_index n = i /\ prev n = p /\
                next n = hd_or rest q /\ seg ns (Some i) rest q
  end.

(** The invariant of a list whose nodes, read from [head] along [next], sit
    in the slots [ch]: following [next] from [head] visits exactly the slots
    of [ch] in order and ends in [None] after the last one, [tail]; [prev]
    links the same slots backwards; [head] and [tail] are [None] exactly when
    [ch] is empty; [len] is the length of [ch]; a slot is initialised
    exactly when it is in [ch], and bit [i] of [used] is set exactly then;
    [K <= 63] ([ValidK]). *)
Record Inv (s : SizedDoubleLinkedList) (ch : list nat) : Prop := {
  inv_seg : seg (nodes s) None ch None;
  inv_nodup : NoDup ch;
  inv_len : len s = length ch;
  inv_head : head s = ch !! 0;
  inv_tail : tail s = last ch;
  inv_live : forall i, is_Some (node_at (nodes s) i) <-> i ∈ ch;
  inv_used : forall i, Z.testbit (used s) (Z.of_nat i) = bool_decide (i ∈ ch);
  inv_used_nonneg : (0 <= used s)%Z;
  inv_cap : (K s <= 63)%nat
}.

(** The values stored in the slots [ch], in order. *)
Definition values (ns : list (option Node)) (ch : list nat) : option (list T) :=
  mapM (fun i => n ← node_at ns i; Some (value n)) ch.

(** An insert attempt at a position the operation accepts: [insert_after]
    takes [index < len], [insert_before] takes [index <= len]. *)
Definition valid_insert (s : SizedDoubleLinkedList) (o : lop) : bool :=
  match o with
  | InsertHead _ | InsertTail _ => true
  | InsertAfter i _ => (i <? len s)%nat
  | InsertBefore i _ => (i <=? len s)%nat
  | Remove _ => false
  end.

(** The change in length a client expects from an operation and its result:
    one more element for a successful insert, one less for a successful
    remove, none for an error. *)
Definition delta (o : lop) (r : result unit LinkedListError) : Z :=
  match r with
  | Err _ => 0
  | Ok _ => match o with Remove _ => (-1)%Z | _ => 1%Z end
  end.

Fixpoint net (ops : list lop) (rs : list (result unit LinkedListError)) : Z :=
  match ops, rs with
  | o :: ops', r :: rs' => (delta o r + net ops' rs')%Z
  | _, _ => 0%Z
  end.

End List.
Arguments Node : clear implicits.
Arguments SizedDoubleLinkedList : clear implicits.
Arguments lop : clear implicits.
Arguments Inv {T} s ch.

End ArenaList.

(** * [array::core] *)

Module ArrayCore.

Section Core.
Context {T : Type}.

(** One iteration's [let v = if i1 >= N { ... } else if i2 >= N { ... }
    else { match compare(&s1_copy[i1], &s2[i2]) { ... } }]: the value [v]
    and the new [i1], [i2]; indexing out of bounds panics ([None]). *)
Definition pick (compare : T -> T -> comparison) (N : nat) (s1_copy s2 : list T) (i1 i2 : nat)
  : option (T * nat * nat) :=
  if (N <=? i1)%nat then v2 ← s2 !! i2; Some (v2, i1, S i2)
  else if (N <=? i2)%nat then v1 ← s1_copy !! i1; Some (v1, S i1, i2)
  else
    a ← s1_copy !! i1; b ← s2 !! i2;
    match compare a b with
    | Lt => v1 ← s1_copy !! i1; Some (v1, S i1, i2)
    | Gt => v2 ← s2 !! i2; Some (v2, i1, S i2)
    | Eq => v ← s1_copy !! i1; Some (v, S i1, i2)
    end.

(** [while k < N { let v = ...; s1[k] = v; k += 1; }]; [k] grows each
    iteration, so [fuel = N + 1] iterations suffice. *)
Fixpoint keep_lowest_loop (compare : T -> T -> comparison) (N : nat) (s1_copy s2 : list T)
    (s1 : list T) (i1 i2 k fuel : nat) : option (list T) :=
  match fuel with
  | O => None
  | S fuel' =>
      if (k <? N)%nat then
        '(v, i1', i2') ← pick compare N s1_copy s2 i1 i2;
        keep_lowest_loop compare N s1_copy s2 (<[k := v]> s1) i1' i2' (S k) fuel'
      else Some s1
  end.

(** [keep_lowest_by(s1, s2, compare)] with [N = s1.len()] (both arrays
    have type [[T; N]]): the new contents of [s1]. *)
Definition keep_lowest_by (s1 s2 : list T) (compare : T -> T -> comparison) : option (list T) :=
  let s1_copy := s1 in
  keep_lowest_loop compare (length s1) s1_copy s2 s1 0 0 0 (S (length s1)).

(** [keep_lowest(s1, s2)] for [T: Ord]: [keep_lowest_by] with the
    comparator [|a, b| a.cmp(b)]; [cmp] is the [Ord] instance's [cmp]. *)
Definition keep_lowest (cmp : T -> T -> comparison) (s1 s2 : list T) : option (list T) :=
  keep_lowest_by s1 s2 (fun a b => cmp a b).

(** [for (i, item) in items { let value = unsafe { item.assume_init_read() };
    out[i] = Some(value); }], the items numbered from [i]; a
    [MaybeUninit<T>] is an [option T] ([None] when uninitialised), reading
    an uninitialised item is undefined ([None]), and [out[i]] out of bounds
    panics ([None]). *)
Fixpoint swap_loop (items : list (option T)) (i : nat) (out : list (option T))
  : option (list (option T)) :=
  match items with
  | [] => Some out
  | item :: items' =>
      value ← item;
      if (i <? length out)%nat then swap_loop items' (S i) (<[i := Some value]> out)
      else None
  end.

(** [swap_maybeuninit_to_option(arr, size)] with [N = arr.len()]:
    [let mut out = [None; N]], then the loop over
    [arr.iter().enumerate().take(size)]. *)
Definition swap_maybeuninit_to_option (arr : list (option T)) (size : nat)
  : option (list (option T)) :=
  swap_loop (take size arr) 0 (replicate (length arr) None).

End Core.

End ArrayCore.

(** * [vec::core] *)

Module VecCore.
Import ArrayCore.

Section Core.
Context {T : Type}.

(** One iteration's [let v = if i1 >= v1.len() { ... } else if i2 >=
    v2.len() { ... } else { match compare(&v1[i1], &v2[i2]) { ... } }]:
    the value [v] and the new [i1], [i2]; indexing out of bounds panics
    ([None]). *)
Definition pick_vec (compare : T -> T -> comparison) (v1 v2 : list T) (i1 i2 : nat)
  : option (T * nat * nat) :=
  if (length v1 <=? i1)%nat then x ← v2 !! i2; Some (x, i1, S i2)
  else if (length v2 <=? i2)%nat then x ← v1 !! i1; Some (x, S i1, i2)
  else
    a ← v1 !! i1; b ← v2 !! i2;
    match compare a b with
    | Lt => x ← v1 !! i1; Some (x, S i1, i2)
    | Gt => x ← v2 !! i2; Some (x, i1, S i2)
    | Eq => x ← v1 !! i1; Some (x, S i1, i2)
    end.

(** [while out.len() < n { let v = ...; out.push(v); }]; [out] grows each
    iteration, so [fuel = n + 1] iterations suffice. *)
Fixpoint keep_lowest_vec_loop (compare : T -> T -> comparison) (n : nat) (v1 v2 : list T)
    (i1 i2 : nat) (out : list T) (fuel : nat) : option (list T) :=
  match fuel with
  | O => None
  | S fuel' =>
      if (length out <? n)%nat then
        '(v, i1', i2') ← pick_vec compare v1 v2 i1 i2;
        keep_lowest_vec_loop compare n v1 v2 i1' i2' (out ++ [v]) fuel'
      else Some out
  end.

(** [keep_lowest_vec_by(v1, v2, compare)]: the new contents of [v1]
    ([*v1 = out]); the two vectors may differ in length. *)
Definition keep_lowest_vec_by (v1 v2 : list T) (compare : T -> T -> comparison) : option (list T) :=
  let n := length v1 in
  keep_lowest_vec_loop compare n v1 v2 0 0 [] (S n).

(** [keep_lowest_vec(v1, v2)] for [T: Ord]: [keep_lowest_vec_by] with
    [|a, b| a.cmp(b)]. *)
Definition keep_lowest_vec (cmp : T -> T -> comparison) (v1 v2 : list T) : option (list T) :=
  keep_lowest_vec_by v1 v2 (fun a b => cmp a b).

(** [swap_maybeuninit_to_option_vec(arr, size)]:
    [let mut out = vec![None; arr.len()]], then the same loop as the
    array version over [arr.iter().enumerate().take(size)]. *)
Definition swap_maybeuninit_to_option_vec (arr : list (option T)) (size : nat)
  : option (list (option T)) :=
  swap_loop (take size arr) 0 (replicate (length arr) None).

End Core.

End VecCore.

(** * [option::core] *)

Module OptionCore.

Section Cmp.
Context {T : Type}.

(** [put_option_first(a, b, compare_t)]: [None] is the smallest value. *)
Definition put_option_first (a b : option T) (compare_t : T -> T -> comparison) : comparison :=
  match a, b with
  | None, None => Eq
  | None, Some _ => Lt
  | Some _, None => Gt
  | Some x, Some y => compare_t x y
  end.

(** [put_option_last(a, b, compare_t)]: [None] is the largest value. *)
Definition put_option_last (a b : option T) (compare_t : T -> T -> comparison) : comparison :=
  match a, b with
  | None, None => Eq
  | None, Some _ => Gt
  | Some _, None => Lt
  | Some x, Some y => compare_t x y
  end.

End Cmp.

End OptionCore.

(* ===================================================================== *)
(** * [SizedDoubleLinkedList::as_array] *)
(* ===================================================================== *)

Module ArenaListArray.
Import ArenaList ArrayCore.

Section AsArray.
Context {T : Type}.

(** [SizedDoubleLinkedList::as_array]: each node, from [head] along
    [next], is copied into [nodes_copy[current]] (an index out of bounds
    panics), then [swap_maybeuninit_to_option_array(nodes_copy, self.len)]
    converts the first [len] slots.  The function called is
    [swap_maybeuninit_to_option] of [array::core], taking [N = K]; the
    [loop] is run with [fuel] iterations as in [get_where]. *)
Fixpoint as_array_from (ns nodes_copy : list (option (Node T))) (current fuel : nat)
  : option (list (option (Node T))) :=
  match fuel with
  | O => None
  | S fuel' =>
      n ← node_at ns current;
      let cloned := mk_node (value n) (index n) (prev n) (next n) in
      nodes_copy' ← write_slot nodes_copy current (Some cloned);
      match next n with
      | Some next_idx => as_array_from ns nodes_copy' next_idx fuel'
      | None => Some nodes_copy'
      end
  end.

Definition as_array (s : SizedDoubleLinkedList T) : option (list (option (Node T))) :=
  let nodes_copy := replicate (K s) None in
  match head s with
  | None => swap_maybeuninit_to_option nodes_copy 0
  | Some current =>
      nodes_copy' ← as_array_from (nodes s) nodes_copy current (S (K s));
      swap_maybeuninit_to_option nodes_copy' (len s)
  end.

End AsArray.
End ArenaListArray.

(* ===================================================================== *)
(** * [src/double_linked_list/dynamic.rs]: [DoubleLinkedList] *)
(* ===================================================================== *)

(** The heap-allocated list.  A node is a heap block; a [NonNull<Node<T>>]
    is its address, and the blocks the list owns are a finite map from
    addresses to nodes.  [Box::new] returns the address of a block not
    allocated yet: the allocator is a function of the allocated addresses,
    and the proofs assume only that its result is fresh.  Each list owns
    its blocks, so a list and its clone are modelled with heaps of their
    own.  The [while let] loops along [next] run with a fuel bound (one more
    than the number of blocks) and yield [None] when it runs out; a
    dereference of a dangling pointer and a panicking [unwrap] also yield
    [None]. *)
Module DynList.
Import ArenaList.

Section List.
Context {T : Type}.

(** [Node<T>]; a [NonNull<Node<T>>] is the address of a heap block. *)
Record Node := mk_node {
  value : T;
  prev : option nat;
  next : option nat
}.

Definition set_prev (p : option nat) (n : Node) : Node := mk_node (value n) p (next n).
Definition set_next (x : option nat) (n : Node) : Node := mk_node (value n) (prev n) x.

(** [DoubleLinkedList<T>] together with the heap blocks it owns. *)
Record DoubleLinkedList := mk_list {
  heap : gmap nat Node;
  head : option nat;
  tail : option nat;
  len : nat
}.

(** [Default::default] *)
Definition empty : DoubleLinkedList := mk_list ∅ None None 0.

(** A field write through a [NonNull] pointer; a dangling pointer is
    undefined behaviour ([None]). *)
Definition update (h : gmap nat Node) (p : nat) (f : Node -> Node) : option (gmap nat Node) :=
  n ← h !! p; Some (<[p := f n]> h).

Section Alloc.
(** [Box::new]: the address of a fresh block, one not allocated yet. *)
Variable alloc : gset nat -> nat.

(** [Node::new(value)] boxed and leaked: the new address and the heap. *)
Definition new_node (h : gmap nat Node) (v : T) : nat * gmap nat Node :=
  let new := alloc (dom h) in (new, <[new := mk_node v None None]> h).

Definition Res := option (result unit LinkedListError * DoubleLinkedList).

(** [DoubleLinkedList::insert_tail] *)
Definition insert_tail (l : DoubleLinkedList) (v : T) : Res :=
  let '(new, h1) := new_node (heap l) v in
  match tail l with
  | Some tail_ptr =>
      h2 ← update h1 new (set_prev (Some tail_ptr));
      h3 ← update h2 tail_ptr (set_next (Some new));
      Some (Ok tt, mk_list h3 (head l) (Some new) (len l + 1))
  | None => Some (Ok tt, mk_list h1 (Some new) (Some new) (len l + 1))
  end.

(** [DoubleLinkedList::insert_head] *)
Definition insert_head (l : DoubleLinkedList) (v : T) : Res :=
  let '(new, h1) := new_node (heap l) v in
  match head l with
  | Some head_ptr =>
      h2 ← update h1 new (set_next (Some head_ptr));
      h3 ← update h2 head_ptr (set_prev (Some new));
      Some (Ok tt, mk_list h3 (Some new) (tail l) (len l + 1))
  | None => Some (Ok tt, mk_list h1 (Some new) (Some new) (len l + 1))
  end.
End Alloc.

(** [for _ in 0..steps { current = current.as_ref().next.unwrap() }] (or
    [prev]). *)
Fixpoint walk (h : gmap nat Node) (current steps : nat) (forward : bool) : option nat :=
  match steps with
  | O => Some current
  | S steps' =>
      n ← h !! current;
      current' ← (if forward then next n else prev n);
      walk h current' steps' forward
  end.

(** The traversal of [get_node_mut], [get] and [remove], for
    [idx < len]: from the closer end. *)
Definition seek (l : DoubleLinkedList) (idx : nat) : option nat :=
  if (idx <? len l / 2)%nat then
    h ← head l; walk (heap l) h idx true
  else
    t ← tail l;
    l1 ← sub_usize (len l) 1;
    steps ← sub_usize l1 idx;
    walk (heap l) t steps false.

(** [DoubleLinkedList::get_node_mut] *)
Definition get_node_mut (l : DoubleLinkedList) (idx : nat) : option (result nat LinkedListError) :=
  if (len l <=? idx)%nat then Some (Err IndexOutOfRange) else
  current ← seek l idx; Some (Ok current).

Section Alloc2.
Variable alloc : gset nat -> nat.

(** [DoubleLinkedList::insert_after] *)
Definition insert_after (l : DoubleLinkedList) (idx : nat) (v : T) : Res :=
  if (len l <=? idx)%nat then Some (Err IndexOutOfRange, l) else
  r ← get_node_mut l idx;
  match r with
  | Err e => Some (Err e, l)
  | Ok current =>
      let '(new, h1) := new_node alloc (heap l) v in
      current_ref ← h1 !! current;
      let nxt := next current_ref in
      h2 ← update h1 new (set_prev (Some current));
      h3 ← update h2 new (set_next nxt);
      h4 ← update h3 current (set_next (Some new));
      match nxt with
      | Some n => h5 ← update h4 n (set_prev (Some new));
                  Some (Ok tt, mk_list h5 (head l) (tail l) (len l + 1))
      | None => Some (Ok tt, mk_list h4 (head l) (Some new) (len l + 1))
      end
  end.

(** [DoubleLinkedList::insert_before] *)
Definition insert_before (l : DoubleLinkedList) (idx : nat) (v : T) : Res :=
  if (len l <=? idx)%nat then
    if ((len l =? 0) && (idx =? 0))%nat then insert_tail alloc l v
    else Some (Err IndexOutOfRange, l)
  else if (idx =? 0)%nat then insert_head alloc l v
  else
  r ← get_node_mut l idx;
  match r with
  | Err e => Some (Err e, l)
  | Ok current =>
      let '(new, h1) := new_node alloc (heap l) v in
      current_ref ← h1 !! current;
      let prv := prev current_ref in
      h2 ← update h1 new (set_next (Some current));
      h3 ← update h2 new (set_prev prv);
      h4 ← update h3 current (set_prev (Some new));
      match prv with
      | Some p => h5 ← update h4 p (set_next (Some new));
                  Some (Ok tt, mk_list h5 (head l) (tail l) (len l + 1))
      | None => Some (Ok tt, mk_list h4 (Some new) (tail l) (len l + 1))
      end
  end.

(** [Clone for DoubleLinkedList]: [insert_tail(node.value.clone()).unwrap()]
    from [Default::default()] for each node from [head] along [next];
    [clone_t] is [T::clone].  The [while let] loop is run with [fuel]
    iterations ([None] when exhausted). *)
Fixpoint clone_from (clone_t : T -> T) (h : gmap nat Node) (new_list : DoubleLinkedList)
    (current : option nat) (fuel : nat) : option DoubleLinkedList :=
  match current with
  | None => Some new_list
  | Some n =>
      match fuel with
      | O => None
      | S fuel' =>
          node ← h !! n;
          '(r, new_list') ← insert_tail alloc new_list (clone_t (value node));
          match r with
          | Err _ => None
          | Ok _ => clone_from clone_t h new_list' (next node) fuel'
          end
      end
  end.

Definition clone (clone_t : T -> T) (l : DoubleLinkedList) : option DoubleLinkedList :=
  clone_from clone_t (heap l) empty (head l) (S (size (heap l))).

(** [DoubleLinkedList::copy]: [Clone::clone(self)] *)
Definition copy (clone_t : T -> T) (l : DoubleLinkedList) : option DoubleLinkedList :=
  clone clone_t l.
End Alloc2.

(** [DoubleLinkedList::get] *)
Definition get (l : DoubleLinkedList) (idx : nat) : option (result T LinkedListError) :=
  if (len l <=? idx)%nat then Some (Err IndexOutOfRange) else
  n ← seek l idx;
  node ← heap l !! n;
  Some (Ok (value node)).

(** [DoubleLinkedList::remove]; the node is freed ([Box::from_raw] dropped). *)
Definition remove (l : DoubleLinkedList) (idx : nat) : Res :=
  if (len l <=? idx)%nat then Some (Err IndexOutOfRange, l) else
  n ← seek l idx;
  node ← heap l !! n;
  '(h1, head1, tail1) ←
    match prev node, next node with
    | Some prv, Some nxt =>
        h ← update (heap l) prv (set_next (Some nxt));
        h' ← update h nxt (set_prev (Some prv));
        Some (h', head l, tail l)
    | Some prv, None =>
        h ← update (heap l) prv (set_next None); Some (h, head l, Some prv)
    | None, Some nxt =>
        h ← update (heap l) nxt (set_prev None); Some (h, Some nxt, tail l)
    | None, None => Some (heap l, None, None)
    end;
  Some (Ok tt, mk_list (delete n h1) head1 tail1 (len l - 1)).

(** [DoubleLinkedList::iter_and_compute]: an [FnMut(&mut T)] closure, as a
    function of its captured state [St]. *)
Fixpoint iter_from {St} (f : St -> T -> St * T) (h : gmap nat Node) (st : St)
    (current : option nat) (fuel : nat) : option (gmap nat Node * St) :=
  match current with
  | None => Some (h, st)
  | Some n =>
      match fuel with
      | O => None
      | S fuel' =>
          node ← h !! n;
          let '(st', v') := f st (value node) in
          iter_from f (<[n := mk_node v' (prev node) (next node)]> h) st' (next node) fuel'
      end
  end.

Definition iter_and_compute {St} (f : St -> T -> St * T) (st : St) (l : DoubleLinkedList)
  : option (DoubleLinkedList * St) :=
  '(h, st') ← iter_from f (heap l) st (head l) (S (size (heap l)));
  Some (mk_list h (head l) (tail l) (len l), st').

(** [DoubleLinkedList::get_value_where] *)
Fixpoint get_value_where_from (h : gmap nat Node) (predicate : T -> bool)
    (current : option nat) (fuel : nat) : option (option T) :=
  match current with
  | None => Some None
  | Some n =>
      match fuel with
      | O => None
      | S fuel' =>
          node ← h !! n;
          if predicate (value node) then Some (Some (value node))
          else get_value_where_from h predicate (next node) fuel'
      end
  end.

Definition get_value_where (l : DoubleLinkedList) (predicate : T -> bool) : option (option T) :=
  get_value_where_from (heap l) predicate (head l) (S (size (heap l))).

(** [DoubleLinkedList::get_index_where] *)
Fixpoint get_index_where_from (h : gmap nat Node) (predicate : T -> bool)
    (current : option nat) (idx fuel : nat) : option (option nat) :=
  match current with
  | None => Some None
  | Some n =>
      match fuel with
      | O => None
      | S fuel' =>
          node ← h !! n;
          if predicate (value node) then Some (Some idx)
          else get_index_where_from h predicate (next node) (S idx) fuel'
      end
  end.

Definition get_index_where (l : DoubleLinkedList) (predicate : T -> bool) : option (option nat) :=
  get_index_where_from (heap l) predicate (head l) 0 (S (size (heap l))).

(** [DoubleLinkedList::get_where]: the matching values, pushed in order. *)
Fixpoint get_where_from (h : gmap nat Node) (predicate : T -> bool)
    (current : option nat) (results : list T) (fuel : nat) : option (list T) :=
  match current with
  | None => Some results
  | Some n =>
      match fuel with
      | O => None
      | S fuel' =>
          node ← h !! n;
          let results' := if predicate (value node) then results ++ [value node] else results in
          get_where_from h predicate (next node) results' fuel'
      end
  end.

Definition get_where (l : DoubleLinkedList) (predicate : T -> bool) : option (list T) :=
  get_where_from (heap l) predicate (head l) [] (S (size (heap l))).

(** [DoubleLinkedList::as_vec]: [result.push(node.value.clone())]. *)
Fixpoint as_vec_from (clone_t : T -> T) (h : gmap nat Node) (current : option nat)
    (result : list T) (fuel : nat) : option (list T) :=
  match current with
  | None => Some result
  | Some n =>
      match fuel with
      | O => None
      | S fuel' =>
          node ← h !! n;
          as_vec_from clone_t h (next node) (result ++ [clone_t (value node)]) fuel'
      end
  end.

Definition as_vec (clone_t : T -> T) (l : DoubleLinkedList) : option (list T) :=
  as_vec_from clone_t (heap l) (head l) [] (S (size (heap l))).

(** The values read with [get] at positions [0 .. len - 1]. *)
Definition contents (l : DoubleLinkedList) : option (list T) :=
  mapM (fun i => r ← get l i; match r with Ok v => Some v | Err _ => None end) (seq 0 (len l)).

(** A list read left to right by a closure with captured state: each value
    is replaced by the closure's result. *)
Fixpoint map_accum {St} (f : St -> T -> St * T) (st : St) (vs : list T) : list T * St :=
  match vs with
  | [] => ([], st)
  | v :: vs' => let '(st', v') := f st v in
                let '(ws, st'') := map_accum f st' vs' in (v' :: ws, st'')
  end.

(** The values stored in the blocks [ch], in order. *)
Definition values (h : gmap nat Node) (ch : list nat) : option (list T) :=
  mapM (fun i => n ← h !! i; Some (value n)) ch.

(** [dseg h p ch q]: the blocks [ch] are allocated, linked by [next] from
    each to the following one and by [prev] backwards; the first one's
    [prev] is [p], the last one's [next] is [q]. *)
Fixpoint dseg (h : gmap nat Node) (p : option nat) (ch : list nat) (q : option nat) : Prop :=
  match ch with
  | [] => True
  | i :: rest =>
      exists n, h !! i = Some n /\ prev n = p /\ next n = hd_or rest q /\ dseg h (Some i) rest q
  end.

(** The invariant of a list whose nodes, from [head] along [next], are the
    blocks [ch]: the links are consistent both ways, [head] and [tail] are
    the first and last blocks, [len] counts them, and the list owns exactly
    those blocks. *)
Record DInv (l : DoubleLinkedList) (ch : list nat) : Prop := {
  dinv_seg : dseg (heap l) None ch None;
  dinv_nodup : NoDup ch;
  dinv_len : len l = length ch;
  dinv_head : head l = ch !! 0;
  dinv_tail : tail l = last ch;
  dinv_dom : dom (heap l) = list_to_set ch
}.

End List.
Arguments Node : clear implicits.
Arguments DoubleLinkedList : clear implicits.

End DynList.


(* ===================================================================== *)
(** * Proofs about the work-stealing pool *)
(* ===================================================================== *)

Module WorkStealingProofs.
Import WorkStealing.
Open Scope Z_scope.

(** The scenarios of the test file [tests/workstealing_sized.rs]. *)
Example insert_take_fifo_for_owner :
  option_map fst (run (new 4) [DInsert 1; DInsert 2; DInsert 3; DTake; DTake; DTake; DTake])
  = Some [Inserted (Ok tt); Inserted (Ok tt); Inserted (Ok tt);
          Got (Some 1); Got (Some 2); Got (Some 3); Got None].
Proof. vm_compute. reflexivity. Qed.

Example take_reads_oldest_steal_reads_newest :
  option_map fst (run (new 4) [DInsert 10; DInsert 20; DInsert 30; DTake; DTake; DSteal; DSteal])
  = Some [Inserted (Ok tt); Inserted (Ok tt); Inserted (Ok tt);
          Got (Some 10); Got (Some 20); Got (Some 30); Got None].
Proof. vm_compute. reflexivity. Qed.

Example detect_full_and_empty :
  option_map fst (run (new 2) [DInsert 1; DInsert 2; DInsert 3; DTake; DTake; DTake; DSteal])
  = Some [Inserted (Ok tt); Inserted (Ok tt); Inserted (Err IsFull);
          Got (Some 1); Got (Some 2); Got None; Got None].
Proof. vm_compute. reflexivity. Qed.

Lemma pack_eq t b : 0 <= t -> 0 <= b < 2 ^ 32 -> pack t b = t * 2 ^ 32 + b.
Proof.
  intros Ht Hb. unfold pack.
  assert (Hd : Z.land (Z.shiftl t 32) b = 0).
  { apply Z.bits_inj'; intros n Hn. rewrite Z.land_spec, Z.bits_0.
    rewrite Z.shiftl_spec by lia.
    destruct (Z.lt_ge_cases n 32).
    - rewrite (Z.testbit_neg_r t (n - 32)) by lia. reflexivity.
    - destruct (Z.eq_dec b 0) as [->|Hb0]; [rewrite Z.bits_0; apply andb_false_r|].
      rewrite (Z.bits_above_log2 b n); [apply andb_false_r|lia|].
      apply Z.log2_lt_pow2; [lia|].
      assert (2 ^ 32 <= 2 ^ n) by (apply Z.pow_le_mono_r; lia). lia. }
  rewrite <- Z.lxor_lor by exact Hd. rewrite <- Z.add_nocarry_lxor by exact Hd.
  rewrite Z.shiftl_mul_pow2 by lia. lia.
Qed.

Lemma unpack_pack t b :
  0 <= t < 2 ^ 32 -> 0 <= b < 2 ^ 32 -> unpack (pack t b) = (t, b).
Proof.
  intros Ht Hb. unfold unpack, wrap32. rewrite pack_eq by lia.
  rewrite Z.shiftr_div_pow2 by lia.
  change (2 ^ 32 - 1) with (Z.ones 32). rewrite Z.land_ones by lia.
  f_equal.
  - rewrite Z.div_add_l by lia. rewrite (Z.div_small b) by lia.
    rewrite Z.add_0_r. apply Z.mod_small; lia.
  - rewrite Z.add_comm, Z.mod_add by lia. rewrite (Z.mod_small b) by lia.
    apply Z.mod_small; lia.
Qed.

Lemma wrap32_small x : 0 <= x < 2 ^ 32 -> wrap32 x = x.
Proof. intros. unfold wrap32. apply Z.mod_small. lia. Qed.

Section Sequential.
Context {T : Type}.
Implicit Types (p : pool T) (l : list T).

(** The abstraction of a pool whose counters have not wrapped: the state
    word packs [top <= bot < 2^32], the deque holds [bot - top] values,
    and the [i]-th of them lives in [ring[(top + i) mod N]]. *)
Definition abs (N : nat) p l (top bot : Z) : Prop :=
  state p = pack top bot /\ 0 <= top <= bot /\ bot < 2 ^ 32 /\
  cap p = N /\ Z.of_nat N < 2 ^ 32 /\
  bot - top = Z.of_nat (length l) /\ (length l <= N)%nat /\
  forall i v, l !! i = Some v ->
    queue p !! Z.to_nat ((top + Z.of_nat i) mod Z.of_nat N) = Some (Some v).

Lemma abs_new N : (Z.of_nat N < 2 ^ 32) -> abs N (new N) [] 0 0.
Proof.
  intros HN. unfold abs, new, cap; simpl. rewrite length_replicate.
  repeat split; try lia. intros i v Hi. inversion Hi.
Qed.

Lemma mod_sep (a d N : Z) : 0 < d < N -> a mod N <> (a + d) mod N.
Proof.
  intros Hd Heq.
  pose proof (Z.div_mod a N ltac:(lia)) as E1. pose proof (Z.div_mod (a + d) N ltac:(lia)) as E2.
  rewrite <- Heq in E2.
  destruct (Z.le_gt_cases ((a + d) / N) (a / N)) as [Hq|Hq].
  - assert (N * ((a + d) / N) <= N * (a / N)) by (apply Z.mul_le_mono_nonneg_l; lia). lia.
  - assert (N * (a / N + 1) <= N * ((a + d) / N)) by (apply Z.mul_le_mono_nonneg_l; lia). lia.
Qed.

Lemma insert_full N p l top bot v :
  abs N p l top bot -> length l = N -> insert p v = Some (Err IsFull, p).
Proof.
  intros (Hs & Htb & Hb & Hc & HN & Hlen & Hle & Hq) Hfull.
  unfold insert, insert_loop. rewrite Hs, unpack_pack by lia. cbn -[wrap32 pack].
  rewrite (wrap32_small (bot - top)) by lia. rewrite (wrap32_small (Z.of_nat (cap p))) by lia.
  rewrite Hlen, Hc, Hfull, Z.eqb_refl. reflexivity.
Qed.

Lemma insert_room N p l top bot v :
  abs N p l top bot -> (length l < N)%nat -> bot + 1 < 2 ^ 32 ->
  exists p', insert p v = Some (Ok tt, p') /\ abs N p' (l ++ [v]) top (bot + 1).
Proof.
  intros (Hs & Htb & Hb & Hc & HN & Hlen & Hle & Hq) Hroom Hb1.
  unfold insert, insert_loop. rewrite Hs, unpack_pack by lia. cbn -[wrap32 pack].
  rewrite (wrap32_small (bot - top)) by lia. rewrite (wrap32_small (Z.of_nat (cap p))) by lia.
  rewrite Hlen, Hc. destruct (Z.eqb_spec (Z.of_nat (length l)) (Z.of_nat N)) as [E|_]; [lia|].
  unfold slot_of. destruct (Nat.eqb_spec N 0) as [->|HN0]; [lia|].
  unfold compare_exchange. rewrite Z.eqb_refl, (wrap32_small (bot + 1)) by lia.
  eexists; split; [reflexivity|].
  unfold abs, cap in *; cbn; rewrite ?length_app, ?length_insert; simpl.
  repeat split; try lia.
  - intros i x Hi. replace bot with (top + Z.of_nat (length l)) by lia.
    apply lookup_app_Some in Hi as [Hi|[Hil Hi]].
    + pose proof (lookup_lt_Some _ _ _ Hi) as Hlt.
      rewrite list_lookup_insert_ne; [apply Hq; exact Hi|].
      replace (top + Z.of_nat (length l))
        with ((top + Z.of_nat i) + (Z.of_nat (length l) - Z.of_nat i)) by lia.
      intros E. apply Z2Nat.inj in E; [|apply Z.mod_pos_bound; lia..].
      revert E. apply not_eq_sym, mod_sep. lia.
    + apply list_lookup_singleton_Some in Hi as [Hi0 <-].
      replace i with (length l) by lia.
      apply list_lookup_insert_eq. rewrite Hc.
      pose proof (Z.mod_pos_bound (top + Z.of_nat (length l)) (Z.of_nat N) ltac:(lia)). lia.
Qed.

Lemma take_empty N p top bot : abs N p [] top bot -> take p = Some (None, p).
Proof.
  intros (Hs & Htb & Hb & Hc & HN & Hlen & Hle & Hq).
  unfold take, take_loop. rewrite Hs, unpack_pack by lia. cbn -[wrap32 pack].
  simpl in Hlen. replace bot with top by lia. rewrite Z.eqb_refl. reflexivity.
Qed.

Lemma steal_empty N p top bot : abs N p [] top bot -> steal p = Some (None, p).
Proof.
  intros (Hs & Htb & Hb & Hc & HN & Hlen & Hle & Hq).
  unfold steal, steal_loop. rewrite Hs, unpack_pack by lia. cbn -[wrap32 pack].
  simpl in Hlen. replace bot with top by lia. rewrite Z.eqb_refl. reflexivity.
Qed.

Lemma take_cons N p x l top bot :
  abs N p (x :: l) top bot ->
  exists p', take p = Some (Some x, p') /\ abs N p' l (top + 1) bot.
Proof.
  intros (Hs & Htb & Hb & Hc & HN & Hlen & Hle & Hq).
  unfold take, take_loop. rewrite Hs, unpack_pack by lia. cbn -[wrap32 pack].
  simpl in Hlen, Hle. destruct (Z.eqb_spec top bot) as [E|_]; [lia|].
  unfold slot_of. rewrite Hc. destruct (Nat.eqb_spec N 0) as [->|HN0]; [lia|].
  unfold read_slot. pose proof (Hq 0%nat x eq_refl) as Hx. rewrite Z.add_0_r in Hx.
  rewrite Hx. unfold compare_exchange. rewrite Z.eqb_refl, (wrap32_small (top + 1)) by lia.
  eexists; split; [reflexivity|].
  unfold abs, cap in *; cbn.
  repeat split; try lia.
  - intros i v Hi. replace (top + 1 + Z.of_nat i) with (top + Z.of_nat (S i)) by lia.
    apply Hq. exact Hi.
Qed.

Lemma steal_snoc N p l x top bot :
  abs N p (l ++ [x]) top bot ->
  exists p', steal p = Some (Some x, p') /\ abs N p' l top (bot - 1).
Proof.
  intros (Hs & Htb & Hb & Hc & HN & Hlen & Hle & Hq).
  rewrite length_app in Hlen, Hle; simpl in Hlen, Hle.
  unfold steal, steal_loop. rewrite Hs, unpack_pack by lia. cbn -[wrap32 pack].
  destruct (Z.eqb_spec top bot) as [E|_]; [lia|].
  destruct (Z.eqb_spec bot 0) as [E|_]; [lia|].
  unfold slot_of. rewrite Hc. destruct (Nat.eqb_spec N 0) as [->|HN0]; [lia|].
  unfold read_slot.
  pose proof (Hq (length l) x) as Hx.
  rewrite lookup_app_r, Nat.sub_diag in Hx by lia. specialize (Hx eq_refl).
  replace (bot - 1) with (top + Z.of_nat (length l)) by lia.
  rewrite Hx. unfold compare_exchange. rewrite Z.eqb_refl.
  eexists; split; [reflexivity|].
  unfold abs, cap in *; cbn.
  repeat split; try lia.
  - intros i v Hi. apply Hq. rewrite lookup_app_l; [exact Hi|].
    apply lookup_lt_Some in Hi. exact Hi.
Qed.

Lemma run_abs N p l top bot ops :
  abs N p l top bot -> bot + Z.of_nat (inserts ops) < 2 ^ 32 ->
  option_map fst (run p ops) = Some (fst (run_deque N l ops)).
Proof.
  revert p l top bot. induction ops as [|o ops IH]; intros p l top bot Habs Hb; [reflexivity|].
  destruct o as [v| |]; cbn [run step inserts] in *.
  - destruct (decide (length l = N)) as [Hf|Hf].
    + rewrite (insert_full N p l top bot v Habs Hf). cbn.
      destruct (run p ops) as [[outs p'']|] eqn:E;
        pose proof (IH p l top bot Habs ltac:(lia)) as IH'; rewrite E in IH'; cbn in IH'.
      * rewrite (proj2 (Nat.eqb_eq _ _) Hf). destruct (run_deque N l ops).
        cbn in *. congruence.
      * discriminate.
    + assert (Hlt : (length l < N)%nat) by (destruct Habs as (_&_&_&_&_&_&?&_); lia).
      destruct (insert_room N p l top bot v Habs Hlt ltac:(lia)) as (p' & Hi & Habs').
      rewrite Hi. cbn.
      pose proof (IH p' _ top (bot + 1) Habs' ltac:(lia)) as IH'.
      destruct (run p' ops) as [[outs p'']|]; cbn in IH'; [|discriminate].
      destruct (Nat.eqb_spec (length l) N) as [E|_]; [lia|].
      destruct (run_deque N (l ++ [v]) ops). cbn in *. congruence.
  - destruct l as [|x l].
    + rewrite (take_empty N p top bot Habs). cbn.
      pose proof (IH p [] top bot Habs Hb) as IH'.
      destruct (run p ops) as [[outs p'']|]; cbn in IH'; [|discriminate].
      destruct (run_deque N [] ops). cbn in *. congruence.
    + destruct (take_cons N p x l top bot Habs) as (p' & Ht & Habs').
      rewrite Ht. cbn.
      pose proof (IH p' l (top + 1) bot Habs' Hb) as IH'.
      destruct (run p' ops) as [[outs p'']|]; cbn in IH'; [|discriminate].
      destruct (run_deque N l ops). cbn in *. congruence.
  - destruct l as [|y l0 IHl0] using rev_ind.
    + rewrite (steal_empty N p top bot Habs). cbn.
      pose proof (IH p [] top bot Habs Hb) as IH'.
      destruct (run p ops) as [[outs p'']|]; cbn in IH'; [|discriminate].
      destruct (run_deque N [] ops). cbn in *. congruence.
    + clear IHl0.
      destruct (steal_snoc N p l0 y top bot Habs) as (p' & Hs & Habs').
      rewrite Hs. cbn. rewrite last_snoc, removelast_last.
      pose proof (IH p' l0 top (bot - 1) Habs' ltac:(lia)) as IH'.
      destruct (run p' ops) as [[outs p'']|]; cbn in IH'; [|discriminate].
      destruct (run_deque N l0 ops). cbn in *. congruence.
Qed.

Lemma run_app p ops1 ops2 :
  run p (ops1 ++ ops2) =
    '(o1, p1) ← run p ops1; '(o2, p2) ← run p1 ops2; Some (o1 ++ o2, p2).
Proof.
  revert p. induction ops1 as [|o ops1 IH]; intros p; cbn.
  - destruct (run p ops2) as [[o2 p2]|]; reflexivity.
  - destruct (step p o) as [[out p']|]; cbn; [|reflexivity].
    rewrite IH. destruct (run p' ops1) as [[o1 p1]|]; cbn; [|reflexivity].
    destruct (run p1 ops2) as [[o2 p2]|]; reflexivity.
Qed.

Lemma run_deque_app N l ops1 ops2 :
  run_deque N l (ops1 ++ ops2) =
    let '(o1, l1) := run_deque N l ops1 in
    let '(o2, l2) := run_deque N l1 ops2 in (o1 ++ o2, l2).
Proof.
  revert l. induction ops1 as [|o ops1 IH]; intros l; cbn.
  - destruct (run_deque N l ops2); reflexivity.
  - destruct (step_deque N l o) as [out l']. rewrite IH.
    destruct (run_deque N l' ops1) as [o1 l1]. destruct (run_deque N l1 ops2). reflexivity.
Qed.

(** One round of [insert x; take] on a one-slot ring whose counters are
    both [t] leaves both counters at [t + 1] (wrapping modulo 2^32). *)
Lemma insert_take_round (x : T) t :
  0 <= t < 2 ^ 32 ->
  run (mk_pool [Some x] (pack t t)) [DInsert x; DTake]
  = Some ([Inserted (Ok tt); Got (Some x)],
          mk_pool [Some x] (pack (wrap32 (t + 1)) (wrap32 (t + 1)))).
Proof.
  intros Ht. cbn [run step]. unfold insert, insert_loop.
  cbn [state queue cap length]. rewrite unpack_pack by lia.
  rewrite Z.sub_diag. change (wrap32 0 =? wrap32 (Z.of_nat 1)) with false.
  unfold slot_of, compare_exchange. cbn [Nat.eqb]. rewrite Z.mod_1_r, Z.eqb_refl.
  cbn [list_insert mbind option_bind].
  assert (Hw : 0 <= wrap32 (t + 1) < 2 ^ 32) by (unfold wrap32; apply Z.mod_pos_bound; lia).
  unfold take, take_loop. cbn [state queue cap length].
  rewrite unpack_pack by lia.
  destruct (Z.eqb_spec t (wrap32 (t + 1))) as [E|_].
  { exfalso. unfold wrap32 in E. destruct (Z.eq_dec (t + 1) (2 ^ 32)) as [E'|E'].
    - rewrite E', Z.mod_same in E by lia. lia.
    - rewrite Z.mod_small in E by lia. lia. }
  unfold slot_of, read_slot, compare_exchange. cbn [Nat.eqb]. rewrite Z.mod_1_r, Z.eqb_refl.
  reflexivity.
Qed.

Fixpoint rounds (x : T) (k : nat) : list (op T) :=
  match k with O => [] | S k' => DInsert x :: DTake :: rounds x k' end.

Lemma run_rounds (x : T) k t :
  0 <= t -> t + Z.of_nat k < 2 ^ 32 ->
  option_map snd (run (mk_pool [Some x] (pack t t)) (rounds x k))
  = Some (mk_pool [Some x] (pack (t + Z.of_nat k) (t + Z.of_nat k))).
Proof.
  revert t. induction k as [|k IH]; intros t Ht Hk.
  - cbn. rewrite Z.add_0_r. reflexivity.
  - change (rounds x (S k)) with ([DInsert x; DTake] ++ rounds x k).
    rewrite run_app, insert_take_round by lia. cbn [mbind option_bind].
    rewrite wrap32_small by lia.
    pose proof (IH (t + 1) ltac:(lia) ltac:(lia)) as IH'.
    destruct (run _ (rounds x k)) as [[o2 p2]|]; cbn in *; [|discriminate].
    replace (t + Z.of_nat (S k)) with (t + 1 + Z.of_nat k) by lia. exact IH'.
Qed.

Lemma run_rounds_deque (x : T) k :
  snd (run_deque 1 [] (rounds x k)) = [].
Proof.
  induction k as [|k IH]; [reflexivity|]. cbn. destruct (run_deque 1 [] (rounds x k)).
  exact IH.
Qed.

End Sequential.

(** After [2^32 - 1] rounds of [insert 0; take] on a one-slot pool, both
    32-bit counters sit at [u32::MAX]. *)
Lemma wrap_state k :
  Z.of_nat k = 2 ^ 32 - 1 ->
  option_map snd (run (new 1) (rounds (0 : Z) k))
  = Some (mk_pool [Some 0] (pack (2 ^ 32 - 1) (2 ^ 32 - 1))).
Proof.
  intros Hk. destruct k as [|k]; [lia|].
  change (rounds (0 : Z) (S k)) with ([DInsert (0 : Z); DTake] ++ rounds 0 k).
  rewrite run_app.
  assert (E : run (new 1) [DInsert (0 : Z); DTake]
              = Some ([Inserted (Ok tt); Got (Some 0)], mk_pool [Some 0] (pack 1 1)))
    by (vm_compute; reflexivity).
  rewrite E. cbn [mbind option_bind].
  pose proof (run_rounds (0 : Z) k 1 ltac:(lia) ltac:(lia)) as R.
  destruct (run _ (rounds 0 k)) as [[o2 p2]|];
    cbn [option_map snd mbind option_bind] in R |- *; [|discriminate].
  injection R as ->. do 3 f_equal; lia.
Qed.

Definition wrap_ops : list (op Z) :=
  rounds 0 (Z.to_nat (2 ^ 32 - 1)) ++ [DInsert 1; DSteal].

Lemma wrap_ops_impl :
  exists o1, option_map fst (run (new 1) wrap_ops)
             = Some (o1 ++ [Inserted (Ok tt); Got None]).
Proof.
  unfold wrap_ops. pose proof (wrap_state (Z.to_nat (2 ^ 32 - 1)) ltac:(lia)) as W.
  revert W. generalize (Z.to_nat (2 ^ 32 - 1)). intros k W.
  rewrite run_app.
  destruct (run (new 1) (rounds 0 k)) as [[o1 p1]|]; cbn [option_map snd] in W; [|discriminate].
  injection W as ->. cbn [mbind option_bind].
  exists o1. vm_compute. reflexivity.
Qed.

Lemma wrap_ops_deque :
  exists o1, fst (run_deque 1 [] wrap_ops) = o1 ++ [Inserted (Ok tt); Got (Some 1)].
Proof.
  unfold wrap_ops. generalize (Z.to_nat (2 ^ 32 - 1)). intros k.
  rewrite run_deque_app.
  pose proof (run_rounds_deque (0 : Z) k) as W.
  destruct (run_deque 1 [] (rounds 0 k)) as [o1 l1]. cbn [snd] in W. subst l1.
  exists o1. reflexivity.
Qed.

Lemma wrap_insert_state :
  exists outs p,
    run (new 1) (rounds (0 : Z) (Z.to_nat (2 ^ 32 - 1)) ++ [DInsert 1]) = Some (outs, p) /\
    p = mk_pool [Some 1] (pack (2 ^ 32 - 1) 0).
Proof.
  pose proof (wrap_state (Z.to_nat (2 ^ 32 - 1)) ltac:(lia)) as W.
  revert W. generalize (Z.to_nat (2 ^ 32 - 1)). intros k W.
  rewrite run_app.
  destruct (run (new 1) (rounds 0 k)) as [[o1 p1]|]; cbn [option_map snd] in W; [|discriminate].
  injection W as ->. cbn [mbind option_bind].
  eexists _, _. split; [vm_compute; reflexivity|reflexivity].
Qed.

(** ** Claims about the pool *)

(** C1 (amended).  Used sequentially from an empty pool of capacity
    [N < 2^32], and as long as fewer than 2^32 inserts are made (so that the
    32-bit [bot] counter never wraps), every call returns what the
    sequential deque of the specification returns: [insert] fails with
    [IsFull] exactly when [N] values are held and otherwise appends,
    [take] returns the oldest value held (FIFO), [steal] the newest
    (LIFO), and both return [None] exactly when the deque is empty. *)
Theorem deque_sequential_fifo_lifo {T : Type} (N : nat) (ops : list (op T)) :
  Z.of_nat N < 2 ^ 32 -> Z.of_nat (inserts ops) < 2 ^ 32 ->
  option_map fst (run (new N) ops) = Some (fst (run_deque N [] ops)).
Proof.
  intros HN Hops. apply (run_abs N (new N) [] 0 0 ops); [apply abs_new; exact HN | lia].
Qed.

Lemma deque_sequential_fifo_lifo_witness :
  option_map fst (run (new 4) [DInsert (1 : Z); DInsert 2; DInsert 3; DTake; DTake; DTake; DTake])
  = Some (fst (run_deque 4 [] [DInsert (1 : Z); DInsert 2; DInsert 3; DTake; DTake; DTake; DTake])).
Proof. apply deque_sequential_fifo_lifo; cbn; lia. Defined.

(** C1 counterexample.  On a one-slot pool, [2^32 - 1] rounds of
    [insert 0; take] bring both counters to [u32::MAX]; [insert 1] then
    wraps [bot] to [0], and the following [steal] returns [None] although
    the deque holds [1]. *)
Lemma deque_fifo_lifo_fails_after_wrap :
  option_map fst (run (new 1) wrap_ops) <> Some (fst (run_deque 1 [] wrap_ops)).
Proof.
  destruct wrap_ops_impl as [o1 H1]. destruct wrap_ops_deque as [o2 H2].
  rewrite H1, H2. intros E. injection E as E.
  change [Inserted (Ok tt); Got (@None Z)] with ([Inserted (Ok tt)] ++ [Got (@None Z)]) in E.
  change [Inserted (Ok tt); Got (Some (1 : Z))] with ([Inserted (Ok tt)] ++ [Got (Some (1 : Z))]) in E.
  rewrite !app_assoc in E. apply app_inj_tail in E as [_ E]. discriminate.
Qed.

(** C8 (amended).  For a pool of capacity [N < 2^32] and any state
    word, with [(top, bot)] its unpacked counters:
    [insert v] returns [IsFull] exactly when the u32 difference
    [bot - top] equals [N], leaving the pool unchanged, and otherwise,
    when [N > 0] (for [N = 0] the slot index [bot % N] panics), succeeds
    and publishes [(top, bot + 1)]; [take] returns [None] exactly when
    [top = bot]; [steal] returns [None] exactly when [top = bot] or
    [bot = 0] (its [checked_sub] guard); a [None] result leaves the pool
    unchanged.  [take] and [steal] return an [Option], so only [insert]
    can report [IsFull]. *)
Theorem deque_op_results {T : Type} (p : pool T) (v : T) :
  Z.of_nat (cap p) < 2 ^ 32 ->
  let '(top, bot) := unpack (state p) in
  (wrap32 (bot - top) = Z.of_nat (cap p) -> insert p v = Some (Err IsFull, p)) /\
  ((0 < cap p)%nat -> wrap32 (bot - top) <> Z.of_nat (cap p) ->
     exists q, insert p v = Some (Ok tt, mk_pool q (pack top (wrap32 (bot + 1))))) /\
  (forall p', take p = Some (None, p') <-> top = bot /\ p' = p) /\
  (forall p', steal p = Some (None, p') <-> (top = bot \/ bot = 0) /\ p' = p).
Proof.
  intros HN. destruct (unpack (state p)) as [top bot] eqn:Hu.
  assert (HwN : wrap32 (Z.of_nat (cap p)) = Z.of_nat (cap p)) by (apply wrap32_small; lia).
  split; [|split; [|split]].
  - intros Hf. unfold insert, insert_loop. rewrite Hu, HwN, Hf, Z.eqb_refl. reflexivity.
  - intros Hc Hf. unfold insert, insert_loop. rewrite Hu, HwN.
    destruct (Z.eqb_spec (wrap32 (bot - top)) (Z.of_nat (cap p))) as [E|_]; [contradiction|].
    unfold slot_of. destruct (Nat.eqb_spec (cap p) 0) as [E|_]; [lia|].
    unfold compare_exchange. rewrite Z.eqb_refl. eexists. reflexivity.
  - intros p'. unfold take, take_loop. rewrite Hu.
    destruct (Z.eqb_spec top bot) as [E|E].
    + split; [intros H; injection H as <-; auto|intros [_ ->]; reflexivity].
    + split; [|intros [E' _]; contradiction].
      destruct (slot_of top (cap p)); [|discriminate].
      destruct (read_slot (queue p) n); [|discriminate].
      unfold compare_exchange. rewrite Z.eqb_refl. discriminate.
  - intros p'. unfold steal, steal_loop. rewrite Hu.
    destruct (Z.eqb_spec top bot) as [E|E].
    + split; [intros H; injection H as <-; auto|intros [_ ->]; reflexivity].
    + destruct (Z.eqb_spec bot 0) as [E0|E0].
      * split; [intros H; injection H as <-; auto|intros [_ ->]; reflexivity].
      * split; [|intros [[E'|E'] _]; contradiction].
        destruct (slot_of (bot - 1) (cap p)); [|discriminate].
        destruct (read_slot (queue p) n); [|discriminate].
        unfold compare_exchange. rewrite Z.eqb_refl. discriminate.
Qed.

(** C8 witness: the theorem applied to four pools, one per branch: a full
    two-slot pool ([IsFull]), the empty two-slot pool (a successful insert,
    [None] from [take] and [steal]), a one-slot pool holding one value with
    [top = u32::MAX] and [bot = 0] ([steal] stops at its [bot = 0] guard
    while [take] does not return [None]), and a zero-capacity pool
    ([IsFull] and [None]). *)
Lemma deque_op_results_witness :
  let full := mk_pool [Some (1 : Z); Some 2] (pack 0 2) in
  let empty := (new 2 : pool Z) in
  let wrapped := mk_pool [Some (1 : Z)] (pack (2 ^ 32 - 1) 0) in
  let zero := (new 0 : pool Z) in
  insert full 5 = Some (Err IsFull, full) /\
  (exists q, insert empty 5 = Some (Ok tt, mk_pool q (pack 0 1))) /\
  take empty = Some (None, empty) /\ steal empty = Some (None, empty) /\
  steal wrapped = Some (None, wrapped) /\
  (forall p', take wrapped <> Some (None, p')) /\
  insert zero 5 = Some (Err IsFull, zero) /\
  take zero = Some (None, zero) /\ steal zero = Some (None, zero).
Proof.
  intros full empty wrapped zero.
  pose proof (deque_op_results full 5 ltac:(cbn; lia)) as Hf.
  replace (unpack (state full)) with (0, 2) in Hf by (vm_compute; reflexivity).
  cbv beta iota in Hf. destruct Hf as [Hf _].
  pose proof (deque_op_results empty 5 ltac:(cbn; lia)) as He.
  replace (unpack (state empty)) with (0, 0) in He by (vm_compute; reflexivity).
  cbv beta iota in He. destruct He as (_ & He1 & He2 & He3).
  pose proof (deque_op_results wrapped 5 ltac:(cbn; lia)) as Hw.
  replace (unpack (state wrapped)) with (2 ^ 32 - 1, 0) in Hw by (vm_compute; reflexivity).
  cbv beta iota in Hw. destruct Hw as (_ & _ & Hw1 & Hw2).
  pose proof (deque_op_results zero 5 ltac:(cbn; lia)) as Hz.
  replace (unpack (state zero)) with (0, 0) in Hz by (vm_compute; reflexivity).
  cbv beta iota in Hz. destruct Hz as (Hz1 & _ & Hz2 & Hz3).
  split; [apply Hf; vm_compute; reflexivity|].
  split; [apply He1; [cbn; lia|vm_compute; discriminate]|].
  split; [apply He2; auto|]. split; [apply He3; auto|].
  split; [apply Hw2; auto|].
  split; [intros p' E; apply Hw1 in E as [E _]; discriminate|].
  split; [apply Hz1; vm_compute; reflexivity|].
  split; [apply Hz2; auto|]. apply Hz3; auto.
Defined.

(** C8 counterexample.  After [2^32 - 1] rounds of [insert 0; take] and
    one more [insert 1] on a one-slot pool, the counters are
    [top = u32::MAX] and [bot = 0]: the deque holds one value, yet [steal]
    returns [None]. *)
Lemma deque_steal_none_on_nonempty :
  exists outs p,
    run (new 1) (rounds (0 : Z) (Z.to_nat (2 ^ 32 - 1)) ++ [DInsert 1]) = Some (outs, p) /\
    unpack (state p) = (2 ^ 32 - 1, 0) /\ steal p = Some (None, p).
Proof.
  destruct wrap_insert_state as (outs & p & Hrun & ->).
  exists outs, (mk_pool [Some 1] (pack (2 ^ 32 - 1) 0)).
  split; [exact Hrun|]. split; vm_compute; reflexivity.
Qed.

(** ** Extra properties of the pool *)

(** [pack] and [unpack] are inverse: two u32 counters survive the round
    trip through the u64 state word, and every u64 state word is the
    packing of the two counters it unpacks to. *)
Theorem pack_unpack_roundtrip (t b v : Z) :
  0 <= t < 2 ^ 32 -> 0 <= b < 2 ^ 32 -> 0 <= v < 2 ^ 64 ->
  unpack (pack t b) = (t, b) /\ pack (fst (unpack v)) (snd (unpack v)) = v.
Proof.
  intros Ht Hb Hv. split; [exact (unpack_pack t b Ht Hb)|].
  unfold unpack, wrap32. cbn [fst snd].
  rewrite Z.shiftr_div_pow2 by lia.
  change (2 ^ 32 - 1) with (Z.ones 32). rewrite Z.land_ones by lia.
  rewrite (Z.mod_mod v) by lia.
  assert (Hq : 0 <= v / 2 ^ 32 < 2 ^ 32).
  { split; [apply Z.div_pos; lia|]. apply Z.div_lt_upper_bound; lia. }
  rewrite (Z.mod_small (v / 2 ^ 32)) by exact Hq.
  rewrite pack_eq by (try apply Z.mod_pos_bound; lia).
  pose proof (Z.div_mod v (2 ^ 32) ltac:(lia)). lia.
Qed.

Lemma pack_unpack_roundtrip_witness :
  (0 <= 3 < 2 ^ 32 /\ 0 <= 5 < 2 ^ 32 /\ 0 <= 2 ^ 33 + 7 < 2 ^ 64) /\
  unpack (pack 3 5) = (3, 5) /\ pack (fst (unpack (2 ^ 33 + 7))) (snd (unpack (2 ^ 33 + 7))) = 2 ^ 33 + 7.
Proof.
  split; [lia|]. apply (pack_unpack_roundtrip 3 5 (2 ^ 33 + 7)); lia.
Defined.

Section Count.
Context {T : Type}.

(** The change in the number of values held that an outcome reports:
    [+1] for a successful [insert], [-1] for a value returned by [take]
    or [steal]. *)
Definition held_delta (o : outcome T) : Z :=
  match o with
  | Inserted (Ok _) => 1
  | Got (Some _) => -1
  | _ => 0
  end.

Definition held_net (outs : list (outcome T)) : Z :=
  fold_right (fun o acc => held_delta o + acc) 0 outs.

(** The state word of a pool of [N] slots packs two u32 counters whose
    u32 difference [bot - top] is [c], with [0 <= c <= N]. *)
Definition counted (N : nat) (p : pool T) (c : Z) : Prop :=
  exists top bot, state p = pack top bot /\ 0 <= top < 2 ^ 32 /\ 0 <= bot < 2 ^ 32 /\
    cap p = N /\ Z.of_nat N < 2 ^ 32 /\ wrap32 (bot - top) = c /\ 0 <= c <= Z.of_nat N.

Lemma wrap32_diff_zero a b : 0 <= a < 2 ^ 32 -> 0 <= b < 2 ^ 32 -> wrap32 (b - a) = 0 -> a = b.
Proof.
  intros Ha Hb H. unfold wrap32 in H. apply Z.mod_divide in H; [|lia].
  destruct H as [k Hk]. assert (k = 0) by nia. subst k. lia.
Qed.

Lemma wrap32_pred a b c : wrap32 (b - a) = c -> 1 <= c -> wrap32 (b - a - 1) = c - 1.
Proof.
  intros H Hc. unfold wrap32 in *. rewrite <- Zminus_mod_idemp_l, H.
  pose proof (Z.mod_pos_bound (b - a) (2 ^ 32) ltac:(lia)). apply Z.mod_small. lia.
Qed.

Lemma step_counted N p c o out p' :
  counted N p c -> step p o = Some (out, p') -> counted N p' (c + held_delta out).
Proof.
  intros (top & bot & Hs & Ht & Hb & Hc & HN & Hcnt & Hrange) H.
  destruct o as [v| |]; cbn [step] in H;
    apply bind_Some in H as ([r p1] & Hop & H); injection H as <- <-.
  - unfold insert, insert_loop in Hop. rewrite Hs, unpack_pack in Hop by lia.
    cbn -[wrap32 pack] in Hop. rewrite (wrap32_small (Z.of_nat (cap p))) in Hop by lia.
    rewrite Hc, Hcnt in Hop.
    destruct (Z.eqb_spec c (Z.of_nat N)) as [_|HcN].
    { injection Hop as <- <-. cbn. rewrite Z.add_0_r. exists top, bot. auto 7. }
    destruct (slot_of bot N) as [i|]; [|discriminate].
    unfold compare_exchange in Hop. rewrite Z.eqb_refl in Hop. injection Hop as <- <-.
    exists top, (wrap32 (bot + 1)). cbn -[wrap32 pack].
    split; [reflexivity|]. split; [exact Ht|].
    split; [apply Z.mod_pos_bound; lia|].
    split; [unfold cap in *; cbn; rewrite length_insert; exact Hc|]. split; [exact HN|].
    split; [|lia].
    unfold wrap32 in *. rewrite Zminus_mod_idemp_l.
    replace (bot + 1 - top) with ((bot - top) + 1) by lia.
    rewrite <- Zplus_mod_idemp_l, Hcnt. apply Z.mod_small. lia.
  - unfold take, take_loop in Hop. rewrite Hs, unpack_pack in Hop by lia.
    cbn -[wrap32 pack] in Hop.
    destruct (Z.eqb_spec top bot) as [_|Htb].
    { injection Hop as <- <-. cbn. rewrite Z.add_0_r. exists top, bot. auto 7. }
    destruct (slot_of top (cap p)) as [i|]; [|cbn in Hop; discriminate].
    destruct (read_slot (queue p) i) as [x|]; [|cbn in Hop; discriminate].
    unfold compare_exchange in Hop. rewrite Z.eqb_refl in Hop. injection Hop as <- <-.
    assert (Hc0 : c <> 0) by (intros ->; apply Htb; exact (wrap32_diff_zero top bot Ht Hb Hcnt)).
    exists (wrap32 (top + 1)), bot. cbn -[wrap32 pack].
    split; [reflexivity|]. split; [apply Z.mod_pos_bound; lia|]. split; [exact Hb|].
    split; [exact Hc|]. split; [exact HN|]. split; [|lia].
    replace (c + -1) with (c - 1) by lia.
    unfold wrap32 at 1 2. rewrite Zminus_mod_idemp_r.
    replace (bot - (top + 1)) with (bot - top - 1) by lia.
    apply wrap32_pred; [exact Hcnt | lia].
  - unfold steal, steal_loop in Hop. rewrite Hs, unpack_pack in Hop by lia.
    cbn -[wrap32 pack] in Hop.
    destruct (Z.eqb_spec top bot) as [_|Htb].
    { injection Hop as <- <-. cbn. rewrite Z.add_0_r. exists top, bot. auto 7. }
    destruct (Z.eqb_spec bot 0) as [_|Hb0].
    { injection Hop as <- <-. cbn. rewrite Z.add_0_r. exists top, bot. auto 7. }
    destruct (slot_of (bot - 1) (cap p)) as [i|]; [|cbn in Hop; discriminate].
    destruct (read_slot (queue p) i) as [x|]; [|cbn in Hop; discriminate].
    unfold compare_exchange in Hop. rewrite Z.eqb_refl in Hop. injection Hop as <- <-.
    assert (Hc0 : c <> 0) by (intros ->; apply Htb; exact (wrap32_diff_zero top bot Ht Hb Hcnt)).
    exists top, (bot - 1). cbn -[wrap32 pack].
    split; [reflexivity|]. split; [exact Ht|]. split; [lia|].
    split; [exact Hc|]. split; [exact HN|]. split; [|lia].
    replace (c + -1) with (c - 1) by lia.
    replace (bot - 1 - top) with (bot - top - 1) by lia.
    apply wrap32_pred; [exact Hcnt | lia].
Qed.

Lemma run_counted N ops : forall p c outs p',
  counted N p c -> run p ops = Some (outs, p') -> counted N p' (c + held_net outs).
Proof.
  induction ops as [|o ops IH]; intros p c outs p' Hc H.
  - injection H as <- <-. cbn. rewrite Z.add_0_r. exact Hc.
  - cbn [run] in H. apply bind_Some in H as ([out p1] & H1 & H).
    apply bind_Some in H as ([outs1 p2] & H2 & H). injection H as <- <-.
    pose proof (IH _ _ _ _ (step_counted _ _ _ _ _ _ Hc H1) H2) as Hc2.
    cbn [held_net fold_right]. fold (held_net outs1). rewrite Z.add_assoc. exact Hc2.
Qed.

End Count.

(** In every sequential run of a pool of [N < 2^32] slots from [new], even
    after the u32 counters have wrapped, the number of values the state
    word says are held, the u32 difference [bot - top], equals the
    successful inserts minus the values returned by [take] and [steal], and
    stays between [0] and [N]: no insert goes beyond the capacity and no
    [take] or [steal] returns a value from an empty pool. *)
Theorem deque_held_count {T : Type} (N : nat) (ops : list (op T)) outs p :
  Z.of_nat N < 2 ^ 32 -> run (new N) ops = Some (outs, p) ->
  wrap32 (snd (unpack (state p)) - fst (unpack (state p))) = held_net outs /\
  0 <= held_net outs <= Z.of_nat N.
Proof.
  intros HN H.
  assert (H0 : counted N (new (T:=T) N) 0).
  { exists 0, 0. cbn -[pack wrap32]. rewrite pack_eq by lia.
    unfold cap. cbn. rewrite length_replicate. repeat split; lia. }
  destruct (run_counted N ops _ _ _ _ H0 H) as (top & bot & Hs & Ht & Hb & _ & _ & Hcnt & Hr).
  rewrite Hs, unpack_pack by lia. cbn [fst snd]. lia.
Qed.

Lemma deque_held_count_witness :
  Z.of_nat 2 < 2 ^ 32 /\
  run (new 2) [DInsert 7; DInsert 8; DInsert 9; DTake] =
    Some ([Inserted (Ok tt); Inserted (Ok tt); Inserted (Err IsFull); Got (Some 7)],
          mk_pool [Some 7; Some 8] (pack 1 2)) /\
  wrap32 (snd (unpack (state (mk_pool [Some 7; Some 8] (pack 1 2)))) -
          fst (unpack (state (mk_pool [Some 7; Some 8] (pack 1 2))))) =
    held_net [Inserted (Ok tt); Inserted (Ok tt); Inserted (Err IsFull); Got (Some 7)] /\
  0 <= held_net ([Inserted (Ok tt); Inserted (Ok tt); Inserted (Err (IsFull)); Got (Some (7 : Z))]) <= Z.of_nat 2.
Proof.
  assert (HN : Z.of_nat 2 < 2 ^ 32) by lia.
  assert (H : run (new 2) [DInsert 7; DInsert 8; DInsert 9; DTake] =
    Some ([Inserted (Ok tt); Inserted (Ok tt); Inserted (Err IsFull); Got (Some 7)],
          mk_pool [Some 7; Some 8] (pack 1 2))) by (vm_compute; reflexivity).
  split; [exact HN|]. split; [exact H|].
  exact (deque_held_count 2 _ _ _ HN H).
Defined.

End WorkStealingProofs.


(* ===================================================================== *)
(** * Proofs about the fixed-capacity list *)
(* ===================================================================== *)

Module ArenaListProofs.
Import ArenaList.

Definition build (k : nat) (ops : list (lop nat)) : option (SizedDoubleLinkedList nat) :=
  option_map snd (lrun (empty k) ops).

(** Scenarios of [tests/double_linked_list_sized.rs]. *)
Example insert_tail_order :
  (s ← build 10 [InsertTail 1; InsertTail 2; InsertTail 3]; contents s) = Some [1; 2; 3].
Proof. vm_compute. reflexivity. Qed.

Example insert_head_order :
  (s ← build 10 [InsertHead 1; InsertHead 2; InsertHead 3]; contents s) = Some [3; 2; 1].
Proof. vm_compute. reflexivity. Qed.

Example remove_middle_keeps_order :
  (s ← build 10 [InsertTail 1; InsertTail 2; InsertTail 3; InsertTail 4; Remove 2]; contents s)
  = Some [1; 2; 4].
Proof. vm_compute. reflexivity. Qed.

Example capacity_reached :
  option_map fst (lrun (empty 2) [InsertTail 1; InsertTail 2; InsertTail 3; InsertHead 4])
  = Some [Ok tt; Ok tt; Err ListIsFull; Err ListIsFull].
Proof. vm_compute. reflexivity. Qed.

Example get_index_where_doc :
  (s ← build 10 [InsertTail 10; InsertTail 20; InsertTail 30]; get_index_where s (fun v => v =? 20))
  = Some (Some 1).
Proof. vm_compute. reflexivity. Qed.

Example insert_before_len :
  (s ← build 10 [InsertTail 1]; Some (insert_before s 1 5)) = Some None.
Proof. vm_compute. reflexivity. Qed.

Section Counting.
Context {T : Type}.

Lemma update_node_length (ns ns' : list (option (Node T))) i f :
  update_node ns i f = Some ns' -> length ns' = length ns.
Proof.
  unfold update_node. intros H. apply bind_Some in H as (n & _ & H).
  injection H as <-. apply length_insert.
Qed.

Lemma write_slot_length (ns ns' : list (option (Node T))) i x :
  write_slot ns i x = Some ns' -> length ns' = length ns.
Proof.
  unfold write_slot. destruct (i <? length ns)%nat; intros H; [|discriminate].
  injection H as <-. apply length_insert.
Qed.

Ltac unbind :=
  repeat match goal with
  | H : mbind _ _ = Some _ |- _ => apply bind_Some in H as (? & ? & H)
  | H : (if ?b then _ else _) = Some _ |- _ => destruct b eqn:?
  | H : match ?x with _ => _ end = Some _ |- _ => destruct x eqn:?
  | H : Some _ = Some _ |- _ => injection H; clear H; intros; subst
  | H : update_node _ _ _ = Some _ |- _ => apply update_node_length in H
  | H : write_slot _ _ _ = Some _ |- _ => apply write_slot_length in H
  end;
  repeat match goal with
  | H : (_ =? _)%nat = true |- _ => apply Nat.eqb_eq in H
  | H : (_ =? _)%nat = false |- _ => apply Nat.eqb_neq in H
  | H : (_ <=? _)%nat = true |- _ => apply Nat.leb_le in H
  | H : (_ <=? _)%nat = false |- _ => apply Nat.leb_gt in H
  | H : (_ <? _)%nat = true |- _ => apply Nat.ltb_lt in H
  | H : (_ <? _)%nat = false |- _ => apply Nat.ltb_ge in H
  end.

Lemma lstep_len (s s' : SizedDoubleLinkedList T) o r :
  lstep s o = Some (r, s') ->
  Z.of_nat (len s') = (Z.of_nat (len s) + delta o r)%Z /\ K s' = K s.
Proof.
  intros H. destruct o; cbn [lstep] in H;
    unfold insert_head, insert_tail, insert_after, insert_before, remove in H.
  all: unbind; unfold K in *; cbn in *; try discriminate;
    try (split; [lia | congruence]).
Qed.

Lemma lrun_len (s s' : SizedDoubleLinkedList T) ops rs :
  lrun s ops = Some (rs, s') ->
  Z.of_nat (len s') = (Z.of_nat (len s) + net ops rs)%Z /\ K s' = K s.
Proof.
  revert s rs. induction ops as [|o ops IH]; intros s rs H; cbn [lrun] in H.
  - injection H as <- <-. cbn. split; [lia | reflexivity].
  - apply bind_Some in H as ([r s1] & H1 & H).
    apply bind_Some in H as ([rs1 s2] & H2 & H). injection H as <- <-.
    apply lstep_len in H1 as [E1 K1]. apply IH in H2 as [E2 K2].
    cbn [net]. split; [lia | congruence].
Qed.

(** A full list refuses every insert at an accepted position with
    [ListIsFull] and stays as it is. *)
Lemma full_refuses (s : SizedDoubleLinkedList T) o :
  len s = K s -> valid_insert s o = true -> lstep s o = Some (Err ListIsFull, s).
Proof.
  intros Hf Hv. assert (Hfull : is_full s = true) by (apply Nat.eqb_eq; exact Hf).
  destruct o as [v|v|i v|i v|i]; cbn [valid_insert] in Hv; cbn [lstep].
  - unfold insert_head, insert_before. rewrite Hfull.
    replace (len s <? 0)%nat with false by (symmetry; apply Nat.ltb_ge; lia). reflexivity.
  - unfold insert_tail, insert_before, insert_after. rewrite Hfull.
    destruct (len s =? 0)%nat eqn:E.
    + replace (len s <? 0)%nat with false by (symmetry; apply Nat.ltb_ge; lia). reflexivity.
    + apply Nat.eqb_neq in E.
      replace (len s <=? len s - 1)%nat with false by (symmetry; apply Nat.leb_gt; lia).
      reflexivity.
  - apply Nat.ltb_lt in Hv. unfold insert_after. rewrite Hfull.
    replace (len s <=? i)%nat with false by (symmetry; apply Nat.leb_gt; lia). reflexivity.
  - apply Nat.leb_le in Hv. unfold insert_before. rewrite Hfull.
    replace (len s <? i)%nat with false by (symmetry; apply Nat.ltb_ge; lia). reflexivity.
  - discriminate.
Qed.

(** C4: starting from an empty list of capacity [k], after any sequence of
    inserts and removes the length is the number of successful inserts minus
    the number of successful removes, the capacity is still [k], and once the
    length is [k] every insert at an accepted position (head, tail, after
    [i < len], before [i <= len]) returns [ListIsFull] and leaves the list
    unchanged. *)
Theorem len_tracks_successes (k : nat) (ops : list (lop T)) rs s :
  lrun (empty k) ops = Some (rs, s) ->
  Z.of_nat (len s) = net ops rs /\ K s = k /\
  (len s = k -> forall o, valid_insert s o = true -> lstep s o = Some (Err ListIsFull, s)).
Proof.
  intros H. apply lrun_len in H as [E Hk].
  assert (Hk' : K s = k) by (rewrite Hk; unfold K, empty; cbn; apply length_replicate).
  split; [cbn in E; lia|]. split; [exact Hk'|].
  intros Hl o Hv. apply full_refuses; [congruence | exact Hv].
Qed.

(** C10: on a full list, an out-of-range position wins over the capacity
    check: [insert_after] at [index >= len] and [insert_before] at
    [index > len] return [IndexOutOfRange] and leave the list unchanged. *)
Theorem index_check_precedes_capacity (s : SizedDoubleLinkedList T) (i : nat) (v : T) :
  len s = K s ->
  (len s <= i -> insert_after s i v = Some (Err IndexOutOfRange, s)) /\
  (len s < i -> insert_before s i v = Some (Err IndexOutOfRange, s)).
Proof.
  intros _. split; intros Hi.
  - unfold insert_after. replace (len s <=? i)%nat with true by (symmetry; apply Nat.leb_le; lia).
    reflexivity.
  - unfold insert_before. replace (len s <? i)%nat with true by (symmetry; apply Nat.ltb_lt; lia).
    reflexivity.
Qed.

End Counting.

Definition full2 : SizedDoubleLinkedList nat :=
  Eval vm_compute in
  match build 2 [InsertTail 1; InsertTail 2] with Some s => s | None => empty 2 end.

Lemma len_tracks_successes_witness :
  lrun (empty 2) [InsertTail 1; InsertHead 0; Remove 0; InsertTail 2] =
    Some ([Ok tt; Ok tt; Ok tt; Ok tt], full2) /\
  (Z.of_nat (len full2) = net [InsertTail 1; InsertHead 0; Remove 0; InsertTail 2]
                               [Ok tt; Ok tt; Ok tt; Ok tt] /\ K full2 = 2 /\
   (len full2 = 2 -> forall o, valid_insert full2 o = true ->
      lstep full2 o = Some (Err ListIsFull, full2))).
Proof.
  split; [vm_compute; reflexivity|].
  apply (len_tracks_successes 2 [InsertTail 1; InsertHead 0; Remove 0; InsertTail 2]).
  vm_compute. reflexivity.
Defined.

Lemma index_check_precedes_capacity_witness :
  len full2 = K full2 /\
  (len full2 <= 2 -> insert_after full2 2 7 = Some (Err IndexOutOfRange, full2)) /\
  (len full2 < 3 -> insert_before full2 3 7 = Some (Err IndexOutOfRange, full2)).
Proof.
  split; [vm_compute; reflexivity|]. split.
  - apply (index_check_precedes_capacity full2 2 7). vm_compute. reflexivity.
  - apply (index_check_precedes_capacity full2 3 7). vm_compute. reflexivity.
Defined.

(** C2: [get_index_where] returns the slot a node occupies, not its position
    in the list.  Insert [10] then [20] at the head: the list reads [20; 10],
    [10] is at position 1 but in slot 0, and [get_index_where] returns 0, at
    which [get] reads [20]. *)
Theorem get_index_where_returns_slot :
  let s := build 10 [InsertHead 10; InsertHead 20] in
  (l ← s; contents l) = Some [20; 10] /\
  (l ← s; get_index_where l (fun v => v =? 10)) = Some (Some 0) /\
  (l ← s; get l 0) = Some (Ok 20).
Proof. vm_compute. repeat split. Qed.


Section Invariant.
Context {T : Type}.
Implicit Types (ns : list (option (Node T))) (ch l : list nat) (s : SizedDoubleLinkedList T).

(** ** Slots *)

Lemma node_at_lt ns i n : node_at ns i = Some n -> i < length ns.
Proof.
  unfold node_at. destruct (ns !! i) as [[]|] eqn:E; intros H; try discriminate.
  apply lookup_lt_Some in E. exact E.
Qed.

Lemma node_at_insert_eq ns i x : i < length ns -> node_at (<[i := x]> ns) i = x.
Proof.
  intros Hi. unfold node_at. rewrite list_lookup_insert_eq by exact Hi. destruct x; reflexivity.
Qed.

Lemma node_at_insert_ne ns i j x : i <> j -> node_at (<[i := x]> ns) j = node_at ns j.
Proof. intros Hij. unfold node_at. rewrite list_lookup_insert_ne by exact Hij. reflexivity. Qed.

Lemma update_node_spec ns ns' i f :
  update_node ns i f = Some ns' ->
  exists n, node_at ns i = Some n /\ node_at ns' i = Some (f n) /\
            (forall j, j <> i -> node_at ns' j = node_at ns j) /\ length ns' = length ns.
Proof.
  unfold update_node. intros H. apply bind_Some in H as (n & Hn & H). injection H as <-.
  exists n. split; [exact Hn|]. split; [apply node_at_insert_eq; eapply node_at_lt; eauto|].
  split; [intros j Hj; apply node_at_insert_ne; congruence | apply length_insert].
Qed.

Lemma update_node_ok ns i f n :
  node_at ns i = Some n -> update_node ns i f = Some (<[i := Some (f n)]> ns).
Proof. unfold update_node. intros ->. reflexivity. Qed.

Lemma write_slot_spec ns ns' i x :
  write_slot ns i x = Some ns' ->
  i < length ns /\ node_at ns' i = x /\
  (forall j, j <> i -> node_at ns' j = node_at ns j) /\ length ns' = length ns.
Proof.
  unfold write_slot. destruct (Nat.ltb_spec i (length ns)) as [Hi|Hi]; intros Hw; [|discriminate].
  injection Hw as <-. split; [exact Hi|]. split; [apply node_at_insert_eq; exact Hi|].
  split; [intros j Hj; apply node_at_insert_ne; congruence | apply length_insert].
Qed.

(** ** Chains *)

Lemma seg_frame ns ns' p ch q :
  seg ns p ch q -> (forall i, i ∈ ch -> node_at ns' i = node_at ns i) -> seg ns' p ch q.
Proof.
  revert p. induction ch as [|i ch IH]; intros p Hs Hf; [exact I|].
  destruct Hs as (n & Hn & Hi & Hp & Hq & Hs). exists n.
  rewrite Hf by set_solver. repeat split; auto.
  apply IH; [exact Hs|]. intros j Hj. apply Hf. set_solver.
Qed.

Lemma seg_app ns p l1 l2 q :
  seg ns p (l1 ++ l2) q <->
  seg ns p l1 (hd_or l2 q) /\ seg ns (match last l1 with Some x => Some x | None => p end) l2 q.
Proof.
  revert p. induction l1 as [|i l1 IH]; intros p; cbn [app seg].
  - split; [intros H; split; [exact I | exact H] | intros [_ H]; exact H].
  - split.
    + intros (n & Hn & Hi & Hp & Hq & Hs). apply IH in Hs as [Hs1 Hs2].
      split.
      * exists n. repeat split; auto. rewrite Hq. destruct l1; reflexivity.
      * rewrite last_cons. destruct (last l1); exact Hs2.
    + intros [(n & Hn & Hi & Hp & Hq & Hs) Hs2]. exists n. repeat split; auto.
      * rewrite Hq. destruct l1; reflexivity.
      * apply IH. split; [exact Hs|].
        rewrite last_cons in Hs2. destruct (last l1); exact Hs2.
Qed.

(** Positional reading of a chain. *)
Lemma seg_lookup ns p ch q j x :
  seg ns p ch q -> ch !! j = Some x ->
  exists n, node_at ns x = Some n /\ node_index n = x /\
    prev n = (match j with O => p | S j' => ch !! j' end) /\
    next n = (match ch !! S j with Some y => Some y | None => q end).
Proof.
  revert p j. induction ch as [|i ch IH]; intros p j Hs Hj; [discriminate|].
  destruct Hs as (n & Hn & Hi & Hp & Hq & Hs). destruct j as [|j].
  - injection Hj as <-. exists n. repeat split; auto. rewrite Hq. destruct ch; reflexivity.
  - destruct (IH (Some i) j Hs Hj) as (m & Hm & Hmi & Hmp & Hmq). exists m.
    repeat split; auto; rewrite Hmp; destruct j; reflexivity.
Qed.

Lemma seg_walk_fwd ns p ch q j x :
  seg ns p ch q -> ch !! 0 = Some x -> j < length ch -> walk ns x j true = ch !! j.
Proof.
  revert p x j. induction ch as [|i ch IH]; intros p x j Hs Hx Hj; [discriminate|].
  injection Hx as <-. destruct Hs as (n & Hn & Hi & Hp & Hq & Hs).
  destruct j as [|j]; [reflexivity|]. cbn in Hj.
  destruct ch as [|y ch]; [cbn in Hj; lia|].
  cbn [walk]. rewrite Hn. cbn. rewrite Hq. cbn.
  apply (IH (Some i) y j Hs eq_refl). cbn in Hj |- *. lia.
Qed.

Lemma seg_walk_bwd ns p ch q j x :
  seg ns p ch q -> last ch = Some x -> j < length ch ->
  walk ns x j false = ch !! (length ch - 1 - j).
Proof.
  revert q x j. induction ch as [|y ch IH] using rev_ind; intros q x j Hs Hx Hj; [discriminate|].
  rewrite last_snoc in Hx. injection Hx as ->.
  apply seg_app in Hs as [Hs1 Hs2]. cbn [seg] in Hs2.
  destruct Hs2 as (n & Hn & Hi & Hp & Hq & _).
  rewrite length_app in Hj |- *. cbn [length] in Hj |- *.
  destruct j as [|j].
  - rewrite lookup_app_r by lia. replace (length ch + 1 - 1 - 0 - length ch) with 0 by lia.
    reflexivity.
  - destruct ch as [|z ch'] using rev_ind; [cbn in Hj; lia|]. clear IHch'.
    rewrite length_app in Hj |- *. cbn [length] in Hj |- *.
    cbn [walk]. rewrite Hn. cbn [mbind option_bind]. rewrite Hp, last_snoc.
    cbn [mbind option_bind].
    rewrite lookup_app_l by (rewrite length_app; cbn [length]; lia).
    replace (length ch' + 1 + 1 - 1 - S j) with (length (ch' ++ [z]) - 1 - j)
      by (rewrite length_app; cbn [length]; lia).
    eapply IH; [exact Hs1 | apply last_snoc | rewrite length_app; cbn [length]; lia].
Qed.

(** ** Reading a list that satisfies the invariant *)

Lemma inv_slot s ch j x :
  Inv s ch -> ch !! j = Some x ->
  exists n, node_at (nodes s) x = Some n /\ node_index n = x /\
    prev n = (match j with O => None | S j' => ch !! j' end) /\ next n = ch !! S j.
Proof.
  intros Hinv Hj. destruct (seg_lookup _ _ _ _ _ _ (inv_seg _ _ Hinv) Hj) as (n & ? & ? & ? & Hn).
  exists n. repeat split; auto. rewrite Hn. destruct (ch !! S j); reflexivity.
Qed.

Lemma inv_in_bounds s ch x : Inv s ch -> x ∈ ch -> x < K s.
Proof.
  intros Hinv Hx. apply (inv_live _ _ Hinv) in Hx as [n Hn]. eapply node_at_lt; eauto.
Qed.

Lemma seek_inv s ch index :
  Inv s ch -> index < len s -> seek s index = ch !! index.
Proof.
  intros Hinv Hi. pose proof (inv_len _ _ Hinv) as Hl. unfold seek.
  destruct (Nat.ltb_spec index (len s / 2)) as [Hh|Hh].
  - destruct ch as [|x ch']; [cbn in Hl; lia|].
    rewrite (inv_head _ _ Hinv). cbn [lookup list_lookup mbind option_bind].
    eapply seg_walk_fwd; [apply (inv_seg _ _ Hinv) | reflexivity | lia].
  - destruct (last ch) as [t|] eqn:Ht; [|apply last_None in Ht; subst ch; cbn in Hl; lia].
    rewrite (inv_tail _ _ Hinv), Ht. cbn [mbind option_bind].
    unfold sub_usize. destruct (Nat.leb_spec 1 (len s)) as [_|]; [|lia].
    cbn [mbind option_bind]. destruct (Nat.leb_spec index (len s - 1)) as [_|]; [|lia].
    cbn [mbind option_bind].
    rewrite (seg_walk_bwd _ _ _ _ _ _ (inv_seg _ _ Hinv) Ht) by lia.
    f_equal. lia.
Qed.

(** Position [len] cannot be reached by [seek]: the backward step count
    [len - 1 - index] underflows (a panic). *)
Lemma seek_len s : 1 <= len s -> seek s (len s) = None.
Proof.
  intros Hl. unfold seek. destruct (Nat.ltb_spec (len s) (len s / 2)) as [Hh|_].
  - assert (len s / 2 <= len s) by (apply Nat.Div0.div_le_upper_bound; lia). lia.
  - destruct (tail s); [|reflexivity]. cbn [mbind option_bind]. unfold sub_usize.
    destruct (Nat.leb_spec 1 (len s)) as [_|]; [|lia]. cbn [mbind option_bind].
    destruct (Nat.leb_spec (len s) (len s - 1)) as [|_]; [lia|reflexivity].
Qed.

Lemma get_inv s ch index :
  Inv s ch -> index < len s ->
  exists x n, ch !! index = Some x /\ node_at (nodes s) x = Some n /\
              get s index = Some (Ok (value n)).
Proof.
  intros Hinv Hi. pose proof (inv_len _ _ Hinv) as Hl.
  destruct (ch !! index) as [x|] eqn:Hx; [|apply lookup_ge_None in Hx; lia].
  destruct (inv_slot _ _ _ _ Hinv Hx) as (n & Hn & _).
  exists x, n. split; [reflexivity|]. split; [exact Hn|].
  unfold get. destruct (Nat.leb_spec (len s) index) as [|_]; [lia|].
  rewrite (seek_inv _ _ _ Hinv Hi), Hx. cbn [mbind option_bind]. rewrite Hn. reflexivity.
Qed.

Lemma contents_inv s ch :
  Inv s ch -> exists vs, values (nodes s) ch = Some vs /\ contents s = Some vs.
Proof.
  intros Hinv. pose proof (inv_len _ _ Hinv) as Hl.
  assert (Hv : is_Some (values (nodes s) ch)).
  { apply mapM_is_Some, Forall_forall. intros x Hx.
    apply list_elem_of_lookup in Hx as [j Hj].
    destruct (inv_slot _ _ _ _ Hinv Hj) as (n & Hn & _). cbn. rewrite Hn. eexists; reflexivity. }
  destruct Hv as [vs Hv]. exists vs. split; [exact Hv|].
  apply mapM_Some_1 in Hv. unfold contents. apply mapM_Some_2.
  apply Forall2_lookup. intros i. apply Forall2_lookup with (i := i) in Hv.
  destruct (decide (i < len s)) as [Hi|Hi].
  - destruct (get_inv _ _ _ Hinv Hi) as (x & n & Hx & Hn & Hg).
    rewrite Hx in Hv. inversion Hv as [? y Hy Heq1 Heq2|]; subst.
    rewrite Hn in Hy. cbn in Hy. injection Hy as <-.
    replace (seq 0 (len s) !! i) with (Some i) by (symmetry; apply lookup_seq; lia).
    constructor. rewrite Hg. reflexivity.
  - rewrite lookup_seq_ge by lia.
    rewrite (lookup_ge_None_2 ch i) in Hv by lia. inversion Hv. constructor.
Qed.

(** ** The [used] mask *)

Lemma testbit_u64_not x j :
  (0 <= j < 64)%Z -> Z.testbit (u64_not x) j = negb (Z.testbit x j).
Proof.
  intros Hj. unfold u64_not. rewrite Z.lxor_spec, Z.ones_spec_low by lia.
  destruct (Z.testbit x j); reflexivity.
Qed.

Lemma tz_from_spec x i fuel j :
  Z.testbit x (Z.of_nat j) = true -> i <= j -> j < i + fuel ->
  Z.testbit x (Z.of_nat (tz_from x i fuel)) = true /\ tz_from x i fuel <= j.
Proof.
  revert i. induction fuel as [|fuel IH]; intros i Hj Hij Hf; [lia|].
  cbn [tz_from]. destruct (Z.testbit x (Z.of_nat i)) eqn:E; [split; [exact E | lia]|].
  assert (i <> j) by (intros ->; congruence).
  apply IH; [exact Hj | lia | lia].
Qed.

Lemma first_free_spec s ch :
  Inv s ch -> len s < K s ->
  first_free s < K s /\ (first_free s ∉ ch) /\ node_at (nodes s) (first_free s) = None.
Proof.
  intros Hinv Hl. pose proof (inv_len _ _ Hinv) as Hlen. pose proof (inv_cap _ _ Hinv) as Hk.
  (* some slot below K is not in the chain *)
  assert (Hfree : exists j, j < K s /\ (j ∉ ch)).
  { destruct (decide (Forall (fun j => j ∈ ch) (seq 0 (K s)))) as [Hall|Hnot].
    - exfalso. assert (Hsub : seq 0 (K s) ⊆ ch).
      { intros j Hj. rewrite Forall_forall in Hall. apply Hall. exact Hj. }
      assert (Hincl : incl (seq 0 (K s)) ch).
      { intros j Hj. apply list_elem_of_In, Hsub, list_elem_of_In. exact Hj. }
      pose proof (NoDup_incl_length (proj1 (NoDup_ListNoDup _) (NoDup_seq 0 (K s))) Hincl) as Hle.
      rewrite length_seq in Hle. lia.
    - apply not_Forall_Exists in Hnot; [|intros; apply _].
      apply Exists_exists in Hnot as (j & Hj & Hn). apply elem_of_seq in Hj.
      exists j. split; [lia | exact Hn]. }
  destruct Hfree as (j & Hj & Hjn).
  assert (Hbit : Z.testbit (u64_not (used s)) (Z.of_nat j) = true).
  { rewrite testbit_u64_not by lia. rewrite (inv_used _ _ Hinv).
    rewrite bool_decide_false by exact Hjn. reflexivity. }
  destruct (tz_from_spec _ 0 64 j Hbit ltac:(lia) ltac:(lia)) as [Ht Htle].
  unfold first_free, trailing_zeros. set (t := tz_from _ 0 64) in *.
  assert (Htn : t ∉ ch).
  { rewrite testbit_u64_not in Ht by lia. rewrite (inv_used _ _ Hinv) in Ht.
    intros Hin. rewrite bool_decide_true in Ht by exact Hin. discriminate. }
  split; [lia|]. split; [exact Htn|].
  destruct (node_at (nodes s) t) eqn:E; [|reflexivity].
  exfalso. apply Htn. apply (inv_live _ _ Hinv). rewrite E. eexists; reflexivity.
Qed.

Lemma add_used_spec u i :
  i < 64 -> (0 <= u)%Z ->
  exists u', add_used u i = Some u' /\ (0 <= u')%Z /\
    forall j, Z.testbit u' (Z.of_nat j) = (Z.testbit u (Z.of_nat j) || (j =? i))%bool.
Proof.
  intros Hi Hu. unfold add_used, shl1. destruct (Nat.ltb_spec i 64) as [_|]; [|lia].
  cbn [mbind option_bind]. eexists. split; [reflexivity|]. split.
  - apply Z.lor_nonneg. split; [exact Hu|]. apply Z.shiftl_nonneg. lia.
  - intros j. rewrite Z.lor_spec, Z.shiftl_1_l, Z.pow2_bits_eqb by lia. f_equal.
    destruct (Nat.eqb_spec j i); apply Z.eqb_eq || apply Z.eqb_neq; lia.
Qed.

Lemma remove_used_spec u i :
  i < 64 -> (0 <= u)%Z ->
  exists u', remove_used u i = Some u' /\ (0 <= u')%Z /\
    forall j, Z.testbit u' (Z.of_nat j) =
              (Z.testbit u (Z.of_nat j) && negb (j =? i) && (j <? 64))%bool.
Proof.
  intros Hi Hu. unfold remove_used, shl1. destruct (Nat.ltb_spec i 64) as [_|]; [|lia].
  cbn [mbind option_bind]. eexists. split; [reflexivity|]. split.
  - apply Z.land_nonneg. left. exact Hu.
  - intros j. rewrite Z.land_spec, <- andb_assoc. f_equal. rewrite Z.shiftl_1_l.
    unfold u64_not. rewrite Z.lxor_spec, Z.pow2_bits_eqb by lia.
    destruct (Nat.ltb_spec j 64).
    + rewrite Z.ones_spec_low by lia.
      destruct (Nat.eqb_spec j i) as [->|Hne]; [rewrite Z.eqb_refl; reflexivity|].
      replace (Z.of_nat i =? Z.of_nat j)%Z with false by (symmetry; apply Z.eqb_neq; lia).
      reflexivity.
    + rewrite Z.ones_spec_high by lia.
      replace (Z.of_nat i =? Z.of_nat j)%Z with false by (symmetry; apply Z.eqb_neq; lia).
      rewrite andb_false_r. reflexivity.
Qed.

(** ** Relinking part of a chain *)

Lemma hd_or_None l : hd_or l None = l !! 0.
Proof. destruct l; reflexivity. Qed.

Lemma last_or_None l : match last l with Some x => Some x | None => None end = last l.
Proof. destruct (last l); reflexivity. Qed.

Lemma NoDup_app_disj l1 l2 x y : NoDup (l1 ++ l2) -> x ∈ l1 -> y ∈ l2 -> x <> y.
Proof.
  intros Hnd Hx Hy ->. apply NoDup_app in Hnd as (_ & Hd & _). exact (Hd y Hx Hy).
Qed.

Lemma head_elem l y : l !! 0 = Some y -> y ∈ l.
Proof. intros H. eapply list_elem_of_lookup_2. exact H. Qed.

(** The last node of a chain gets a new [next]. *)
Lemma seg_set_last ns ns' p l q q' :
  seg ns p l q -> NoDup l ->
  (forall x n, last l = Some x -> node_at ns x = Some n -> node_at ns' x = Some (set_next q' n)) ->
  (forall i, i ∈ l -> last l <> Some i -> node_at ns' i = node_at ns i) ->
  seg ns' p l q'.
Proof.
  induction l as [|x l _] using rev_ind; intros Hs Hnd Hx Hf; [exact I|].
  apply seg_app in Hs as [Hs1 Hs2]. apply seg_app. cbn [hd_or] in *. split.
  - apply (seg_frame ns); [exact Hs1|]. intros i Hi. apply Hf; [set_solver|].
    rewrite last_snoc. intros [= Hxi]. subst i. apply NoDup_app in Hnd as (_ & Hd & _).
    apply (Hd x Hi). set_solver.
  - cbn [seg] in Hs2 |- *. destruct Hs2 as (n & Hn & Hi & Hp & Hq & _).
    exists (set_next q' n). split; [apply Hx; [apply last_snoc | exact Hn]|].
    repeat split; auto.
Qed.

(** The first node of a chain gets a new [prev]. *)
Lemma seg_set_first ns ns' p p' l q :
  seg ns p l q -> NoDup l ->
  (forall y n, l !! 0 = Some y -> node_at ns y = Some n -> node_at ns' y = Some (set_prev p' n)) ->
  (forall i, i ∈ l -> l !! 0 <> Some i -> node_at ns' i = node_at ns i) ->
  seg ns' p' l q.
Proof.
  destruct l as [|y l]; intros Hs Hnd Hy Hf; [exact I|].
  cbn [seg] in Hs |- *. destruct Hs as (n & Hn & Hi & Hp & Hq & Hs).
  exists (set_prev p' n). split; [apply Hy; [reflexivity | exact Hn]|].
  repeat split; auto.
  apply (seg_frame ns); [exact Hs|]. intros i Hi'. apply Hf; [set_solver|].
  intros [= ->]. apply NoDup_cons in Hnd as [Hnd _]. contradiction.
Qed.

(** Inserting slot [new] between [l1] and [l2]. *)
Lemma seg_splice ns ns' l1 l2 new v :
  seg ns None (l1 ++ l2) None -> NoDup (l1 ++ l2) ->
  node_at ns' new = Some (mk_node v new (last l1) (l2 !! 0)) ->
  (forall x n, last l1 = Some x -> node_at ns x = Some n -> node_at ns' x = Some (set_next (Some new) n)) ->
  (forall y n, l2 !! 0 = Some y -> node_at ns y = Some n -> node_at ns' y = Some (set_prev (Some new) n)) ->
  (forall i, i ∈ l1 ++ l2 -> last l1 <> Some i -> l2 !! 0 <> Some i -> node_at ns' i = node_at ns i) ->
  seg ns' None (l1 ++ new :: l2) None.
Proof.
  intros Hs Hnd Hnew Hx Hy Hf. apply seg_app in Hs as [Hs1 Hs2].
  rewrite hd_or_None in Hs1. rewrite last_or_None in Hs2.
  pose proof Hnd as Hnd'. apply NoDup_app in Hnd' as (Hnd1 & _ & Hnd2).
  apply seg_app. rewrite last_or_None. split.
  - apply (seg_set_last ns _ _ _ _ _ Hs1 Hnd1 Hx).
    intros i Hi Hl. apply Hf; [set_solver | exact Hl |].
    intros Hh. apply head_elem in Hh. exact (NoDup_app_disj _ _ _ _ Hnd Hi Hh eq_refl).
  - cbn [seg]. exists (mk_node v new (last l1) (l2 !! 0)). split; [exact Hnew|].
    split; [reflexivity|]. split; [reflexivity|]. split; [rewrite hd_or_None; reflexivity|].
    apply (seg_set_first ns _ _ _ _ _ Hs2 Hnd2 Hy).
    intros i Hi Hh. apply Hf; [set_solver | | exact Hh].
    intros Hl. apply last_Some_elem_of in Hl. exact (NoDup_app_disj _ _ _ _ Hnd Hl Hi eq_refl).
Qed.

(** Unlinking slot [c] from between [l1] and [l2]. *)
Lemma seg_unsplice ns ns' l1 c l2 :
  seg ns None (l1 ++ c :: l2) None -> NoDup (l1 ++ c :: l2) ->
  (forall x n, last l1 = Some x -> node_at ns x = Some n -> node_at ns' x = Some (set_next (l2 !! 0) n)) ->
  (forall y n, l2 !! 0 = Some y -> node_at ns y = Some n -> node_at ns' y = Some (set_prev (last l1) n)) ->
  (forall i, i ∈ l1 ++ l2 -> last l1 <> Some i -> l2 !! 0 <> Some i -> node_at ns' i = node_at ns i) ->
  seg ns' None (l1 ++ l2) None.
Proof.
  intros Hs Hnd Hx Hy Hf. apply seg_app in Hs as [Hs1 Hs2].
  rewrite last_or_None in Hs2. cbn [seg] in Hs2.
  destruct Hs2 as (n & Hn & Hi & Hp & Hq & Hs2).
  assert (Hnd12 : NoDup (l1 ++ l2)).
  { apply NoDup_app in Hnd as (H1 & Hd & H2). apply NoDup_cons in H2 as [_ H2].
    apply NoDup_app. split; [exact H1|]. split; [|exact H2]. intros z Hz Hz2. apply (Hd z Hz). set_solver. }
  pose proof Hnd12 as Hnd'. apply NoDup_app in Hnd' as (Hnd1 & _ & Hnd2).
  apply seg_app. rewrite last_or_None. rewrite hd_or_None. split.
  - apply (seg_set_last ns _ _ _ _ _ Hs1 Hnd1 Hx).
    intros i Hi1 Hl. apply Hf; [set_solver | exact Hl |].
    intros Hh. apply head_elem in Hh. exact (NoDup_app_disj _ _ _ _ Hnd12 Hi1 Hh eq_refl).
  - apply (seg_set_first ns _ _ _ _ _ Hs2 Hnd2 Hy).
    intros i Hi1 Hh. apply Hf; [set_solver | | exact Hh].
    intros Hl. apply last_Some_elem_of in Hl. exact (NoDup_app_disj _ _ _ _ Hnd12 Hl Hi1 eq_refl).
Qed.

(** ** The invariant after linking in or unlinking one slot *)

Lemma inv_insert s ch l1 l2 v ns' used' len' tail' head' :
  Inv s ch -> ch = l1 ++ l2 -> len s < K s ->
  let new := first_free s in
  node_at ns' new = Some (mk_node v new (last l1) (l2 !! 0)) ->
  (forall x n, last l1 = Some x -> node_at (nodes s) x = Some n ->
     node_at ns' x = Some (set_next (Some new) n)) ->
  (forall y n, l2 !! 0 = Some y -> node_at (nodes s) y = Some n ->
     node_at ns' y = Some (set_prev (Some new) n)) ->
  (forall i, i <> new -> last l1 <> Some i -> l2 !! 0 <> Some i ->
     node_at ns' i = node_at (nodes s) i) ->
  length ns' = length (nodes s) ->
  add_used (used s) new = Some used' ->
  len' = len s + 1 ->
  tail' = last (l1 ++ new :: l2) ->
  head' = (l1 ++ new :: l2) !! 0 ->
  Inv (mk_list ns' used' len' tail' head') (l1 ++ new :: l2).
Proof.
  intros Hinv -> Hroom new Hnew Hx Hy Hf Hlen Hu Hl Ht Hh.
  destruct (first_free_spec _ _ Hinv Hroom) as (Hlt & Hfresh & Hdead). fold new in Hlt, Hfresh, Hdead.
  pose proof (inv_cap _ _ Hinv) as Hk. pose proof (inv_nodup _ _ Hinv) as Hnd.
  destruct (add_used_spec (used s) new ltac:(unfold K in *; lia) (inv_used_nonneg _ _ Hinv))
    as (u & Hu' & Hnn & Hbits).
  rewrite Hu in Hu'. injection Hu' as <-.
  assert (Hin : forall i, i ∈ l1 ++ new :: l2 <-> i = new \/ i ∈ l1 ++ l2) by (intros; set_solver).
  constructor; cbn [nodes used len tail head K].
  - apply (seg_splice (nodes s) ns' l1 l2 new v (inv_seg _ _ Hinv) Hnd Hnew Hx Hy).
    intros i Hi Hl1 Hh1. apply Hf; [intros ->; contradiction | exact Hl1 | exact Hh1].
  - apply NoDup_app. apply NoDup_app in Hnd as (Hnd1 & Hd & Hnd2).
    split; [exact Hnd1|]. split.
    + intros z Hz Hz'. apply elem_of_cons in Hz' as [->|Hz']; [set_solver|]. exact (Hd z Hz Hz').
    + apply NoDup_cons. split; [set_solver | exact Hnd2].
  - rewrite Hl, (inv_len _ _ Hinv), !length_app. cbn. lia.
  - exact Hh.
  - exact Ht.
  - intros i. rewrite Hin. destruct (decide (i = new)) as [->|Hne].
    + rewrite Hnew. split; [intros _; left; reflexivity | intros _; eexists; reflexivity].
    + destruct (decide (last l1 = Some i)) as [Hl'|Hl'].
      * split; [intros _; right; apply last_Some_elem_of in Hl'; set_solver|intros _].
        pose proof (last_Some_elem_of _ _ Hl') as Hm. pose proof (proj2 (inv_live _ _ Hinv i) ltac:(set_solver)) as [n Hn].
        rewrite (Hx i n) by (auto; congruence). eexists; reflexivity.
      * destruct (decide (l2 !! 0 = Some i)) as [Hh'|Hh'].
        -- split; [intros _; right; apply head_elem in Hh'; set_solver|intros _].
           pose proof (head_elem _ _ Hh') as Hm. pose proof (proj2 (inv_live _ _ Hinv i) ltac:(set_solver)) as [n Hn].
           rewrite (Hy i n) by (auto; congruence). eexists; reflexivity.
        -- rewrite Hf by auto. rewrite (inv_live _ _ Hinv). intuition congruence.
  - intros i. rewrite Hbits, (inv_used _ _ Hinv).
    destruct (Nat.eqb_spec i new) as [->|Hne].
    + rewrite orb_true_r. symmetry. apply bool_decide_true. set_solver.
    + rewrite orb_false_r. apply bool_decide_ext. rewrite Hin. intuition congruence.
  - exact Hnn.
  - unfold K in *. cbn. lia.
Qed.

Lemma inv_remove s ch l1 c l2 ns' used' len' tail' head' :
  Inv s ch -> ch = l1 ++ c :: l2 ->
  node_at ns' c = None ->
  (forall x n, last l1 = Some x -> node_at (nodes s) x = Some n ->
     node_at ns' x = Some (set_next (l2 !! 0) n)) ->
  (forall y n, l2 !! 0 = Some y -> node_at (nodes s) y = Some n ->
     node_at ns' y = Some (set_prev (last l1) n)) ->
  (forall i, i <> c -> last l1 <> Some i -> l2 !! 0 <> Some i ->
     node_at ns' i = node_at (nodes s) i) ->
  length ns' = length (nodes s) ->
  (forall i, Z.testbit used' (Z.of_nat i) = bool_decide (i ∈ l1 ++ l2)) ->
  (0 <= used')%Z ->
  len' = len s - 1 ->
  tail' = last (l1 ++ l2) ->
  head' = (l1 ++ l2) !! 0 ->
  Inv (mk_list ns' used' len' tail' head') (l1 ++ l2).
Proof.
  intros Hinv -> Hc Hx Hy Hf Hlen Hbits Hnn Hl Ht Hh.
  pose proof (inv_cap _ _ Hinv) as Hk. pose proof (inv_nodup _ _ Hinv) as Hnd.
  assert (Hnd12 : NoDup (l1 ++ l2)).
  { apply NoDup_app in Hnd as (H1 & Hd & H2). apply NoDup_cons in H2 as [_ H2].
    apply NoDup_app. split; [exact H1|]. split; [|exact H2]. intros z Hz Hz2. apply (Hd z Hz). set_solver. }
  assert (Hcn : c ∉ l1 ++ l2).
  { apply NoDup_app in Hnd as (_ & Hd & H2). apply NoDup_cons in H2 as [H2 _].
    intros Hc'. apply elem_of_app in Hc' as [Hc'|Hc']; [exact (Hd c Hc' ltac:(set_solver)) | exact (H2 Hc')]. }
  constructor; cbn [nodes used len tail head K].
  - apply (seg_unsplice (nodes s) ns' l1 c l2 (inv_seg _ _ Hinv) Hnd Hx Hy).
    intros i Hi Hl' Hh'. apply Hf; [intros ->; contradiction | exact Hl' | exact Hh'].
  - exact Hnd12.
  - rewrite Hl, (inv_len _ _ Hinv), !length_app. cbn. lia.
  - exact Hh.
  - exact Ht.
  - intros i. destruct (decide (i = c)) as [->|Hne].
    + rewrite Hc. split; [intros [? H]; discriminate | intros H; contradiction].
    + destruct (decide (last l1 = Some i)) as [Hl'|Hl'].
      * split; [intros _; apply last_Some_elem_of in Hl'; set_solver|intros _].
        pose proof (last_Some_elem_of _ _ Hl') as Hm. pose proof (proj2 (inv_live _ _ Hinv i) ltac:(set_solver)) as [n Hn].
        rewrite (Hx i n) by (auto; congruence). eexists; reflexivity.
      * destruct (decide (l2 !! 0 = Some i)) as [Hh'|Hh'].
        -- split; [intros _; apply head_elem in Hh'; set_solver|intros _].
           pose proof (head_elem _ _ Hh') as Hm. pose proof (proj2 (inv_live _ _ Hinv i) ltac:(set_solver)) as [n Hn].
           rewrite (Hy i n) by (auto; congruence). eexists; reflexivity.
        -- rewrite Hf by auto. rewrite (inv_live _ _ Hinv). set_solver.
  - exact Hbits.
  - exact Hnn.
  - unfold K in *. cbn. lia.
Qed.

(** ** The operations preserve the invariant *)

Lemma inv_len_le s ch : Inv s ch -> len s <= K s.
Proof.
  intros Hinv. rewrite (inv_len _ _ Hinv).
  assert (Hincl : incl ch (seq 0 (K s))).
  { intros x Hx. apply list_elem_of_In in Hx. apply list_elem_of_In, elem_of_seq.
    pose proof (inv_in_bounds _ _ _ Hinv Hx). lia. }
  pose proof (NoDup_incl_length (proj1 (NoDup_ListNoDup _) (inv_nodup _ _ Hinv)) Hincl) as Hle.
  rewrite length_seq in Hle. exact Hle.
Qed.

Lemma inv_room s ch : Inv s ch -> is_full s = false -> len s < K s.
Proof.
  intros Hinv Hf. apply Nat.eqb_neq in Hf. pose proof (inv_len_le _ _ Hinv). lia.
Qed.

Lemma inv_last_take s ch index x :
  ch !! index = Some x -> last (take (S index) ch) = Some x.
Proof. intros Hx. rewrite (take_S_r _ _ _ Hx). apply last_snoc. Qed.

(** [insert_after] either fails and leaves the list as it is, or succeeds
    and splices the slot [first_free] into the chain after position
    [index]. *)
Lemma insert_after_chain s ch index v r s' :
  Inv s ch -> insert_after s index v = Some (r, s') ->
  (r = Ok tt /\ index < len s /\ len s < K s /\
   Inv s' (take (S index) ch ++ first_free s :: drop (S index) ch)) \/ (r <> Ok tt /\ s' = s).
Proof.
  intros Hinv H. unfold insert_after in H.
  destruct (Nat.leb_spec (len s) index) as [Hi|Hi];
    [injection H as <- <-; right; split; [discriminate|reflexivity]|].
  destruct (is_full s) eqn:Hfull; [injection H as <- <-; right; split; [discriminate|reflexivity]|].
  pose proof (inv_room _ _ Hinv Hfull) as Hroom.
  destruct (first_free_spec _ _ Hinv Hroom) as (Hlt & Hfresh & Hdead).
  set (new := first_free s) in *.
  pose proof (inv_len _ _ Hinv) as Hlen. pose proof (inv_nodup _ _ Hinv) as Hnd.
  apply bind_Some in H as (after & Hseek & H). rewrite (seek_inv _ _ _ Hinv Hi) in Hseek.
  cbv beta zeta in H.
  apply bind_Some in H as (an & Han & H).
  destruct (inv_slot _ _ _ _ Hinv Hseek) as (an' & Han' & Hai & _ & Hanext).
  rewrite Han in Han'. injection Han' as <-.
  apply bind_Some in H as ([ns1 tail1] & Hm & H). cbv beta iota in H.
  apply bind_Some in H as (ns2 & H2 & H).
  apply bind_Some in H as (used1 & Hu & H).
  apply bind_Some in H as (ns3 & H3 & H).
  injection H as <- <-.
  assert (Hafter : after ∈ ch) by (eapply list_elem_of_lookup_2; exact Hseek).
  assert (Hna : new <> after) by (intros ->; contradiction).
  (* the first update: [after_next]'s [prev], or the tail *)
  assert (F : node_at ns1 after = Some an /\
              (forall y n, next an = Some y -> node_at (nodes s) y = Some n ->
                 node_at ns1 y = Some (set_prev (Some new) n)) /\
              (forall i, next an <> Some i -> node_at ns1 i = node_at (nodes s) i) /\
              length ns1 = length (nodes s) /\
              tail1 = match next an with Some _ => tail s | None => Some new end).
  { destruct (next an) as [y|] eqn:Hy.
    - apply bind_Some in Hm as (ns & Hu1 & Hm). injection Hm as <- <-.
      destruct (update_node_spec _ _ _ _ Hu1) as (m & Hm & Hm' & Hf1 & Hl1).
      assert (Hya : y <> after).
      { intros ->. pose proof (NoDup_lookup _ _ _ _ Hnd Hseek (eq_sym Hanext)). lia. }
      split; [rewrite Hf1 by congruence; exact Han|].
      split; [intros y' n' [= <-] Hn'; rewrite Hm in Hn'; injection Hn' as <-; exact Hm'|].
      split; [intros i Hne; apply Hf1; congruence|]. split; [exact Hl1 | reflexivity].
    - injection Hm as <- <-. split; [exact Han|]. split; [discriminate|].
      split; [reflexivity|]. split; reflexivity. }
  destruct F as (F1 & F2 & F3 & F4 & F5).
  destruct (update_node_spec _ _ _ _ H2) as (m2 & Hm2 & Hm2' & Hf2 & Hl2).
  rewrite F1 in Hm2. injection Hm2 as <-.
  destruct (write_slot_spec _ _ _ _ H3) as (_ & Hnew3 & Hf3 & Hl3).
  assert (Hl2' : (take (S index) ch) !! 0 = ch !! 0) by (apply lookup_take_lt; lia).
  left. split; [reflexivity|]. split; [exact Hi|]. split; [exact Hroom|].
  apply (inv_insert s ch (take (S index) ch) (drop (S index) ch) v ns3 used1 _ _ _ Hinv
           (eq_sym (take_drop _ _)) Hroom).
  all: cbv zeta; change (first_free s) with new.
  - rewrite Hnew3, (inv_last_take s _ _ _ Hseek), lookup_drop, Nat.add_0_r, <- Hanext.
    reflexivity.
  - intros x n Hx Hn. rewrite (inv_last_take s _ _ _ Hseek) in Hx. injection Hx as <-.
    rewrite Han in Hn. injection Hn as <-.
    rewrite Hf3 by congruence. exact Hm2'.
  - intros y n Hy Hn. rewrite lookup_drop, Nat.add_0_r, <- Hanext in Hy.
    assert (Hya : y <> after).
    { intros ->. rewrite Hanext in Hy. pose proof (NoDup_lookup _ _ _ _ Hnd Hseek Hy). lia. }
    assert (Hyn : y <> new).
    { intros ->. apply Hfresh. eapply list_elem_of_lookup_2. rewrite <- Hanext. exact Hy. }
    rewrite Hf3, Hf2 by congruence. exact (F2 y n Hy Hn).
  - intros i Hin Hil Hih. rewrite (inv_last_take s _ _ _ Hseek) in Hil.
    rewrite lookup_drop, Nat.add_0_r, <- Hanext in Hih.
    rewrite Hf3, Hf2 by congruence. apply F3. exact Hih.
  - rewrite Hl3, Hl2. exact F4.
  - exact Hu.
  - reflexivity.
  - rewrite F5. destruct (next an) as [y|] eqn:Hy.
    + rewrite (inv_tail _ _ Hinv).
      assert (Hd : drop (S index) ch !! 0 = Some y) by (rewrite lookup_drop, Nat.add_0_r; auto).
      destruct (drop (S index) ch) as [|z d] eqn:Hdd; [discriminate|].
      rewrite <- (take_drop (S index) ch) at 1. rewrite Hdd, !last_app_cons, last_cons_cons.
      reflexivity.
    + replace (drop (S index) ch) with (@nil nat).
      * rewrite last_snoc. reflexivity.
      * symmetry. apply drop_ge. apply lookup_ge_None. auto.
  - rewrite lookup_app_l by (rewrite length_take; lia). rewrite Hl2'.
    exact (inv_head _ _ Hinv).
Qed.

Lemma insert_after_inv s ch index v r s' :
  Inv s ch -> insert_after s index v = Some (r, s') -> exists ch', Inv s' ch'.
Proof.
  intros Hinv H.
  destruct (insert_after_chain _ _ _ _ _ _ Hinv H) as [(_ & _ & _ & Hi)|(_ & ->)];
    eexists; eassumption.
Qed.

(** [insert_before] either fails and leaves the list as it is, or succeeds
    and splices the slot [first_free] into the chain before position
    [index]. *)
Lemma insert_before_chain s ch index v r s' :
  Inv s ch -> insert_before s index v = Some (r, s') ->
  (r = Ok tt /\ index <= len s /\ len s < K s /\
   Inv s' (take index ch ++ first_free s :: drop index ch)) \/ (r <> Ok tt /\ s' = s).
Proof.
  intros Hinv H. unfold insert_before in H.
  destruct (Nat.ltb_spec (len s) index) as [Hi|Hi];
    [injection H as <- <-; right; split; [discriminate|reflexivity]|].
  destruct (is_full s) eqn:Hfull; [injection H as <- <-; right; split; [discriminate|reflexivity]|].
  pose proof (inv_room _ _ Hinv Hfull) as Hroom.
  destruct (first_free_spec _ _ Hinv Hroom) as (Hlt & Hfresh & Hdead).
  pose proof (inv_len _ _ Hinv) as Hlen. pose proof (inv_nodup _ _ Hinv) as Hnd.
  destruct (Nat.eqb_spec index 0) as [->|Hi0]; [destruct (Nat.eqb_spec (len s) 0) as [Hl0|Hl0]|].
  - (* the first element *)
    cbv zeta in H. set (new := first_free s) in *.
    apply bind_Some in H as (used1 & Hu & H).
    apply bind_Some in H as (ns1 & H1 & H). injection H as <- <-.
    destruct (write_slot_spec _ _ _ _ H1) as (_ & Hnew1 & Hf1 & Hl1).
    destruct ch as [|c ch]; [|cbn in Hlen; lia].
    left. split; [reflexivity|]. split; [lia|]. split; [exact Hroom|].
    change (take 0 [] ++ new :: drop 0 []) with ([] ++ new :: @nil nat).
    apply (inv_insert s [] [] [] v ns1 used1 _ _ _ Hinv eq_refl Hroom).
    all: cbv zeta; change (first_free s) with new.
    + exact Hnew1.
    + discriminate.
    + discriminate.
    + intros i Hne _ _. apply Hf1. exact Hne.
    + exact Hl1.
    + exact Hu.
    + lia.
    + reflexivity.
    + reflexivity.
  - (* a new head *)
    apply bind_Some in H as (old & Hold & H). cbv zeta in H. set (new := first_free s) in *.
    apply bind_Some in H as (ns1 & H1 & H).
    apply bind_Some in H as (used1 & Hu & H).
    apply bind_Some in H as (ns2 & H2 & H). injection H as <- <-.
    rewrite (inv_head _ _ Hinv) in Hold.
    destruct (update_node_spec _ _ _ _ H1) as (m1 & Hm1 & Hm1' & Hf1 & Hl1).
    destruct (write_slot_spec _ _ _ _ H2) as (_ & Hnew2 & Hf2 & Hl2).
    assert (Hno : new <> old) by (intros ->; apply Hfresh; eapply list_elem_of_lookup_2; exact Hold).
    left. split; [reflexivity|]. split; [lia|]. split; [exact Hroom|].
    change (take 0 ch ++ new :: drop 0 ch) with ([] ++ new :: ch).
    apply (inv_insert s ch [] ch v ns2 used1 _ _ _ Hinv eq_refl Hroom).
    all: cbv zeta; change (first_free s) with new.
    + rewrite Hnew2, Hold. reflexivity.
    + discriminate.
    + intros y n Hy Hn. rewrite Hold in Hy. injection Hy as <-. rewrite Hm1 in Hn.
      injection Hn as <-. rewrite Hf2 by congruence. exact Hm1'.
    + intros i Hne _ Hh. rewrite Hf2 by exact Hne. apply Hf1. congruence.
    + rewrite Hl2. exact Hl1.
    + exact Hu.
    + reflexivity.
    + rewrite (inv_tail _ _ Hinv). cbn [app]. rewrite last_cons.
      destruct ch as [|c ch]; [discriminate|]. rewrite last_cons. destruct (last ch); reflexivity.
    + reflexivity.
  - (* before the node at [index > 0] *)
    destruct (Nat.eq_dec index (len s)) as [Hil|Hil].
    { subst index. rewrite seek_len in H by lia. discriminate. }
    assert (Hi' : index < len s) by lia.
    apply bind_Some in H as (before & Hseek & H). rewrite (seek_inv _ _ _ Hinv Hi') in Hseek.
    cbv zeta in H. set (new := first_free s) in *.
    apply bind_Some in H as (bn & Hbn & H).
    destruct (inv_slot _ _ _ _ Hinv Hseek) as (bn' & Hbn' & Hbi & Hbprev & _).
    rewrite Hbn in Hbn'. injection Hbn' as <-.
    destruct index as [|index']; [lia|].
    destruct (ch !! index') as [p|] eqn:Hp; [|apply lookup_ge_None in Hp; lia].
    apply bind_Some in H as ([ns1 head1] & Hm & H). cbv beta iota in H.
    rewrite Hbprev in Hm, H.
    apply bind_Some in Hm as (ns & Hu1 & Hm). injection Hm as <- <-.
    apply bind_Some in H as (ns2 & H2 & H).
    apply bind_Some in H as (used1 & Hu & H).
    apply bind_Some in H as (ns3 & H3 & H). injection H as <- <-.
    assert (Hpb : p <> before).
    { intros ->. pose proof (NoDup_lookup _ _ _ _ Hnd Hp Hseek). lia. }
    assert (Hnb : new <> before) by (intros ->; apply Hfresh; eapply list_elem_of_lookup_2; exact Hseek).
    assert (Hnp : new <> p) by (intros ->; apply Hfresh; eapply list_elem_of_lookup_2; exact Hp).
    destruct (update_node_spec _ _ _ _ Hu1) as (m1 & Hm1 & Hm1' & Hf1 & Hl1).
    destruct (update_node_spec _ _ _ _ H2) as (m2 & Hm2 & Hm2' & Hf2 & Hl2).
    rewrite Hf1 in Hm2 by congruence. rewrite Hbn in Hm2. injection Hm2 as <-.
    destruct (write_slot_spec _ _ _ _ H3) as (_ & Hnew3 & Hf3 & Hl3).
    assert (Hlast : last (take (S index') ch) = Some p) by (apply (inv_last_take s); exact Hp).
    assert (Hhd : drop (S index') ch !! 0 = Some before) by (rewrite lookup_drop, Nat.add_0_r; exact Hseek).
    left. split; [reflexivity|]. split; [lia|]. split; [exact Hroom|].
    apply (inv_insert s ch (take (S index') ch) (drop (S index') ch) v ns3 used1 _ _ _ Hinv
             (eq_sym (take_drop _ _)) Hroom).
    all: cbv zeta; change (first_free s) with new.
    + rewrite Hnew3, Hlast, Hhd. reflexivity.
    + intros x n Hx Hn. rewrite Hlast in Hx. injection Hx as <-. rewrite Hm1 in Hn.
      injection Hn as <-. rewrite Hf3, Hf2 by congruence. exact Hm1'.
    + intros y n Hy Hn. rewrite Hhd in Hy. injection Hy as <-. rewrite Hbn in Hn.
      injection Hn as <-. rewrite Hf3 by congruence. exact Hm2'.
    + intros i Hne Hil' Hih. rewrite Hlast in Hil'. rewrite Hhd in Hih.
      rewrite Hf3, Hf2, Hf1 by congruence. reflexivity.
    + rewrite Hl3, Hl2, Hl1. reflexivity.
    + exact Hu.
    + reflexivity.
    + rewrite (inv_tail _ _ Hinv).
      destruct (drop (S index') ch) as [|z d] eqn:Hdd; [discriminate|].
      rewrite <- (take_drop (S index') ch) at 1. rewrite Hdd, !last_app_cons, last_cons_cons.
      reflexivity.
    + rewrite lookup_app_l by (rewrite length_take; lia).
      rewrite lookup_take_lt by lia. exact (inv_head _ _ Hinv).
Qed.

Lemma insert_before_inv s ch index v r s' :
  Inv s ch -> insert_before s index v = Some (r, s') -> exists ch', Inv s' ch'.
Proof.
  intros Hinv H.
  destruct (insert_before_chain _ _ _ _ _ _ Hinv H) as [(_ & _ & _ & Hi)|(_ & ->)];
    eexists; eassumption.
Qed.

Lemma insert_head_inv s ch v r s' :
  Inv s ch -> insert_head s v = Some (r, s') -> exists ch', Inv s' ch'.
Proof. apply insert_before_inv. Qed.

Lemma insert_tail_inv s ch v r s' :
  Inv s ch -> insert_tail s v = Some (r, s') -> exists ch', Inv s' ch'.
Proof.
  unfold insert_tail. destruct (len s =? 0)%nat; [apply insert_before_inv | apply insert_after_inv].
Qed.

Lemma write_slot_ok ns i x : i < length ns -> write_slot ns i x = Some (<[i := x]> ns).
Proof. intros Hi. unfold write_slot. destruct (Nat.ltb_spec i (length ns)); [reflexivity | lia]. Qed.

Lemma values_frame ns ns' l :
  (forall x, x ∈ l -> option_map value (node_at ns' x) = option_map value (node_at ns x)) ->
  values ns' l = values ns l.
Proof.
  unfold values. induction l as [|x l IH]; intros Hf; [reflexivity|].
  cbn [mapM]. assert (Hx : (n ← node_at ns' x; Some (value n)) = (n ← node_at ns x; Some (value n))).
  { pose proof (Hf x ltac:(set_solver)) as E.
    destruct (node_at ns' x), (node_at ns x); cbn in *; congruence. }
  rewrite Hx, IH by (intros y Hy; apply Hf; set_solver). reflexivity.
Qed.

(** The slot at position [index] unlinked: its neighbours point to each other. *)
Lemma unlink_inv s ch index c n ns' used' len' tail' head' :
  Inv s ch -> ch !! index = Some c -> node_at (nodes s) c = Some n ->
  node_at ns' c = None ->
  (forall p m, prev n = Some p -> node_at (nodes s) p = Some m ->
     node_at ns' p = Some (set_next (next n) m)) ->
  (forall x m, next n = Some x -> node_at (nodes s) x = Some m ->
     node_at ns' x = Some (set_prev (prev n) m)) ->
  (forall i, i <> c -> prev n <> Some i -> next n <> Some i -> node_at ns' i = node_at (nodes s) i) ->
  length ns' = length (nodes s) ->
  (forall j, Z.testbit used' (Z.of_nat j) = bool_decide (j ∈ delete index ch)) ->
  (0 <= used')%Z ->
  len' = len s - 1 ->
  tail' = last (delete index ch) ->
  head' = delete index ch !! 0 ->
  Inv (mk_list ns' used' len' tail' head') (delete index ch) /\
  forall x, x ∈ delete index ch ->
    option_map value (node_at ns' x) = option_map value (node_at (nodes s) x).
Proof.
  intros Hinv Hc Hn Hc' Hp Hx Hf Hl Hb Hnn Hlen Ht Hh.
  destruct (inv_slot _ _ _ _ Hinv Hc) as (n' & Hn' & _ & Hnp & Hnn').
  rewrite Hn in Hn'. injection Hn' as <-.
  assert (Hl1 : last (take index ch) = prev n).
  { rewrite Hnp. destruct index as [|i]; [reflexivity|].
    destruct (ch !! i) as [q|] eqn:Hq; [|apply lookup_ge_None in Hq; apply lookup_lt_Some in Hc; lia].
    rewrite (take_S_r _ _ _ Hq). apply last_snoc. }
  assert (Hl2 : drop (S index) ch !! 0 = next n) by (rewrite lookup_drop, Nat.add_0_r; auto).
  rewrite delete_take_drop in *.
  split.
  - apply (inv_remove s ch (take index ch) c (drop (S index) ch) ns' used' len' tail' head' Hinv
             (eq_sym (take_drop_middle _ _ _ Hc)) Hc').
    + rewrite Hl1, Hl2. exact Hp.
    + rewrite Hl1, Hl2. exact Hx.
    + rewrite Hl1, Hl2. exact Hf.
    + exact Hl.
    + exact Hb.
    + exact Hnn.
    + exact Hlen.
    + exact Ht.
    + exact Hh.
  - pose proof (inv_nodup _ _ Hinv) as Hnd. rewrite <- (take_drop_middle _ _ _ Hc) in Hnd.
    intros x Hxin.
    assert (Hxc : x <> c).
    { intros ->. apply NoDup_app in Hnd as (_ & Hd & H2). apply NoDup_cons in H2 as [H2 _].
      apply elem_of_app in Hxin as [Hx1|Hx1]; [exact (Hd c Hx1 ltac:(set_solver)) | exact (H2 Hx1)]. }
    destruct (decide (prev n = Some x)) as [E|E].
    + assert (Hxch : x ∈ ch).
      { rewrite E in Hl1. apply last_Some_elem_of in Hl1. rewrite <- (take_drop_middle _ _ _ Hc). set_solver. }
      destruct (proj2 (inv_live _ _ Hinv x) Hxch) as [m Hm].
      rewrite (Hp x m E Hm), Hm. reflexivity.
    + destruct (decide (next n = Some x)) as [E'|E'].
      * assert (Hxch : x ∈ ch).
        { rewrite <- Hl2 in E'. apply head_elem in E'. rewrite <- (take_drop_middle _ _ _ Hc). set_solver. }
        destruct (proj2 (inv_live _ _ Hinv x) Hxch) as [m Hm].
        rewrite (Hx x m E' Hm), Hm. reflexivity.
      * rewrite Hf by auto. reflexivity.
Qed.

Lemma used_after_remove s ch index c u' :
  Inv s ch -> ch !! index = Some c ->
  (forall j, Z.testbit u' (Z.of_nat j) =
             (Z.testbit (used s) (Z.of_nat j) && negb (j =? c) && (j <? 64))%bool) ->
  forall j, Z.testbit u' (Z.of_nat j) = bool_decide (j ∈ delete index ch).
Proof.
  intros Hinv Hc Hb j. rewrite Hb, (inv_used _ _ Hinv).
  assert (Hch : ch = take index ch ++ c :: drop (S index) ch) by (symmetry; apply take_drop_middle; exact Hc).
  pose proof (inv_nodup _ _ Hinv) as Hnd. rewrite Hch in Hnd.
  rewrite delete_take_drop.
  destruct (decide (j ∈ take index ch ++ drop (S index) ch)) as [Hj|Hj].
  - rewrite (bool_decide_true (j ∈ take index ch ++ drop (S index) ch)) by exact Hj.
    rewrite (bool_decide_true (j ∈ ch)) by (rewrite Hch; set_solver).
    assert (j <> c).
    { intros ->. apply NoDup_app in Hnd as (_ & Hd & H2). apply NoDup_cons in H2 as [H2 _].
      apply elem_of_app in Hj as [Hx1|Hx1]; [exact (Hd c Hx1 ltac:(set_solver)) | exact (H2 Hx1)]. }
    assert (j < 64).
    { assert (Hjin : j ∈ ch) by (rewrite Hch; set_solver).
      pose proof (inv_in_bounds _ _ _ Hinv Hjin). pose proof (inv_cap _ _ Hinv). lia. }
    destruct (Nat.eqb_spec j c); [contradiction|]. destruct (Nat.ltb_spec j 64); [reflexivity | lia].
  - rewrite (bool_decide_false (j ∈ take index ch ++ drop (S index) ch)) by exact Hj.
    destruct (decide (j = c)) as [->|Hne].
    + rewrite Nat.eqb_refl, andb_false_r. reflexivity.
    + rewrite (bool_decide_false (j ∈ ch)) by (rewrite Hch; set_solver). reflexivity.
Qed.

Lemma last_delete_inner ch index :
  S index < length ch -> last (delete index ch) = last ch.
Proof.
  intros Hi. rewrite !last_lookup, length_delete by (apply lookup_lt_is_Some; lia).
  rewrite list_lookup_delete_ge by lia. f_equal. lia.
Qed.

Lemma last_delete_end ch index :
  0 < index -> index = length ch - 1 -> last (delete index ch) = ch !! (index - 1).
Proof.
  intros H0 Hi. rewrite last_lookup, length_delete by (apply lookup_lt_is_Some; lia).
  rewrite list_lookup_delete_lt by lia. f_equal. lia.
Qed.

Lemma remove_spec s ch index :
  Inv s ch -> index < len s ->
  exists s', remove s index = Some (Ok tt, s') /\ Inv s' (delete index ch) /\
    forall x, x ∈ delete index ch ->
      option_map value (node_at (nodes s') x) = option_map value (node_at (nodes s) x).
Proof.
  intros Hinv Hi. pose proof (inv_len _ _ Hinv) as Hlen. pose proof (inv_nodup _ _ Hinv) as Hnd.
  destruct (ch !! index) as [c|] eqn:Hc; [|apply lookup_ge_None in Hc; lia].
  destruct (inv_slot _ _ _ _ Hinv Hc) as (n & Hn & Hni & Hnp & Hnn).
  assert (Hcin : c ∈ ch) by (eapply list_elem_of_lookup_2; exact Hc).
  assert (Hc64 : c < 64).
  { pose proof (inv_in_bounds _ _ _ Hinv Hcin). pose proof (inv_cap _ _ Hinv). lia. }
  destruct (remove_used_spec (used s) c Hc64 (inv_used_nonneg _ _ Hinv)) as (u' & Hu' & Hu'nn & Hu'b).
  pose proof (used_after_remove _ _ _ _ _ Hinv Hc Hu'b) as Hbits.
  assert (Hcl : c < length (nodes s)) by (eapply node_at_lt; eauto).
  unfold remove. destruct (Nat.leb_spec (len s) index) as [|_]; [lia|].
  destruct (Nat.eqb_spec (len s) 1) as [Hl1|Hl1].
  - (* the only element *)
    assert (index = 0) by lia. subst index.
    assert (Hh : head s = Some c) by (rewrite (inv_head _ _ Hinv); exact Hc).
    rewrite Hh. cbn [mbind option_bind]. rewrite Hn. cbn [mbind option_bind].
    rewrite Hni, Hu'. cbn [mbind option_bind].
    rewrite write_slot_ok by exact Hcl. cbn [mbind option_bind].
    destruct ch as [|c0 [|c1 ch']]; cbn in Hlen; try lia. cbn in Hc. injection Hc as ->.
    eexists. split; [reflexivity|].
    apply (unlink_inv s [c] 0 c n); cbn [nodes used len tail head]; auto; try lia.
    + apply node_at_insert_eq; exact Hcl.
    + intros p m Hp. cbn in Hnp. congruence.
    + intros x m Hx. cbn in Hnn. congruence.
    + intros i Hne _ _. apply node_at_insert_ne. congruence.
    + apply length_insert.
    + intros j. rewrite Z.testbit_0_l. cbn. rewrite bool_decide_false; [reflexivity | set_solver].
  - destruct (Nat.eqb_spec index 0) as [->|Hi0].
    + (* the head *)
      assert (Hh : head s = Some c) by (rewrite (inv_head _ _ Hinv); exact Hc).
      destruct ch as [|c0 [|x ch']]; cbn in Hlen; try lia. cbn in Hc. injection Hc as ->.
      cbn in Hnp, Hnn.
      destruct (inv_slot _ _ 1 x Hinv eq_refl) as (m & Hm & _ & _ & _).
      assert (Hxc : x <> c) by (intros ->; apply NoDup_cons in Hnd as [Hnd _]; set_solver).
      rewrite Hh. cbn [mbind option_bind]. rewrite Hn. cbn [mbind option_bind].
      rewrite Hnn. cbn [mbind option_bind]. rewrite (update_node_ok _ _ _ _ Hm).
      cbn [mbind option_bind]. rewrite Hni, Hu'. cbn [mbind option_bind].
      rewrite write_slot_ok by (rewrite length_insert; exact Hcl). cbn [mbind option_bind].
      eexists. split; [reflexivity|].
      apply (unlink_inv s (c :: x :: ch') 0 c n); cbn [nodes used len tail head]; auto; try lia.
      * apply node_at_insert_eq. rewrite length_insert. exact Hcl.
      * intros p m' Hp. congruence.
      * intros x' m' Hx' Hm'. rewrite Hnn in Hx'. injection Hx' as <-. rewrite Hm in Hm'.
        injection Hm' as <-. rewrite node_at_insert_ne by congruence.
        rewrite node_at_insert_eq by (eapply node_at_lt; eauto). rewrite Hnp. reflexivity.
      * intros i Hne Hp Hx'. rewrite !node_at_insert_ne by congruence. reflexivity.
      * rewrite !length_insert. reflexivity.
      * rewrite (inv_tail _ _ Hinv). cbn [delete list_delete]. apply last_cons_cons.
    + destruct (Nat.eqb_spec index (len s - 1)) as [Hie|Hie].
      * (* the tail *)
        assert (Ht : tail s = Some c).
        { rewrite (inv_tail _ _ Hinv), last_lookup, <- Hc. f_equal. lia. }
        destruct index as [|i']; [lia|].
        destruct (ch !! i') as [p|] eqn:Hp; [|apply lookup_ge_None in Hp; lia].
        assert (Hnn' : next n = None) by (rewrite Hnn; apply lookup_ge_None; lia).
        destruct (inv_slot _ _ _ _ Hinv Hp) as (m & Hm & _ & _ & _).
        assert (Hpc : p <> c) by (intros ->; pose proof (NoDup_lookup _ _ _ _ Hnd Hp Hc); lia).
        rewrite Ht. cbn [mbind option_bind]. rewrite Hn. cbn [mbind option_bind].
        rewrite Hnp. cbn [mbind option_bind]. rewrite (update_node_ok _ _ _ _ Hm).
        cbn [mbind option_bind]. rewrite Hni, Hu'. cbn [mbind option_bind].
        rewrite write_slot_ok by (rewrite length_insert; exact Hcl). cbn [mbind option_bind].
        eexists. split; [reflexivity|].
        apply (unlink_inv s ch (S i') c n); cbn [nodes used len tail head]; auto; try lia.
        -- apply node_at_insert_eq. rewrite length_insert. exact Hcl.
        -- intros p' m' Hp' Hm'. rewrite Hnp in Hp'. injection Hp' as <-. rewrite Hm in Hm'.
           injection Hm' as <-. rewrite node_at_insert_ne by congruence.
           rewrite node_at_insert_eq by (eapply node_at_lt; eauto). rewrite Hnn'. reflexivity.
        -- intros x m' Hx. congruence.
        -- intros i Hne Hp' _. rewrite !node_at_insert_ne by congruence. reflexivity.
        -- rewrite !length_insert. reflexivity.
        -- rewrite last_delete_end by lia. rewrite <- Hp. f_equal. lia.
        -- rewrite list_lookup_delete_lt by lia. exact (inv_head _ _ Hinv).
      * (* a middle node *)
        rewrite (seek_inv _ _ _ Hinv Hi), Hc. cbn [mbind option_bind]. rewrite Hn.
        cbn [mbind option_bind].
        destruct index as [|i']; [lia|].
        destruct (ch !! i') as [p|] eqn:Hp; [|apply lookup_ge_None in Hp; lia].
        destruct (ch !! S (S i')) as [x|] eqn:Hx; [|apply lookup_ge_None in Hx; lia].
        destruct (inv_slot _ _ _ _ Hinv Hp) as (mp & Hmp & _ & _ & _).
        destruct (inv_slot _ _ _ _ Hinv Hx) as (mx & Hmx & _ & _ & _).
        assert (Hpc : p <> c) by (intros ->; pose proof (NoDup_lookup _ _ _ _ Hnd Hp Hc); lia).
        assert (Hxc : x <> c) by (intros ->; pose proof (NoDup_lookup _ _ _ _ Hnd Hx Hc); lia).
        assert (Hxp : x <> p) by (intros ->; pose proof (NoDup_lookup _ _ _ _ Hnd Hx Hp); lia).
        rewrite Hnp, Hnn. cbn [mbind option_bind]. rewrite (update_node_ok _ _ _ _ Hmp).
        cbn [mbind option_bind].
        assert (Hmx' : node_at (<[p := Some (set_next (Some x) mp)]> (nodes s)) x = Some mx)
          by (rewrite node_at_insert_ne by congruence; exact Hmx).
        rewrite (update_node_ok _ _ _ _ Hmx'). cbn [mbind option_bind].
        rewrite Hni, Hu'. cbn [mbind option_bind].
        rewrite write_slot_ok by (rewrite !length_insert; exact Hcl). cbn [mbind option_bind].
        eexists. split; [reflexivity|].
        apply (unlink_inv s ch (S i') c n); cbn [nodes used len tail head]; auto; try lia.
        -- apply node_at_insert_eq. rewrite !length_insert. exact Hcl.
        -- intros p' m' Hp' Hm'. rewrite Hnp in Hp'. injection Hp' as <-. rewrite Hmp in Hm'.
           injection Hm' as <-. rewrite !node_at_insert_ne by congruence.
           rewrite node_at_insert_eq by (eapply node_at_lt; eauto). rewrite Hnn. reflexivity.
        -- intros x' m' Hx' Hm'. rewrite Hnn in Hx'. injection Hx' as <-. rewrite Hmx in Hm'.
           injection Hm' as <-. rewrite node_at_insert_ne by congruence.
           rewrite node_at_insert_eq by (rewrite length_insert; eapply node_at_lt; eauto).
           rewrite Hnp. reflexivity.
        -- intros i Hne Hp' Hx'. rewrite !node_at_insert_ne by congruence. reflexivity.
        -- rewrite !length_insert. reflexivity.
        -- rewrite last_delete_inner by lia. exact (inv_tail _ _ Hinv).
        -- rewrite list_lookup_delete_lt by lia. exact (inv_head _ _ Hinv).
Qed.

Lemma remove_inv s ch index r s' :
  Inv s ch -> remove s index = Some (r, s') -> exists ch', Inv s' ch'.
Proof.
  intros Hinv H. destruct (Nat.ltb_spec index (len s)) as [Hi|Hi].
  - destruct (remove_spec _ _ _ Hinv Hi) as (s'' & E & Hinv' & _). rewrite E in H.
    injection H as _ <-. exists (delete index ch). exact Hinv'.
  - unfold remove in H. destruct (Nat.leb_spec (len s) index) as [_|]; [|lia].
    injection H as _ <-. exists ch. exact Hinv.
Qed.

Lemma lstep_inv s ch o r s' :
  Inv s ch -> lstep s o = Some (r, s') -> exists ch', Inv s' ch'.
Proof.
  destruct o; cbn [lstep].
  - apply insert_head_inv.
  - apply insert_tail_inv.
  - apply insert_after_inv.
  - apply insert_before_inv.
  - apply remove_inv.
Qed.

(** ** The empty list *)

Lemma inv_empty k : k <= 63 -> Inv (empty (T:=T) k) [].
Proof.
  intros Hk. split; cbn; auto.
  - constructor.
  - intros i. unfold node_at. split; [|set_solver]. intros [n Hn].
    destruct (replicate k None !! i) as [[m|]|] eqn:E; try discriminate.
    apply lookup_replicate in E as [E _]. discriminate.
  - intros i. rewrite Z.testbit_0_l, bool_decide_false; [reflexivity | set_solver].
  - reflexivity.
  - unfold K. cbn. rewrite length_replicate. exact Hk.
Qed.

Lemma lrun_inv s ch ops rs s' :
  Inv s ch -> lrun s ops = Some (rs, s') -> exists ch', Inv s' ch'.
Proof.
  revert s ch rs. induction ops as [|o ops IH]; intros s0 ch rs Hinv H.
  - injection H as _ <-. eauto.
  - cbn [lrun] in H. apply bind_Some in H as ([r s1] & H1 & H).
    apply bind_Some in H as ([rs' s2] & H2 & H). injection H as _ <-.
    destruct (lstep_inv _ _ _ _ _ Hinv H1) as [ch1 Hinv1]. eapply IH; eauto.
Qed.

(** ** Relinking in sorted order *)

Lemma link_at_spec src pos :
  pos < length src ->
  link_at src (length src) pos =
    Some (match pos with O => None | S p' => src !! p' end, src !! S pos).
Proof.
  intros Hp. unfold link_at.
  assert (Hn : (if (pos + 1 =? length src)%nat then Some None
                else (x ← src !! (pos + 1); Some (Some x))) = Some (src !! S pos)).
  { destruct (Nat.eqb_spec (pos + 1) (length src)) as [E|E].
    - rewrite lookup_ge_None_2 by lia. reflexivity.
    - replace (pos + 1) with (S pos) by lia.
      destruct (lookup_lt_is_Some_2 src (S pos)) as [y Hy]; [lia|]. rewrite Hy. reflexivity. }
  rewrite Hn. destruct pos as [|p']; [reflexivity|].
  cbn [Nat.eqb]. replace (S p' - 1) with p' by lia.
  destruct (lookup_lt_is_Some_2 src p') as [y Hy]; [lia|]. rewrite Hy. reflexivity.
Qed.

Lemma relink_spec ns src pre rest :
  src = pre ++ rest -> NoDup src -> (forall i, i ∈ rest -> is_Some (node_at ns i)) ->
  exists ns', relink ns src (length src) (length pre) rest = Some ns' /\
    length ns' = length ns /\
    (forall i, i ∉ rest -> node_at ns' i = node_at ns i) /\
    (forall j i n, rest !! j = Some i -> node_at ns i = Some n ->
       node_at ns' i = Some (mk_node (value n) (index n)
         (match length pre + j with O => None | S p' => src !! p' end)
         (src !! S (length pre + j)))).
Proof.
  revert pre ns. induction rest as [|i rest IH]; intros pre ns Hsrc Hnd Hlive.
  - exists ns. repeat split; auto. intros j i n Hj. discriminate.
  - assert (Hin : (i ∉ rest) /\ (i ∉ pre)).
    { rewrite Hsrc in Hnd. apply NoDup_app in Hnd as (_ & Hd & Hc).
      apply NoDup_cons in Hc as [Hc _]. split; [exact Hc|]. intros Hp. exact (Hd i Hp ltac:(set_solver)). }
    destruct (Hlive i ltac:(set_solver)) as [n Hn].
    assert (Hpos : length pre < length src) by (rewrite Hsrc, length_app; cbn; lia).
    cbn [relink]. rewrite (link_at_spec _ _ Hpos). cbn [mbind option_bind].
    rewrite (update_node_ok _ _ _ _ Hn). cbn [mbind option_bind].
    set (ns1 := <[i := Some _]> ns).
    assert (Hcl : i < length ns) by (eapply node_at_lt; eauto).
    destruct (IH (pre ++ [i]) ns1) as (ns' & Hr & Hl & Hf & Hp).
    + rewrite Hsrc, <- app_assoc. reflexivity.
    + exact Hnd.
    + intros k Hk. unfold ns1. rewrite node_at_insert_ne by (intros ->; tauto). apply Hlive. set_solver.
    + rewrite length_app in Hr. cbn [length] in Hr. rewrite Nat.add_1_r in Hr.
      exists ns'. split; [exact Hr|]. split; [|split].
      * rewrite Hl. unfold ns1. apply length_insert.
      * intros k Hk. rewrite Hf by set_solver. unfold ns1. apply node_at_insert_ne. set_solver.
      * intros [|j] k m Hj Hm.
        -- cbn in Hj. injection Hj as <-. rewrite Hn in Hm. injection Hm as <-.
           rewrite Hf by tauto. unfold ns1. rewrite node_at_insert_eq by exact Hcl.
           rewrite Nat.add_0_r. reflexivity.
        -- cbn in Hj. assert (Hki : k <> i) by (intros ->; apply (proj1 Hin); eapply list_elem_of_lookup_2; eauto).
           rewrite (Hp j k m Hj) by (unfold ns1; rewrite node_at_insert_ne by congruence; exact Hm).
           rewrite length_app. cbn [length]. replace (length pre + 1 + j) with (length pre + S j) by lia.
           reflexivity.
Qed.

Lemma last_as_lookup (pre l : list nat) :
  last pre = match length pre with O => None | S j => (pre ++ l) !! j end.
Proof.
  destruct (length pre) as [|j] eqn:E.
  - apply nil_length_inv in E as ->. reflexivity.
  - rewrite last_lookup, E, lookup_app_l by lia. reflexivity.
Qed.

Lemma seg_of_links ns ch pre l :
  ch = pre ++ l ->
  (forall j i, ch !! j = Some i -> exists n, node_at ns i = Some n /\ node_index n = i /\
     prev n = (match j with O => None | S j' => ch !! j' end) /\ next n = ch !! S j) ->
  seg ns (last pre) l None.
Proof.
  revert pre. induction l as [|i l IH]; intros pre Hch Hlk; [exact I|].
  assert (Hj : ch !! length pre = Some i) by (rewrite Hch, lookup_app_r, Nat.sub_diag by lia; reflexivity).
  destruct (Hlk _ _ Hj) as (n & Hn & Hni & Hnp & Hnn).
  exists n. split; [exact Hn|]. split; [exact Hni|]. split; [|split].
  - rewrite Hnp, (last_as_lookup pre (i :: l)), Hch. reflexivity.
  - rewrite Hnn, Hch, lookup_app_r by lia. replace (S (length pre) - length pre) with 1 by lia.
    destruct l; reflexivity.
  - replace (Some i) with (last (pre ++ [i])) by apply last_snoc. apply IH; [rewrite Hch, <- app_assoc; reflexivity | exact Hlk].
Qed.

Lemma relink_inv s ch sorted :
  Inv s ch -> ch ≡ₚ sorted ->
  exists ns', relink (nodes s) sorted (len s) 0 sorted = Some ns' /\
    forall h t, sorted !! 0 = Some h -> last sorted = Some t ->
      Inv (mk_list ns' (used s) (len s) (Some t) (Some h)) sorted.
Proof.
  intros Hinv HP.
  assert (Hnd : NoDup sorted) by (rewrite <- HP; exact (inv_nodup _ _ Hinv)).
  assert (Hl : len s = length sorted) by (rewrite (inv_len _ _ Hinv); apply Permutation_length, HP).
  assert (Hnode : forall i, i ∈ sorted -> exists n, node_at (nodes s) i = Some n /\ node_index n = i).
  { intros i Hi. rewrite <- HP in Hi. apply list_elem_of_lookup in Hi as [j Hj].
    destruct (inv_slot _ _ _ _ Hinv Hj) as (n & Hn & Hni & _). eauto. }
  destruct (relink_spec (nodes s) sorted [] sorted eq_refl Hnd) as (ns' & Hr & Hlen & Hf & Hp).
  { intros i Hi. destruct (Hnode i Hi) as (n & Hn & _). rewrite Hn. eexists; reflexivity. }
  exists ns'. rewrite Hl. split; [exact Hr|]. intros h t Hh Ht.
  assert (Hlk : forall j i, sorted !! j = Some i -> exists n, node_at ns' i = Some n /\ node_index n = i /\
     prev n = (match j with O => None | S j' => sorted !! j' end) /\ next n = sorted !! S j).
  { intros j i Hj. destruct (Hnode i ltac:(eapply list_elem_of_lookup_2; eauto)) as (n & Hn & Hni).
    rewrite (Hp j i n Hj Hn). eexists. split; [reflexivity|]. cbn [length]. auto. }
  split; cbn [nodes used len tail head].
  - exact (seg_of_links ns' sorted [] sorted eq_refl Hlk).
  - exact Hnd.
  - reflexivity.
  - rewrite Hh. reflexivity.
  - rewrite Ht. reflexivity.
  - intros i. destruct (decide (i ∈ sorted)) as [Hi|Hi].
    + split; [intros _; exact Hi|]. intros _. apply list_elem_of_lookup in Hi as [j Hj].
      destruct (Hlk j i Hj) as (n & Hn & _). rewrite Hn. eexists; reflexivity.
    + rewrite Hf by exact Hi. rewrite (inv_live _ _ Hinv), HP. reflexivity.
  - intros i. rewrite (inv_used _ _ Hinv). apply bool_decide_ext. rewrite HP. reflexivity.
  - exact (inv_used_nonneg _ _ Hinv).
  - unfold K. cbn [nodes]. rewrite Hlen. exact (inv_cap _ _ Hinv).
Qed.

(** ** Collecting the slots and merge sorting them *)

Lemma collect_all_seg ns p l fuel x :
  seg ns p l None -> l !! 0 = Some x -> length l < fuel -> collect_all ns x fuel = Some l.
Proof.
  revert p fuel x. induction l as [|i l IH]; intros p fuel x Hs Hx Hf; [discriminate|].
  cbn in Hx. injection Hx as <-. destruct fuel as [|fuel]; [cbn in Hf; lia|].
  destruct Hs as (n & Hn & _ & _ & Hnn & Hs).
  cbn [collect_all]. rewrite Hn. cbn [mbind option_bind]. rewrite Hnn.
  destruct l as [|y l]; [reflexivity|]. cbn [hd_or].
  rewrite (IH (Some i) fuel y Hs eq_refl) by (cbn in Hf |- *; lia). reflexivity.
Qed.

Lemma collect_n_seg ns p l x :
  seg ns p l None -> l !! 0 = Some x -> collect_n ns x (length l) = Some l.
Proof.
  revert p x. induction l as [|i l IH]; intros p x Hs Hx; [discriminate|].
  cbn in Hx. injection Hx as <-.
  destruct Hs as (n & Hn & _ & _ & Hnn & Hs).
  cbn [collect_n length]. rewrite Hn. cbn [mbind option_bind]. rewrite Hnn.
  destruct l as [|y l]; [reflexivity|]. cbn [hd_or].
  rewrite (IH (Some i) y Hs eq_refl). reflexivity.
Qed.

Lemma merge_perm cmpi l : forall r m, merge cmpi l r = Some m -> l ++ r ≡ₚ m.
Proof.
  induction l as [|a l IH]; intros r m H.
  - destruct r; cbn in H; injection H as <-; reflexivity.
  - induction r as [|b r IHr] in m, H |- *.
    + cbn in H. injection H as <-. rewrite app_nil_r. reflexivity.
    + cbn in H. apply bind_Some in H as (c & _ & H).
      destruct c; apply bind_Some in H as (rest & Hr & H); injection H as <-.
      * constructor. apply IH. exact Hr.
      * constructor. apply IH. exact Hr.
      * rewrite <- (IHr rest Hr). symmetry. apply Permutation_middle.
Qed.

Lemma take2_drop (w : nat) (l : list nat) :
  take w l ++ take w (drop w l) ++ drop (2 * w) l = l.
Proof.
  replace (2 * w) with (w + w) by lia. rewrite <- drop_drop, !take_drop. reflexivity.
Qed.

Lemma merge_pass_perm cmpi w fuel : forall src m, merge_pass cmpi src w fuel = Some m -> src ≡ₚ m.
Proof.
  induction fuel as [|fuel IH]; intros src m H; cbn [merge_pass] in H.
  - injection H as <-. reflexivity.
  - destruct src as [|x src']; [injection H as <-; reflexivity|].
    apply bind_Some in H as (m1 & Hm1 & H). apply bind_Some in H as (rest & Hrest & H).
    injection H as <-. apply merge_perm in Hm1. apply IH in Hrest.
    rewrite <- Hm1, <- Hrest, <- app_assoc, take2_drop. reflexivity.
Qed.

Lemma merge_passes_perm cmpi fuel : forall src w n m,
  merge_passes cmpi src w n fuel = Some m -> src ≡ₚ m.
Proof.
  induction fuel as [|fuel IH]; intros src w n m H; cbn [merge_passes] in H.
  - injection H as <-. reflexivity.
  - destruct (w <? n)%nat.
    + apply bind_Some in H as (dst & Hd & H). rewrite (merge_pass_perm _ _ _ _ _ Hd). eapply IH; eauto.
    + injection H as <-. reflexivity.
Qed.

Lemma sort_by_std_inv sort s ch s' :
  (forall ns l l', sort ns l = Some l' -> l ≡ₚ l') ->
  Inv s ch -> sort_by_std sort s = Some s' -> exists ch', Inv s' ch'.
Proof.
  intros Hsort Hinv H. unfold sort_by_std in H.
  destruct (Nat.leb_spec (len s) 1) as [_|Hl]; [injection H as <-; eauto|].
  apply bind_Some in H as (h & Hh & H). apply bind_Some in H as (idx & Hidx & H).
  apply bind_Some in H as (sorted & Hs & H). apply bind_Some in H as (h' & Hh' & H).
  apply bind_Some in H as (t' & Ht' & H). apply bind_Some in H as (ns & Hns & H).
  injection H as <-.
  rewrite (inv_head _ _ Hinv) in Hh.
  pose proof (inv_len_le _ _ Hinv) as Hle. rewrite (inv_len _ _ Hinv) in Hle.
  rewrite (collect_all_seg _ _ _ _ _ (inv_seg _ _ Hinv) Hh) in Hidx by lia.
  injection Hidx as <-.
  destruct (relink_inv s ch sorted Hinv (Hsort _ _ _ Hs)) as (ns' & Hr & Hi).
  rewrite Hr in Hns. injection Hns as <-. eauto.
Qed.

Lemma sort_by_nostd_inv compare s ch s' :
  Inv s ch -> sort_by_nostd compare s = Some s' -> exists ch', Inv s' ch'.
Proof.
  intros Hinv H. unfold sort_by_nostd in H.
  destruct (Nat.leb_spec (len s) 1) as [_|Hl]; [injection H as <-; eauto|].
  apply bind_Some in H as (h & Hh & H). apply bind_Some in H as (src & Hsrc & H).
  apply bind_Some in H as (sorted & Hs & H). apply bind_Some in H as (h' & Hh' & H).
  apply bind_Some in H as (t' & Ht' & H). apply bind_Some in H as (ns & Hns & H).
  injection H as <-.
  rewrite (inv_head _ _ Hinv) in Hh. rewrite (inv_len _ _ Hinv) in Hsrc.
  rewrite (collect_n_seg _ _ _ _ (inv_seg _ _ Hinv) Hh) in Hsrc. injection Hsrc as <-.
  destruct (relink_inv s ch sorted Hinv (merge_passes_perm _ _ _ _ _ _ Hs)) as (ns' & Hr & Hi).
  rewrite Hr in Hns. injection Hns as <-. eauto.
Qed.

End Invariant.

(** ** What the inserts write *)

Section Inserts.
Context {T : Type}.
Implicit Types (ns : list (option (Node T))) (ch l : list nat) (s : SizedDoubleLinkedList T).

Lemma update_node_values ns ns' i f :
  update_node ns i f = Some ns' -> (forall n, value (f n) = value n) ->
  forall j, option_map value (node_at ns' j) = option_map value (node_at ns j).
Proof.
  intros H Hf j. destruct (update_node_spec _ _ _ _ H) as (n & Hn & Hn' & Hfr & _).
  destruct (decide (j = i)) as [->|Hne]; [rewrite Hn, Hn'; cbn; rewrite Hf; reflexivity|].
  rewrite Hfr by exact Hne. reflexivity.
Qed.

(** What a successful [insert_after] writes: the new value in slot
    [first_free], every other slot keeping its value. *)
Lemma insert_after_values s index v s' :
  insert_after s index v = Some (Ok tt, s') ->
  option_map value (node_at (nodes s') (first_free s)) = Some v /\
  forall j, j <> first_free s ->
    option_map value (node_at (nodes s') j) = option_map value (node_at (nodes s) j).
Proof.
  unfold insert_after.
  destruct (len s <=? index)%nat; [intros Hc; discriminate Hc|].
  destruct (is_full s); [intros Hc; discriminate Hc|]. intros H.
  apply bind_Some in H as (after & _ & H). cbv zeta in H.
  apply bind_Some in H as (an & _ & H).
  apply bind_Some in H as ([ns1 tail1] & Hm & H). cbv beta iota in H.
  apply bind_Some in H as (ns2 & H2 & H).
  apply bind_Some in H as (used1 & _ & H).
  apply bind_Some in H as (ns3 & H3 & H).
  injection H as <-. cbn [nodes].
  assert (E1 : forall j, option_map value (node_at ns1 j) = option_map value (node_at (nodes s) j)).
  { destruct (next an) as [y|].
    - apply bind_Some in Hm as (ns & Hu & Hm). injection Hm as <- <-.
      exact (update_node_values _ _ _ _ Hu (fun _ => eq_refl)).
    - injection Hm as <- <-. reflexivity. }
  pose proof (update_node_values _ _ _ _ H2 (fun _ => eq_refl)) as E2.
  destruct (write_slot_spec _ _ _ _ H3) as (_ & Hnew & Hf3 & _).
  split; [rewrite Hnew; reflexivity|].
  intros j Hj. rewrite Hf3 by exact Hj. rewrite E2. apply E1.
Qed.

Lemma insert_before_values s index v s' :
  insert_before s index v = Some (Ok tt, s') ->
  option_map value (node_at (nodes s') (first_free s)) = Some v /\
  forall j, j <> first_free s ->
    option_map value (node_at (nodes s') j) = option_map value (node_at (nodes s) j).
Proof.
  unfold insert_before.
  destruct (len s <? index)%nat; [intros Hc; discriminate Hc|].
  destruct (is_full s); [intros Hc; discriminate Hc|].
  destruct (index =? 0)%nat; [destruct (len s =? 0)%nat|]; intros H.
  - cbv zeta in H. apply bind_Some in H as (used1 & _ & H).
    apply bind_Some in H as (ns1 & H1 & H). injection H as <-. cbn [nodes].
    destruct (write_slot_spec _ _ _ _ H1) as (_ & Hnew & Hf1 & _).
    split; [rewrite Hnew; reflexivity|]. intros j Hj. rewrite Hf1 by exact Hj. reflexivity.
  - apply bind_Some in H as (old & _ & H). cbv zeta in H.
    apply bind_Some in H as (ns1 & H1 & H). apply bind_Some in H as (used1 & _ & H).
    apply bind_Some in H as (ns2 & H2 & H). injection H as <-. cbn [nodes].
    pose proof (update_node_values _ _ _ _ H1 (fun _ => eq_refl)) as E1.
    destruct (write_slot_spec _ _ _ _ H2) as (_ & Hnew & Hf2 & _).
    split; [rewrite Hnew; reflexivity|]. intros j Hj. rewrite Hf2 by exact Hj. apply E1.
  - apply bind_Some in H as (before & _ & H). cbv zeta in H.
    apply bind_Some in H as (bn & _ & H).
    apply bind_Some in H as ([ns1 head1] & Hm & H). cbv beta iota in H.
    apply bind_Some in H as (ns2 & H2 & H). apply bind_Some in H as (used1 & _ & H).
    apply bind_Some in H as (ns3 & H3 & H). injection H as <-. cbn [nodes].
    assert (E1 : forall j, option_map value (node_at ns1 j) = option_map value (node_at (nodes s) j)).
    { destruct (prev bn) as [p|].
      - apply bind_Some in Hm as (ns & Hu & Hm). injection Hm as <- <-.
        exact (update_node_values _ _ _ _ Hu (fun _ => eq_refl)).
      - injection Hm as <- <-. reflexivity. }
    pose proof (update_node_values _ _ _ _ H2 (fun _ => eq_refl)) as E2.
    destruct (write_slot_spec _ _ _ _ H3) as (_ & Hnew & Hf3 & _).
    split; [rewrite Hnew; reflexivity|].
    intros j Hj. rewrite Hf3 by exact Hj. rewrite E2. apply E1.
Qed.

Lemma insert_after_some s ch index v :
  Inv s ch -> exists r s', insert_after s index v = Some (r, s').
Proof.
  intros Hinv. unfold insert_after.
  destruct (Nat.leb_spec (len s) index) as [Hi|Hi]; [eauto|].
  destruct (is_full s) eqn:Hfull; [eauto|].
  pose proof (inv_room _ _ Hinv Hfull) as Hroom.
  destruct (first_free_spec _ _ Hinv Hroom) as (Hlt & Hfresh & _).
  pose proof (inv_cap _ _ Hinv) as Hk. pose proof (inv_nodup _ _ Hinv) as Hnd.
  destruct (add_used_spec (used s) (first_free s) ltac:(unfold K in *; lia)
              (inv_used_nonneg _ _ Hinv)) as (u & Hu & _).
  rewrite (seek_inv _ _ _ Hinv Hi).
  destruct (ch !! index) as [after|] eqn:Hseek;
    [|apply lookup_ge_None in Hseek; rewrite (inv_len _ _ Hinv) in Hi; lia].
  cbn [mbind option_bind]. cbv zeta.
  destruct (inv_slot _ _ _ _ Hinv Hseek) as (an & Han & _ & _ & Hanext).
  rewrite Han. cbn [mbind option_bind]. rewrite Hanext, Hu.
  unfold K in Hlt.
  destruct (ch !! S index) as [y|] eqn:Hy.
  - destruct (inv_slot _ _ _ _ Hinv Hy) as (yn & Hyn & _).
    assert (Hya : y <> after) by (intros ->; pose proof (NoDup_lookup _ _ _ _ Hnd Hseek Hy); lia).
    rewrite (update_node_ok _ _ _ _ Hyn). cbn [mbind option_bind].
    rewrite (update_node_ok _ _ _ an) by (rewrite node_at_insert_ne by exact Hya; exact Han).
    cbn [mbind option_bind]. rewrite write_slot_ok by (rewrite !length_insert; exact Hlt).
    eauto.
  - cbn [mbind option_bind]. rewrite (update_node_ok _ _ _ _ Han). cbn [mbind option_bind].
    rewrite write_slot_ok by (rewrite !length_insert; exact Hlt). eauto.
Qed.

Lemma insert_before_some s ch index v :
  Inv s ch -> (index <> len s \/ len s = 0 \/ is_full s = true) ->
  exists r s', insert_before s index v = Some (r, s').
Proof.
  intros Hinv Hcase. unfold insert_before.
  destruct (Nat.ltb_spec (len s) index) as [Hi|Hi]; [eauto|].
  destruct (is_full s) eqn:Hfull; [eauto|].
  pose proof (inv_room _ _ Hinv Hfull) as Hroom.
  destruct (first_free_spec _ _ Hinv Hroom) as (Hlt & Hfresh & _).
  pose proof (inv_cap _ _ Hinv) as Hk. pose proof (inv_nodup _ _ Hinv) as Hnd.
  pose proof (inv_len _ _ Hinv) as Hlen.
  destruct (add_used_spec (used s) (first_free s) ltac:(unfold K in *; lia)
              (inv_used_nonneg _ _ Hinv)) as (u & Hu & _).
  unfold K in Hlt.
  destruct (Nat.eqb_spec index 0) as [->|Hi0].
  - destruct (Nat.eqb_spec (len s) 0) as [Hl0|Hl0].
    + cbv zeta. rewrite Hu. cbn [mbind option_bind]. rewrite write_slot_ok by exact Hlt. eauto.
    + destruct ch as [|old ch']; [cbn in Hlen; lia|].
      rewrite (inv_head _ _ Hinv). cbn [lookup list_lookup mbind option_bind]. cbv zeta.
      destruct (inv_slot _ _ 0 old Hinv eq_refl) as (on & Hon & _).
      rewrite (update_node_ok _ _ _ _ Hon). cbn [mbind option_bind]. rewrite Hu.
      cbn [mbind option_bind]. rewrite write_slot_ok by (rewrite length_insert; exact Hlt). eauto.
  - assert (Hi' : index < len s) by (destruct Hcase as [H|[H|H]]; [lia|lia|congruence]).
    rewrite (seek_inv _ _ _ Hinv Hi').
    destruct (ch !! index) as [before|] eqn:Hseek; [|apply lookup_ge_None in Hseek; lia].
    cbn [mbind option_bind]. cbv zeta.
    destruct index as [|index']; [lia|].
    destruct (inv_slot _ _ _ _ Hinv Hseek) as (bn & Hbn & _ & Hbprev & _).
    rewrite Hbn. cbn [mbind option_bind]. rewrite Hbprev.
    destruct (ch !! index') as [p|] eqn:Hp; [|apply lookup_ge_None in Hp; lia].
    destruct (inv_slot _ _ _ _ Hinv Hp) as (pn & Hpn & _).
    assert (Hpb : p <> before) by (intros ->; pose proof (NoDup_lookup _ _ _ _ Hnd Hp Hseek); lia).
    rewrite (update_node_ok _ _ _ _ Hpn). cbn [mbind option_bind].
    rewrite (update_node_ok _ _ _ bn) by (rewrite node_at_insert_ne by exact Hpb; exact Hbn).
    cbn [mbind option_bind]. rewrite Hu. cbn [mbind option_bind].
    rewrite write_slot_ok by (rewrite !length_insert; exact Hlt). eauto.
Qed.


Lemma values_app ns l1 l2 :
  values ns (l1 ++ l2) = (a ← values ns l1; b ← values ns l2; Some (a ++ b)).
Proof.
  unfold values. induction l1 as [|x l1 IH]; cbn.
  - destruct (mapM _ l2); reflexivity.
  - destruct (node_at ns x); cbn; [|reflexivity]. rewrite IH.
    destruct (mapM _ l1); cbn; [|reflexivity]. destruct (mapM _ l2); reflexivity.
Qed.

Lemma values_length ns l vs : values ns l = Some vs -> length vs = length l.
Proof. intros H. apply mapM_Some in H. symmetry. exact (Forall2_length _ _ _ H). Qed.

Lemma insert_contents s ch k v s' :
  Inv s ch -> len s < K s -> k <= length ch ->
  Inv s' (take k ch ++ first_free s :: drop k ch) ->
  option_map value (node_at (nodes s') (first_free s)) = Some v ->
  (forall j, j <> first_free s ->
     option_map value (node_at (nodes s') j) = option_map value (node_at (nodes s) j)) ->
  exists vs, contents s = Some vs /\ contents s' = Some (take k vs ++ v :: drop k vs).
Proof.
  intros Hinv Hroom Hk Hinv' Hnew Hfr.
  destruct (first_free_spec _ _ Hinv Hroom) as (_ & Hfresh & _).
  remember (first_free s) as new eqn:Enew. clear Enew.
  destruct (contents_inv _ _ Hinv) as (vs & Hv & Hc).
  destruct (contents_inv _ _ Hinv') as (vs' & Hv' & Hc').
  exists vs. split; [exact Hc|]. rewrite Hc'. f_equal.
  rewrite <- (take_drop k ch), values_app in Hv.
  destruct (values (nodes s) (take k ch)) as [a|] eqn:Ha; [|discriminate].
  cbn in Hv. destruct (values (nodes s) (drop k ch)) as [b|] eqn:Hb; [|discriminate].
  cbn in Hv. injection Hv as <-.
  pose proof (values_length _ _ _ Ha) as La. rewrite length_take in La.
  rewrite take_app_length' by lia. rewrite drop_app_length' by lia.
  rewrite values_app in Hv'.
  rewrite (values_frame (nodes s) (nodes s') (take k ch)) in Hv'.
  2: { intros x Hx. apply Hfr. intros ->. apply Hfresh. rewrite <- (take_drop k ch). set_solver. }
  rewrite Ha in Hv'. cbn [mbind option_bind] in Hv'. unfold values at 1 in Hv'. cbn [mapM] in Hv'.
  destruct (node_at (nodes s') new) as [n|]; [|discriminate Hnew].
  cbn in Hnew. injection Hnew as Hnv. cbn [mbind option_bind] in Hv'.
  fold (values (nodes s') (drop k ch)) in Hv'.
  rewrite (values_frame (nodes s) (nodes s') (drop k ch)) in Hv'.
  2: { intros x Hx. apply Hfr. intros ->. apply Hfresh. rewrite <- (take_drop k ch). set_solver. }
  rewrite Hb in Hv'. cbn [mbind option_bind] in Hv'. rewrite Hnv in Hv'. injection Hv' as <-. reflexivity.
Qed.

Lemma insert_after_result s index v r s' :
  index < len s -> is_full s = false -> insert_after s index v = Some (r, s') -> r = Ok tt.
Proof.
  intros Hi Hf. unfold insert_after. destruct (Nat.leb_spec (len s) index) as [Hx|_]; [lia|]. rewrite Hf.
  intros H. apply bind_Some in H as (after & _ & H). cbv zeta in H.
  apply bind_Some in H as (an & _ & H).
  apply bind_Some in H as ([ns1 tail1] & _ & H). cbv beta iota in H.
  apply bind_Some in H as (ns2 & _ & H). apply bind_Some in H as (used1 & _ & H).
  apply bind_Some in H as (ns3 & _ & H). injection H as <-. reflexivity.
Qed.

Lemma insert_before_result s index v r s' :
  index <= len s -> is_full s = false -> insert_before s index v = Some (r, s') -> r = Ok tt.
Proof.
  intros Hi Hf. unfold insert_before. destruct (Nat.ltb_spec (len s) index) as [Hx|_]; [lia|]. rewrite Hf.
  destruct (index =? 0)%nat; [destruct (len s =? 0)%nat|]; intros H.
  - cbv zeta in H. apply bind_Some in H as (used1 & _ & H).
    apply bind_Some in H as (ns1 & _ & H). injection H as <-. reflexivity.
  - apply bind_Some in H as (old & _ & H). cbv zeta in H.
    apply bind_Some in H as (ns1 & _ & H). apply bind_Some in H as (used1 & _ & H).
    apply bind_Some in H as (ns2 & _ & H). injection H as <-. reflexivity.
  - apply bind_Some in H as (before & _ & H). cbv zeta in H.
    apply bind_Some in H as (bn & _ & H).
    apply bind_Some in H as ([ns1 head1] & _ & H). cbv beta iota in H.
    apply bind_Some in H as (ns2 & _ & H). apply bind_Some in H as (used1 & _ & H).
    apply bind_Some in H as (ns3 & _ & H). injection H as <-. reflexivity.
Qed.

(** A successful [insert_after] at [index] puts [v] at position [index + 1]. *)
Lemma insert_after_ok s ch index v :
  Inv s ch -> index < len s -> is_full s = false ->
  exists vs s', contents s = Some vs /\ insert_after s index v = Some (Ok tt, s') /\
    contents s' = Some (take (S index) vs ++ v :: drop (S index) vs) /\
    Inv s' (take (S index) ch ++ first_free s :: drop (S index) ch).
Proof.
  intros Hinv Hi Hf.
  destruct (insert_after_some _ _ index v Hinv) as (r & s' & E).
  pose proof (insert_after_result _ _ _ _ _ Hi Hf E) as ->.
  destruct (insert_after_chain _ _ _ _ _ _ Hinv E) as [(_ & _ & Hroom & Hinv')|[Hc _]];
    [|congruence].
  destruct (insert_after_values _ _ _ _ E) as (Hnew & Hfr).
  pose proof (inv_len _ _ Hinv) as Hl.
  destruct (insert_contents _ _ (S index) _ _ Hinv Hroom ltac:(lia) Hinv' Hnew Hfr) as (vs & Hc & Hc').
  exists vs, s'. eauto.
Qed.

Lemma insert_before_ok s ch index v :
  Inv s ch -> index <= len s -> is_full s = false -> (index < len s \/ len s = 0) ->
  exists vs s', contents s = Some vs /\ insert_before s index v = Some (Ok tt, s') /\
    contents s' = Some (take index vs ++ v :: drop index vs) /\
    Inv s' (take index ch ++ first_free s :: drop index ch).
Proof.
  intros Hinv Hi Hf Hcase.
  destruct (insert_before_some _ _ index v Hinv) as (r & s' & E); [lia|].
  pose proof (insert_before_result _ _ _ _ _ Hi Hf E) as ->.
  destruct (insert_before_chain _ _ _ _ _ _ Hinv E) as [(_ & _ & Hroom & Hinv')|[Hc _]];
    [|congruence].
  destruct (insert_before_values _ _ _ _ E) as (Hnew & Hfr).
  pose proof (inv_len _ _ Hinv) as Hl.
  destruct (insert_contents _ _ index _ _ Hinv Hroom ltac:(lia) Hinv' Hnew Hfr) as (vs & Hc & Hc').
  exists vs, s'. eauto.
Qed.

Lemma contents_length s ch vs : Inv s ch -> contents s = Some vs -> length vs = len s.
Proof.
  intros Hinv Hc. destruct (contents_inv _ _ Hinv) as (vs' & Hv & Hc').
  rewrite Hc in Hc'. injection Hc' as <-. rewrite (values_length _ _ _ Hv). symmetry. apply (inv_len _ _ Hinv).
Qed.

Lemma length_insert_at (vs : list T) k v : k <= length vs -> length (take k vs ++ v :: drop k vs) = S (length vs).
Proof. intros Hk. rewrite length_app, length_take, length_cons, length_drop. lia. Qed.

End Inserts.

(** ** Traversals, copies and reads *)

Section Traverse.
Context {T : Type}.
Implicit Types (ns : list (option (Node T))) (ch l : list nat) (s : SizedDoubleLinkedList T).

Lemma get_where_from_seg ns f p l x fuel vs :
  seg ns p l None -> l !! 0 = Some x -> length l < fuel -> values ns l = Some vs ->
  (r ← get_where_from ns f x fuel; Some (option_map value r)) = Some (List.find f vs).
Proof.
  revert p x fuel vs. induction l as [|i l IH]; intros p x fuel vs Hs Hx Hf Hv; [discriminate|].
  cbn in Hx. injection Hx as <-. destruct fuel as [|fuel]; [cbn in Hf; lia|].
  destruct Hs as (n & Hn & _ & _ & Hnn & Hs).
  unfold values in Hv. cbn [mapM] in Hv. rewrite Hn in Hv. cbn [mbind option_bind] in Hv.
  destruct (mapM _ l) as [vs'|] eqn:Hv'; [|discriminate]. injection Hv as <-.
  cbn [get_where_from]. rewrite Hn. cbn [mbind option_bind]. cbn [List.find].
  destruct (f (value n)); [reflexivity|]. rewrite Hnn.
  destruct l as [|y l].
  - cbn in Hv'. injection Hv' as <-. reflexivity.
  - cbn [hd_or]. apply (IH (Some i) y fuel vs' Hs eq_refl); [cbn in Hf |- *; lia | exact Hv'].
Qed.

Lemma seg_relabel ns ns' p l q :
  seg ns p l q ->
  (forall j n, j ∈ l -> node_at ns j = Some n -> exists n', node_at ns' j = Some n' /\
     index n' = index n /\ prev n' = prev n /\ next n' = next n) ->
  seg ns' p l q.
Proof.
  revert p. induction l as [|i l IH]; intros p Hs Hf; [exact I|].
  destruct Hs as (n & Hn & Hi & Hp & Hq & Hs).
  destruct (Hf i n ltac:(set_solver) Hn) as (n' & Hn' & E1 & E2 & E3).
  exists n'. unfold node_index in *. rewrite E1, E2, E3. repeat split; auto.
  apply IH; [exact Hs|]. intros j m Hj Hm. apply Hf; [set_solver | exact Hm].
Qed.

Lemma values_map ns ns' l vs (g : T -> T) :
  (forall j n, j ∈ l -> node_at ns j = Some n -> option_map value (node_at ns' j) = Some (g (value n))) ->
  values ns l = Some vs -> values ns' l = Some (map g vs).
Proof.
  unfold values. revert vs. induction l as [|i l IH]; intros vs Hf Hv.
  - injection Hv as <-. reflexivity.
  - cbn [mapM] in Hv |- *. destruct (node_at ns i) as [n|] eqn:Hn; [|discriminate].
    cbn [mbind option_bind] in Hv. destruct (mapM _ l) as [vs'|] eqn:Hv'; [|discriminate].
    injection Hv as <-. pose proof (Hf i n ltac:(set_solver) Hn) as Hi.
    destruct (node_at ns' i) as [n'|]; [|discriminate]. cbn in Hi. injection Hi as Hi.
    cbn [mbind option_bind].
    assert (Hf' : forall j m, j ∈ l -> node_at ns j = Some m ->
              option_map value (node_at ns' j) = Some (g (value m))).
    { intros j m Hj Hm. apply Hf; [set_solver | exact Hm]. }
    rewrite (IH vs' Hf' eq_refl). cbn. rewrite Hi. reflexivity.
Qed.

Lemma iter_from_seg ns f p l x fuel :
  seg ns p l None -> NoDup l -> l !! 0 = Some x -> length l < fuel ->
  exists ns', iter_from ns f x fuel = Some ns' /\ length ns' = length ns /\
    (forall j, j ∉ l -> ns' !! j = ns !! j) /\
    (forall j n, j ∈ l -> node_at ns j = Some n ->
       node_at ns' j = Some (mk_node (f (value n)) (index n) (prev n) (next n))).
Proof.
  revert ns p x fuel. induction l as [|i l IH]; intros ns p x fuel Hs Hnd Hx Hf; [discriminate|].
  cbn in Hx. injection Hx as <-. destruct fuel as [|fuel]; [cbn in Hf; lia|].
  apply NoDup_cons in Hnd as [Hil Hnd].
  destruct Hs as (n & Hn & Hi & Hp & Hnn & Hs).
  pose proof (node_at_lt _ _ _ Hn) as Hlt.
  set (n' := mk_node (f (value n)) (index n) (prev n) (next n)).
  set (ns1 := <[i := Some n']> ns).
  assert (Hfr1 : forall j, j <> i -> node_at ns1 j = node_at ns j).
  { intros j Hj. apply node_at_insert_ne. congruence. }
  replace (iter_from ns f i (S fuel))
    with (match next n with Some k => iter_from ns1 f k fuel | None => Some ns1 end)
    by (cbn [iter_from]; rewrite Hn; reflexivity).
  rewrite Hnn.
  destruct l as [|y l].
  - cbn [hd_or]. exists ns1. split; [reflexivity|]. split; [apply length_insert|]. split.
    + intros j Hj. apply list_lookup_insert_ne. set_solver.
    + intros j m Hj Hm. apply list_elem_of_singleton in Hj as ->. rewrite Hn in Hm. injection Hm as <-.
      apply node_at_insert_eq. exact Hlt.
  - cbn [hd_or].
    assert (Hs1 : seg ns1 (Some i) (y :: l) None).
    { apply (seg_frame ns); [exact Hs|]. intros j Hj. apply Hfr1. intros ->. contradiction. }
    destruct (IH ns1 (Some i) y fuel Hs1 Hnd eq_refl ltac:(cbn in Hf |- *; lia))
      as (ns' & E & Hl & Hout & Hin).
    exists ns'. split; [exact E|]. split; [rewrite Hl; apply length_insert|]. split.
    + intros j Hj. rewrite Hout by set_solver. apply list_lookup_insert_ne. set_solver.
    + intros j m Hj Hm. destruct (decide (j = i)) as [->|Hne].
      * rewrite Hn in Hm. injection Hm as <-. unfold node_at. rewrite (Hout i Hil).
        fold (node_at ns1 i). apply node_at_insert_eq. exact Hlt.
      * apply Hin; [set_solver|]. rewrite Hfr1 by exact Hne. exact Hm.
Qed.

End Traverse.

Section Copy.
Context {T : Type}.
Implicit Types (ns : list (option (Node T))) (ch l : list nat) (s : SizedDoubleLinkedList T).

Lemma update_node_K ns ns' i f : update_node ns i f = Some ns' -> length ns' = length ns.
Proof. unfold update_node. destruct (node_at ns i); cbn; [|discriminate]. intros [= <-]. apply length_insert. Qed.

Lemma write_slot_K ns ns' i x : write_slot ns i x = Some ns' -> length ns' = length ns.
Proof. unfold write_slot. destruct (i <? length ns)%nat; [|discriminate]. intros [= <-]. apply length_insert. Qed.

Lemma insert_after_K s index v r s' : insert_after s index v = Some (r, s') -> K s' = K s.
Proof.
  unfold insert_after, K.
  destruct (len s <=? index)%nat; [intros [= _ <-]; reflexivity|].
  destruct (is_full s); [intros [= _ <-]; reflexivity|]. intros H.
  apply bind_Some in H as (after & _ & H). cbv zeta in H.
  apply bind_Some in H as (an & _ & H).
  apply bind_Some in H as ([ns1 tail1] & Hm & H). cbv beta iota in H.
  apply bind_Some in H as (ns2 & H2 & H). apply bind_Some in H as (used1 & _ & H).
  apply bind_Some in H as (ns3 & H3 & H). injection H as _ <-. cbn [nodes].
  rewrite (write_slot_K _ _ _ _ H3), (update_node_K _ _ _ _ H2).
  destruct (next an).
  - apply bind_Some in Hm as (ns & Hu & Hm). injection Hm as <- <-. exact (update_node_K _ _ _ _ Hu).
  - injection Hm as <- <-. reflexivity.
Qed.

Lemma insert_before_K s index v r s' : insert_before s index v = Some (r, s') -> K s' = K s.
Proof.
  unfold insert_before, K.
  destruct (len s <? index)%nat; [intros [= _ <-]; reflexivity|].
  destruct (is_full s); [intros [= _ <-]; reflexivity|].
  destruct (index =? 0)%nat; [destruct (len s =? 0)%nat|]; intros H.
  - cbv zeta in H. apply bind_Some in H as (used1 & _ & H).
    apply bind_Some in H as (ns1 & H1 & H). injection H as _ <-. exact (write_slot_K _ _ _ _ H1).
  - apply bind_Some in H as (old & _ & H). cbv zeta in H.
    apply bind_Some in H as (ns1 & H1 & H). apply bind_Some in H as (used1 & _ & H).
    apply bind_Some in H as (ns2 & H2 & H). injection H as _ <-. cbn [nodes].
    rewrite (write_slot_K _ _ _ _ H2). exact (update_node_K _ _ _ _ H1).
  - apply bind_Some in H as (before & _ & H). cbv zeta in H.
    apply bind_Some in H as (bn & _ & H).
    apply bind_Some in H as ([ns1 head1] & Hm & H). cbv beta iota in H.
    apply bind_Some in H as (ns2 & H2 & H). apply bind_Some in H as (used1 & _ & H).
    apply bind_Some in H as (ns3 & H3 & H). injection H as _ <-. cbn [nodes].
    rewrite (write_slot_K _ _ _ _ H3), (update_node_K _ _ _ _ H2).
    destruct (prev bn).
    + apply bind_Some in Hm as (ns & Hu & Hm). injection Hm as <- <-. exact (update_node_K _ _ _ _ Hu).
    + injection Hm as <- <-. reflexivity.
Qed.

Lemma insert_tail_ok s ch v :
  Inv s ch -> is_full s = false ->
  exists vs s', contents s = Some vs /\ insert_tail s v = Some (Ok tt, s') /\
    contents s' = Some (vs ++ [v]) /\ Inv s' (ch ++ [first_free s]) /\ K s' = K s.
Proof.
  intros Hinv Hf. pose proof (inv_len _ _ Hinv) as Hl. unfold insert_tail.
  destruct (Nat.eqb_spec (len s) 0) as [H0|H0].
  - destruct (insert_before_ok _ _ 0 v Hinv ltac:(lia) Hf ltac:(lia)) as (vs & s' & Hc & E & Hc' & Hinv').
    pose proof (contents_length _ _ _ Hinv Hc) as Hlv.
    destruct ch; [|cbn in Hl; lia]. destruct vs; [|cbn in Hlv; lia].
    exists [], s'. split; [exact Hc|]. split; [exact E|]. split; [exact Hc'|].
    split; [exact Hinv' | exact (insert_before_K _ _ _ _ _ E)].
  - destruct (insert_after_ok _ _ (len s - 1) v Hinv ltac:(lia) Hf) as (vs & s' & Hc & E & Hc' & Hinv').
    pose proof (contents_length _ _ _ Hinv Hc) as Hlv.
    replace (S (len s - 1)) with (length vs) in Hc' by lia.
    replace (S (len s - 1)) with (length ch) in Hinv' by lia.
    rewrite firstn_all, drop_all in Hc'. rewrite firstn_all, drop_all in Hinv'.
    exists vs, s'. split; [exact Hc|]. split; [exact E|]. split; [exact Hc'|].
    split; [exact Hinv' | exact (insert_after_K _ _ _ _ _ E)].
Qed.

Lemma tz_from_least x i fuel j :
  (forall k, i <= k < j -> Z.testbit x (Z.of_nat k) = false) ->
  Z.testbit x (Z.of_nat j) = true -> i <= j < i + fuel -> tz_from x i fuel = j.
Proof.
  revert i. induction fuel as [|fuel IH]; intros i Hlow Hj Hr; [lia|].
  cbn [tz_from]. destruct (decide (i = j)) as [->|Hne]; [rewrite Hj; reflexivity|].
  rewrite Hlow by lia. apply IH; [intros k Hk; apply Hlow; lia | exact Hj | lia].
Qed.

Lemma first_free_seq s n : Inv s (seq 0 n) -> n < K s -> first_free s = n.
Proof.
  intros Hinv Hn. pose proof (inv_cap _ _ Hinv) as Hk. unfold first_free, trailing_zeros.
  apply tz_from_least; [| |lia].
  - intros k Hk'. rewrite testbit_u64_not by lia. rewrite (inv_used _ _ Hinv).
    rewrite bool_decide_true; [reflexivity|]. apply elem_of_seq. lia.
  - rewrite testbit_u64_not by lia. rewrite (inv_used _ _ Hinv).
    rewrite bool_decide_false; [reflexivity|]. rewrite elem_of_seq. lia.
Qed.

Lemma clone_from_seg (clone_t : T -> T) ns p l x fuel vs :
  seg ns p l None -> l !! 0 = Some x -> length l < fuel -> values ns l = Some vs ->
  forall nl n ws, Inv nl (seq 0 n) -> contents nl = Some ws -> n + length l <= K nl ->
  exists c, clone_from clone_t ns nl x fuel = Some c /\ Inv c (seq 0 (n + length l)) /\
    contents c = Some (ws ++ map clone_t vs) /\ K c = K nl.
Proof.
  revert p x fuel vs. induction l as [|i l IH]; intros p x fuel vs Hs Hx Hf Hv nl n ws Hinv Hc Hk;
    [discriminate|].
  cbn in Hx. injection Hx as <-. destruct fuel as [|fuel]; [cbn in Hf; lia|].
  destruct Hs as (n0 & Hn0 & _ & _ & Hnn & Hs).
  unfold values in Hv. cbn [mapM] in Hv. rewrite Hn0 in Hv. cbn [mbind option_bind] in Hv.
  destruct (mapM _ l) as [vs'|] eqn:Hv'; [|discriminate]. injection Hv as <-.
  pose proof (inv_len _ _ Hinv) as Hl. rewrite length_seq in Hl.
  assert (Hfull : is_full nl = false) by (unfold is_full; apply Nat.eqb_neq; cbn [length] in Hk; lia).
  destruct (insert_tail_ok _ _ (clone_t (value n0)) Hinv Hfull) as (ws0 & nl' & Hc0 & E & Hc' & Hinv' & HK).
  rewrite Hc in Hc0. injection Hc0 as <-.
  rewrite (first_free_seq _ _ Hinv) in Hinv' by (cbn [length] in Hk; lia).
  rewrite <- seq_S in Hinv'.
  cbn [clone_from]. rewrite Hn0. cbn [mbind option_bind]. rewrite E. cbn iota beta.
  rewrite Hnn. destruct l as [|y l].
  - cbn in Hv'. injection Hv' as <-. exists nl'. split; [reflexivity|].
    rewrite Nat.add_1_r. split; [exact Hinv'|]. split; [exact Hc'|exact HK].
  - cbn [hd_or].
    destruct (IH (Some i) y fuel vs' Hs eq_refl ltac:(cbn in Hf |- *; lia) Hv' nl' (S n) _ Hinv' Hc'
                ltac:(rewrite HK; cbn [length] in Hk |- *; lia)) as (c & Ec & Hinvc & Hcc & HKc).
    exists c. split; [exact Ec|]. split; [replace (n + length (i :: y :: l)) with (S n + length (y :: l)) by (cbn; lia); exact Hinvc|].
    split; [rewrite Hcc, <- app_assoc; reflexivity | congruence].
Qed.

End Copy.

(** * Quickselect and insertion sort on slot indices

    The index comparator [cmpi] compares the values [key a] and [key b] of
    the slots, for slots of [D]; [compare] is a total preorder. *)
Section Quickselect.
Context {A : Type} (compare : A -> A -> comparison) (key : nat -> A).
Hypothesis Hanti : forall a b, compare b a = CompOpp (compare a b).
Hypothesis Htrans : forall a b c, compare a b <> Gt -> compare b c <> Gt -> compare a c <> Gt.
Context (cmpi : nat -> nat -> option comparison) (D : list nat).
Hypothesis Hcmpi : forall a b, a ∈ D -> b ∈ D -> cmpi a b = Some (compare (key a) (key b)).

Definition ile (a b : nat) : Prop := compare (key a) (key b) <> Gt.

Lemma ile_refl a : ile a a.
Proof. unfold ile. pose proof (Hanti (key a) (key a)) as E. destruct (compare (key a) (key a)); cbn in E; congruence. Qed.

Lemma ile_trans a b c : ile a b -> ile b c -> ile a c.
Proof. unfold ile. apply Htrans. Qed.

Lemma not_Lt_ile a b : compare (key a) (key b) <> Lt -> ile b a.
Proof. unfold ile. rewrite (Hanti (key a) (key b)). destruct (compare (key a) (key b)); cbn; congruence. Qed.

Lemma Lt_ile a b : compare (key a) (key b) = Lt -> ile a b.
Proof. unfold ile. congruence. Qed.

Lemma Gt_ile a b : compare (key a) (key b) = Gt -> ile b a.
Proof. intros E. apply not_Lt_ile. congruence. Qed.

Definition below (arr : list nat) (k pv : nat) : Prop := forall x, arr !! k = Some x -> ile x pv.
Definition above (arr : list nat) (k pv : nat) : Prop := forall x, arr !! k = Some x -> ile pv x.

Lemma in_D (arr : list nat) k x : (forall y, y ∈ arr -> y ∈ D) -> arr !! k = Some x -> x ∈ D.
Proof. intros Hd Hk. apply Hd. eapply list_elem_of_lookup_2; eauto. Qed.

Lemma insert_perm (l : list nat) k a b : l !! k = Some b -> a :: l ≡ₚ b :: <[k := a]> l.
Proof.
  revert k. induction l as [|y l IH]; intros k Hk; [discriminate|].
  destruct k as [|k]; cbn in Hk |- *.
  - injection Hk as ->. apply perm_swap.
  - rewrite perm_swap, (IH k Hk). apply perm_swap.
Qed.

Lemma swap_spec (arr : list nat) i j :
  i < length arr -> j < length arr ->
  exists arr', swap arr i j = Some arr' /\ arr' ≡ₚ arr /\ length arr' = length arr /\
    forall k, arr' !! k = arr !! (if decide (k = i) then j else if decide (k = j) then i else k).
Proof.
  intros Hi Hj. destruct (lookup_lt_is_Some_2 arr i Hi) as [a Ha].
  destruct (lookup_lt_is_Some_2 arr j Hj) as [b Hb].
  unfold swap. rewrite Ha, Hb. cbn [mbind option_bind]. eexists. split; [reflexivity|].
  split; [|split].
  - destruct (decide (i = j)) as [<-|Hne].
    + rewrite Ha in Hb. injection Hb as <-. rewrite !list_insert_id by (rewrite ?list_lookup_insert_eq; auto). reflexivity.
    + symmetry. apply (Permutation_cons_inv (a := a)). rewrite (insert_perm arr j a b Hb).
      apply insert_perm. rewrite list_lookup_insert_ne by auto. exact Ha.
  - rewrite !length_insert. reflexivity.
  - intros k. destruct (decide (k = i)) as [->|Hki].
    + rewrite list_lookup_insert_eq by (rewrite length_insert; exact Hi). exact (eq_sym Hb).
    + rewrite list_lookup_insert_ne by auto. destruct (decide (k = j)) as [->|Hkj].
      * rewrite list_lookup_insert_eq by exact Hj. exact (eq_sym Ha).
      * rewrite list_lookup_insert_ne by auto. reflexivity.
Qed.

Lemma perm_in_D (arr arr0 : list nat) :
  arr ≡ₚ arr0 -> (forall y, y ∈ arr0 -> y ∈ D) -> forall y, y ∈ arr -> y ∈ D.
Proof. intros HP Hd y Hy. apply Hd. rewrite <- HP. exact Hy. Qed.

Lemma scan_up_spec (arr : list nat) pv i k0 fuel :
  (forall y, y ∈ arr -> y ∈ D) -> pv ∈ D -> i <= k0 -> k0 < length arr -> above arr k0 pv ->
  k0 - i < fuel ->
  exists i', scan_up cmpi arr pv i fuel = Some i' /\ i <= i' <= k0 /\
    (forall k, i <= k < i' -> below arr k pv) /\ above arr i' pv.
Proof.
  intros Hd Hpv. revert i. induction fuel as [|fuel IH]; intros i Hi Hk0 Hst Hf; [lia|].
  destruct (lookup_lt_is_Some_2 arr i ltac:(lia)) as [a Ha].
  cbn [scan_up]. rewrite Ha. cbn [mbind option_bind].
  rewrite (Hcmpi a pv (in_D _ _ _ Hd Ha) Hpv). cbn [mbind option_bind].
  destruct (compare (key a) (key pv)) eqn:E.
  - exists i. split; [reflexivity|]. split; [lia|]. split; [intros; lia|].
    intros x Hx. rewrite Ha in Hx. injection Hx as <-. apply not_Lt_ile. congruence.
  - assert (i <> k0) by (intros ->; pose proof (Hst a Ha) as H'; unfold ile in H';
      rewrite Hanti, E in H'; cbn in H'; congruence).
    destruct (IH (S i)) as (i' & Hr & Hb & Hlo & Hup); [lia|lia|exact Hst|lia|].
    exists i'. split; [exact Hr|]. split; [lia|]. split; [|exact Hup].
    intros k Hk x Hx. destruct (decide (k = i)) as [->|Hne].
    + rewrite Ha in Hx. injection Hx as <-. apply Lt_ile. exact E.
    + apply (Hlo k); [lia | exact Hx].
  - exists i. split; [reflexivity|]. split; [lia|]. split; [intros; lia|].
    intros x Hx. rewrite Ha in Hx. injection Hx as <-. apply not_Lt_ile. congruence.
Qed.

Lemma scan_down_S (arr : list nat) pv j fuel :
  scan_down cmpi arr pv j (S fuel) =
    (a ← arr !! j; c ← cmpi a pv;
     match c with
     | Gt => match j with O => Some O | S j' => scan_down cmpi arr pv j' fuel end
     | _ => Some j
     end).
Proof. reflexivity. Qed.

Lemma scan_down_spec (arr : list nat) pv j k0 fuel :
  (forall y, y ∈ arr -> y ∈ D) -> pv ∈ D -> k0 <= j -> j < length arr -> below arr k0 pv ->
  j - k0 < fuel ->
  exists j', scan_down cmpi arr pv j fuel = Some j' /\ k0 <= j' <= j /\
    (forall k, j' < k <= j -> above arr k pv) /\ below arr j' pv.
Proof.
  intros Hd Hpv. revert j. induction fuel as [|fuel IH]; intros j Hj Hjl Hst Hf; [lia|].
  destruct (lookup_lt_is_Some_2 arr j Hjl) as [a Ha].
  rewrite scan_down_S, Ha. cbn [mbind option_bind].
  rewrite (Hcmpi a pv (in_D _ _ _ Hd Ha) Hpv). cbn [mbind option_bind].
  destruct (compare (key a) (key pv)) eqn:E.
  1,2: exists j; split; [reflexivity|]; split; [lia|]; split; [intros; lia|];
    intros x Hx; rewrite Ha in Hx; injection Hx as <-; unfold ile; congruence.
  assert (j <> k0) by (intros ->; pose proof (Hst a Ha) as H'; unfold ile in H'; congruence).
  destruct j as [|j']; [lia|].
  destruct (IH j') as (j'' & Hr & Hb & Hhi & Hlo); [lia|lia|exact Hst|lia|].
  exists j''. split; [exact Hr|]. split; [lia|]. split; [|exact Hlo].
  intros k Hk x Hx. destruct (decide (k = S j')) as [->|Hne].
  - rewrite Ha in Hx. injection Hx as <-. apply Gt_ile. exact E.
  - apply (Hhi k); [lia | exact Hx].
Qed.

Lemma partition_loop_spec (arr0 : list nat) left right pv fuel :
  (forall y, y ∈ arr0 -> y ∈ D) -> pv ∈ D -> forall arr i j,
  arr ≡ₚ arr0 -> length arr = length arr0 ->
  (forall k, k < left \/ right < k -> arr !! k = arr0 !! k) ->
  left <= i -> j <= right -> right < length arr ->
  (forall k, left <= k < i -> below arr k pv) ->
  (forall k, j < k <= right -> above arr k pv) ->
  (exists k0, i <= k0 <= right /\ above arr k0 pv /\ (j < right \/ k0 < right)) ->
  (exists k0, left <= k0 <= j /\ below arr k0 pv) ->
  right - i < fuel ->
  exists arr' p, partition_loop cmpi arr pv i j fuel = Some (arr', p) /\
    arr' ≡ₚ arr0 /\ length arr' = length arr0 /\
    (forall k, k < left \/ right < k -> arr' !! k = arr0 !! k) /\
    left <= p <= j /\ p < right /\
    (forall k, left <= k <= p -> below arr' k pv) /\
    (forall k, p < k <= right -> above arr' k pv).
Proof.
  intros Hd0 Hpv. induction fuel as [|fuel IH]; intros arr i j HP Hl Hout Hi Hj Hr Hlo Hhi
    (ku & Hku & Hkua & Hkub) (kd & Hkd & Hkda) Hf; [lia|].
  assert (Hd : forall y, y ∈ arr -> y ∈ D) by exact (perm_in_D _ _ HP Hd0).
  destruct (scan_up_spec arr pv i ku (S (length arr)) Hd Hpv ltac:(lia) ltac:(lia) Hkua ltac:(lia))
    as (i' & Hsu & Hi' & Hlo' & Hup').
  destruct (scan_down_spec arr pv j kd (S (length arr)) Hd Hpv ltac:(lia) ltac:(lia) Hkda ltac:(lia))
    as (j' & Hsd & Hj' & Hhi' & Hdn').
  cbn [partition_loop]. rewrite Hsu. cbn [mbind option_bind]. rewrite Hsd. cbn [mbind option_bind].
  destruct (Nat.leb_spec j' i') as [Hji|Hji].
  - exists arr, j'. split; [reflexivity|]. split; [exact HP|]. split; [exact Hl|]. split; [exact Hout|].
    split; [lia|]. split; [lia|]. split.
    + intros k Hk. destruct (decide (k < i)); [apply Hlo; lia|].
      destruct (decide (k < i')); [apply Hlo'; lia|].
      assert (k = j') by lia. subst k. exact Hdn'.
    + intros k Hk. destruct (decide (j < k)); [apply Hhi; lia|]. apply Hhi'; lia.
  - destruct (swap_spec arr i' j' ltac:(lia) ltac:(lia)) as (arr1 & Hsw & HP1 & Hl1 & Hlk1).
    rewrite Hsw. cbn [mbind option_bind].
    destruct j' as [|j'']; [lia|].
    assert (Hsame : forall k, k <> i' -> k <> S j'' -> arr1 !! k = arr !! k).
    { intros k H1 H2. rewrite Hlk1. destruct (decide (k = i')); [congruence|].
      destruct (decide (k = S j'')); [congruence|reflexivity]. }
    assert (Hat_i : arr1 !! i' = arr !! S j'').
    { rewrite Hlk1. destruct (decide (i' = i')); [reflexivity|congruence]. }
    assert (Hat_j : arr1 !! S j'' = arr !! i').
    { rewrite Hlk1. destruct (decide (S j'' = i')); [lia|]. destruct (decide (S j'' = S j'')); [reflexivity|congruence]. }
    destruct (IH arr1 (S i') j'') as (arr' & p & Hrun & HP' & Hl' & Hout' & Hp1 & Hp2 & Hb & Ha);
      [rewrite HP1; exact HP | lia | | lia | lia | lia | | | | | lia |].
    + intros k Hk. rewrite Hsame by lia. apply Hout. exact Hk.
    + intros k Hk x Hx. destruct (decide (k = i')) as [->|Hne].
      * rewrite Hat_i in Hx. exact (Hdn' x Hx).
      * rewrite Hsame in Hx by lia. destruct (decide (k < i)); [apply (Hlo k); [lia|exact Hx]|].
        apply (Hlo' k); [lia|exact Hx].
    + intros k Hk x Hx. destruct (decide (k = S j'')) as [->|Hne].
      * rewrite Hat_j in Hx. exact (Hup' x Hx).
      * rewrite Hsame in Hx by lia. destruct (decide (j < k)); [apply (Hhi k); [lia|exact Hx]|].
        apply (Hhi' k); [lia|exact Hx].
    + exists (S j''). split; [lia|]. split; [|lia].
      intros x Hx. rewrite Hat_j in Hx. exact (Hup' x Hx).
    + exists i'. split; [lia|]. intros x Hx. rewrite Hat_i in Hx. exact (Hdn' x Hx).
    + exists arr', p. split; [exact Hrun|]. repeat split; auto; lia.
Qed.

Lemma partition_spec (arr : list nat) left right :
  (forall y, y ∈ arr -> y ∈ D) -> left < right -> right < length arr ->
  exists arr' p, partition cmpi arr left right = Some (arr', p) /\
    arr' ≡ₚ arr /\ length arr' = length arr /\
    (forall k, k < left \/ right < k -> arr' !! k = arr !! k) /\
    left <= p < right /\ exists pv, pv ∈ D /\
    (forall k, left <= k <= p -> below arr' k pv) /\
    (forall k, p < k <= right -> above arr' k pv).
Proof.
  intros Hd Hlr Hr. set (mid := (left + right) / 2).
  assert (Hmid : left <= mid < right).
  { unfold mid. split; [apply Nat.div_le_lower_bound|apply Nat.Div0.div_lt_upper_bound]; lia. }
  destruct (lookup_lt_is_Some_2 arr mid ltac:(lia)) as [pv Hpv].
  assert (HpvD : pv ∈ D) by exact (in_D _ _ _ Hd Hpv).
  assert (Hst : forall x, arr !! mid = Some x -> ile x pv /\ ile pv x).
  { intros x Hx. rewrite Hpv in Hx. injection Hx as <-. split; apply ile_refl. }
  destruct (partition_loop_spec arr left right pv (S (length arr)) Hd HpvD arr left right)
    as (arr' & p & Hrun & HP & Hl & Hout & Hp1 & Hp2 & Hb & Ha);
    [reflexivity | reflexivity | reflexivity | lia | lia | lia | intros; lia | intros; lia | | | lia |].
  - exists mid. split; [lia|]. split; [intros x Hx; apply (Hst x Hx)|lia].
  - exists mid. split; [lia|]. intros x Hx; apply (Hst x Hx).
  - exists arr', p. unfold partition. fold mid. rewrite Hpv. cbn [mbind option_bind].
    split; [exact Hrun|]. repeat split; auto; try lia. exists pv. auto.
Qed.

(** Positions inside [[l, r]] of a permutation that leaves the outside in
    place hold values from inside [[l, r]]. *)
Lemma seg_transfer (arr arr1 : list nat) l r :
  arr1 ≡ₚ arr -> length arr1 = length arr ->
  (forall k, k < l \/ r < k -> arr1 !! k = arr !! k) -> l <= r -> r < length arr ->
  forall b y, l <= b <= r -> arr1 !! b = Some y -> exists b0, l <= b0 <= r /\ arr !! b0 = Some y.
Proof.
  intros HP Hl Hout Hlr Hr b y Hb Hy.
  set (M := fun l0 : list nat => take (S r - l) (drop l l0)).
  assert (Hsplit : forall l0, l0 = take l l0 ++ M l0 ++ drop (S r) l0).
  { intros l0. unfold M. cbv beta. rewrite <- (take_drop l l0) at 1. f_equal.
    replace (drop (S r) l0) with (drop (S r - l) (drop l l0)) by (rewrite drop_drop; f_equal; lia).
    symmetry. apply take_drop. }
  assert (Ht : take l arr1 = take l arr).
  { apply list_eq. intros k. rewrite !lookup_take.
    destruct (decide (k < l)); [apply Hout; lia | reflexivity]. }
  assert (Hdr : drop (S r) arr1 = drop (S r) arr).
  { apply list_eq. intros k. rewrite !lookup_drop. apply Hout. lia. }
  assert (HM : M arr1 ≡ₚ M arr).
  { pose proof HP as HP'. rewrite (Hsplit arr1), (Hsplit arr), Ht, Hdr in HP'.
    apply Permutation_app_inv_l in HP'. apply Permutation_app_inv_r in HP'. exact HP'. }
  assert (Hyin : y ∈ M arr1).
  { apply list_elem_of_lookup_2 with (b - l). unfold M. cbv beta.
    rewrite lookup_take_lt by lia. rewrite lookup_drop. replace (l + (b - l)) with b by lia. exact Hy. }
  rewrite HM in Hyin. apply list_elem_of_lookup in Hyin as [i Hi].
  pose proof (lookup_lt_Some _ _ _ Hi) as Hil. unfold M in Hil, Hi. cbv beta in Hil, Hi.
  rewrite length_take in Hil. rewrite lookup_take_lt in Hi by lia. rewrite lookup_drop in Hi.
  exists (l + i). split; [lia | exact Hi].
Qed.

Lemma select_loop_spec (arr0 : list nat) sel fuel :
  (forall y, y ∈ arr0 -> y ∈ D) -> forall arr left right,
  arr ≡ₚ arr0 -> length arr = length arr0 ->
  left <= sel <= right -> right < length arr ->
  (forall a b x y, a < left <= b -> arr !! a = Some x -> arr !! b = Some y -> ile x y) ->
  (forall a b x y, a <= right < b -> arr !! a = Some x -> arr !! b = Some y -> ile x y) ->
  right - left < fuel ->
  exists arr', select_loop cmpi arr sel left right fuel = Some arr' /\
    arr' ≡ₚ arr0 /\ length arr' = length arr0 /\
    (forall a b x y, a <= sel < b -> arr' !! a = Some x -> arr' !! b = Some y -> ile x y).
Proof.
  intros Hd0. induction fuel as [|fuel IH]; intros arr left right HP Hl Hsel Hr Hc Hdd Hf; [lia|].
  assert (Hd : forall y, y ∈ arr -> y ∈ D) by exact (perm_in_D _ _ HP Hd0).
  cbn [select_loop]. destruct (Nat.ltb_spec left right) as [Hlr|Hlr].
  2: { exists arr. split; [reflexivity|]. split; [exact HP|]. split; [exact Hl|].
       intros a b x y Hab. apply Hdd. lia. }
  destruct (partition_spec arr left right Hd Hlr Hr)
    as (arr1 & p & Hpart & HP1 & Hl1 & Hout & Hp & pv & Hpv & Hbl & Hab).
  rewrite Hpart. cbn [mbind option_bind].
  pose proof (seg_transfer arr arr1 left right HP1 Hl1 Hout ltac:(lia) Hr) as Htr.
  (* the invariants after the partition, for the two halves *)
  assert (Hc1 : forall a b x y, a < left <= b -> arr1 !! a = Some x -> arr1 !! b = Some y -> ile x y).
  { intros a b x y Hab' Hx Hy. rewrite Hout in Hx by lia.
    destruct (decide (b <= right)).
    - destruct (Htr b y ltac:(lia) Hy) as (b0 & Hb0 & Hy0). exact (Hc a b0 x y ltac:(lia) Hx Hy0).
    - rewrite Hout in Hy by lia. exact (Hc a b x y ltac:(lia) Hx Hy). }
  assert (Hd1 : forall a b x y, a <= right < b -> arr1 !! a = Some x -> arr1 !! b = Some y -> ile x y).
  { intros a b x y Hab' Hx Hy. rewrite Hout in Hy by lia.
    destruct (decide (left <= a)).
    - destruct (Htr a x ltac:(lia) Hx) as (a0 & Ha0 & Hx0). exact (Hdd a0 b x y ltac:(lia) Hx0 Hy).
    - rewrite Hout in Hx by lia. exact (Hdd a b x y ltac:(lia) Hx Hy). }
  assert (Hmid : forall a b x y, a <= p < b -> b <= right -> arr1 !! a = Some x -> arr1 !! b = Some y -> ile x y).
  { intros a b x y Hab' Hbr Hx Hy. destruct (decide (left <= a)).
    - apply ile_trans with pv; [exact (Hbl a ltac:(lia) x Hx) | exact (Hab b ltac:(lia) y Hy)].
    - exact (Hc1 a b x y ltac:(lia) Hx Hy). }
  assert (HP1' : arr1 ≡ₚ arr0) by (rewrite HP1; exact HP).
  destruct (Nat.leb_spec sel p) as [Hsp|Hsp].
  - assert (Hd2 : forall a b x y, a <= p < b -> arr1 !! a = Some x -> arr1 !! b = Some y -> ile x y).
    { intros a b x y Hab' Hx Hy. destruct (decide (b <= right)).
      - exact (Hmid a b x y Hab' ltac:(lia) Hx Hy).
      - exact (Hd1 a b x y ltac:(lia) Hx Hy). }
    destruct (Nat.eqb_spec p 0) as [Hp0|Hp0].
    + exists arr1. split; [reflexivity|]. split; [exact HP1'|]. split; [lia|].
      intros a b x y Hab'. apply Hd2. lia.
    + apply (IH arr1 left p); auto; lia.
  - apply (IH arr1 (S p) right); auto; try lia.
    intros a b x y Hab' Hx Hy. destruct (decide (a < left)).
    + exact (Hc1 a b x y ltac:(lia) Hx Hy).
    + destruct (decide (b <= right)).
      * exact (Hmid a b x y ltac:(lia) ltac:(lia) Hx Hy).
      * exact (Hd1 a b x y ltac:(lia) Hx Hy).
Qed.

(** ** Insertion sort *)

Lemma Sorted_insert_mid (P Q : list nat) x :
  Sorted ile (P ++ Q) -> (forall y, last P = Some y -> ile y x) ->
  (forall q, Q !! 0 = Some q -> ile x q) -> Sorted ile (P ++ x :: Q).
Proof.
  induction P as [|p P IH]; intros HS Hl Hh; cbn in *.
  - constructor; [exact HS|]. destruct Q as [|q Q]; constructor. apply Hh. reflexivity.
  - apply Sorted_inv in HS as [HS HR]. constructor.
    + apply IH; [exact HS | | exact Hh]. intros y Hy. apply Hl. rewrite last_cons, Hy. reflexivity.
    + destruct P as [|p' P]; cbn in *.
      * constructor. apply Hl. reflexivity.
      * inversion HR; subst. constructor. assumption.
Qed.

Lemma swap_adjacent (P W : list nat) y x :
  swap (P ++ y :: x :: W) (S (length P)) (length P) = Some (P ++ x :: y :: W).
Proof.
  unfold swap. rewrite !lookup_app_r by lia.
  replace (S (length P) - length P) with 1 by lia. rewrite Nat.sub_diag. cbn [lookup list_lookup mbind option_bind].
  rewrite !insert_app_r_alt by lia. replace (S (length P) - length P) with 1 by lia.
  rewrite Nat.sub_diag. reflexivity.
Qed.

Lemma sink_spec fuel : forall P Q R x,
  (forall y, y ∈ P ++ x :: Q -> y ∈ D) ->
  Sorted ile (P ++ Q) -> (forall q, Q !! 0 = Some q -> compare (key x) (key q) = Lt) ->
  length P < fuel ->
  exists S', sink cmpi (P ++ x :: Q ++ R) (length P) fuel = Some (S' ++ R) /\
    Sorted ile S' /\ S' ≡ₚ P ++ x :: Q.
Proof.
  induction fuel as [|fuel IH]; intros P Q R x Hd HS Hh Hf; [lia|].
  destruct P as [|y P _] using rev_ind.
  - exists (x :: Q). split; [reflexivity|]. split; [|reflexivity].
    cbn in HS. apply (Sorted_insert_mid [] Q x HS); [discriminate|]. intros q Hq. apply Lt_ile. auto.
  - rewrite length_app in Hf |- *. cbn [length] in Hf |- *. rewrite Nat.add_1_r. cbn [sink].
    assert (Hlx : (P ++ [y]) ++ x :: Q ++ R = P ++ y :: x :: Q ++ R) by (rewrite <- app_assoc; reflexivity).
    rewrite Hlx. rewrite (lookup_app_r P _ (S (length P))), (lookup_app_r P _ (length P)) by lia.
    rewrite Nat.sub_succ_l, Nat.sub_diag by lia. cbn [lookup list_lookup mbind option_bind].
    rewrite Hcmpi by (apply Hd; set_solver). cbn [mbind option_bind].
    destruct (compare (key x) (key y)) eqn:E.
    1,3: exists ((P ++ [y]) ++ x :: Q); split; [rewrite <- !app_assoc; reflexivity|];
      split; [|reflexivity];
      apply (Sorted_insert_mid (P ++ [y]) Q x); [exact HS | |];
      [intros y' Hy'; rewrite last_snoc in Hy'; injection Hy' as <-; apply not_Lt_ile; congruence
      | intros q Hq; apply Lt_ile; auto].
    rewrite swap_adjacent. cbn [mbind option_bind].
    destruct (IH P (y :: Q) R x) as (S' & Hrun & HS' & HP');
      [intros z Hz; apply Hd; set_solver | rewrite <- app_assoc in HS; exact HS
      | intros q Hq; injection Hq as <-; exact E | lia |].
    exists S'. split; [exact Hrun|]. split; [exact HS'|].
    rewrite HP', <- app_assoc. cbn. apply Permutation_app_head. apply perm_swap.
Qed.

Lemma insertion_sort_spec count : forall Sp R,
  (forall y, y ∈ Sp ++ R -> y ∈ D) -> Sorted ile Sp -> count <= length R ->
  exists Sp', insertion_sort cmpi (Sp ++ R) (length Sp) count = Some (Sp' ++ drop count R) /\
    Sorted ile Sp' /\ Sp' ≡ₚ Sp ++ take count R.
Proof.
  induction count as [|count IH]; intros Sp R Hd HS Hc.
  - exists Sp. split; [reflexivity|]. split; [exact HS|]. rewrite take_0, app_nil_r. reflexivity.
  - destruct R as [|x R]; cbn in Hc; [lia|].
    cbn [insertion_sort].
    destruct (sink_spec (S (length Sp)) Sp [] R x) as (S1 & Hrun & HS1 & HP1);
      [intros z Hz; apply Hd; set_solver | rewrite app_nil_r; exact HS | discriminate | lia |].
    cbn [app] in Hrun. rewrite Hrun. cbn [mbind option_bind].
    destruct (IH S1 R) as (S2 & Hrun2 & HS2 & HP2);
      [intros z Hz; apply Hd; rewrite elem_of_app in Hz |- *; destruct Hz as [Hz|Hz];
        [rewrite HP1 in Hz; set_solver | set_solver] | exact HS1 | lia |].
    replace (length S1) with (S (length Sp)) in Hrun2
      by (rewrite (Permutation_length HP1), length_app; cbn; lia).
    exists S2. split; [exact Hrun2|]. split; [exact HS2|].
    rewrite HP2, HP1. cbn. rewrite <- app_assoc. reflexivity.
Qed.

End Quickselect.

(** ** [select_n_first_by] returns the smallest values, sorted *)

Section Select.
Context {T : Type} (compare : T -> T -> comparison).
Hypothesis Hanti : forall a b, compare b a = CompOpp (compare a b).
Hypothesis Htrans : forall a b c, compare a b <> Gt -> compare b c <> Gt -> compare a c <> Gt.

(** The value in slot [idx], or [v0] for a slot that holds none. *)
Definition key_of (s : SizedDoubleLinkedList T) (v0 : T) (idx : nat) : T :=
  match node_at (nodes s) idx with Some n => value n | None => v0 end.

Lemma values_key s ch v0 l :
  Inv s ch -> (forall i, i ∈ l -> i ∈ ch) ->
  mapM (fun idx => n ← node_at (nodes s) idx; Some (value n)) l = Some (map (key_of s v0) l).
Proof.
  intros Hinv. induction l as [|i l IH]; intros Hl; [reflexivity|].
  assert (Hi : i ∈ ch) by (apply Hl; set_solver).
  apply (inv_live _ _ Hinv) in Hi as [n Hn].
  cbn [mapM]. rewrite Hn. cbn [mbind option_bind].
  rewrite IH by (intros j Hj; apply Hl; set_solver).
  cbn [mbind option_bind map]. unfold key_of. rewrite Hn. reflexivity.
Qed.

Lemma cmp_key s ch v0 a b :
  Inv s ch -> a ∈ ch -> b ∈ ch ->
  cmp_indices compare (nodes s) a b = Some (compare (key_of s v0 a) (key_of s v0 b)).
Proof.
  intros Hinv Ha Hb.
  apply (inv_live _ _ Hinv) in Ha as [na Ha]. apply (inv_live _ _ Hinv) in Hb as [nb Hb].
  unfold cmp_indices, key_of. rewrite Ha, Hb. reflexivity.
Qed.

Lemma Sorted_ile_map (key : nat -> T) l :
  Sorted (ile compare key) l -> Sorted (fun x y => compare x y <> Gt) (map key l).
Proof.
  induction 1 as [|a l Hl IH Hhd]; cbn [map]; constructor; [exact IH|].
  destruct Hhd as [|b l' Hb]; cbn [map]; constructor. exact Hb.
Qed.

Lemma Sorted_weaken_in {X} (R R' : X -> X -> Prop) (l : list X) :
  (forall a b, a ∈ l -> b ∈ l -> R a b -> R' a b) -> Sorted R l -> Sorted R' l.
Proof.
  intros HR Hs. revert HR. induction Hs as [|a l Hl IH Hhd]; intros HR; constructor.
  - apply IH. intros x y Hx Hy. apply HR; set_solver.
  - destruct Hhd as [|b l' Hb]; constructor. apply HR; [set_solver | set_solver | exact Hb].
Qed.

(** Every value kept is at most every value left out, when the kept slots
    are a permutation of the first [t] slots of [arr] and these are at most
    the others. *)
Lemma kept_le_rest key (arr sorted : list nat) t :
  (forall a b x y, a < t <= b -> arr !! a = Some x -> arr !! b = Some y -> ile compare key x y) ->
  sorted ≡ₚ take t arr ->
  forall x y, x ∈ map key sorted -> y ∈ map key (drop t arr) -> compare x y <> Gt.
Proof.
  intros Hp Hs x y Hx Hy.
  apply list_elem_of_In, in_map_iff in Hx as (a & <- & Ha).
  apply list_elem_of_In, in_map_iff in Hy as (b & <- & Hb).
  apply list_elem_of_In in Ha, Hb. rewrite Hs in Ha.
  apply list_elem_of_lookup in Ha as [i Hi]. apply list_elem_of_lookup in Hb as [j Hj].
  apply lookup_take_Some in Hi as [Hi Hit]. rewrite lookup_drop in Hj.
  exact (Hp i (t + j) a b ltac:(lia) Hi Hj).
Qed.

Lemma Sorted_take1 {X} (R : X -> X -> Prop) (l : list X) : Sorted R (take 1 l).
Proof. destruct l; cbn; repeat constructor. Qed.

Lemma select_nostd_correct (s : SizedDoubleLinkedList T) ch N :
  Inv s ch ->
  exists r rest vs, contents s = Some vs /\
    select_n_first_by_nostd N compare s = Some (to_option_array N r) /\
    length r = Nat.min N (len s) /\ r ++ rest ≡ₚ vs /\
    Sorted (fun x y => compare x y <> Gt) r /\
    (forall x y, x ∈ r -> y ∈ rest -> compare x y <> Gt).
Proof.
  intros Hinv. pose proof (inv_len _ _ Hinv) as Hlen.
  destruct (contents_inv s ch Hinv) as (vs & Hv & Hc).
  unfold select_n_first_by_nostd.
  destruct (Nat.eqb_spec (len s) 0) as [H0|H0];
    [|destruct (Nat.eqb_spec N 0) as [HN|HN]]; cbn [orb].
  1,2: exists [], vs, vs; split; [exact Hc|]; split;
       [unfold to_option_array; cbn [length map app]; rewrite Nat.sub_0_r; reflexivity|];
       split; [cbn [length]; lia|]; split; [reflexivity|]; split; [constructor|];
       intros x y Hx; set_solver.
  destruct (ch !! 0) as [h|] eqn:Eh; [|apply lookup_ge_None in Eh; lia].
  rewrite (inv_head _ _ Hinv), Eh. cbn [mbind option_bind].
  assert (Hcol : collect_n (nodes s) h (len s) = Some ch)
    by (rewrite Hlen; exact (collect_n_seg _ _ _ _ (inv_seg _ _ Hinv) Eh)).
  rewrite Hcol. cbn [mbind option_bind]. cbv zeta.
  destruct (inv_slot _ _ _ _ Hinv Eh) as (nh & _).
  set (key := key_of s (value nh)).
  set (cmpi := cmp_indices compare (nodes s)).
  assert (Hcmp : forall a b, a ∈ ch -> b ∈ ch -> cmpi a b = Some (compare (key a) (key b)))
    by (intros a b Ha Hb; exact (cmp_key s ch (value nh) a b Hinv Ha Hb)).
  set (target := Nat.min N (len s)).
  assert (Ht : 1 <= target <= length ch) by (unfold target; lia).
  assert (Harr1 : exists arr1,
    (if (1 <? len s)%nat then select_loop cmpi ch (target - 1) 0 (len s - 1) (len s)
     else Some ch) = Some arr1 /\
    arr1 ≡ₚ ch /\ length arr1 = length ch /\
    forall a b x y, a < target <= b -> arr1 !! a = Some x -> arr1 !! b = Some y ->
      ile compare key x y).
  { destruct (Nat.ltb_spec 1 (len s)) as [H1|H1].
    - destruct (select_loop_spec compare key Hanti Htrans cmpi ch Hcmp ch (target - 1) (len s)
        (fun y Hy => Hy) ch 0 (len s - 1)) as (arr1 & E & HP & Hl & Hord);
        [reflexivity | reflexivity | lia | lia | lia |
         intros a b x y Hab Hx Hy; apply lookup_lt_Some in Hy; lia | lia |].
      exists arr1. split; [exact E|]. split; [exact HP|]. split; [exact Hl|].
      intros a b x y Hab. apply Hord. lia.
    - exists ch. split; [reflexivity|]. split; [reflexivity|]. split; [reflexivity|].
      intros a b x y Hab Hx Hy. apply lookup_lt_Some in Hy. lia. }
  destruct Harr1 as (arr1 & E1 & HP1 & Hl1 & Hord1). rewrite E1. cbn [mbind option_bind].
  assert (Hd1 : forall y, y ∈ arr1 -> y ∈ ch) by (intros y Hy; rewrite <- HP1; exact Hy).
  assert (Harr2 : exists arr2,
    (if (1 <? target)%nat then insertion_sort cmpi arr1 1 (target - 1) else Some arr1) = Some arr2 /\
    take target arr2 ≡ₚ take target arr1 /\ drop target arr2 = drop target arr1 /\
    Sorted (ile compare key) (take target arr2)).
  { destruct (Nat.ltb_spec 1 target) as [H1|H1].
    - destruct (insertion_sort_spec compare key Hanti Htrans cmpi ch Hcmp (target - 1)
        (take 1 arr1) (drop 1 arr1)) as (Sp & E & HS & HP);
        [rewrite take_drop; exact Hd1 | apply Sorted_take1 | rewrite length_drop; lia |].
      rewrite take_drop in E.
      replace (length (take 1 arr1)) with 1 in E by (rewrite length_take; lia).
      rewrite take_take_drop in HP. replace (1 + (target - 1)) with target in HP by lia.
      assert (HlS : length Sp = target)
        by (rewrite (Permutation_length HP), length_take; lia).
      exists (Sp ++ drop (target - 1) (drop 1 arr1)). split; [exact E|].
      rewrite take_app_length' by (symmetry; exact HlS). split; [exact HP|]. split; [|exact HS].
      rewrite drop_app_length' by (symmetry; exact HlS). rewrite drop_drop. f_equal. lia.
    - exists arr1. split; [reflexivity|]. split; [reflexivity|]. split; [reflexivity|].
      replace target with 1 by lia. apply Sorted_take1. }
  destruct Harr2 as (arr2 & E2 & HP2 & Hdr2 & HS2). rewrite E2. cbn [mbind option_bind].
  assert (Hd2 : forall y, y ∈ take target arr2 -> y ∈ ch)
    by (intros y Hy; rewrite HP2 in Hy; apply Hd1; apply elem_of_take in Hy as (i & Hi & _); exact (list_elem_of_lookup_2 _ _ _ Hi)).
  rewrite (values_key s ch (value nh) _ Hinv Hd2). cbn [mbind option_bind].
  exists (map key (take target arr2)), (map key (drop target arr2)), vs.
  split; [exact Hc|]. split; [reflexivity|]. split.
  { rewrite length_map, (Permutation_length HP2), length_take. unfold target. lia. }
  split.
  { rewrite <- map_app, take_drop.
    replace vs with (map key ch).
    - apply Permutation_map. transitivity arr1; [|exact HP1].
      rewrite <- (take_drop target arr2), <- (take_drop target arr1), HP2, Hdr2. reflexivity.
    - unfold values in Hv. rewrite (values_key s ch (value nh) ch Hinv (fun y Hy => Hy)) in Hv.
      injection Hv as <-. reflexivity. }
  split; [exact (Sorted_ile_map key _ HS2)|].
  rewrite Hdr2. exact (kept_le_rest key arr1 _ target Hord1 HP2).
Qed.

(** The standard library's contract of [select_nth_unstable_by]: the
    result is a permutation, and when [k] is in bounds the element at [k]
    is at least all before it and at most all after it. *)
Definition select_contract
    (select : (nat -> nat -> option comparison) -> nat -> list nat -> option (list nat)) : Prop :=
  forall cmpi k l l', select cmpi k l = Some l' -> l' ≡ₚ l /\
    (k < length l -> exists m, l' !! k = Some m /\
       (forall a x, a < k -> l' !! a = Some x -> cmpi x m <> Some Gt) /\
       (forall b y, k < b -> l' !! b = Some y -> cmpi m y <> Some Gt)).

(** The standard library's contract of [sort_unstable_by]: a permutation,
    sorted ascending. *)
Definition sort_contract
    (sort : (nat -> nat -> option comparison) -> list nat -> option (list nat)) : Prop :=
  forall cmpi l l', sort cmpi l = Some l' -> l' ≡ₚ l /\ Sorted (fun a b => cmpi a b <> Some Gt) l'.

Lemma select_std_correct select sort (s : SizedDoubleLinkedList T) ch N r :
  Inv s ch -> select_contract select -> sort_contract sort ->
  select_n_first_by_std select sort N compare s = Some r ->
  exists rest vs, contents s = Some vs /\ length r = Nat.min N (len s) /\ r ++ rest ≡ₚ vs /\
    Sorted (fun x y => compare x y <> Gt) r /\
    (forall x y, x ∈ r -> y ∈ rest -> compare x y <> Gt).
Proof.
  intros Hinv Hsel Hsort. pose proof (inv_len _ _ Hinv) as Hlen.
  destruct (contents_inv s ch Hinv) as (vs & Hv & Hc).
  unfold select_n_first_by_std.
  destruct (Nat.eqb_spec (len s) 0) as [H0|H0];
    [|destruct (Nat.eqb_spec N 0) as [HN|HN]]; cbn [orb].
  1,2: intros E; injection E as <-; exists vs, vs; split; [exact Hc|];
       split; [cbn [length]; lia|]; split; [reflexivity|]; split; [constructor|];
       intros x y Hx; set_solver.
  destruct (ch !! 0) as [h|] eqn:Eh; [|apply lookup_ge_None in Eh; lia].
  rewrite (inv_head _ _ Hinv), Eh. cbn [mbind option_bind].
  rewrite (collect_all_seg _ _ _ _ _ (inv_seg _ _ Hinv) Eh)
    by (pose proof (inv_len_le _ _ Hinv); lia).
  cbn [mbind option_bind]. cbv zeta.
  destruct (inv_slot _ _ _ _ Hinv Eh) as (nh & _).
  set (key := key_of s (value nh)).
  set (cmpi := cmp_indices compare (nodes s)).
  assert (Hcmp : forall a b, a ∈ ch -> b ∈ ch -> cmpi a b = Some (compare (key a) (key b)))
    by (intros a b Ha Hb; exact (cmp_key s ch (value nh) a b Hinv Ha Hb)).
  assert (Hle : forall a b, a ∈ ch -> b ∈ ch -> cmpi a b <> Some Gt -> ile compare key a b).
  { intros a b Ha Hb Hn E. apply Hn. rewrite (Hcmp a b Ha Hb), E. reflexivity. }
  set (target := Nat.min N (len s)).
  assert (Ht : 1 <= target <= length ch) by (unfold target; lia).
  assert (Harr1 : forall arr1,
    (if (target <? len s)%nat then select cmpi (target - 1) ch else Some ch) = Some arr1 ->
    arr1 ≡ₚ ch /\ length arr1 = length ch /\
    forall a b x y, a < target <= b -> arr1 !! a = Some x -> arr1 !! b = Some y ->
      ile compare key x y).
  { intros arr1 E1. destruct (Nat.ltb_spec target (len s)) as [Hlt|Hge].
    - destruct (Hsel cmpi (target - 1) ch arr1 E1) as [HP Hm].
      destruct Hm as (m & Hm & Hb & Ha); [lia|].
      split; [exact HP|]. split; [exact (Permutation_length HP)|].
      assert (Hmch : m ∈ ch) by (rewrite <- HP; exact (list_elem_of_lookup_2 _ _ _ Hm)).
      intros a b x y Hab Hx Hy.
      assert (Hx' : x ∈ ch) by (rewrite <- HP; exact (list_elem_of_lookup_2 _ _ _ Hx)).
      assert (Hy' : y ∈ ch) by (rewrite <- HP; exact (list_elem_of_lookup_2 _ _ _ Hy)).
      apply (ile_trans compare key Htrans x m y).
      + destruct (decide (a = target - 1)) as [->|Hne].
        * rewrite Hm in Hx. injection Hx as <-. exact (ile_refl compare key Hanti m).
        * apply Hle; [exact Hx' | exact Hmch |]. exact (Hb a x ltac:(lia) Hx).
      + apply Hle; [exact Hmch | exact Hy' |]. exact (Ha b y ltac:(lia) Hy).
    - injection E1 as <-. split; [reflexivity|]. split; [reflexivity|].
      intros a b x y Hab Hx Hy. apply lookup_lt_Some in Hy. lia. }
  destruct (if (target <? len s)%nat then select cmpi (target - 1) ch else Some ch)
    as [arr1|] eqn:E1; cbn [mbind option_bind]; [|discriminate].
  destruct (Harr1 arr1 eq_refl) as (HP1 & Hl1 & Hord1).
  destruct (sort cmpi (take target arr1)) as [sorted|] eqn:E2; cbn [mbind option_bind];
    [|discriminate].
  destruct (Hsort _ _ _ E2) as [HP2 HS2].
  assert (Hd2 : forall y, y ∈ sorted -> y ∈ ch).
  { intros y Hy. rewrite HP2 in Hy. apply elem_of_take in Hy as (i & Hi & _).
    rewrite <- HP1. exact (list_elem_of_lookup_2 _ _ _ Hi). }
  rewrite (values_key s ch (value nh) _ Hinv Hd2). intros E. injection E as <-.
  exists (map key (drop target arr1)), vs. split; [exact Hc|]. split.
  { rewrite length_map, (Permutation_length HP2), length_take. unfold target. lia. }
  split.
  { rewrite <- map_app. replace vs with (map key ch).
    - apply Permutation_map. rewrite HP2, take_drop. exact HP1.
    - unfold values in Hv. rewrite (values_key s ch (value nh) ch Hinv (fun y Hy => Hy)) in Hv.
      injection Hv as <-. reflexivity. }
  split.
  { apply Sorted_ile_map. refine (Sorted_weaken_in _ _ _ _ HS2).
    intros a b Ha Hb. apply Hle; auto. }
  exact (kept_le_rest key arr1 sorted target Hord1 HP2).
Qed.

End Select.

Lemma nat_compare_anti : forall a b, Nat.compare b a = CompOpp (Nat.compare a b).
Proof. intros a b. apply Nat.compare_antisym. Qed.

Lemma nat_compare_trans :
  forall a b c, Nat.compare a b <> Gt -> Nat.compare b c <> Gt -> Nat.compare a c <> Gt.
Proof. intros a b c. rewrite !Nat.compare_gt_iff. lia. Qed.

(** A three-element list with one free slot, as built by three [insert_tail]s. *)
Definition three : SizedDoubleLinkedList nat :=
  Eval vm_compute in
  match build 4 [InsertTail 1; InsertTail 2; InsertTail 3] with Some s => s | None => empty 4 end.

Lemma three_inv : Inv three [0; 1; 2].
Proof.
  split.
  - cbn. repeat match goal with
    | |- exists _, _ => eexists
    | |- _ /\ _ => split
    | |- True => exact I
    | |- _ = _ => reflexivity
    end.
  - apply (bool_decide_unpack _). vm_compute. reflexivity.
  - reflexivity.
  - reflexivity.
  - reflexivity.
  - intros i. destruct (decide (i < 4)) as [Hi|Hi].
    + do 4 (destruct i as [|i]; [apply (bool_decide_unpack _); vm_compute; reflexivity|]). lia.
    + unfold node_at. rewrite (lookup_ge_None_2 _ i) by (cbn; lia).
      split; [intros [? H]; discriminate|]. intros H. apply list_elem_of_In in H. cbn in H. lia.
  - intros i. destruct (decide (i < 4)) as [Hi|Hi].
    + do 4 (destruct i as [|i]; [apply (bool_decide_unpack _); vm_compute; reflexivity|]). lia.
    + cbn [used three]. rewrite Z.bits_above_log2 by (cbn; lia).
      symmetry. apply bool_decide_false. intros H. apply list_elem_of_In in H. cbn in H. lia.
  - cbn. lia.
  - cbn. lia.
Qed.

(** C5: every mutating operation of the arena list keeps its structural
    invariant [Inv]: bit [i] of [used] is set exactly when slot [i] holds a
    live node; [head] and [tail] are the first and last slots of the chain
    and [None] exactly when [len = 0]; following [next] from [head] visits
    [len] distinct live slots, all of them, ends at [tail] and then [None];
    [prev] links the same chain backwards.  This holds for [insert_head],
    [insert_tail], [insert_after], [insert_before] and [remove] (the steps
    [lstep]), for the [no-std] [sort_by], and for the default [sort_by] given
    any [sort_unstable_by] that returns a permutation of its input. *)
Theorem mutations_preserve_invariant {T} (s : SizedDoubleLinkedList T) ch :
  Inv s ch ->
  (forall o r s', lstep s o = Some (r, s') -> exists ch', Inv s' ch') /\
  (forall sort s', (forall ns l l', sort ns l = Some l' -> l ≡ₚ l') ->
     sort_by_std sort s = Some s' -> exists ch', Inv s' ch') /\
  (forall compare s', sort_by_nostd compare s = Some s' -> exists ch', Inv s' ch').
Proof.
  intros Hinv. split; [|split].
  - intros o r s' H. exact (lstep_inv _ _ _ _ _ Hinv H).
  - intros sort s' Hsort H. exact (sort_by_std_inv _ _ _ _ Hsort Hinv H).
  - intros compare s' H. exact (sort_by_nostd_inv _ _ _ _ Hinv H).
Qed.

Lemma mutations_preserve_invariant_witness :
  Inv three [0; 1; 2] /\
  ((forall o r s', lstep three o = Some (r, s') -> exists ch', Inv s' ch') /\
   (forall sort s', (forall ns l l', sort ns l = Some l' -> l ≡ₚ l') ->
      sort_by_std sort three = Some s' -> exists ch', Inv s' ch') /\
   (forall compare s', sort_by_nostd compare three = Some s' -> exists ch', Inv s' ch')).
Proof.
  split; [exact three_inv|]. apply (mutations_preserve_invariant three [0; 1; 2]). exact three_inv.
Defined.

(** C6: removing a valid position [index < len] of a list succeeds, deletes
    exactly the element at that position and keeps the others in order; the
    length drops by one, so the sole element of a one-element list leaves an
    empty list. *)
Theorem remove_deletes_position {T} (s : SizedDoubleLinkedList T) ch index :
  Inv s ch -> index < len s ->
  exists s' vs, remove s index = Some (Ok tt, s') /\ contents s = Some vs /\
    contents s' = Some (delete index vs) /\ len s' = len s - 1.
Proof.
  intros Hinv Hi.
  destruct (remove_spec s ch index Hinv Hi) as (s' & E & Hinv' & Hfr).
  destruct (contents_inv s ch Hinv) as (vs & Hv & Hc).
  destruct (contents_inv s' _ Hinv') as (vs' & Hv' & Hc').
  exists s', vs. split; [exact E|]. split; [exact Hc|]. split.
  - rewrite Hc'. f_equal. rewrite (values_frame _ _ _ Hfr) in Hv'.
    unfold values in Hv, Hv'. apply mapM_Some in Hv.
    pose proof (mapM_Some_2 _ _ _ (Forall2_delete _ _ _ index Hv)) as Hd. congruence.
  - rewrite (inv_len _ _ Hinv'), (inv_len _ _ Hinv), length_delete; [reflexivity|].
    apply lookup_lt_is_Some. rewrite <- (inv_len _ _ Hinv). exact Hi.
Qed.

Lemma remove_deletes_position_witness :
  Inv three [0; 1; 2] /\ 1 < len three /\
  exists s' vs, remove three 1 = Some (Ok tt, s') /\ contents three = Some vs /\
    contents s' = Some (delete 1 vs) /\ len s' = len three - 1.
Proof.
  split; [exact three_inv|]. split; [vm_compute; lia|].
  apply (remove_deletes_position three [0; 1; 2] 1); [exact three_inv | vm_compute; lia].
Defined.

(** The same on concrete lists: removing the head, the tail, a middle
    element and the sole element. *)
Example remove_positions :
  (s ← build 10 [InsertTail 1; InsertTail 2; InsertTail 3; Remove 0]; contents s) = Some [2; 3] /\
  (s ← build 10 [InsertTail 1; InsertTail 2; InsertTail 3; Remove 2]; contents s) = Some [1; 2] /\
  (s ← build 10 [InsertTail 1; InsertTail 2; InsertTail 3; Remove 1]; contents s) = Some [1; 3] /\
  (s ← build 10 [InsertTail 1; Remove 0]; Some (len s, contents s)) = Some (0, Some []).
Proof. vm_compute. repeat split. Qed.

(** C7: for a comparator that is a total preorder ([compare b a] is the
    opposite of [compare a b], and "not [Greater]" is transitive),
    [select_n_first_by::<N>] returns [min N len] values of the list that are
    sorted ascending and at most every value left out: together with the
    values left out ([rest]) they are a permutation of the list's contents.
    In the [no-std] build the result is always produced and is the array
    whose first [min N len] entries are [Some] of these values, in order,
    and whose remaining entries are [None]; in the default build this holds
    for every result, given the standard library's contracts of
    [select_nth_unstable_by] and [sort_unstable_by].  Both take [&self] and
    return only the result: the list is not changed. *)
Theorem select_n_first_by_smallest {T} (compare : T -> T -> comparison)
    (s : SizedDoubleLinkedList T) ch N :
  Inv s ch ->
  (forall a b, compare b a = CompOpp (compare a b)) ->
  (forall a b c, compare a b <> Gt -> compare b c <> Gt -> compare a c <> Gt) ->
  (exists r rest vs, contents s = Some vs /\
     select_n_first_by_nostd N compare s = Some (to_option_array N r) /\
     length r = Nat.min N (len s) /\ r ++ rest ≡ₚ vs /\
     Sorted (fun x y => compare x y <> Gt) r /\
     (forall x y, x ∈ r -> y ∈ rest -> compare x y <> Gt)) /\
  (forall select sort r, select_contract select -> sort_contract sort ->
     select_n_first_by_std select sort N compare s = Some r ->
     exists rest vs, contents s = Some vs /\
       length r = Nat.min N (len s) /\ r ++ rest ≡ₚ vs /\
       Sorted (fun x y => compare x y <> Gt) r /\
       (forall x y, x ∈ r -> y ∈ rest -> compare x y <> Gt)).
Proof.
  intros Hinv Hanti Htrans. split.
  - exact (select_nostd_correct compare Hanti Htrans s ch N Hinv).
  - intros select sort r Hsel Hsort E.
    exact (select_std_correct compare Hanti Htrans select sort s ch N r Hinv Hsel Hsort E).
Qed.

Lemma select_n_first_by_smallest_witness :
  Inv three [0; 1; 2] /\
  (forall a b, Nat.compare b a = CompOpp (Nat.compare a b)) /\
  (forall a b c, Nat.compare a b <> Gt -> Nat.compare b c <> Gt -> Nat.compare a c <> Gt) /\
  ((exists r rest vs, contents three = Some vs /\
     select_n_first_by_nostd 2 Nat.compare three = Some (to_option_array 2 r) /\
     length r = Nat.min 2 (len three) /\ r ++ rest ≡ₚ vs /\
     Sorted (fun x y => Nat.compare x y <> Gt) r /\
     (forall x y, x ∈ r -> y ∈ rest -> Nat.compare x y <> Gt)) /\
   (forall select sort r, select_contract select -> sort_contract sort ->
     select_n_first_by_std select sort 2 Nat.compare three = Some r ->
     exists rest vs, contents three = Some vs /\
       length r = Nat.min 2 (len three) /\ r ++ rest ≡ₚ vs /\
       Sorted (fun x y => Nat.compare x y <> Gt) r /\
       (forall x y, x ∈ r -> y ∈ rest -> Nat.compare x y <> Gt))).
Proof.
  split; [exact three_inv|]. split; [exact nat_compare_anti|].
  split; [exact nat_compare_trans|].
  apply (select_n_first_by_smallest Nat.compare three [0; 1; 2] 2);
    [exact three_inv | exact nat_compare_anti | exact nat_compare_trans].
Defined.

(** The [no-std] [select_n_first_by] on concrete lists, with the list's
    contents unchanged afterwards. *)
Example select_n_first_by_examples :
  (s ← build 10 [InsertTail 3; InsertTail 1; InsertTail 2; InsertHead 5];
   select_n_first_by_nostd 2 Nat.compare s) = Some [Some 1; Some 2] /\
  (s ← build 10 [InsertTail 3; InsertTail 1; InsertTail 2; InsertHead 5];
   select_n_first_by_nostd 6 Nat.compare s) = Some [Some 1; Some 2; Some 3; Some 5; None; None] /\
  (s ← build 10 [InsertTail 3; InsertTail 1; InsertTail 2; InsertHead 5]; contents s)
    = Some [5; 3; 1; 2].
Proof. vm_compute. repeat split. Qed.


(** [insert_after] on a list satisfying the invariant: an index at or past
    [len] is refused with [IndexOutOfRange], a full list with [ListIsFull],
    both leaving the list unchanged; otherwise the value is placed right
    after position [index] (at position [index + 1]), the other elements
    keep their order and the length grows by one. *)
Theorem insert_after_inserts {T} (s : SizedDoubleLinkedList T) ch index v :
  Inv s ch ->
  exists vs, contents s = Some vs /\
  (len s <= index -> insert_after s index v = Some (Err IndexOutOfRange, s)) /\
  (index < len s -> is_full s = true -> insert_after s index v = Some (Err ListIsFull, s)) /\
  (index < len s -> is_full s = false -> exists s',
     insert_after s index v = Some (Ok tt, s') /\
     contents s' = Some (take (S index) vs ++ v :: drop (S index) vs) /\ len s' = S (len s)).
Proof.
  intros Hinv. destruct (contents_inv _ _ Hinv) as (vs & _ & Hc).
  exists vs. split; [exact Hc|]. split; [|split].
  - intros Hi. unfold insert_after. destruct (Nat.leb_spec (len s) index); [reflexivity|lia].
  - intros Hi Hf. unfold insert_after. destruct (Nat.leb_spec (len s) index); [lia|].
    rewrite Hf. reflexivity.
  - intros Hi Hf. destruct (insert_after_ok _ _ index v Hinv Hi Hf) as (vs0 & s' & Hc0 & E & Hc' & Hinv').
    rewrite Hc in Hc0. injection Hc0 as <-. exists s'. split; [exact E|]. split; [exact Hc'|].
    rewrite <- (contents_length _ _ _ Hinv' Hc'), <- (contents_length _ _ _ Hinv Hc).
    apply length_insert_at. rewrite (contents_length _ _ _ Hinv Hc). lia.
Qed.

(** [insert_before] on a list satisfying the invariant: an index past
    [len] is refused with [IndexOutOfRange], a full list with [ListIsFull],
    both leaving the list unchanged; an index below [len], or [0] on an empty
    list, places the value at position [index] and grows the length by one;
    but [index = len] on a non-empty list that is not full panics: the
    backward step count [len - 1 - index] underflows. *)
Theorem insert_before_inserts {T} (s : SizedDoubleLinkedList T) ch index v :
  Inv s ch ->
  exists vs, contents s = Some vs /\
  (len s < index -> insert_before s index v = Some (Err IndexOutOfRange, s)) /\
  (index <= len s -> is_full s = true -> insert_before s index v = Some (Err ListIsFull, s)) /\
  (index <= len s -> is_full s = false -> (index < len s \/ len s = 0) -> exists s',
     insert_before s index v = Some (Ok tt, s') /\
     contents s' = Some (take index vs ++ v :: drop index vs) /\ len s' = S (len s)) /\
  (index = len s -> 0 < len s -> is_full s = false -> insert_before s index v = None).
Proof.
  intros Hinv. destruct (contents_inv _ _ Hinv) as (vs & _ & Hc).
  exists vs. split; [exact Hc|]. split; [|split; [|split]].
  - intros Hi. unfold insert_before. destruct (Nat.ltb_spec (len s) index); [reflexivity|lia].
  - intros Hi Hf. unfold insert_before. destruct (Nat.ltb_spec (len s) index); [lia|].
    rewrite Hf. reflexivity.
  - intros Hi Hf Hcase.
    destruct (insert_before_ok _ _ index v Hinv Hi Hf Hcase) as (vs0 & s' & Hc0 & E & Hc' & Hinv').
    rewrite Hc in Hc0. injection Hc0 as <-. exists s'. split; [exact E|]. split; [exact Hc'|].
    rewrite <- (contents_length _ _ _ Hinv' Hc'), <- (contents_length _ _ _ Hinv Hc).
    apply length_insert_at. rewrite (contents_length _ _ _ Hinv Hc). lia.
  - intros -> Hl Hf. unfold insert_before.
    destruct (Nat.ltb_spec (len s) (len s)) as [Hx|_]; [lia|]. rewrite Hf.
    destruct (Nat.eqb_spec (len s) 0) as [Hx|_]; [lia|]. rewrite seek_len by lia. reflexivity.
Qed.

(** [insert_head] and [insert_tail] on a list satisfying the invariant: a
    full list refuses both with [ListIsFull] and is left unchanged;
    otherwise [insert_head] prepends the value and [insert_tail] appends
    it. *)
Theorem insert_head_tail {T} (s : SizedDoubleLinkedList T) ch v :
  Inv s ch ->
  exists vs, contents s = Some vs /\
  (is_full s = true ->
     insert_head s v = Some (Err ListIsFull, s) /\ insert_tail s v = Some (Err ListIsFull, s)) /\
  (is_full s = false ->
     (exists s', insert_head s v = Some (Ok tt, s') /\ contents s' = Some (v :: vs)) /\
     (exists s', insert_tail s v = Some (Ok tt, s') /\ contents s' = Some (vs ++ [v]))).
Proof.
  intros Hinv. destruct (contents_inv _ _ Hinv) as (vs & _ & Hc).
  pose proof (contents_length _ _ _ Hinv Hc) as Hl.
  exists vs. split; [exact Hc|]. split.
  - intros Hf. unfold insert_head, insert_tail, insert_before, insert_after.
    destruct (Nat.ltb_spec (len s) 0) as [Hx|_]; [lia|]. rewrite Hf. split; [reflexivity|].
    destruct (Nat.eqb_spec (len s) 0) as [_|Hx].
    + reflexivity.
    + destruct (Nat.leb_spec (len s) (len s - 1)) as [Hx'|_]; [lia|]. reflexivity.
  - intros Hf. split.
    + unfold insert_head.
      destruct (insert_before_ok _ _ 0 v Hinv ltac:(lia) Hf ltac:(lia)) as (vs0 & s' & Hc0 & E & Hc' & _).
      rewrite Hc in Hc0. injection Hc0 as <-. exists s'. split; [exact E|]. exact Hc'.
    + unfold insert_tail. destruct (Nat.eqb_spec (len s) 0) as [H0|H0].
      * destruct (insert_before_ok _ _ 0 v Hinv ltac:(lia) Hf ltac:(lia)) as (vs0 & s' & Hc0 & E & Hc' & _).
        rewrite Hc in Hc0. injection Hc0 as <-. exists s'. split; [exact E|].
        rewrite Hc'. destruct vs; [reflexivity|cbn in Hl; lia].
      * destruct (insert_after_ok _ _ (len s - 1) v Hinv ltac:(lia) Hf) as (vs0 & s' & Hc0 & E & Hc' & _).
        rewrite Hc in Hc0. injection Hc0 as <-. exists s'. split; [exact E|].
        rewrite Hc'. replace (S (len s - 1)) with (length vs) by lia.
        rewrite firstn_all, drop_all. reflexivity.
Qed.

Lemma insert_after_inserts_witness :
  Inv three [0; 1; 2] /\
  exists vs, contents three = Some vs /\
  (len three <= 1 -> insert_after three 1 7 = Some (Err IndexOutOfRange, three)) /\
  (1 < len three -> is_full three = true -> insert_after three 1 7 = Some (Err ListIsFull, three)) /\
  (1 < len three -> is_full three = false -> exists s',
     insert_after three 1 7 = Some (Ok tt, s') /\
     contents s' = Some (take 2 vs ++ 7 :: drop 2 vs) /\ len s' = S (len three)).
Proof. split; [exact three_inv|]. exact (insert_after_inserts three [0; 1; 2] 1 7 three_inv). Defined.

Lemma insert_before_inserts_witness :
  Inv three [0; 1; 2] /\
  exists vs, contents three = Some vs /\
  (len three < 3 -> insert_before three 3 7 = Some (Err IndexOutOfRange, three)) /\
  (3 <= len three -> is_full three = true -> insert_before three 3 7 = Some (Err ListIsFull, three)) /\
  (3 <= len three -> is_full three = false -> (3 < len three \/ len three = 0) -> exists s',
     insert_before three 3 7 = Some (Ok tt, s') /\
     contents s' = Some (take 3 vs ++ 7 :: drop 3 vs) /\ len s' = S (len three)) /\
  (3 = len three -> 0 < len three -> is_full three = false -> insert_before three 3 7 = None).
Proof. split; [exact three_inv|]. exact (insert_before_inserts three [0; 1; 2] 3 7 three_inv). Defined.

Lemma insert_head_tail_witness :
  Inv three [0; 1; 2] /\
  exists vs, contents three = Some vs /\
  (is_full three = true ->
     insert_head three 7 = Some (Err ListIsFull, three) /\ insert_tail three 7 = Some (Err ListIsFull, three)) /\
  (is_full three = false ->
     (exists s', insert_head three 7 = Some (Ok tt, s') /\ contents s' = Some (7 :: vs)) /\
     (exists s', insert_tail three 7 = Some (Ok tt, s') /\ contents s' = Some (vs ++ [7]))).
Proof. split; [exact three_inv|]. exact (insert_head_tail three [0; 1; 2] 7 three_inv). Defined.


(** [get_value_where] on a list satisfying the invariant returns the first
    value, from head to tail, on which the predicate holds, and [None] when
    there is none (in particular on an empty list). *)
Theorem get_value_where_find {T} (s : SizedDoubleLinkedList T) ch (f : T -> bool) :
  Inv s ch -> exists vs, contents s = Some vs /\ get_value_where s f = Some (List.find f vs).
Proof.
  intros Hinv. destruct (contents_inv _ _ Hinv) as (vs & Hv & Hc). exists vs. split; [exact Hc|].
  unfold get_value_where, get_where. rewrite (inv_head _ _ Hinv).
  destruct ch as [|x ch'].
  - unfold values in Hv. cbn in Hv. injection Hv as <-. reflexivity.
  - cbn [lookup list_lookup].
    apply (get_where_from_seg _ _ None (x :: ch') x); [exact (inv_seg _ _ Hinv) | reflexivity | | exact Hv].
    pose proof (inv_len_le _ _ Hinv) as Hle. rewrite (inv_len _ _ Hinv) in Hle. lia.
Qed.

(** [iter_and_compute] applies [f] to every element in place: the list
    keeps its slots, links and length, and its contents become
    [map f] of the old contents. *)
Theorem iter_and_compute_map {T} (s : SizedDoubleLinkedList T) ch (f : T -> T) :
  Inv s ch -> exists vs s', contents s = Some vs /\ iter_and_compute s f = Some s' /\
    Inv s' ch /\ contents s' = Some (map f vs).
Proof.
  intros Hinv. destruct (contents_inv _ _ Hinv) as (vs & Hv & Hc).
  unfold iter_and_compute. rewrite (inv_head _ _ Hinv).
  destruct ch as [|x ch'] eqn:Ech.
  - exists vs, s. unfold values in Hv. cbn in Hv. injection Hv as <-.
    split; [exact Hc|]. split; [reflexivity|]. split; [exact Hinv | exact Hc].
  - rewrite <- Ech in *.
    pose proof (inv_len_le _ _ Hinv) as Hle. rewrite (inv_len _ _ Hinv) in Hle.
    assert (Hx : ch !! 0 = Some x) by (subst ch; reflexivity). rewrite Hx.
    destruct (iter_from_seg (nodes s) f None ch x (S (K s)) (inv_seg _ _ Hinv) (inv_nodup _ _ Hinv) Hx
                ltac:(lia)) as (ns' & E & Hl & Hout & Hin).
    rewrite E. cbn [mbind option_bind].
    set (s' := mk_list ns' (used s) (len s) (tail s) (head s)).
    assert (Hinv' : Inv s' ch).
    { split; cbn [nodes used len tail head s'].
      - apply (seg_relabel (nodes s)); [exact (inv_seg _ _ Hinv)|].
        intros j n Hj Hn. eexists. split; [exact (Hin j n Hj Hn)|]. auto.
      - exact (inv_nodup _ _ Hinv).
      - exact (inv_len _ _ Hinv).
      - exact (inv_head _ _ Hinv).
      - exact (inv_tail _ _ Hinv).
      - intros i. rewrite <- (inv_live _ _ Hinv i). destruct (decide (i ∈ ch)) as [Hi|Hi].
        + destruct ((proj2 (inv_live _ _ Hinv i)) Hi) as [n Hn]. rewrite (Hin i n Hi Hn), Hn.
          split; intros _; eexists; reflexivity.
        + unfold node_at. rewrite (Hout i Hi). reflexivity.
      - exact (inv_used _ _ Hinv).
      - exact (inv_used_nonneg _ _ Hinv).
      - unfold K. cbn [nodes s']. rewrite Hl. exact (inv_cap _ _ Hinv). }
    exists vs, s'. split; [exact Hc|].
    split; [unfold s'; rewrite (inv_head _ _ Hinv), Hx; reflexivity|]. split; [exact Hinv'|].
    destruct (contents_inv _ _ Hinv') as (vs' & Hv' & Hc'). rewrite Hc'. f_equal.
    cbn [nodes s'] in Hv'.
    rewrite (values_map (nodes s) ns' ch vs f) in Hv'; [congruence| |exact Hv].
    intros j n Hj Hn. rewrite (Hin j n Hj Hn). reflexivity.
Qed.


(** [clone] (and [copy]) of a list satisfying the invariant never panics
    and returns a list of the same capacity holding the clones of the
    elements in the same order; the copy is compacted: its elements sit in
    slots [0 .. len - 1], in list order. *)
Theorem clone_copies {T} (clone_t : T -> T) (s : SizedDoubleLinkedList T) ch :
  Inv s ch ->
  exists vs c, contents s = Some vs /\ clone clone_t s = Some c /\ copy clone_t s = Some c /\
    contents c = Some (map clone_t vs) /\ K c = K s /\ Inv c (seq 0 (len s)).
Proof.
  intros Hinv. destruct (contents_inv _ _ Hinv) as (vs & Hv & Hc).
  pose proof (inv_cap _ _ Hinv) as Hk. pose proof (inv_len_le _ _ Hinv) as Hle.
  pose proof (inv_len _ _ Hinv) as Hl.
  assert (Hcl : exists c, clone clone_t s = Some c /\
            contents c = Some (map clone_t vs) /\ K c = K s /\ Inv c (seq 0 (len s))).
  { unfold clone. rewrite (inv_head _ _ Hinv). destruct ch as [|x ch'].
    - unfold values in Hv. cbn in Hv. injection Hv as <-. cbn in Hl. rewrite Hl.
      exists (empty (K s)). split; [reflexivity|].
      assert (HK : K (empty (T:=T) (K s)) = K s) by (unfold K; cbn; apply length_replicate).
      split; [|split; [exact HK | apply inv_empty; exact Hk]].
      destruct (contents_inv _ _ (inv_empty (T:=T) (K s) Hk)) as (w & Hw & Hcw).
      unfold values in Hw. cbn in Hw. injection Hw as <-. exact Hcw.
    - cbn [lookup list_lookup].
      assert (HK : K (empty (T:=T) (K s)) = K s) by (unfold K; cbn; apply length_replicate).
      assert (Hc0 : contents (empty (T:=T) (K s)) = Some []).
      { destruct (contents_inv _ _ (inv_empty (T:=T) (K s) Hk)) as (w & Hw & Hcw).
        unfold values in Hw. cbn in Hw. injection Hw as <-. exact Hcw. }
      destruct (clone_from_seg clone_t (nodes s) None (x :: ch') x (S (K s)) vs (inv_seg _ _ Hinv)
                  eq_refl ltac:(lia) Hv (empty (K s)) 0 [] (inv_empty _ Hk) Hc0 ltac:(rewrite HK; lia))
        as (c & Ec & Hinvc & Hcc & HKc).
      exists c. split; [exact Ec|]. split; [exact Hcc|]. split; [congruence|].
      rewrite Hl. exact Hinvc. }
  destruct Hcl as (c & E & Hcc & HK & Hinvc).
  exists vs, c. split; [exact Hc|]. split; [exact E|]. split; [exact E|].
  split; [exact Hcc|]. split; [exact HK | exact Hinvc].
Qed.

(** [get] on a list satisfying the invariant: an index at or past [len]
    is refused with [IndexOutOfRange]; any other index is read without
    panicking, and whether the walk starts from [head] or from [tail] the
    value returned is the one of the node reached from [head] by following
    [next] [index] times. *)
Theorem get_walks_from_head {T} (s : SizedDoubleLinkedList T) ch index :
  Inv s ch ->
  (len s <= index -> get s index = Some (Err IndexOutOfRange)) /\
  (index < len s -> exists h x n, head s = Some h /\ walk (nodes s) h index true = Some x /\
     node_at (nodes s) x = Some n /\ get s index = Some (Ok (value n))).
Proof.
  intros Hinv. split.
  - intros Hi. unfold get. destruct (Nat.leb_spec (len s) index); [reflexivity|lia].
  - intros Hi. destruct (get_inv _ _ _ Hinv Hi) as (x & n & Hx & Hn & Hg).
    pose proof (inv_len _ _ Hinv) as Hl.
    destruct ch as [|h ch']; [cbn in Hl; lia|].
    exists h, x, n. split; [exact (inv_head _ _ Hinv)|]. split; [|auto].
    rewrite <- Hx. eapply seg_walk_fwd; [exact (inv_seg _ _ Hinv) | reflexivity | lia].
Qed.

Lemma get_value_where_find_witness :
  Inv three [0; 1; 2] /\
  exists vs, contents three = Some vs /\ get_value_where three (Nat.ltb 1) = Some (List.find (Nat.ltb 1) vs).
Proof. split; [exact three_inv|]. exact (get_value_where_find three [0; 1; 2] (Nat.ltb 1) three_inv). Defined.

Lemma iter_and_compute_map_witness :
  Inv three [0; 1; 2] /\
  exists vs s', contents three = Some vs /\ iter_and_compute three (Nat.mul 2) = Some s' /\
    Inv s' [0; 1; 2] /\ contents s' = Some (map (Nat.mul 2) vs).
Proof. split; [exact three_inv|]. exact (iter_and_compute_map three [0; 1; 2] (Nat.mul 2) three_inv). Defined.

Lemma clone_copies_witness :
  Inv three [0; 1; 2] /\
  exists vs c, contents three = Some vs /\ clone (fun x => x) three = Some c /\
    copy (fun x => x) three = Some c /\ contents c = Some (map (fun x => x) vs) /\
    K c = K three /\ Inv c (seq 0 (len three)).
Proof. split; [exact three_inv|]. exact (clone_copies (fun x => x) three [0; 1; 2] three_inv). Defined.

Lemma get_walks_from_head_witness :
  Inv three [0; 1; 2] /\
  (len three <= 2 -> get three 2 = Some (Err IndexOutOfRange)) /\
  (2 < len three -> exists h x n, head three = Some h /\ walk (nodes three) h 2 true = Some x /\
     node_at (nodes three) x = Some n /\ get three 2 = Some (Ok (value n))).
Proof. split; [exact three_inv|]. exact (get_walks_from_head three [0; 1; 2] 2 three_inv). Defined.

End ArenaListProofs.

(** * Proofs about [array::core] *)

Module ArrayCoreProofs.
Import ArrayCore.

Section Merge.
Context {T : Type} (compare : T -> T -> comparison).

(** "not [Greater]": the order the arrays are sorted by. *)
Definition cle (x y : T) : Prop := compare x y <> Gt.

#[global] Instance cle_dec x y : Decision (cle x y).
Proof. unfold cle. apply _. Defined.

Lemma insert_at_len (acc rest : list T) r0 v :
  <[length acc := v]> (acc ++ r0 :: rest) = (acc ++ [v]) ++ rest.
Proof. rewrite insert_app_r_alt, Nat.sub_diag by lia. rewrite <- app_assoc. reflexivity. Qed.

(** The loop writes, from position [k = i1 + i2] on, the front of the
    left-biased merge of what remains of [s1_copy] and [s2]. *)
Lemma loop_merge N (c s2 : list T) :
  length c = N -> length s2 = N ->
  forall fuel acc rest i1 i2, length acc = i1 + i2 -> length acc + length rest = N ->
  N - length acc < fuel ->
  keep_lowest_loop compare N c s2 (acc ++ rest) i1 i2 (length acc) fuel =
    Some (acc ++ take (length rest) (list_merge cle (drop i1 c) (drop i2 s2))).
Proof.
  intros Hc Hs2. induction fuel as [|fuel IH]; intros acc rest i1 i2 Hk Hn Hf; [lia|].
  cbn [keep_lowest_loop].
  destruct (Nat.ltb_spec (length acc) N) as [Hlt|Hge].
  2: { destruct rest; [|cbn in Hn; lia]. cbn [length]. rewrite take_0. reflexivity. }
  destruct rest as [|r0 rest]; [cbn in Hn; lia|].
  destruct (c !! i1) as [a|] eqn:Ha; [|apply lookup_ge_None in Ha; lia].
  destruct (s2 !! i2) as [b|] eqn:Hb; [|apply lookup_ge_None in Hb; lia].
  assert (Em : list_merge cle (drop i1 c) (drop i2 s2) =
    if decide (cle a b) then a :: list_merge cle (drop (S i1) c) (drop i2 s2)
    else b :: list_merge cle (drop i1 c) (drop (S i2) s2)).
  { rewrite (drop_S _ _ _ Ha), (drop_S _ _ _ Hb), list_merge_cons. reflexivity. }
  rewrite Em. unfold pick.
  destruct (Nat.leb_spec N i1) as [|_]; [lia|]. destruct (Nat.leb_spec N i2) as [|_]; [lia|].
  rewrite Ha, Hb. cbn [mbind option_bind].
  destruct (compare a b) eqn:E; cbn [mbind option_bind].
  1,2: rewrite decide_True by (unfold cle; congruence);
       rewrite insert_at_len;
       replace (S (length acc)) with (length (acc ++ [a])) by (rewrite length_app; cbn; lia);
       rewrite IH by (rewrite ?length_app; cbn [length] in *; lia);
       cbn [length firstn]; rewrite <- app_assoc; reflexivity.
  rewrite decide_False by (unfold cle; congruence).
  rewrite insert_at_len.
  replace (S (length acc)) with (length (acc ++ [b])) by (rewrite length_app; cbn; lia).
  rewrite IH by (rewrite ?length_app; cbn [length] in *; lia).
  cbn [length firstn]. rewrite <- app_assoc. reflexivity.
Qed.

(** [keep_lowest_by] on two arrays of length [N] returns the first [N]
    elements of their left-biased merge. *)
Lemma keep_lowest_by_merge (s1 s2 : list T) :
  length s2 = length s1 ->
  keep_lowest_by s1 s2 compare = Some (take (length s1) (list_merge cle s1 s2)).
Proof.
  intros Hs. unfold keep_lowest_by. cbv zeta.
  exact (loop_merge (length s1) s1 s2 eq_refl Hs (S (length s1)) [] s1 0 0
           eq_refl eq_refl ltac:(cbn; lia)).
Qed.

Hypothesis Hanti : forall a b, compare b a = CompOpp (compare a b).
Hypothesis Htrans : forall a b c, compare a b <> Gt -> compare b c <> Gt -> compare a c <> Gt.

Lemma cle_refl a : cle a a.
Proof. unfold cle. pose proof (Hanti a a) as E. destruct (compare a a); cbn in E; congruence. Qed.

#[local] Instance cle_total : Total cle.
Proof.
  intros x y. unfold cle. rewrite (Hanti x y). destruct (compare x y); cbn; [left|left|right]; congruence.
Qed.

#[local] Instance cle_transitive : Transitive cle.
Proof. intros x y z. apply Htrans. Qed.

Lemma lt_of_gt_le a x y : compare a x = Gt -> cle a y -> compare x y = Lt.
Proof.
  intros Hax Hay. destruct (compare x y) eqn:E; [exfalso| reflexivity |exfalso].
  - assert (Hyx : cle y x) by (unfold cle; rewrite Hanti, E; discriminate).
    exact (Htrans _ _ _ Hay Hyx Hax).
  - assert (Hyx : cle y x) by (unfold cle; rewrite Hanti, E; discriminate).
    exact (Htrans _ _ _ Hay Hyx Hax).
Qed.

Lemma merge_sorted_split (l1 l2 : list T) n :
  Sorted cle l1 -> Sorted cle l2 ->
  Sorted cle (take n (list_merge cle l1 l2)) /\
  forall x y, x ∈ take n (list_merge cle l1 l2) -> y ∈ drop n (list_merge cle l1 l2) -> cle x y.
Proof.
  intros H1 H2.
  pose proof (Sorted_StronglySorted _ _ (Sorted_list_merge cle l1 l2 H1 H2)) as Hs.
  rewrite <- (take_drop n (list_merge cle l1 l2)) in Hs.
  apply StronglySorted_app in Hs as (Hpre & Hst & _).
  split; [exact (StronglySorted_Sorted Hst) | exact Hpre].
Qed.

End Merge.

Section Stable.
Context {T : Type} (compare : T -> T -> comparison).
Hypothesis Hanti : forall a b, compare b a = CompOpp (compare a b).
Hypothesis Htrans : forall a b c, compare a b <> Gt -> compare b c <> Gt -> compare a c <> Gt.

(** Elements tagged with the array they come from ([true] for [s1]),
    compared by value only. *)
Definition tcmp (a b : bool * T) : comparison := compare (snd a) (snd b).

Lemma tcmp_anti : forall a b, tcmp b a = CompOpp (tcmp a b).
Proof. intros a b. apply Hanti. Qed.

Lemma tcmp_trans : forall a b c, tcmp a b <> Gt -> tcmp b c <> Gt -> tcmp a c <> Gt.
Proof. intros a b c. apply Htrans. Qed.

Lemma map_snd_tag (t : bool) (l : list T) : map snd (map (pair t) l) = l.
Proof. induction l as [|x l IH]; cbn; [reflexivity|]. rewrite IH. reflexivity. Qed.

Lemma Sorted_tag (t : bool) (l : list T) : Sorted (cle compare) l -> Sorted (cle tcmp) (map (pair t) l).
Proof.
  induction 1 as [|a l Hl IH Hhd]; cbn [map]; constructor; [exact IH|].
  destruct Hhd as [|b l' Hb]; cbn [map]; constructor. exact Hb.
Qed.

Lemma merge_map_snd (l1 : list (bool * T)) : forall l2,
  map snd (list_merge (cle tcmp) l1 l2) = list_merge (cle compare) (map snd l1) (map snd l2).
Proof.
  induction l1 as [|a l1 IH1]; intros l2.
  - cbn [map]. rewrite !list_merge_nil_l. reflexivity.
  - induction l2 as [|b l2 IH2].
    + cbn [map]. rewrite !list_merge_nil_r. reflexivity.
    + cbn [map]. rewrite !list_merge_cons.
      destruct (decide (cle tcmp a b)) as [H|H], (decide (cle compare (snd a) (snd b))) as [H'|H'];
        try (exfalso; unfold cle, tcmp in *; contradiction); cbn [map].
      * rewrite IH1. reflexivity.
      * rewrite IH2. reflexivity.
Qed.

(** In the left-biased merge of [s1]'s elements (tagged [true], sorted)
    with [s2]'s (tagged [false]), an element of [s2] comes before an
    element of [s1] only when it is strictly smaller. *)
Lemma merge_stable (l1 : list (bool * T)) : forall l2,
  Forall (fun a => fst a = true) l1 -> Forall (fun b => fst b = false) l2 ->
  Sorted (cle tcmp) l1 ->
  forall i j x y, i < j -> list_merge (cle tcmp) l1 l2 !! i = Some (false, x) ->
    list_merge (cle tcmp) l1 l2 !! j = Some (true, y) -> compare x y = Lt.
Proof.
  induction l1 as [|a l1 IH1]; intros l2.
  - intros _ H2 _ i j x y _ _ Hj. rewrite list_merge_nil_l in Hj.
    apply (Forall_lookup_1 _ _ _ _ H2) in Hj. discriminate.
  - induction l2 as [|b l2 IH2]; intros H1 H2 HS i j x y Hij Hi Hj.
    + rewrite list_merge_nil_r in Hi. apply (Forall_lookup_1 _ _ _ _ H1) in Hi. discriminate.
    + rewrite list_merge_cons in Hi, Hj.
      destruct (decide (cle tcmp a b)) as [Hab|Hab].
      * destruct i as [|i]; cbn in Hi.
        { injection Hi as ->. apply Forall_inv in H1. discriminate. }
        destruct j as [|j]; [lia|]. cbn in Hj.
        apply (IH1 (b :: l2) (Forall_inv_tail H1) H2 (proj1 (Sorted_inv HS)) i j x y);
          [lia | exact Hi | exact Hj].
      * destruct i as [|i]; cbn in Hi.
        { injection Hi as ->. destruct j as [|j]; [lia|]. cbn in Hj.
          assert (Hy : (true, y) ∈ (a :: l1) ++ l2).
          { rewrite <- (merge_Permutation (cle tcmp)). exact (list_elem_of_lookup_2 _ _ _ Hj). }
          apply elem_of_app in Hy as [Hy|Hy].
          2: { apply Forall_inv_tail in H2. rewrite Forall_forall in H2.
               apply H2 in Hy. discriminate. }
          assert (Hay : cle tcmp a (true, y)).
          { apply elem_of_cons in Hy as [<-|Hy]; [exact (cle_refl tcmp tcmp_anti _)|].
            pose proof (@Sorted_StronglySorted _ (cle tcmp) (cle_transitive tcmp tcmp_trans) _ HS) as HSS.
            apply StronglySorted_cons in HSS as [Hf _]. rewrite Forall_forall in Hf.
            exact (Hf _ Hy). }
          apply (lt_of_gt_le compare Hanti Htrans (snd a) x y); [|exact Hay].
          unfold cle, tcmp in Hab. cbn in Hab. destruct (compare (snd a) x); try reflexivity; exfalso; apply Hab; discriminate. }
        destruct j as [|j]; [lia|]. cbn in Hj.
        apply (IH2 H1 (Forall_inv_tail H2) HS i j x y); [lia | exact Hi | exact Hj].
Qed.

End Stable.

(** C9: for a comparator that is a total preorder and two arrays [s1],
    [s2] of the same length [N], both sorted ascending, [keep_lowest_by]
    overwrites [s1] with [N] values, sorted ascending, that together with
    the values left out ([rest]) are exactly the [2N] values of [s1] and
    [s2] (duplicates kept), each at most every value left out.  Run on the
    same values tagged with their origin ([true] for [s1], [false] for
    [s2]) it makes the same choices, and a value of [s2] is placed before a
    value of [s1], or kept while that value of [s1] is left out, only when
    it is strictly smaller: on values comparing [Equal] the one from [s1]
    comes first. *)
Theorem keep_lowest_by_lowest {T} (compare : T -> T -> comparison) (s1 s2 : list T) :
  (forall a b, compare b a = CompOpp (compare a b)) ->
  (forall a b c, compare a b <> Gt -> compare b c <> Gt -> compare a c <> Gt) ->
  length s2 = length s1 ->
  Sorted (fun x y => compare x y <> Gt) s1 -> Sorted (fun x y => compare x y <> Gt) s2 ->
  exists r rest, keep_lowest_by s1 s2 compare = Some r /\ length r = length s1 /\
    r ++ rest ≡ₚ s1 ++ s2 /\ Sorted (fun x y => compare x y <> Gt) r /\
    (forall x y, x ∈ r -> y ∈ rest -> compare x y <> Gt) /\
    exists rt rest_t,
      keep_lowest_by (map (pair true) s1) (map (pair false) s2)
        (fun a b => compare (snd a) (snd b)) = Some rt /\
      map snd rt = r /\ rt ++ rest_t ≡ₚ map (pair true) s1 ++ map (pair false) s2 /\
      (forall i j x y, i < j -> rt !! i = Some (false, x) -> rt !! j = Some (true, y) ->
         compare x y = Lt) /\
      (forall x y, (false, x) ∈ rt -> (true, y) ∈ rest_t -> compare x y = Lt).
Proof.
  intros Hanti Htrans Hl H1 H2.
  set (m := list_merge (cle compare) s1 s2).
  destruct (merge_sorted_split compare Hanti Htrans s1 s2 (length s1) H1 H2) as [HS Hpre].
  exists (take (length s1) m), (drop (length s1) m).
  split; [exact (keep_lowest_by_merge compare s1 s2 Hl)|].
  split; [unfold m; rewrite length_take, (Permutation_length (merge_Permutation _ s1 s2)), length_app; lia|].
  split; [rewrite take_drop; apply merge_Permutation|].
  split; [exact HS|]. split; [exact Hpre|].
  set (ts1 := map (pair true) s1). set (ts2 := map (pair false) s2).
  set (mt := list_merge (cle (tcmp compare)) ts1 ts2).
  assert (HF1 : Forall (fun a => fst a = true) ts1).
  { apply Forall_forall. intros a Ha. apply list_elem_of_In, in_map_iff in Ha as (z & <- & _).
    reflexivity. }
  assert (HF2 : Forall (fun a => fst a = false) ts2).
  { apply Forall_forall. intros a Ha. apply list_elem_of_In, in_map_iff in Ha as (z & <- & _).
    reflexivity. }
  pose proof (merge_stable compare Hanti Htrans ts1 ts2 HF1 HF2 (Sorted_tag compare true s1 H1))
    as Hst.
  exists (take (length s1) mt), (drop (length s1) mt).
  split.
  { assert (Hlt : length ts1 = length s1) by apply length_map.
    rewrite <- Hlt.
    exact (keep_lowest_by_merge (tcmp compare) ts1 ts2
             ltac:(unfold ts1, ts2; rewrite !length_map; exact Hl)). }
  split.
  { rewrite <- firstn_map. unfold mt. rewrite merge_map_snd. unfold ts1, ts2.
    rewrite !map_snd_tag. reflexivity. }
  split; [rewrite take_drop; apply merge_Permutation|].
  split.
  { intros i j x y Hij Hi Hj.
    apply lookup_take_Some in Hi as [Hi _]. apply lookup_take_Some in Hj as [Hj _].
    exact (Hst i j x y Hij Hi Hj). }
  intros x y Hx Hy.
  apply list_elem_of_lookup in Hx as [i Hi]. apply list_elem_of_lookup in Hy as [j Hj].
  apply lookup_take_Some in Hi as [Hi Hin]. rewrite lookup_drop in Hj.
  exact (Hst i (length s1 + j) x y ltac:(lia) Hi Hj).
Qed.

Lemma keep_lowest_by_lowest_witness :
  (forall a b, Nat.compare b a = CompOpp (Nat.compare a b)) /\
  (forall a b c, Nat.compare a b <> Gt -> Nat.compare b c <> Gt -> Nat.compare a c <> Gt) /\
  length [1; 2; 6] = length [1; 3; 5] /\
  Sorted (fun x y => Nat.compare x y <> Gt) [1; 3; 5] /\
  Sorted (fun x y => Nat.compare x y <> Gt) [1; 2; 6] /\
  exists r rest, keep_lowest_by [1; 3; 5] [1; 2; 6] Nat.compare = Some r /\
    length r = length [1; 3; 5] /\
    r ++ rest ≡ₚ [1; 3; 5] ++ [1; 2; 6] /\ Sorted (fun x y => Nat.compare x y <> Gt) r /\
    (forall x y, x ∈ r -> y ∈ rest -> Nat.compare x y <> Gt) /\
    exists rt rest_t,
      keep_lowest_by (map (pair true) [1; 3; 5]) (map (pair false) [1; 2; 6])
        (fun a b => Nat.compare (snd a) (snd b)) = Some rt /\
      map snd rt = r /\ rt ++ rest_t ≡ₚ map (pair true) [1; 3; 5] ++ map (pair false) [1; 2; 6] /\
      (forall i j x y, i < j -> rt !! i = Some (false, x) -> rt !! j = Some (true, y) ->
         Nat.compare x y = Lt) /\
      (forall x y, (false, x) ∈ rt -> (true, y) ∈ rest_t -> Nat.compare x y = Lt).
Proof.
  assert (H1 : Sorted (fun x y => Nat.compare x y <> Gt) [1; 3; 5])
    by (repeat constructor; cbn; discriminate).
  assert (H2 : Sorted (fun x y => Nat.compare x y <> Gt) [1; 2; 6])
    by (repeat constructor; cbn; discriminate).
  split; [exact ArenaListProofs.nat_compare_anti|].
  split; [exact ArenaListProofs.nat_compare_trans|].
  split; [reflexivity|]. split; [exact H1|]. split; [exact H2|].
  exact (keep_lowest_by_lowest Nat.compare [1; 3; 5] [1; 2; 6]
           ArenaListProofs.nat_compare_anti ArenaListProofs.nat_compare_trans eq_refl H1 H2).
Defined.

(** [keep_lowest_by] on concrete arrays: the example of [keep_lowest]'s
    documentation, and a tie, where the value from [s1] comes first. *)
Example keep_lowest_by_examples :
  keep_lowest_by [1; 3; 5; 7; 9] [2; 4; 6; 8; 10] Nat.compare = Some [1; 2; 3; 4; 5] /\
  keep_lowest_by [(true, 1); (true, 2)] [(false, 1); (false, 2)]
    (fun a b => Nat.compare (snd a) (snd b)) = Some [(true, 1); (false, 1)].
Proof. vm_compute. split; reflexivity. Qed.

Section Ord.
Context {T : Type} (cmp : T -> T -> comparison).
Hypothesis Hanti : forall a b, cmp b a = CompOpp (cmp a b).
Hypothesis Htrans : forall a b c, cmp a b <> Gt -> cmp b c <> Gt -> cmp a c <> Gt.
Hypothesis Heq : forall a b, cmp a b = Eq -> a = b.

#[local] Instance cle_antisymm : AntiSymm eq (cle cmp).
Proof.
  intros x y H1 H2. unfold cle in *. rewrite Hanti in H2.
  destruct (cmp x y) eqn:E; cbn in H2; [exact (Heq _ _ E) | congruence | congruence].
Qed.

(** For an [Ord]-like comparator (values comparing [Equal] are equal),
    the merge of two sorted lists is the sorted concatenation. *)
Lemma merge_is_sort (l1 l2 : list T) :
  Sorted (cle cmp) l1 -> Sorted (cle cmp) l2 ->
  list_merge (cle cmp) l1 l2 = merge_sort (cle cmp) (l1 ++ l2).
Proof.
  intros H1 H2.
  apply (@Sorted_unique _ (cle cmp) (cle_transitive cmp Htrans) cle_antisymm).
  - exact (@Sorted_list_merge _ (cle cmp) _ (cle_total cmp Hanti) l1 l2 H1 H2).
  - exact (@Sorted_merge_sort _ (cle cmp) _ (cle_total cmp Hanti) _).
  - rewrite merge_Permutation, merge_sort_Permutation. reflexivity.
Qed.

End Ord.

Lemma swap_loop_spec {T} (items : list (option T)) : forall pre rest,
  Forall is_Some items -> length items <= length rest ->
  swap_loop items (length pre) (pre ++ rest) = Some (pre ++ items ++ drop (length items) rest).
Proof.
  induction items as [|item items IH]; intros pre rest Hs Hl.
  - cbn. reflexivity.
  - apply Forall_cons in Hs as [[v ->] Hs].
    destruct rest as [|r0 rest]; [cbn in Hl; lia|].
    cbn [swap_loop mbind option_bind].
    destruct (Nat.ltb_spec (length pre) (length (pre ++ r0 :: rest))) as [_|Hc];
      [|rewrite length_app in Hc; cbn in Hc; lia].
    rewrite insert_at_len.
    replace (S (length pre)) with (length (pre ++ [Some v])) by (rewrite length_app; cbn; lia).
    rewrite IH by (cbn in Hl; auto with lia).
    cbn [length drop]. rewrite <- app_assoc. reflexivity.
Qed.

(** [keep_lowest_by] on two arrays of the same length [N] never panics,
    whatever the comparator (even one that is not an order): it writes
    into [s1] the first [N] values of the merge of [s1] and [s2] that at
    each step takes the front of [s1] unless [compare] says [Greater]. *)
Theorem keep_lowest_by_any_comparator {T} (compare : T -> T -> comparison) (s1 s2 : list T) :
  length s2 = length s1 ->
  keep_lowest_by s1 s2 compare = Some (take (length s1) (list_merge (cle compare) s1 s2)).
Proof. intros Hl. exact (keep_lowest_by_merge compare s1 s2 Hl). Qed.

Lemma keep_lowest_by_any_comparator_witness :
  length [3; 1] = length [2; 5] /\
  keep_lowest_by [2; 5] [3; 1] (fun _ _ => Lt) =
    Some (take (length [2; 5]) (list_merge (cle (fun _ _ : nat => Lt)) [2; 5] [3; 1])).
Proof. split; [reflexivity|]. apply (keep_lowest_by_any_comparator (fun _ _ => Lt) [2; 5] [3; 1]). reflexivity. Defined.

(** [keep_lowest] for an [Ord] type ([cmp] a total order whose [Equal]
    means equal values): on two sorted arrays of the same length [N] it
    writes into [s1] exactly the first [N] values of the sorted
    concatenation [s1 ++ s2]. *)
Theorem keep_lowest_sorted_union {T} (cmp : T -> T -> comparison) (s1 s2 : list T) :
  (forall a b, cmp b a = CompOpp (cmp a b)) ->
  (forall a b c, cmp a b <> Gt -> cmp b c <> Gt -> cmp a c <> Gt) ->
  (forall a b, cmp a b = Eq -> a = b) ->
  length s2 = length s1 -> Sorted (cle cmp) s1 -> Sorted (cle cmp) s2 ->
  keep_lowest cmp s1 s2 = Some (take (length s1) (merge_sort (cle cmp) (s1 ++ s2))).
Proof.
  intros Hanti Htrans Heq Hl H1 H2. unfold keep_lowest.
  rewrite <- (merge_is_sort cmp Hanti Htrans Heq s1 s2 H1 H2).
  exact (keep_lowest_by_merge cmp s1 s2 Hl).
Qed.

Lemma keep_lowest_sorted_union_witness :
  (forall a b, Nat.compare b a = CompOpp (Nat.compare a b)) /\
  (forall a b c, Nat.compare a b <> Gt -> Nat.compare b c <> Gt -> Nat.compare a c <> Gt) /\
  (forall a b, Nat.compare a b = Eq -> a = b) /\
  length [2; 4; 6] = length [1; 3; 5] /\
  Sorted (cle Nat.compare) [1; 3; 5] /\ Sorted (cle Nat.compare) [2; 4; 6] /\
  keep_lowest Nat.compare [1; 3; 5] [2; 4; 6] =
    Some (take (length [1; 3; 5]) (merge_sort (cle Nat.compare) ([1; 3; 5] ++ [2; 4; 6]))).
Proof.
  assert (H1 : Sorted (cle Nat.compare) [1; 3; 5]) by (repeat constructor; cbn; discriminate).
  assert (H2 : Sorted (cle Nat.compare) [2; 4; 6]) by (repeat constructor; cbn; discriminate).
  split; [exact ArenaListProofs.nat_compare_anti|].
  split; [exact ArenaListProofs.nat_compare_trans|].
  split; [exact Nat.compare_eq|].
  split; [reflexivity|]. split; [exact H1|]. split; [exact H2|].
  exact (keep_lowest_sorted_union Nat.compare [1; 3; 5] [2; 4; 6]
           ArenaListProofs.nat_compare_anti ArenaListProofs.nat_compare_trans Nat.compare_eq
           eq_refl H1 H2).
Defined.

End ArrayCoreProofs.

(** * Proofs about [vec::core] *)

Module VecCoreProofs.
Import ArrayCore VecCore ArrayCoreProofs.

Section Loop.
Context {T : Type} (compare : T -> T -> comparison).

(** The loop pushes, after [out], the front of the left-biased merge of
    what remains of [v1] and [v2], until [out] has [n = v1.len()] values. *)
Lemma vec_loop_merge (v1 v2 : list T) :
  forall fuel acc i1 i2, length acc = i1 + i2 -> length acc <= length v1 ->
  length v1 - length acc < fuel ->
  keep_lowest_vec_loop compare (length v1) v1 v2 i1 i2 acc fuel =
    Some (acc ++ take (length v1 - length acc) (list_merge (cle compare) (drop i1 v1) (drop i2 v2))).
Proof.
  induction fuel as [|fuel IH]; intros acc i1 i2 Hk Hn Hf; [lia|].
  cbn [keep_lowest_vec_loop].
  destruct (Nat.ltb_spec (length acc) (length v1)) as [Hlt|Hge].
  2: { replace (length v1 - length acc) with 0 by lia. rewrite take_0, app_nil_r. reflexivity. }
  destruct (v1 !! i1) as [a|] eqn:Ha; [|apply lookup_ge_None in Ha; lia].
  replace (length v1 - length acc) with (S (length v1 - S (length acc))) by lia.
  unfold pick_vec.
  destruct (Nat.leb_spec (length v1) i1) as [|_]; [lia|].
  destruct (Nat.leb_spec (length v2) i2) as [Hb2|Hb2].
  - rewrite Ha. cbn [mbind option_bind].
    rewrite IH by (rewrite ?length_app; cbn [length]; lia).
    rewrite !(drop_ge v2 i2) by lia. rewrite !list_merge_nil_r, (drop_S _ _ _ Ha).
    rewrite length_app. cbn [length firstn]. rewrite <- app_assoc.
    replace (length acc + 1) with (S (length acc)) by lia. reflexivity.
  - destruct (v2 !! i2) as [b|] eqn:Hb; [|apply lookup_ge_None in Hb; lia].
    assert (Em : list_merge (cle compare) (drop i1 v1) (drop i2 v2) =
      if decide (cle compare a b) then a :: list_merge (cle compare) (drop (S i1) v1) (drop i2 v2)
      else b :: list_merge (cle compare) (drop i1 v1) (drop (S i2) v2)).
    { rewrite (drop_S _ _ _ Ha), (drop_S _ _ _ Hb), list_merge_cons. reflexivity. }
    rewrite Em, Ha. cbn [mbind option_bind].
    destruct (compare a b) eqn:E; cbn [mbind option_bind].
    1,2: rewrite decide_True by (unfold cle; congruence);
         rewrite IH by (rewrite ?length_app; cbn [length]; lia);
         rewrite length_app; cbn [length firstn]; rewrite <- app_assoc;
         replace (length acc + 1) with (S (length acc)) by lia; reflexivity.
    rewrite decide_False by (unfold cle; congruence).
    rewrite IH by (rewrite ?length_app; cbn [length]; lia).
    rewrite length_app; cbn [length firstn]; rewrite <- app_assoc.
    replace (length acc + 1) with (S (length acc)) by lia. reflexivity.
Qed.

Lemma keep_lowest_vec_by_merge (v1 v2 : list T) :
  keep_lowest_vec_by v1 v2 compare = Some (take (length v1) (list_merge (cle compare) v1 v2)).
Proof.
  unfold keep_lowest_vec_by. cbv zeta.
  rewrite (vec_loop_merge v1 v2 (S (length v1)) [] 0 0) by (cbn; lia).
  cbn [length app]. rewrite Nat.sub_0_r, !drop_0. reflexivity.
Qed.

End Loop.

(** [keep_lowest_vec_by] never panics, whatever the lengths of [v1] and
    [v2] and whatever the comparator: [v1] becomes the first [v1.len()]
    values of the merge of [v1] and [v2] that at each step takes the
    front of [v1] unless [compare] says [Greater] (all of [v1] when [v2]
    runs out first). *)
Theorem keep_lowest_vec_by_merge_prefix {T} (compare : T -> T -> comparison) (v1 v2 : list T) :
  keep_lowest_vec_by v1 v2 compare = Some (take (length v1) (list_merge (cle compare) v1 v2)).
Proof. exact (keep_lowest_vec_by_merge compare v1 v2). Qed.

(** For a comparator that is a total preorder and two vectors sorted
    ascending, of any lengths, [keep_lowest_vec_by] leaves in [v1] exactly
    [v1.len()] values, sorted ascending, that together with the values
    left out ([rest]) are the values of [v1] and [v2] (duplicates kept),
    each at most every value left out. *)
Theorem keep_lowest_vec_by_lowest {T} (compare : T -> T -> comparison) (v1 v2 : list T) :
  (forall a b, compare b a = CompOpp (compare a b)) ->
  (forall a b c, compare a b <> Gt -> compare b c <> Gt -> compare a c <> Gt) ->
  Sorted (cle compare) v1 -> Sorted (cle compare) v2 ->
  exists r rest, keep_lowest_vec_by v1 v2 compare = Some r /\ length r = length v1 /\
    r ++ rest ≡ₚ v1 ++ v2 /\ Sorted (cle compare) r /\
    (forall x y, x ∈ r -> y ∈ rest -> cle compare x y).
Proof.
  intros Hanti Htrans H1 H2.
  set (m := list_merge (cle compare) v1 v2).
  destruct (merge_sorted_split compare Hanti Htrans v1 v2 (length v1) H1 H2) as [HS Hpre].
  exists (take (length v1) m), (drop (length v1) m).
  split; [exact (keep_lowest_vec_by_merge compare v1 v2)|].
  split; [unfold m; rewrite length_take, (Permutation_length (merge_Permutation _ v1 v2)), length_app; lia|].
  split; [rewrite take_drop; apply merge_Permutation|].
  split; [exact HS | exact Hpre].
Qed.

Lemma keep_lowest_vec_by_lowest_witness :
  (forall a b, Nat.compare b a = CompOpp (Nat.compare a b)) /\
  (forall a b c, Nat.compare a b <> Gt -> Nat.compare b c <> Gt -> Nat.compare a c <> Gt) /\
  Sorted (cle Nat.compare) [1; 4; 9] /\ Sorted (cle Nat.compare) [2; 3] /\
  exists r rest, keep_lowest_vec_by [1; 4; 9] [2; 3] Nat.compare = Some r /\
    length r = length [1; 4; 9] /\
    r ++ rest ≡ₚ [1; 4; 9] ++ [2; 3] /\ Sorted (cle Nat.compare) r /\
    (forall x y, x ∈ r -> y ∈ rest -> cle Nat.compare x y).
Proof.
  assert (H1 : Sorted (cle Nat.compare) [1; 4; 9]) by (repeat constructor; cbn; discriminate).
  assert (H2 : Sorted (cle Nat.compare) [2; 3]) by (repeat constructor; cbn; discriminate).
  split; [exact ArenaListProofs.nat_compare_anti|].
  split; [exact ArenaListProofs.nat_compare_trans|].
  split; [exact H1|]. split; [exact H2|].
  exact (keep_lowest_vec_by_lowest Nat.compare [1; 4; 9] [2; 3]
           ArenaListProofs.nat_compare_anti ArenaListProofs.nat_compare_trans H1 H2).
Defined.

(** [keep_lowest_vec] for an [Ord] type ([cmp] a total order whose
    [Equal] means equal values): on two sorted vectors of any lengths it
    leaves in [v1] exactly the first [v1.len()] values of the sorted
    concatenation [v1 ++ v2]. *)
Theorem keep_lowest_vec_sorted_union {T} (cmp : T -> T -> comparison) (v1 v2 : list T) :
  (forall a b, cmp b a = CompOpp (cmp a b)) ->
  (forall a b c, cmp a b <> Gt -> cmp b c <> Gt -> cmp a c <> Gt) ->
  (forall a b, cmp a b = Eq -> a = b) ->
  Sorted (cle cmp) v1 -> Sorted (cle cmp) v2 ->
  keep_lowest_vec cmp v1 v2 = Some (take (length v1) (merge_sort (cle cmp) (v1 ++ v2))).
Proof.
  intros Hanti Htrans Heq H1 H2. unfold keep_lowest_vec.
  rewrite <- (merge_is_sort cmp Hanti Htrans Heq v1 v2 H1 H2).
  exact (keep_lowest_vec_by_merge cmp v1 v2).
Qed.

Lemma keep_lowest_vec_sorted_union_witness :
  (forall a b, Nat.compare b a = CompOpp (Nat.compare a b)) /\
  (forall a b c, Nat.compare a b <> Gt -> Nat.compare b c <> Gt -> Nat.compare a c <> Gt) /\
  (forall a b, Nat.compare a b = Eq -> a = b) /\
  Sorted (cle Nat.compare) [5; 7] /\ Sorted (cle Nat.compare) [1; 2; 6] /\
  keep_lowest_vec Nat.compare [5; 7] [1; 2; 6] =
    Some (take (length [5; 7]) (merge_sort (cle Nat.compare) ([5; 7] ++ [1; 2; 6]))).
Proof.
  assert (H1 : Sorted (cle Nat.compare) [5; 7]) by (repeat constructor; cbn; discriminate).
  assert (H2 : Sorted (cle Nat.compare) [1; 2; 6]) by (repeat constructor; cbn; discriminate).
  split; [exact ArenaListProofs.nat_compare_anti|].
  split; [exact ArenaListProofs.nat_compare_trans|].
  split; [exact Nat.compare_eq|].
  split; [exact H1|]. split; [exact H2|].
  exact (keep_lowest_vec_sorted_union Nat.compare [5; 7] [1; 2; 6]
           ArenaListProofs.nat_compare_anti ArenaListProofs.nat_compare_trans Nat.compare_eq H1 H2).
Defined.

(** [swap_maybeuninit_to_option] (array) and
    [swap_maybeuninit_to_option_vec] (vector): when the first [size]
    items of [arr] are initialised, both return, for each position [i] of
    [arr], [Some] of the item when [i < size] and [None] otherwise; items
    at positions [>= size] are never read, initialised or not, and a
    [size] beyond [arr.len()] converts the whole of [arr]. *)
Theorem swap_maybeuninit_prefix {T} (arr : list (option T)) (size : nat) :
  Forall is_Some (take size arr) ->
  swap_maybeuninit_to_option arr size = Some (take size arr ++ replicate (length arr - size) None) /\
  swap_maybeuninit_to_option_vec arr size = Some (take size arr ++ replicate (length arr - size) None).
Proof.
  intros H.
  assert (E : swap_loop (take size arr) 0 (replicate (length arr) None) =
              Some (take size arr ++ replicate (length arr - size) None)).
  { pose proof (swap_loop_spec (take size arr) [] (replicate (length arr) None) H
                  ltac:(rewrite length_take, length_replicate; lia)) as E.
    cbn [length app] in E. rewrite E, drop_replicate, length_take.
    replace (length arr - min size (length arr)) with (length arr - size) by lia. reflexivity. }
  split; exact E.
Qed.

Lemma swap_maybeuninit_prefix_witness :
  Forall is_Some (take 2 [Some 1; Some 2; None; Some 4]) /\
  swap_maybeuninit_to_option [Some 1; Some 2; None; Some 4] 2 =
    Some (take 2 [Some 1; Some 2; None; Some 4] ++ replicate (length [Some 1; Some 2; None; Some 4] - 2) None) /\
  swap_maybeuninit_to_option_vec [Some 1; Some 2; None; Some 4] 2 =
    Some (take 2 [Some 1; Some 2; None; Some 4] ++ replicate (length [Some 1; Some 2; None; Some 4] - 2) None).
Proof.
  assert (H : Forall is_Some (take 2 [Some 1; Some 2; None; Some 4])) by (repeat econstructor).
  split; [exact H|]. exact (swap_maybeuninit_prefix [Some 1; Some 2; None; Some 4] 2 H).
Defined.

End VecCoreProofs.

(** * Proofs about [option::core] *)

Module OptionCoreProofs.
Import OptionCore.

Lemma Sorted_map_Some {T} (R : option T -> option T -> Prop) (R' : T -> T -> Prop) (ys : list T) :
  (forall x y, R (Some x) (Some y) <-> R' x y) -> Sorted R (map Some ys) <-> Sorted R' ys.
Proof.
  intros HR. split.
  - induction ys as [|x ys IH]; intros H; [constructor|]. cbn [map] in H.
    apply Sorted_inv in H as [H1 H2]. constructor; [exact (IH H1)|].
    destruct ys as [|y ys]; constructor. cbn [map] in H2. apply HR. exact (HdRel_inv H2).
  - induction 1 as [|x ys Hs IH Hd]; cbn [map]; constructor; [exact IH|].
    destruct Hd; cbn [map]; constructor. apply HR. assumption.
Qed.

Lemma Sorted_replicate_None {T} (R : option T -> option T -> Prop) k :
  R None None -> Sorted R (replicate k None).
Proof.
  intros HR. induction k as [|k IH]; cbn [replicate]; constructor; [exact IH|].
  destruct k; cbn [replicate]; constructor. exact HR.
Qed.

(** If [compare_t] is a total preorder (antisymmetric as an [Ordering],
    transitive on "not [Greater]"), so is [put_option_first] with it,
    with [None] below every [Some]. *)
Theorem put_option_first_total_preorder {T} (compare_t : T -> T -> comparison) :
  (forall x y, compare_t y x = CompOpp (compare_t x y)) ->
  (forall x y z, compare_t x y <> Gt -> compare_t y z <> Gt -> compare_t x z <> Gt) ->
  (forall a b, put_option_first b a compare_t = CompOpp (put_option_first a b compare_t)) /\
  (forall a b c, put_option_first a b compare_t <> Gt -> put_option_first b c compare_t <> Gt ->
     put_option_first a c compare_t <> Gt) /\
  (forall x, put_option_first None (Some x) compare_t = Lt).
Proof.
  intros Hanti Htrans. split; [|split].
  - intros [x|] [y|]; cbn; [apply Hanti | reflexivity | reflexivity | reflexivity].
  - intros [x|] [y|] [z|]; cbn; intros H1 H2; try congruence; [exact (Htrans _ _ _ H1 H2)].
  - reflexivity.
Qed.

Lemma put_option_first_total_preorder_witness :
  (forall x y, Nat.compare y x = CompOpp (Nat.compare x y)) /\
  (forall x y z, Nat.compare x y <> Gt -> Nat.compare y z <> Gt -> Nat.compare x z <> Gt) /\
  (forall a b, put_option_first b a Nat.compare = CompOpp (put_option_first a b Nat.compare)) /\
  (forall a b c, put_option_first a b Nat.compare <> Gt -> put_option_first b c Nat.compare <> Gt ->
     put_option_first a c Nat.compare <> Gt) /\
  (forall x, put_option_first None (Some x) Nat.compare = Lt).
Proof.
  split; [exact ArenaListProofs.nat_compare_anti|].
  split; [exact ArenaListProofs.nat_compare_trans|].
  exact (put_option_first_total_preorder Nat.compare
           ArenaListProofs.nat_compare_anti ArenaListProofs.nat_compare_trans).
Defined.

(** If [compare_t] is a total preorder, so is [put_option_last] with it,
    with [None] above every [Some]. *)
Theorem put_option_last_total_preorder {T} (compare_t : T -> T -> comparison) :
  (forall x y, compare_t y x = CompOpp (compare_t x y)) ->
  (forall x y z, compare_t x y <> Gt -> compare_t y z <> Gt -> compare_t x z <> Gt) ->
  (forall a b, put_option_last b a compare_t = CompOpp (put_option_last a b compare_t)) /\
  (forall a b c, put_option_last a b compare_t <> Gt -> put_option_last b c compare_t <> Gt ->
     put_option_last a c compare_t <> Gt) /\
  (forall x, put_option_last None (Some x) compare_t = Gt).
Proof.
  intros Hanti Htrans. split; [|split].
  - intros [x|] [y|]; cbn; [apply Hanti | reflexivity | reflexivity | reflexivity].
  - intros [x|] [y|] [z|]; cbn; intros H1 H2; try congruence; [exact (Htrans _ _ _ H1 H2)].
  - reflexivity.
Qed.

Lemma put_option_last_total_preorder_witness :
  (forall x y, Nat.compare y x = CompOpp (Nat.compare x y)) /\
  (forall x y z, Nat.compare x y <> Gt -> Nat.compare y z <> Gt -> Nat.compare x z <> Gt) /\
  (forall a b, put_option_last b a Nat.compare = CompOpp (put_option_last a b Nat.compare)) /\
  (forall a b c, put_option_last a b Nat.compare <> Gt -> put_option_last b c Nat.compare <> Gt ->
     put_option_last a c Nat.compare <> Gt) /\
  (forall x, put_option_last None (Some x) Nat.compare = Gt).
Proof.
  split; [exact ArenaListProofs.nat_compare_anti|].
  split; [exact ArenaListProofs.nat_compare_trans|].
  exact (put_option_last_total_preorder Nat.compare
           ArenaListProofs.nat_compare_anti ArenaListProofs.nat_compare_trans).
Defined.

(** A list of options is sorted ascending by [put_option_first] exactly
    when it is some [None]s followed by [Some] of a list sorted ascending
    by [compare_t]. *)
Theorem put_option_first_sorted_shape {T} (compare_t : T -> T -> comparison) (l : list (option T)) :
  Sorted (fun a b => put_option_first a b compare_t <> Gt) l <->
  exists k ys, l = replicate k None ++ map Some ys /\ Sorted (fun x y => compare_t x y <> Gt) ys.
Proof.
  split.
  - induction l as [|a l IH]; intros H.
    + exists 0, []. split; [reflexivity | constructor].
    + apply Sorted_inv in H as [Hl Hd]. destruct (IH Hl) as (k & ys & -> & Hys).
      destruct a as [x|].
      * destruct k as [|k].
        -- exists 0, (x :: ys). split; [reflexivity|]. constructor; [exact Hys|].
           destruct ys as [|y ys]; constructor. cbn [replicate app map] in Hd.
           exact (HdRel_inv Hd).
        -- cbn [replicate app] in Hd. apply HdRel_inv in Hd. cbn in Hd. congruence.
      * exists (S k), ys. split; [reflexivity | exact Hys].
  - intros (k & ys & -> & Hys). induction k as [|k IH]; cbn [replicate app].
    + apply (Sorted_map_Some _ (fun x y => compare_t x y <> Gt)); [intros; reflexivity | exact Hys].
    + constructor; [exact IH|]. destruct k as [|k]; cbn [replicate app].
      * destruct ys; cbn [map]; constructor. cbn. discriminate.
      * constructor. cbn. discriminate.
Qed.

(** A list of options is sorted ascending by [put_option_last] exactly
    when it is [Some] of a list sorted ascending by [compare_t] followed by
    some [None]s. *)
Theorem put_option_last_sorted_shape {T} (compare_t : T -> T -> comparison) (l : list (option T)) :
  Sorted (fun a b => put_option_last a b compare_t <> Gt) l <->
  exists k ys, l = map Some ys ++ replicate k None /\ Sorted (fun x y => compare_t x y <> Gt) ys.
Proof.
  split.
  - induction l as [|a l IH]; intros H.
    + exists 0, []. split; [reflexivity | constructor].
    + apply Sorted_inv in H as [Hl Hd]. destruct (IH Hl) as (k & ys & -> & Hys).
      destruct a as [x|].
      * exists k, (x :: ys). split; [reflexivity|]. constructor; [exact Hys|].
        destruct ys as [|y ys]; constructor. cbn [app map] in Hd. exact (HdRel_inv Hd).
      * destruct ys as [|y ys].
        -- exists (S k), []. split; [reflexivity | constructor].
        -- cbn [app map] in Hd. apply HdRel_inv in Hd. cbn in Hd. congruence.
  - intros (k & ys & -> & Hys). induction Hys as [|x ys Hs IH Hd]; cbn [map app].
    + apply Sorted_replicate_None. cbn. discriminate.
    + constructor; [exact IH|]. destruct Hd as [|y ys' Hy]; cbn [map app].
      * destruct k; cbn [replicate]; constructor. cbn. discriminate.
      * constructor. exact Hy.
Qed.

End OptionCoreProofs.

(* ===================================================================== *)
(** * Proofs about [as_array] *)
(* ===================================================================== *)

Module ArenaListArrayProofs.
Import ArenaList ArenaListProofs ArrayCore ArrayCoreProofs ArenaListArray.

Section Proofs.
Context {T : Type}.
Implicit Types (ns : list (option (Node T))) (ch l : list nat) (s : SizedDoubleLinkedList T).

Lemma as_array_from_seg ns p l x fuel c :
  seg ns p l None -> l !! 0 = Some x -> length l < fuel -> length c = length ns ->
  exists c', as_array_from ns c x fuel = Some c' /\ length c' = length c /\
    forall j, c' !! j = if decide (j ∈ l) then ns !! j else c !! j.
Proof.
  revert p x fuel c. induction l as [|i l IH]; intros p x fuel c Hs Hx Hf Hc; [discriminate|].
  cbn in Hx. injection Hx as <-. destruct fuel as [|fuel]; [cbn in Hf; lia|].
  destruct Hs as (n & Hn & _ & _ & Hnn & Hs).
  pose proof (node_at_lt _ _ _ Hn) as Hlt.
  assert (Hns : ns !! i = Some (Some n)).
  { unfold node_at in Hn. destruct (ns !! i) as [[m|]|]; congruence. }
  cbn [as_array_from]. rewrite Hn. cbn [mbind option_bind].
  replace (mk_node (value n) (index n) (prev n) (next n)) with n by (destruct n; reflexivity).
  rewrite write_slot_ok by lia. cbn [mbind option_bind]. rewrite Hnn.
  destruct l as [|y l].
  - exists (<[i := Some n]> c). split; [reflexivity|]. split; [apply length_insert|].
    intros j. destruct (decide (j = i)) as [->|Hne].
    + rewrite decide_True by set_solver. rewrite list_lookup_insert_eq by lia. symmetry. exact Hns.
    + rewrite decide_False by set_solver. apply list_lookup_insert_ne. congruence.
  - cbn [hd_or].
    destruct (IH (Some i) y fuel (<[i := Some n]> c) Hs eq_refl ltac:(cbn in Hf |- *; lia)
                ltac:(rewrite length_insert; exact Hc)) as (c' & E & Hl & Hj).
    exists c'. split; [exact E|]. split; [rewrite Hl; apply length_insert|].
    intros j. rewrite Hj. destruct (decide (j ∈ y :: l)) as [Hin|Hin].
    + rewrite decide_True by set_solver. reflexivity.
    + destruct (decide (j = i)) as [->|Hne].
      * rewrite decide_True by set_solver. rewrite list_lookup_insert_eq by lia. symmetry. exact Hns.
      * rewrite decide_False by set_solver. apply list_lookup_insert_ne. congruence.
Qed.

(** Under the invariant the loop copies every live node to its own slot:
    the copy is the node array itself. *)
Lemma as_array_swap s ch :
  Inv s ch -> as_array s = swap_maybeuninit_to_option (nodes s) (len s).
Proof.
  intros Hinv. pose proof (inv_len _ _ Hinv) as Hl. pose proof (inv_len_le _ _ Hinv) as Hle.
  assert (Hdead : forall j, j ∉ ch -> j < K s -> nodes s !! j = Some None).
  { intros j Hj Hjk. destruct (nodes s !! j) as [[n|]|] eqn:E.
    - exfalso. apply Hj. apply (inv_live _ _ Hinv). unfold node_at. rewrite E. eexists; reflexivity.
    - reflexivity.
    - apply lookup_ge_None in E. unfold K in Hjk. lia. }
  unfold as_array. rewrite (inv_head _ _ Hinv). destruct ch as [|x ch'] eqn:Ech.
  - cbn in Hl. rewrite Hl. f_equal. apply list_eq. intros j.
    destruct (decide (j < K s)) as [Hj|Hj].
    + rewrite lookup_replicate_2 by lia. symmetry. apply Hdead; [set_solver | exact Hj].
    + rewrite !lookup_ge_None_2; [reflexivity | unfold K in Hj; lia | rewrite length_replicate; lia].
  - rewrite <- Ech in *. assert (Hx : ch !! 0 = Some x) by (subst ch; reflexivity). rewrite Hx.
    destruct (as_array_from_seg (nodes s) None ch x (S (K s)) (replicate (K s) None) (inv_seg _ _ Hinv)
                Hx ltac:(lia) ltac:(rewrite length_replicate; reflexivity)) as (c' & E & Hlc & Hj).
    rewrite E. cbn [mbind option_bind]. f_equal. apply list_eq. intros j.
    rewrite Hj. destruct (decide (j ∈ ch)) as [Hin|Hin]; [reflexivity|].
    destruct (decide (j < K s)) as [Hjk|Hjk].
    + rewrite lookup_replicate_2 by lia. symmetry. apply Hdead; assumption.
    + rewrite !lookup_ge_None_2; [reflexivity | unfold K in Hjk; lia | rewrite length_replicate; lia].
Qed.

Lemma swap_loop_none (items : list (option (Node T))) i out :
  None ∈ items -> swap_loop items i out = None.
Proof.
  revert i out. induction items as [|item items IH]; intros i out Hn; [set_solver|].
  cbn [swap_loop]. destruct item as [v|]; [|reflexivity]. cbn [mbind option_bind].
  destruct (i <? length out)%nat; [|reflexivity]. apply IH. set_solver.
Qed.

End Proofs.

(** [as_array] on a list satisfying the invariant converts the first
    [len] slots of the copied node array, not the slots the nodes occupy:
    when every slot below [len] holds a node it returns the node array
    itself ([Some] node in each live slot, [None] elsewhere); when some slot
    below [len] is free (after a removal, say) it reads an uninitialised
    slot, undefined behaviour. *)
Theorem as_array_contiguous {T} (s : SizedDoubleLinkedList T) ch :
  Inv s ch ->
  ((forall i, i < len s -> i ∈ ch) -> as_array s = Some (nodes s)) /\
  (forall i, i < len s -> i ∉ ch -> as_array s = None).
Proof.
  intros Hinv. rewrite (as_array_swap _ _ Hinv).
  pose proof (inv_len _ _ Hinv) as Hl. pose proof (inv_len_le _ _ Hinv) as Hle.
  pose proof (inv_nodup _ _ Hinv) as Hnd.
  assert (Hlive : forall j, j ∈ ch -> exists n, nodes s !! j = Some (Some n)).
  { intros j Hj. apply (inv_live _ _ Hinv) in Hj as [n Hn]. exists n.
    unfold node_at in Hn. destruct (nodes s !! j) as [[m|]|]; congruence. }
  assert (Hdead : forall j, j ∉ ch -> j < K s -> nodes s !! j = Some None).
  { intros j Hj Hjk. destruct (nodes s !! j) as [[n|]|] eqn:E.
    - exfalso. apply Hj. apply (inv_live _ _ Hinv). unfold node_at. rewrite E. eexists; reflexivity.
    - reflexivity.
    - apply lookup_ge_None in E. unfold K in Hjk. lia. }
  split.
  - intros Hall.
    assert (Hsmall : forall j, j ∈ ch -> j < len s).
    { intros j Hj. destruct (decide (j < len s)) as [|Hge]; [assumption|]. exfalso.
      assert (Hincl : incl (j :: seq 0 (len s)) ch).
      { intros y Hy. apply list_elem_of_In. destruct Hy as [<-|Hy]; [exact Hj|].
        apply Hall. apply list_elem_of_In, elem_of_seq in Hy. lia. }
      assert (HndS : List.NoDup (j :: seq 0 (len s))).
      { constructor; [|apply (proj1 (NoDup_ListNoDup _)), NoDup_seq].
        intros Hy. apply list_elem_of_In, elem_of_seq in Hy. lia. }
      pose proof (NoDup_incl_length HndS Hincl) as Hlen. cbn [length] in Hlen.
      rewrite length_seq in Hlen. lia. }
    unfold swap_maybeuninit_to_option.
    assert (Hsome : Forall is_Some (take (len s) (nodes s))).
    { apply Forall_forall. intros x Hx. apply elem_of_take in Hx as (j & Hx & Hj).
      destruct (Hlive j (Hall j Hj)) as [n Hn]. rewrite Hn in Hx. injection Hx as <-. eexists; reflexivity. }
    pose proof (swap_loop_spec (take (len s) (nodes s)) [] (replicate (length (nodes s)) None) Hsome
                  ltac:(rewrite length_take, length_replicate; lia)) as E.
    cbn [length app] in E. rewrite E. f_equal.
    rewrite drop_replicate, length_take.
    apply list_eq. intros j. destruct (decide (j < len s)) as [Hj|Hj].
    + rewrite lookup_app_l by (rewrite length_take; unfold K in Hle; lia).
      apply lookup_take_lt. exact Hj.
    + rewrite lookup_app_r by (rewrite length_take; unfold K in Hle; lia).
      rewrite length_take. replace (min (len s) (length (nodes s))) with (len s) by (unfold K in Hle; lia).
      destruct (decide (j < K s)) as [Hjk|Hjk].
      * rewrite lookup_replicate_2 by (unfold K in Hjk; lia). symmetry. apply Hdead; [|exact Hjk].
        intros Hin. apply Hsmall in Hin. lia.
      * rewrite !lookup_ge_None_2; [reflexivity | unfold K in Hjk; lia | rewrite length_replicate; unfold K in Hjk; lia].
  - intros i Hi Hni. unfold swap_maybeuninit_to_option. apply swap_loop_none.
    apply list_elem_of_lookup. exists i. rewrite lookup_take_lt by exact Hi.
    apply Hdead; [exact Hni | lia].
Qed.

Lemma as_array_contiguous_witness :
  Inv three [0; 1; 2] /\
  ((forall i, i < len three -> i ∈ [0; 1; 2]) -> as_array three = Some (nodes three)) /\
  (forall i, i < len three -> i ∉ [0; 1; 2] -> as_array three = None).
Proof. split; [exact three_inv|]. exact (as_array_contiguous three [0; 1; 2] three_inv). Defined.

(** Both outcomes on concrete lists: three [insert_tail]s fill slots 0, 1
    and 2; removing the head then leaves slot 0 empty inside the first
    [len] slots. *)
Example as_array_examples :
  (s ← build 4 [InsertTail 1; InsertTail 2; InsertTail 3]; as_array s) <> None /\
  (s ← build 4 [InsertTail 1; InsertTail 2; InsertTail 3; Remove 0]; Some (as_array s)) = Some None.
Proof. split; [vm_compute; discriminate | vm_compute; reflexivity]. Qed.

End ArenaListArrayProofs.

(* ===================================================================== *)
(** * Proofs about the heap-allocated list *)
(* ===================================================================== *)

Module DynListProofs.
Import ArenaList DynList.

Section Chains.
Context {T : Type}.
Implicit Types (h : gmap nat (Node T)) (dl : DoubleLinkedList T).

Lemma dseg_frame h h' p ch q :
  dseg h p ch q -> (forall i, i ∈ ch -> h' !! i = h !! i) -> dseg h' p ch q.
Proof.
  revert p. induction ch as [|i ch IH]; intros p Hs Hf; [exact I|].
  destruct Hs as (n & Hn & Hp & Hq & Hs). exists n.
  rewrite Hf by set_solver. split; [exact Hn|]. split; [exact Hp|]. split; [exact Hq|].
  apply IH; [exact Hs|]. intros j Hj. apply Hf. set_solver.
Qed.

Lemma dseg_app h p l1 l2 q :
  dseg h p (l1 ++ l2) q <->
  dseg h p l1 (hd_or l2 q) /\ dseg h (match last l1 with Some x => Some x | None => p end) l2 q.
Proof.
  revert p. induction l1 as [|i l1 IH]; intros p; cbn [app dseg].
  - split; [intros H; split; [exact I | exact H] | intros [_ H]; exact H].
  - split.
    + intros (n & Hn & Hp & Hq & Hs). apply IH in Hs as [Hs1 Hs2].
      split.
      * exists n. split; [exact Hn|]. split; [exact Hp|]. split; [|exact Hs1].
        rewrite Hq. destruct l1; reflexivity.
      * rewrite last_cons. destruct (last l1); exact Hs2.
    + intros [(n & Hn & Hp & Hq & Hs) Hs2]. exists n.
      split; [exact Hn|]. split; [exact Hp|]. split.
      * rewrite Hq. destruct l1; reflexivity.
      * apply IH. split; [exact Hs|].
        rewrite last_cons in Hs2. destruct (last l1); exact Hs2.
Qed.

Lemma dseg_lookup h p ch q j x :
  dseg h p ch q -> ch !! j = Some x ->
  exists n, h !! x = Some n /\
    prev n = (match j with O => p | S j' => ch !! j' end) /\
    next n = (match ch !! S j with Some y => Some y | None => q end).
Proof.
  revert p j. induction ch as [|i ch IH]; intros p j Hs Hj; [discriminate|].
  destruct Hs as (n & Hn & Hp & Hq & Hs). destruct j as [|j].
  - injection Hj as <-. exists n. split; [exact Hn|]. split; [exact Hp|].
    rewrite Hq. destruct ch; reflexivity.
  - destruct (IH (Some i) j Hs Hj) as (m & Hm & Hmp & Hmq). exists m.
    split; [exact Hm|]. split; [|exact Hmq]. rewrite Hmp; destruct j; reflexivity.
Qed.

Lemma dseg_walk_fwd h p ch q j x :
  dseg h p ch q -> ch !! 0 = Some x -> j < length ch -> walk h x j true = ch !! j.
Proof.
  revert p x j. induction ch as [|i ch IH]; intros p x j Hs Hx Hj; [discriminate|].
  injection Hx as <-. destruct Hs as (n & Hn & Hp & Hq & Hs).
  destruct j as [|j]; [reflexivity|]. cbn in Hj.
  destruct ch as [|y ch]; [cbn in Hj; lia|].
  cbn [walk]. rewrite Hn. cbn. rewrite Hq. cbn.
  apply (IH (Some i) y j Hs eq_refl). cbn in Hj |- *. lia.
Qed.

Lemma dseg_walk_bwd h p ch q j x :
  dseg h p ch q -> last ch = Some x -> j < length ch ->
  walk h x j false = ch !! (length ch - 1 - j).
Proof.
  revert q x j. induction ch as [|y ch IH] using rev_ind; intros q x j Hs Hx Hj; [discriminate|].
  rewrite last_snoc in Hx. injection Hx as ->.
  apply dseg_app in Hs as [Hs1 Hs2]. cbn [dseg] in Hs2.
  destruct Hs2 as (n & Hn & Hp & Hq & _).
  rewrite length_app in Hj |- *. cbn [length] in Hj |- *.
  destruct j as [|j].
  - rewrite lookup_app_r by lia. replace (length ch + 1 - 1 - 0 - length ch) with 0 by lia.
    reflexivity.
  - destruct ch as [|z ch'] using rev_ind; [cbn in Hj; lia|]. clear IHch'.
    rewrite length_app in Hj |- *. cbn [length] in Hj |- *.
    cbn [walk]. rewrite Hn. cbn [mbind option_bind]. rewrite Hp, last_snoc.
    cbn [mbind option_bind].
    rewrite lookup_app_l by (rewrite length_app; cbn [length]; lia).
    replace (length ch' + 1 + 1 - 1 - S j) with (length (ch' ++ [z]) - 1 - j)
      by (rewrite length_app; cbn [length]; lia).
    eapply IH; [exact Hs1 | apply last_snoc | rewrite length_app; cbn [length]; lia].
Qed.

Lemma dinv_slot dl ch j x :
  DInv dl ch -> ch !! j = Some x ->
  exists n, heap dl !! x = Some n /\
    prev n = (match j with O => None | S j' => ch !! j' end) /\ next n = ch !! S j.
Proof.
  intros Hinv Hj. destruct (dseg_lookup _ _ _ _ _ _ (dinv_seg _ _ Hinv) Hj) as (n & ? & ? & Hn).
  exists n. split; [assumption|]. split; [assumption|]. rewrite Hn. destruct (ch !! S j); reflexivity.
Qed.

Lemma dseek_inv dl ch idx :
  DInv dl ch -> idx < len dl -> seek dl idx = ch !! idx.
Proof.
  intros Hinv Hi. pose proof (dinv_len _ _ Hinv) as Hl. unfold seek.
  destruct (Nat.ltb_spec idx (len dl / 2)) as [Hh|Hh].
  - destruct ch as [|x ch']; [cbn in Hl; lia|].
    rewrite (dinv_head _ _ Hinv). cbn [lookup list_lookup mbind option_bind].
    eapply dseg_walk_fwd; [apply (dinv_seg _ _ Hinv) | reflexivity | lia].
  - destruct (last ch) as [t|] eqn:Ht; [|apply last_None in Ht; subst ch; cbn in Hl; lia].
    rewrite (dinv_tail _ _ Hinv), Ht. cbn [mbind option_bind].
    unfold sub_usize. destruct (Nat.leb_spec 1 (len dl)) as [_|]; [|lia].
    cbn [mbind option_bind]. destruct (Nat.leb_spec idx (len dl - 1)) as [_|]; [|lia].
    cbn [mbind option_bind].
    rewrite (dseg_walk_bwd _ _ _ _ _ _ (dinv_seg _ _ Hinv) Ht) by lia.
    f_equal. lia.
Qed.

Lemma dget_inv dl ch idx :
  DInv dl ch -> idx < len dl ->
  exists x n, ch !! idx = Some x /\ heap dl !! x = Some n /\ get dl idx = Some (Ok (value n)).
Proof.
  intros Hinv Hi. pose proof (dinv_len _ _ Hinv) as Hl.
  destruct (ch !! idx) as [x|] eqn:Hx; [|apply lookup_ge_None in Hx; lia].
  destruct (dinv_slot _ _ _ _ Hinv Hx) as (n & Hn & _).
  exists x, n. split; [reflexivity|]. split; [exact Hn|].
  unfold get. destruct (Nat.leb_spec (len dl) idx) as [|_]; [lia|].
  rewrite (dseek_inv _ _ _ Hinv Hi), Hx. cbn [mbind option_bind]. rewrite Hn. reflexivity.
Qed.

Lemma dcontents_inv dl ch :
  DInv dl ch -> exists vs, values (heap dl) ch = Some vs /\ contents dl = Some vs.
Proof.
  intros Hinv. pose proof (dinv_len _ _ Hinv) as Hl.
  assert (Hv : is_Some (values (heap dl) ch)).
  { apply mapM_is_Some, Forall_forall. intros x Hx.
    apply list_elem_of_lookup in Hx as [j Hj].
    destruct (dinv_slot _ _ _ _ Hinv Hj) as (n & Hn & _). cbn. rewrite Hn. eexists; reflexivity. }
  destruct Hv as [vs Hv]. exists vs. split; [exact Hv|].
  apply mapM_Some_1 in Hv. unfold contents. apply mapM_Some_2.
  apply Forall2_lookup. intros i. apply Forall2_lookup with (i := i) in Hv.
  destruct (decide (i < len dl)) as [Hi|Hi].
  - destruct (dget_inv _ _ _ Hinv Hi) as (x & n & Hx & Hn & Hg).
    rewrite Hx in Hv. inversion Hv as [? y Hy Heq1 Heq2|]; subst.
    rewrite Hn in Hy. cbn in Hy. injection Hy as <-.
    replace (seq 0 (len dl) !! i) with (Some i) by (symmetry; apply lookup_seq; lia).
    constructor. rewrite Hg. reflexivity.
  - rewrite lookup_seq_ge by lia.
    rewrite (lookup_ge_None_2 ch i) in Hv by lia. inversion Hv. constructor.
Qed.

End Chains.

Section Splice.
Context {T : Type}.
Implicit Types (h : gmap nat (Node T)) (dl : DoubleLinkedList T).

Lemma dseg_set_last h h' p l q q' :
  dseg h p l q -> NoDup l ->
  (forall x n, last l = Some x -> h !! x = Some n -> h' !! x = Some (set_next q' n)) ->
  (forall i, i ∈ l -> last l <> Some i -> h' !! i = h !! i) ->
  dseg h' p l q'.
Proof.
  induction l as [|x l _] using rev_ind; intros Hs Hnd Hx Hf; [exact I|].
  apply dseg_app in Hs as [Hs1 Hs2]. apply dseg_app. cbn [hd_or] in *. split.
  - apply (dseg_frame h); [exact Hs1|]. intros i Hi. apply Hf; [set_solver|].
    rewrite last_snoc. intros [= Hxi]. subst i. apply NoDup_app in Hnd as (_ & Hd & _).
    apply (Hd x Hi). set_solver.
  - cbn [dseg] in Hs2 |- *. destruct Hs2 as (n & Hn & Hp & Hq & _).
    exists (set_next q' n). split; [apply Hx; [apply last_snoc | exact Hn]|].
    split; [exact Hp|]. split; [reflexivity|exact I].
Qed.

Lemma dseg_set_first h h' p p' l q :
  dseg h p l q -> NoDup l ->
  (forall y n, l !! 0 = Some y -> h !! y = Some n -> h' !! y = Some (set_prev p' n)) ->
  (forall i, i ∈ l -> l !! 0 <> Some i -> h' !! i = h !! i) ->
  dseg h' p' l q.
Proof.
  destruct l as [|y l]; intros Hs Hnd Hy Hf; [exact I|].
  cbn [dseg] in Hs |- *. destruct Hs as (n & Hn & Hp & Hq & Hs).
  exists (set_prev p' n). split; [apply Hy; [reflexivity | exact Hn]|].
  split; [reflexivity|]. split; [exact Hq|].
  apply (dseg_frame h); [exact Hs|]. intros i Hi'. apply Hf; [set_solver|].
  intros [= ->]. apply NoDup_cons in Hnd as [Hnd _]. contradiction.
Qed.

Lemma dseg_splice h h' l1 l2 new v :
  dseg h None (l1 ++ l2) None -> NoDup (l1 ++ l2) ->
  h' !! new = Some (mk_node v (last l1) (l2 !! 0)) ->
  (forall x n, last l1 = Some x -> h !! x = Some n -> h' !! x = Some (set_next (Some new) n)) ->
  (forall y n, l2 !! 0 = Some y -> h !! y = Some n -> h' !! y = Some (set_prev (Some new) n)) ->
  (forall i, i ∈ l1 ++ l2 -> last l1 <> Some i -> l2 !! 0 <> Some i -> h' !! i = h !! i) ->
  dseg h' None (l1 ++ new :: l2) None.
Proof.
  intros Hs Hnd Hnew Hx Hy Hf. apply dseg_app in Hs as [Hs1 Hs2].
  rewrite ArenaListProofs.hd_or_None in Hs1. rewrite ArenaListProofs.last_or_None in Hs2.
  pose proof Hnd as Hnd'. apply NoDup_app in Hnd' as (Hnd1 & _ & Hnd2).
  apply dseg_app. rewrite ArenaListProofs.last_or_None. split.
  - apply (dseg_set_last h _ _ _ _ _ Hs1 Hnd1 Hx).
    intros i Hi Hl. apply Hf; [set_solver | exact Hl |].
    intros Hh. apply ArenaListProofs.head_elem in Hh. exact (ArenaListProofs.NoDup_app_disj _ _ _ _ Hnd Hi Hh eq_refl).
  - cbn [dseg]. exists (mk_node v (last l1) (l2 !! 0)). split; [exact Hnew|].
    split; [reflexivity|]. split; [rewrite ArenaListProofs.hd_or_None; reflexivity|].
    apply (dseg_set_first h _ _ _ _ _ Hs2 Hnd2 Hy).
    intros i Hi Hh. apply Hf; [set_solver | | exact Hh].
    intros Hl. apply last_Some_elem_of in Hl. exact (ArenaListProofs.NoDup_app_disj _ _ _ _ Hnd Hl Hi eq_refl).
Qed.

Lemma dseg_unsplice h h' l1 c l2 :
  dseg h None (l1 ++ c :: l2) None -> NoDup (l1 ++ c :: l2) ->
  (forall x n, last l1 = Some x -> h !! x = Some n -> h' !! x = Some (set_next (l2 !! 0) n)) ->
  (forall y n, l2 !! 0 = Some y -> h !! y = Some n -> h' !! y = Some (set_prev (last l1) n)) ->
  (forall i, i ∈ l1 ++ l2 -> last l1 <> Some i -> l2 !! 0 <> Some i -> h' !! i = h !! i) ->
  dseg h' None (l1 ++ l2) None.
Proof.
  intros Hs Hnd Hx Hy Hf. apply dseg_app in Hs as [Hs1 Hs2].
  rewrite ArenaListProofs.last_or_None in Hs2. cbn [dseg] in Hs2.
  destruct Hs2 as (n & Hn & Hp & Hq & Hs2).
  assert (Hnd12 : NoDup (l1 ++ l2)).
  { apply NoDup_app in Hnd as (H1 & Hd & H2). apply NoDup_cons in H2 as [_ H2].
    apply NoDup_app. split; [exact H1|]. split; [|exact H2]. intros z Hz Hz2. apply (Hd z Hz). set_solver. }
  pose proof Hnd12 as Hnd'. apply NoDup_app in Hnd' as (Hnd1 & _ & Hnd2).
  apply dseg_app. rewrite ArenaListProofs.last_or_None. rewrite ArenaListProofs.hd_or_None. split.
  - apply (dseg_set_last h _ _ _ _ _ Hs1 Hnd1 Hx).
    intros i Hi1 Hl. apply Hf; [set_solver | exact Hl |].
    intros Hh. apply ArenaListProofs.head_elem in Hh. exact (ArenaListProofs.NoDup_app_disj _ _ _ _ Hnd12 Hi1 Hh eq_refl).
  - apply (dseg_set_first h _ _ _ _ _ Hs2 Hnd2 Hy).
    intros i Hi1 Hh. apply Hf; [set_solver | | exact Hh].
    intros Hl. apply last_Some_elem_of in Hl. exact (ArenaListProofs.NoDup_app_disj _ _ _ _ Hnd12 Hl Hi1 eq_refl).
Qed.

Lemma dinv_insert dl ch l1 l2 new v h' head' tail' len' :
  DInv dl ch -> ch = l1 ++ l2 -> new ∉ dom (heap dl) ->
  h' !! new = Some (mk_node v (last l1) (l2 !! 0)) ->
  (forall x n, last l1 = Some x -> heap dl !! x = Some n -> h' !! x = Some (set_next (Some new) n)) ->
  (forall y n, l2 !! 0 = Some y -> heap dl !! y = Some n -> h' !! y = Some (set_prev (Some new) n)) ->
  (forall i, i <> new -> last l1 <> Some i -> l2 !! 0 <> Some i -> h' !! i = heap dl !! i) ->
  dom h' = {[new]} ∪ dom (heap dl) ->
  head' = (l1 ++ new :: l2) !! 0 -> tail' = last (l1 ++ new :: l2) -> len' = len dl + 1 ->
  DInv (mk_list h' head' tail' len') (l1 ++ new :: l2).
Proof.
  intros Hinv -> Hfresh Hnew Hx Hy Hf Hdom -> -> ->.
  pose proof (dinv_nodup _ _ Hinv) as Hnd. rewrite (dinv_dom _ _ Hinv) in Hfresh.
  constructor; cbn [heap len tail head].
  - apply (dseg_splice (heap dl) h' l1 l2 new v (dinv_seg _ _ Hinv) Hnd Hnew Hx Hy).
    intros i Hi Hl1 Hh1. apply Hf; [intros ->; set_solver | exact Hl1 | exact Hh1].
  - apply NoDup_app. apply NoDup_app in Hnd as (Hnd1 & Hd & Hnd2).
    split; [exact Hnd1|]. split.
    + intros z Hz Hz'. apply elem_of_cons in Hz' as [->|Hz']; [set_solver|]. exact (Hd z Hz Hz').
    + apply NoDup_cons. split; [set_solver | exact Hnd2].
  - rewrite (dinv_len _ _ Hinv), !length_app. cbn. lia.
  - reflexivity.
  - reflexivity.
  - rewrite Hdom, (dinv_dom _ _ Hinv). rewrite !list_to_set_app_L. cbn. set_solver.
Qed.

Lemma dinv_remove dl ch l1 c l2 h' head' tail' len' :
  DInv dl ch -> ch = l1 ++ c :: l2 ->
  (forall x n, last l1 = Some x -> heap dl !! x = Some n -> h' !! x = Some (set_next (l2 !! 0) n)) ->
  (forall y n, l2 !! 0 = Some y -> heap dl !! y = Some n -> h' !! y = Some (set_prev (last l1) n)) ->
  (forall i, i <> c -> last l1 <> Some i -> l2 !! 0 <> Some i -> h' !! i = heap dl !! i) ->
  dom h' = dom (heap dl) ∖ {[c]} ->
  head' = (l1 ++ l2) !! 0 -> tail' = last (l1 ++ l2) -> len' = len dl - 1 ->
  DInv (mk_list h' head' tail' len') (l1 ++ l2).
Proof.
  intros Hinv -> Hx Hy Hf Hdom -> -> ->. pose proof (dinv_nodup _ _ Hinv) as Hnd.
  assert (Hnd12 : NoDup (l1 ++ l2)).
  { apply NoDup_app in Hnd as (H1 & Hd & H2). apply NoDup_cons in H2 as [_ H2].
    apply NoDup_app. split; [exact H1|]. split; [|exact H2]. intros z Hz Hz2. apply (Hd z Hz). set_solver. }
  assert (Hcn : c ∉ l1 ++ l2).
  { apply NoDup_app in Hnd as (_ & Hd & H2). apply NoDup_cons in H2 as [H2 _].
    intros Hc'. apply elem_of_app in Hc' as [Hc'|Hc']; [exact (Hd c Hc' ltac:(set_solver)) | exact (H2 Hc')]. }
  constructor; cbn [heap len tail head].
  - apply (dseg_unsplice (heap dl) h' l1 c l2 (dinv_seg _ _ Hinv) Hnd Hx Hy).
    intros i Hi Hl' Hh'. apply Hf; [intros ->; contradiction | exact Hl' | exact Hh'].
  - exact Hnd12.
  - rewrite (dinv_len _ _ Hinv), !length_app. cbn. lia.
  - reflexivity.
  - reflexivity.
  - rewrite Hdom, (dinv_dom _ _ Hinv). apply set_eq. intros z.
    rewrite elem_of_difference, elem_of_singleton, !elem_of_list_to_set, !elem_of_app, elem_of_cons.
    rewrite elem_of_app in Hcn. split; [intros [[H|[->|H]] Hz]; [left|contradiction|right]; exact H|].
    intros [H|H]; (split; [tauto | intros ->; tauto]).
Qed.

End Splice.
Section Values.
Context {T : Type}.
Implicit Types (h : gmap nat (Node T)) (dl : DoubleLinkedList T).

Lemma dvalues_app h l1 l2 :
  values h (l1 ++ l2) = (a ← values h l1; b ← values h l2; Some (a ++ b)).
Proof.
  unfold values. induction l1 as [|x l1 IH]; cbn.
  - destruct (mapM _ l2); reflexivity.
  - destruct (h !! x); cbn; [|reflexivity]. rewrite IH.
    destruct (mapM _ l1); cbn; [|reflexivity]. destruct (mapM _ l2); reflexivity.
Qed.

Lemma dvalues_length h l vs : values h l = Some vs -> length vs = length l.
Proof. intros H. apply mapM_Some in H. symmetry. exact (Forall2_length _ _ _ H). Qed.

Lemma dvalues_frame h h' l :
  (forall x, x ∈ l -> option_map value (h' !! x) = option_map value (h !! x)) ->
  values h' l = values h l.
Proof.
  unfold values. induction l as [|x l IH]; intros Hf; [reflexivity|].
  cbn [mapM]. assert (Hx : (n ← h' !! x; Some (value n)) = (n ← h !! x; Some (value n))).
  { pose proof (Hf x ltac:(set_solver)) as E.
    destruct (h' !! x), (h !! x); cbn in *; congruence. }
  rewrite Hx, IH by (intros y Hy; apply Hf; set_solver). reflexivity.
Qed.

Lemma dvalues_split h ch k vs :
  values h ch = Some vs ->
  values h (take k ch) = Some (take k vs) /\ values h (drop k ch) = Some (drop k vs).
Proof.
  intros Hv. pose proof (dvalues_length _ _ _ Hv) as Lv.
  destruct (decide (k <= length ch)) as [Hk|Hk].
  2: { rewrite (take_ge ch), (take_ge vs), (drop_ge ch), (drop_ge vs) by lia.
       split; [exact Hv | reflexivity]. }
  rewrite <- (take_drop k ch), dvalues_app in Hv.
  destruct (values h (take k ch)) as [a|] eqn:Ha; [|discriminate].
  cbn in Hv. destruct (values h (drop k ch)) as [b|] eqn:Hb; [|discriminate].
  cbn in Hv. injection Hv as <-.
  pose proof (dvalues_length _ _ _ Ha) as La. rewrite length_take in La.
  rewrite take_app_length' by lia. rewrite drop_app_length' by lia. split; reflexivity.
Qed.

(** The contents after linking block [new] in at position [k]. *)
Lemma dinsert_contents dl ch k new v dl' :
  DInv dl ch -> new ∉ ch ->
  DInv dl' (take k ch ++ new :: drop k ch) ->
  option_map value (heap dl' !! new) = Some v ->
  (forall j, j <> new -> option_map value (heap dl' !! j) = option_map value (heap dl !! j)) ->
  exists vs, contents dl = Some vs /\ contents dl' = Some (take k vs ++ v :: drop k vs).
Proof.
  intros Hinv Hfresh Hinv' Hnew Hfr.
  destruct (dcontents_inv _ _ Hinv) as (vs & Hv & Hc).
  destruct (dcontents_inv _ _ Hinv') as (vs' & Hv' & Hc').
  exists vs. split; [exact Hc|]. rewrite Hc'. f_equal.
  destruct (dvalues_split _ _ k _ Hv) as [Ha Hb].
  rewrite dvalues_app in Hv'.
  rewrite (dvalues_frame (heap dl) (heap dl') (take k ch)) in Hv'.
  2: { intros x Hx. apply Hfr. intros ->. apply Hfresh. rewrite <- (take_drop k ch). set_solver. }
  rewrite Ha in Hv'. cbn [mbind option_bind] in Hv'. unfold values at 1 in Hv'. cbn [mapM] in Hv'.
  destruct (heap dl' !! new) as [n|]; [|discriminate Hnew].
  cbn in Hnew. injection Hnew as Hnv. cbn [mbind option_bind] in Hv'.
  fold (values (heap dl') (drop k ch)) in Hv'.
  rewrite (dvalues_frame (heap dl) (heap dl') (drop k ch)) in Hv'.
  2: { intros x Hx. apply Hfr. intros ->. apply Hfresh. rewrite <- (take_drop k ch). set_solver. }
  rewrite Hb in Hv'. cbn [mbind option_bind] in Hv'. rewrite Hnv in Hv'. injection Hv' as <-. reflexivity.
Qed.

(** The contents after unlinking the block at position [k]. *)
Lemma dremove_contents dl ch k dl' :
  DInv dl ch -> k < length ch ->
  DInv dl' (take k ch ++ drop (S k) ch) ->
  (forall j, j ∈ take k ch ++ drop (S k) ch ->
     option_map value (heap dl' !! j) = option_map value (heap dl !! j)) ->
  exists vs, contents dl = Some vs /\ contents dl' = Some (delete k vs).
Proof.
  intros Hinv Hk Hinv' Hfr.
  destruct (dcontents_inv _ _ Hinv) as (vs & Hv & Hc).
  destruct (dcontents_inv _ _ Hinv') as (vs' & Hv' & Hc').
  exists vs. split; [exact Hc|]. rewrite Hc'. f_equal.
  rewrite (dvalues_frame (heap dl) (heap dl')) in Hv' by exact Hfr.
  destruct (dvalues_split _ _ k _ Hv) as [Ha _].
  destruct (dvalues_split _ _ (S k) _ Hv) as [_ Hb].
  rewrite dvalues_app, Ha, Hb in Hv'. cbn in Hv'. injection Hv' as <-.
  rewrite delete_take_drop. reflexivity.
Qed.

End Values.
(** Rewriting lookups through the inserts and deletes of an update. *)
Ltac look := repeat first [ rewrite lookup_insert_eq | rewrite lookup_insert_ne by congruence
                          | rewrite lookup_delete_eq | rewrite lookup_delete_ne by congruence ].

Section Ops.
Context {T : Type}.
Implicit Types (h : gmap nat (Node T)) (dl : DoubleLinkedList T).
Variable alloc : gset nat -> nat.
Hypothesis alloc_fresh : forall X, alloc X ∉ X.

Lemma update_ok h p f n : h !! p = Some n -> update h p f = Some (<[p := f n]> h).
Proof. intros Hn. unfold update. rewrite Hn. reflexivity. Qed.

Lemma dinv_elem_dom dl ch x : DInv dl ch -> x ∈ ch -> x ∈ dom (heap dl).
Proof. intros Hinv Hx. rewrite (dinv_dom _ _ Hinv). apply elem_of_list_to_set. exact Hx. Qed.

Lemma dinv_fresh dl ch : DInv dl ch -> alloc (dom (heap dl)) ∉ ch.
Proof. intros Hinv Hx. apply (alloc_fresh (dom (heap dl))). exact (dinv_elem_dom _ _ _ Hinv Hx). Qed.

Lemma dinsert_tail_spec dl ch v :
  DInv dl ch ->
  exists dl', insert_tail alloc dl v = Some (Ok tt, dl') /\
    DInv dl' (ch ++ [alloc (dom (heap dl))]) /\
    option_map value (heap dl' !! alloc (dom (heap dl))) = Some v /\
    (forall j, j <> alloc (dom (heap dl)) ->
       option_map value (heap dl' !! j) = option_map value (heap dl !! j)).
Proof.
  intros Hinv. pose proof (dinv_fresh _ _ Hinv) as Hfr.
  pose proof (alloc_fresh (dom (heap dl))) as Hfr'.
  remember (alloc (dom (heap dl))) as new eqn:Enew.
  unfold insert_tail, new_node. rewrite <- Enew. rewrite (dinv_tail _ _ Hinv).
  destruct (last ch) as [t|] eqn:Ht.
  - pose proof (last_Some_elem_of _ _ Ht) as Htin.
    assert (Htn : t <> new) by (intros ->; contradiction).
    destruct (list_elem_of_lookup_1 _ _ Htin) as [jt Hjt].
    destruct (dinv_slot _ _ _ _ Hinv Hjt) as (n & Hn & _).
    rewrite (update_ok _ _ _ (mk_node v None None)) by (apply lookup_insert_eq).
    cbn [mbind option_bind].
    rewrite (update_ok _ _ _ n) by (rewrite lookup_insert_ne by congruence;
                                       rewrite lookup_insert_ne by congruence; exact Hn).
    cbn [mbind option_bind].
    eexists. split; [reflexivity|]. split; [|split].
    + apply (dinv_insert dl ch ch [] new v); [exact Hinv | symmetry; apply app_nil_r | set_solver | | | | | | | | ].
      * rewrite lookup_insert_ne by congruence. rewrite lookup_insert_eq. rewrite Ht. reflexivity.
      * intros x m Hx Hm. rewrite Ht in Hx. injection Hx as <-. rewrite Hn in Hm. injection Hm as <-.
        apply lookup_insert_eq.
      * intros y m Hy. discriminate.
      * intros i Hi Hi' _. rewrite Ht in Hi'.
        rewrite !lookup_insert_ne by congruence. reflexivity.
      * rewrite !dom_insert_L. pose proof (dinv_elem_dom _ _ _ Hinv Htin). set_solver.
      * rewrite (dinv_head _ _ Hinv). rewrite lookup_app_l; [reflexivity|].
        destruct ch; [discriminate|cbn; lia].
      * rewrite last_snoc. reflexivity.
      * reflexivity.
    + cbn [heap]. rewrite lookup_insert_ne by congruence. rewrite lookup_insert_eq. reflexivity.
    + cbn [heap]. intros j Hj. destruct (decide (j = t)) as [->|Hjt'].
      * rewrite lookup_insert_eq, Hn. reflexivity.
      * rewrite !lookup_insert_ne by congruence. reflexivity.
  - apply last_None in Ht. subst ch.
    eexists. split; [reflexivity|]. split; [|split].
    + apply (dinv_insert dl [] [] [] new v); [exact Hinv | reflexivity | set_solver | | | | | | | | ].
      * apply lookup_insert_eq.
      * intros x m Hx. discriminate.
      * intros y m Hy. discriminate.
      * intros i Hi _ _. rewrite lookup_insert_ne by congruence. reflexivity.
      * rewrite dom_insert_L. reflexivity.
      * reflexivity.
      * reflexivity.
      * reflexivity.
    + cbn [heap]. rewrite lookup_insert_eq. reflexivity.
    + cbn [heap]. intros j Hj. rewrite lookup_insert_ne by congruence. reflexivity.
Qed.

Lemma dinsert_head_spec dl ch v :
  DInv dl ch ->
  exists dl', insert_head alloc dl v = Some (Ok tt, dl') /\
    DInv dl' (alloc (dom (heap dl)) :: ch) /\
    option_map value (heap dl' !! alloc (dom (heap dl))) = Some v /\
    (forall j, j <> alloc (dom (heap dl)) ->
       option_map value (heap dl' !! j) = option_map value (heap dl !! j)).
Proof.
  intros Hinv. pose proof (dinv_fresh _ _ Hinv) as Hfr.
  pose proof (alloc_fresh (dom (heap dl))) as Hfr'.
  remember (alloc (dom (heap dl))) as new eqn:Enew.
  unfold insert_head, new_node. rewrite <- Enew. rewrite (dinv_head _ _ Hinv).
  destruct ch as [|y ch'] eqn:Ech.
  - eexists. split; [reflexivity|]. split; [|split].
    + apply (dinv_insert dl [] [] [] new v); [exact Hinv | reflexivity | set_solver | | | | | | | | ].
      * apply lookup_insert_eq.
      * intros x m Hx. discriminate.
      * intros z m Hz. discriminate.
      * intros i Hi _ _. rewrite lookup_insert_ne by congruence. reflexivity.
      * rewrite dom_insert_L. reflexivity.
      * reflexivity.
      * reflexivity.
      * reflexivity.
    + cbn [heap]. rewrite lookup_insert_eq. reflexivity.
    + cbn [heap]. intros j Hj. rewrite lookup_insert_ne by congruence. reflexivity.
  - rewrite <- Ech in Hinv, Hfr |- *.
    assert (Hyin : y ∈ ch) by (subst ch; set_solver).
    assert (Hyn : y <> new) by (intros ->; contradiction).
    assert (Hy0 : ch !! 0 = Some y) by (subst ch; reflexivity).
    destruct (dinv_slot _ _ _ _ Hinv Hy0) as (n & Hn & _).
    rewrite Hy0.
    rewrite (update_ok _ _ _ (mk_node v None None)) by (apply lookup_insert_eq).
    cbn [mbind option_bind].
    rewrite (update_ok _ _ _ n) by (rewrite lookup_insert_ne by congruence;
                                       rewrite lookup_insert_ne by congruence; exact Hn).
    cbn [mbind option_bind].
    eexists. split; [reflexivity|]. split; [|split].
    + apply (dinv_insert dl ch [] ch new v); [exact Hinv | reflexivity | set_solver | | | | | | | | ].
      * rewrite lookup_insert_ne by congruence. rewrite lookup_insert_eq. rewrite Hy0. reflexivity.
      * intros x m Hx. discriminate.
      * intros z m Hz Hm. rewrite Hy0 in Hz. injection Hz as <-. rewrite Hn in Hm. injection Hm as <-.
        apply lookup_insert_eq.
      * intros i Hi _ Hi'. rewrite Hy0 in Hi'.
        rewrite !lookup_insert_ne by congruence. reflexivity.
      * rewrite !dom_insert_L. pose proof (dinv_elem_dom _ _ _ Hinv Hyin). set_solver.
      * reflexivity.
      * rewrite (dinv_tail _ _ Hinv). try subst ch. cbn [app]. rewrite last_cons_cons. reflexivity.
      * reflexivity.
    + cbn [heap]. rewrite lookup_insert_ne by congruence. rewrite lookup_insert_eq. reflexivity.
    + cbn [heap]. intros j Hj. destruct (decide (j = y)) as [->|Hjy].
      * rewrite lookup_insert_eq, Hn. reflexivity.
      * rewrite !lookup_insert_ne by congruence. reflexivity.
Qed.


Lemma dget_node_mut dl ch idx : DInv dl ch -> idx < len dl -> get_node_mut dl idx = Ok <$> ch !! idx.
Proof.
  intros Hinv Hi. unfold get_node_mut. destruct (Nat.leb_spec (len dl) idx) as [Hx|_]; [lia|].
  rewrite (dseek_inv _ _ _ Hinv Hi). destruct (ch !! idx); reflexivity.
Qed.

Lemma dinsert_after_spec dl ch idx v :
  DInv dl ch -> idx < len dl ->
  exists dl', insert_after alloc dl idx v = Some (Ok tt, dl') /\
    DInv dl' (take (S idx) ch ++ alloc (dom (heap dl)) :: drop (S idx) ch) /\
    option_map value (heap dl' !! alloc (dom (heap dl))) = Some v /\
    (forall j, j <> alloc (dom (heap dl)) ->
       option_map value (heap dl' !! j) = option_map value (heap dl !! j)).
Proof.
  intros Hinv Hi. pose proof (dinv_fresh _ _ Hinv) as Hfr.
  pose proof (alloc_fresh (dom (heap dl))) as Hfr'. pose proof (dinv_len _ _ Hinv) as Hl.
  pose proof (dinv_nodup _ _ Hinv) as Hnd.
  destruct (ch !! idx) as [x|] eqn:Hx; [|apply lookup_ge_None in Hx; lia].
  pose proof (list_elem_of_lookup_2 _ _ _ Hx) as Hxin.
  assert (Hxn : x <> alloc (dom (heap dl))) by (intros E; rewrite E in Hxin; contradiction).
  destruct (dinv_slot _ _ _ _ Hinv Hx) as (n & Hn & _ & Hnext).
  pose proof (dget_node_mut _ _ _ Hinv Hi) as Hg. rewrite Hx in Hg.
  remember (alloc (dom (heap dl))) as new eqn:Enew.
  unfold insert_after. destruct (Nat.leb_spec (len dl) idx) as [Hx'|_]; [lia|].
  rewrite Hg. cbn [mbind option_bind fmap option_fmap option_map].
  unfold new_node. rewrite <- Enew. look. rewrite Hn. cbn [mbind option_bind].
  rewrite (update_ok _ _ _ (mk_node v None None)) by (look; reflexivity). cbn [mbind option_bind].
  rewrite (update_ok _ _ _ (set_prev (Some x) (mk_node v None None))) by (look; reflexivity). cbn [mbind option_bind].
  rewrite (update_ok _ _ _ n) by (look; exact Hn). cbn [mbind option_bind].
  assert (Hl1 : last (take (S idx) ch) = Some x) by (rewrite (take_S_r _ _ _ Hx); apply last_snoc).
  assert (Hl2 : drop (S idx) ch !! 0 = ch !! S idx) by (rewrite lookup_drop; f_equal; lia).
  assert (Hh : head dl = (take (S idx) ch ++ new :: drop (S idx) ch) !! 0).
  { rewrite (dinv_head _ _ Hinv), lookup_app_l by (rewrite length_take; lia).
    rewrite lookup_take_lt by lia. reflexivity. }
  rewrite Hnext. destruct (ch !! S idx) as [y|] eqn:Hy.
  - pose proof (list_elem_of_lookup_2 _ _ _ Hy) as Hyin.
    assert (Hyn : y <> new) by (intros ->; contradiction).
    assert (Hxy : x <> y) by (intros ->; pose proof (NoDup_lookup _ _ _ _ Hnd Hx Hy); lia).
    destruct (dinv_slot _ _ _ _ Hinv Hy) as (m & Hm & _).
    rewrite (update_ok _ _ _ m) by (look; exact Hm). cbn [mbind option_bind].
    eexists. split; [reflexivity|]. split; [|split].
    + apply (dinv_insert dl ch (take (S idx) ch) (drop (S idx) ch) new v);
        [exact Hinv | symmetry; apply take_drop | set_solver | | | | | | | | ].
      * look. rewrite Hl1, Hl2. reflexivity.
      * intros x' m' Hx' Hm'. rewrite Hl1 in Hx'. injection Hx' as <-. rewrite Hn in Hm'.
        injection Hm' as <-. look. reflexivity.
      * intros y' m' Hy' Hm'. rewrite Hl2 in Hy'. injection Hy' as <-. rewrite Hm in Hm'.
        injection Hm' as <-. look. reflexivity.
      * intros i Hi1 Hi2 Hi3. rewrite Hl1 in Hi2. rewrite Hl2 in Hi3. look. reflexivity.
      * rewrite !dom_insert_L. pose proof (dinv_elem_dom _ _ _ Hinv Hxin).
        pose proof (dinv_elem_dom _ _ _ Hinv Hyin). set_solver.
      * exact Hh.
      * rewrite (dinv_tail _ _ Hinv). rewrite (drop_S _ _ _ Hy).
        rewrite <- (take_drop (S idx) ch) at 1. rewrite (drop_S _ _ _ Hy).
        rewrite !last_app_cons, last_cons_cons. reflexivity.
      * reflexivity.
    + cbn [heap]. look. reflexivity.
    + cbn [heap]. intros j Hj. destruct (decide (j = y)) as [->|Hjy].
      * look. rewrite Hm. reflexivity.
      * destruct (decide (j = x)) as [->|Hjx]; look; [rewrite Hn|]; reflexivity.
  - assert (Hd : drop (S idx) ch = []) by (apply drop_ge; apply lookup_ge_None in Hy; lia).
    eexists. split; [reflexivity|]. split; [|split].
    + apply (dinv_insert dl ch (take (S idx) ch) (drop (S idx) ch) new v);
        [exact Hinv | symmetry; apply take_drop | set_solver | | | | | | | | ].
      * look. rewrite Hl1, Hl2. reflexivity.
      * intros x' m' Hx' Hm'. rewrite Hl1 in Hx'. injection Hx' as <-. rewrite Hn in Hm'.
        injection Hm' as <-. look. reflexivity.
      * intros y' m' Hy'. rewrite Hl2 in Hy'. discriminate.
      * intros i Hi1 Hi2 Hi3. rewrite Hl1 in Hi2. look. reflexivity.
      * rewrite !dom_insert_L. pose proof (dinv_elem_dom _ _ _ Hinv Hxin). set_solver.
      * exact Hh.
      * rewrite Hd. rewrite last_snoc. reflexivity.
      * reflexivity.
    + cbn [heap]. look. reflexivity.
    + cbn [heap]. intros j Hj.
      destruct (decide (j = x)) as [->|Hjx]; look; [rewrite Hn|]; reflexivity.
Qed.

Lemma dinsert_before_spec dl ch idx v :
  DInv dl ch -> 0 < idx -> idx < len dl ->
  exists dl', insert_before alloc dl idx v = Some (Ok tt, dl') /\
    DInv dl' (take idx ch ++ alloc (dom (heap dl)) :: drop idx ch) /\
    option_map value (heap dl' !! alloc (dom (heap dl))) = Some v /\
    (forall j, j <> alloc (dom (heap dl)) ->
       option_map value (heap dl' !! j) = option_map value (heap dl !! j)).
Proof.
  intros Hinv H0 Hi. pose proof (dinv_fresh _ _ Hinv) as Hfr.
  pose proof (alloc_fresh (dom (heap dl))) as Hfr'. pose proof (dinv_len _ _ Hinv) as Hl.
  pose proof (dinv_nodup _ _ Hinv) as Hnd.
  destruct (ch !! idx) as [x|] eqn:Hx; [|apply lookup_ge_None in Hx; lia].
  pose proof (list_elem_of_lookup_2 _ _ _ Hx) as Hxin.
  assert (Hxn : x <> alloc (dom (heap dl))) by (intros E; rewrite E in Hxin; contradiction).
  destruct idx as [|i]; [lia|].
  destruct (dinv_slot _ _ _ _ Hinv Hx) as (n & Hn & Hprev & _).
  destruct (ch !! i) as [p|] eqn:Hp; [|apply lookup_ge_None in Hp; lia].
  pose proof (list_elem_of_lookup_2 _ _ _ Hp) as Hpin.
  assert (Hpn : p <> alloc (dom (heap dl))) by (intros E; rewrite E in Hpin; contradiction).
  assert (Hxp : x <> p) by (intros ->; pose proof (NoDup_lookup _ _ _ _ Hnd Hx Hp); lia).
  destruct (dinv_slot _ _ _ _ Hinv Hp) as (m & Hm & _).
  pose proof (dget_node_mut _ _ _ Hinv Hi) as Hg. rewrite Hx in Hg.
  remember (alloc (dom (heap dl))) as new eqn:Enew.
  unfold insert_before. destruct (Nat.leb_spec (len dl) (S i)) as [Hx'|_]; [lia|].
  cbn [Nat.eqb].
  rewrite Hg. cbn [mbind option_bind fmap option_fmap option_map].
  unfold new_node. rewrite <- Enew. look. rewrite Hn. cbn [mbind option_bind].
  rewrite (update_ok _ _ _ (mk_node v None None)) by (look; reflexivity). cbn [mbind option_bind].
  rewrite (update_ok _ _ _ (set_next (Some x) (mk_node v None None))) by (look; reflexivity).
  cbn [mbind option_bind].
  rewrite (update_ok _ _ _ n) by (look; exact Hn). cbn [mbind option_bind].
  rewrite Hprev.
  rewrite (update_ok _ _ _ m) by (look; exact Hm). cbn [mbind option_bind].
  assert (Hl1 : last (take (S i) ch) = Some p) by (rewrite (take_S_r _ _ _ Hp); apply last_snoc).
  assert (Hl2 : drop (S i) ch !! 0 = Some x) by (rewrite lookup_drop; rewrite <- Hx; f_equal; lia).
  eexists. split; [reflexivity|]. split; [|split].
  - apply (dinv_insert dl ch (take (S i) ch) (drop (S i) ch) new v);
      [exact Hinv | symmetry; apply take_drop | set_solver | | | | | | | | ].
    + look. rewrite Hl1, Hl2. reflexivity.
    + intros x' m' Hx' Hm'. rewrite Hl1 in Hx'. injection Hx' as <-. rewrite Hm in Hm'.
      injection Hm' as <-. look. reflexivity.
    + intros y' m' Hy' Hm'. rewrite Hl2 in Hy'. injection Hy' as <-. rewrite Hn in Hm'.
      injection Hm' as <-. look. reflexivity.
    + intros j Hj1 Hj2 Hj3. rewrite Hl1 in Hj2. rewrite Hl2 in Hj3. look. reflexivity.
    + rewrite !dom_insert_L. pose proof (dinv_elem_dom _ _ _ Hinv Hxin).
      pose proof (dinv_elem_dom _ _ _ Hinv Hpin). set_solver.
    + rewrite (dinv_head _ _ Hinv), lookup_app_l by (rewrite length_take; lia).
      rewrite lookup_take_lt by lia. reflexivity.
    + rewrite (dinv_tail _ _ Hinv). rewrite (drop_S _ _ _ Hx).
      rewrite <- (take_drop (S i) ch) at 1. rewrite (drop_S _ _ _ Hx).
      rewrite !last_app_cons, last_cons_cons. reflexivity.
    + reflexivity.
  - cbn [heap]. look. reflexivity.
  - cbn [heap]. intros j Hj. destruct (decide (j = p)) as [->|Hjp].
    + look. rewrite Hm. reflexivity.
    + destruct (decide (j = x)) as [->|Hjx]; look; [rewrite Hn|]; reflexivity.
Qed.

End Ops.

Section Remove.
Context {T : Type}.
Implicit Types (h : gmap nat (Node T)) (dl : DoubleLinkedList T).

Lemma dremove_spec dl ch idx :
  DInv dl ch -> idx < len dl ->
  exists c dl', ch !! idx = Some c /\ remove dl idx = Some (Ok tt, dl') /\
    DInv dl' (take idx ch ++ drop (S idx) ch) /\
    heap dl' !! c = None /\
    (forall j, j <> c -> option_map value (heap dl' !! j) = option_map value (heap dl !! j)).
Proof.
  intros Hinv Hi. pose proof (dinv_len _ _ Hinv) as Hl. pose proof (dinv_nodup _ _ Hinv) as Hnd.
  destruct (ch !! idx) as [c|] eqn:Hc; [|apply lookup_ge_None in Hc; lia].
  pose proof (list_elem_of_lookup_2 _ _ _ Hc) as Hcin.
  destruct (dinv_slot _ _ _ _ Hinv Hc) as (n & Hn & Hprev & Hnext).
  exists c. unfold remove. destruct (Nat.leb_spec (len dl) idx) as [Hx'|_]; [lia|].
  rewrite (dseek_inv _ _ _ Hinv Hi), Hc. cbn [mbind option_bind]. rewrite Hn. cbn [mbind option_bind].
  assert (Hl2 : drop (S idx) ch !! 0 = ch !! S idx) by (rewrite lookup_drop; f_equal; lia).
  assert (Hch : ch = take idx ch ++ c :: drop (S idx) ch)
    by (rewrite <- (drop_S _ _ _ Hc); symmetry; apply take_drop).
  rewrite Hprev, Hnext. destruct idx as [|i].
  - rewrite take_0. rewrite take_0 in Hch. cbn [app] in Hch |- *.
    destruct (ch !! 1) as [y|] eqn:Hy.
    + pose proof (list_elem_of_lookup_2 _ _ _ Hy) as Hyin.
      assert (Hcy : c <> y) by (intros ->; pose proof (NoDup_lookup _ _ _ _ Hnd Hc Hy); lia).
      destruct (dinv_slot _ _ _ _ Hinv Hy) as (m & Hm & _).
      rewrite (update_ok _ _ _ m) by exact Hm. cbn [mbind option_bind].
      eexists. split; [reflexivity|]. split; [reflexivity|]. split; [|split].
      * apply (dinv_remove dl ch [] c (drop 1 ch)); [exact Hinv | exact Hch | | | | | | | ].
        -- intros x' m' Hx'. discriminate.
        -- intros y' m' Hy' Hm'. rewrite Hl2 in Hy'. injection Hy' as <-. rewrite Hm in Hm'.
           injection Hm' as <-. look. reflexivity.
        -- intros j Hj1 _ Hj3. rewrite Hl2 in Hj3. look. reflexivity.
        -- rewrite dom_delete_L, dom_insert_L. pose proof (dinv_elem_dom _ _ _ Hinv Hyin). set_solver.
        -- cbn [app]. rewrite Hl2. reflexivity.
        -- rewrite (dinv_tail _ _ Hinv). rewrite Hch at 1. rewrite (drop_S _ _ _ Hy). cbn [app]. apply last_cons_cons.
        -- reflexivity.
      * cbn [heap]. look. reflexivity.
      * cbn [heap]. intros j Hj. destruct (decide (j = y)) as [->|Hjy]; look; [rewrite Hm|]; reflexivity.
    + assert (Hd : drop 1 ch = []) by (apply drop_ge; apply lookup_ge_None in Hy; lia).
      eexists. split; [reflexivity|]. split; [reflexivity|]. split; [|split].
      * apply (dinv_remove dl ch [] c (drop 1 ch)); [exact Hinv | exact Hch | | | | | | | ].
        -- intros x' m' Hx'. discriminate.
        -- intros y' m' Hy'. rewrite Hl2 in Hy'. discriminate.
        -- intros j Hj1 _ _. look. reflexivity.
        -- rewrite dom_delete_L. reflexivity.
        -- rewrite Hd. reflexivity.
        -- rewrite Hd. reflexivity.
        -- reflexivity.
      * cbn [heap]. look. reflexivity.
      * cbn [heap]. intros j Hj. look. reflexivity.
  - destruct (ch !! i) as [p|] eqn:Hp; [|apply lookup_ge_None in Hp; lia].
    pose proof (list_elem_of_lookup_2 _ _ _ Hp) as Hpin.
    assert (Hcp : c <> p) by (intros ->; pose proof (NoDup_lookup _ _ _ _ Hnd Hc Hp); lia).
    destruct (dinv_slot _ _ _ _ Hinv Hp) as (mp & Hmp & _).
    assert (Hl1 : last (take (S i) ch) = Some p) by (rewrite (take_S_r _ _ _ Hp); apply last_snoc).
    assert (Hh : head dl = (take (S i) ch ++ drop (S (S i)) ch) !! 0).
    { rewrite (dinv_head _ _ Hinv), lookup_app_l by (rewrite length_take; lia).
      rewrite lookup_take_lt by lia. reflexivity. }
    destruct (ch !! S (S i)) as [y|] eqn:Hy; cbn beta iota;
      (rewrite (update_ok _ _ _ mp) by exact Hmp); cbn [mbind option_bind].
    + pose proof (list_elem_of_lookup_2 _ _ _ Hy) as Hyin.
      assert (Hcy : c <> y) by (intros ->; pose proof (NoDup_lookup _ _ _ _ Hnd Hc Hy); lia).
      assert (Hpy : p <> y) by (intros ->; pose proof (NoDup_lookup _ _ _ _ Hnd Hp Hy); lia).
      destruct (dinv_slot _ _ _ _ Hinv Hy) as (m & Hm & _).
      rewrite (update_ok _ _ _ m) by (look; exact Hm). cbn [mbind option_bind].
      eexists. split; [reflexivity|]. split; [reflexivity|]. split; [|split].
      * apply (dinv_remove dl ch (take (S i) ch) c (drop (S (S i)) ch)); [exact Hinv | exact Hch | | | | | | | ].
        -- intros x' m' Hx' Hm'. rewrite Hl1 in Hx'. injection Hx' as <-. rewrite Hmp in Hm'.
           injection Hm' as <-. look. rewrite Hl2. reflexivity.
        -- intros y' m' Hy' Hm'. rewrite Hl2 in Hy'. injection Hy' as <-. rewrite Hm in Hm'.
           injection Hm' as <-. look. rewrite Hl1. reflexivity.
        -- intros j Hj1 Hj2 Hj3. rewrite Hl1 in Hj2. rewrite Hl2 in Hj3. look. reflexivity.
        -- rewrite dom_delete_L, !dom_insert_L. pose proof (dinv_elem_dom _ _ _ Hinv Hyin).
           pose proof (dinv_elem_dom _ _ _ Hinv Hpin). set_solver.
        -- exact Hh.
        -- rewrite (dinv_tail _ _ Hinv). rewrite (drop_S _ _ _ Hy).
           rewrite Hch at 1. rewrite (drop_S _ _ _ Hy).
           rewrite !last_app_cons, last_cons_cons. reflexivity.
        -- reflexivity.
      * cbn [heap]. look. reflexivity.
      * cbn [heap]. intros j Hj. destruct (decide (j = y)) as [->|Hjy].
        -- look. rewrite Hm. reflexivity.
        -- destruct (decide (j = p)) as [->|Hjp]; look; [rewrite Hmp|]; reflexivity.
    + assert (Hd : drop (S (S i)) ch = []) by (apply drop_ge; apply lookup_ge_None in Hy; lia).
      eexists. split; [reflexivity|]. split; [reflexivity|]. split; [|split].
      * apply (dinv_remove dl ch (take (S i) ch) c (drop (S (S i)) ch)); [exact Hinv | exact Hch | | | | | | | ].
        -- intros x' m' Hx' Hm'. rewrite Hl1 in Hx'. injection Hx' as <-. rewrite Hmp in Hm'.
           injection Hm' as <-. look. rewrite Hl2. reflexivity.
        -- intros y' m' Hy'. rewrite Hl2 in Hy'. discriminate.
        -- intros j Hj1 Hj2 _. rewrite Hl1 in Hj2. look. reflexivity.
        -- rewrite dom_delete_L, !dom_insert_L. pose proof (dinv_elem_dom _ _ _ Hinv Hpin). set_solver.
        -- exact Hh.
        -- rewrite Hd, app_nil_r. symmetry. exact Hl1.
        -- reflexivity.
      * cbn [heap]. look. reflexivity.
      * cbn [heap]. intros j Hj.
        destruct (decide (j = p)) as [->|Hjp]; look; [rewrite Hmp|]; reflexivity.
Qed.

End Remove.
Section Traverse.
Context {T : Type}.
Implicit Types (h : gmap nat (Node T)) (dl : DoubleLinkedList T).

Lemma dinv_size dl ch : DInv dl ch -> size (heap dl) = length ch.
Proof.
  intros Hinv. rewrite <- size_dom, (dinv_dom _ _ Hinv).
  apply size_list_to_set. exact (dinv_nodup _ _ Hinv).
Qed.

Lemma dvalues_cons h i l vs :
  values h (i :: l) = Some vs ->
  exists n vs', h !! i = Some n /\ values h l = Some vs' /\ vs = value n :: vs'.
Proof.
  unfold values. cbn [mapM]. destruct (h !! i) as [n|]; cbn; [|discriminate].
  destruct (mapM _ l) as [vs'|]; cbn; [|discriminate]. intros [= <-].
  exists n, vs'. split; [reflexivity|]. split; reflexivity.
Qed.

Lemma dget_value_where_from_seg h f p l fuel vs :
  dseg h p l None -> length l < fuel -> values h l = Some vs ->
  get_value_where_from h f (l !! 0) fuel = Some (List.find f vs).
Proof.
  revert p fuel vs. induction l as [|i l IH]; intros p fuel vs Hs Hf Hv.
  - injection Hv as <-. destruct fuel; reflexivity.
  - destruct fuel as [|fuel]; [cbn in Hf; lia|].
    destruct Hs as (n & Hn & _ & Hq & Hs).
    destruct (dvalues_cons _ _ _ _ Hv) as (n' & vs' & Hn' & Hv' & ->).
    rewrite Hn in Hn'. injection Hn' as <-.
    cbn [lookup list_lookup get_value_where_from]. rewrite Hn. cbn [mbind option_bind List.find].
    destruct (f (value n)); [reflexivity|].
    rewrite Hq, ArenaListProofs.hd_or_None. apply (IH (Some i)); [exact Hs | cbn in Hf; lia | exact Hv'].
Qed.

Lemma dget_index_where_from_seg h f p l k fuel vs :
  dseg h p l None -> length l < fuel -> values h l = Some vs ->
  get_index_where_from h f (l !! 0) k fuel =
    Some ((fun r => k + fst r) <$> list_find (fun x => f x = true) vs).
Proof.
  revert p k fuel vs. induction l as [|i l IH]; intros p k fuel vs Hs Hf Hv.
  - injection Hv as <-. destruct fuel; reflexivity.
  - destruct fuel as [|fuel]; [cbn in Hf; lia|].
    destruct Hs as (n & Hn & _ & Hq & Hs).
    destruct (dvalues_cons _ _ _ _ Hv) as (n' & vs' & Hn' & Hv' & ->).
    rewrite Hn in Hn'. injection Hn' as <-.
    cbn [lookup list_lookup get_index_where_from]. rewrite Hn. cbn [mbind option_bind list_find].
    destruct (f (value n)) eqn:Hfv.
    + rewrite decide_True by reflexivity. cbn. f_equal. f_equal. lia.
    + rewrite decide_False by congruence.
      rewrite Hq, ArenaListProofs.hd_or_None.
      rewrite (IH (Some i) (S k) fuel vs' Hs ltac:(cbn in Hf; lia) Hv').
      f_equal. destruct (list_find _ vs') as [[j x]|]; cbn; [f_equal; lia | reflexivity].
Qed.

Lemma dget_where_from_seg h f p l acc fuel vs :
  dseg h p l None -> length l < fuel -> values h l = Some vs ->
  get_where_from h f (l !! 0) acc fuel = Some (acc ++ List.filter f vs).
Proof.
  revert p acc fuel vs. induction l as [|i l IH]; intros p acc fuel vs Hs Hf Hv.
  - injection Hv as <-. cbn. rewrite app_nil_r. destruct fuel; reflexivity.
  - destruct fuel as [|fuel]; [cbn in Hf; lia|].
    destruct Hs as (n & Hn & _ & Hq & Hs).
    destruct (dvalues_cons _ _ _ _ Hv) as (n' & vs' & Hn' & Hv' & ->).
    rewrite Hn in Hn'. injection Hn' as <-.
    cbn [lookup list_lookup get_where_from]. rewrite Hn. cbn [mbind option_bind List.filter].
    rewrite Hq, ArenaListProofs.hd_or_None.
    rewrite (IH (Some i) _ fuel vs' Hs ltac:(cbn in Hf; lia) Hv').
    destruct (f (value n)); [rewrite <- app_assoc|]; reflexivity.
Qed.

Lemma das_vec_from_seg (clone_t : T -> T) h p l acc fuel vs :
  dseg h p l None -> length l < fuel -> values h l = Some vs ->
  as_vec_from clone_t h (l !! 0) acc fuel = Some (acc ++ map clone_t vs).
Proof.
  revert p acc fuel vs. induction l as [|i l IH]; intros p acc fuel vs Hs Hf Hv.
  - injection Hv as <-. cbn. rewrite app_nil_r. destruct fuel; reflexivity.
  - destruct fuel as [|fuel]; [cbn in Hf; lia|].
    destruct Hs as (n & Hn & _ & Hq & Hs).
    destruct (dvalues_cons _ _ _ _ Hv) as (n' & vs' & Hn' & Hv' & ->).
    rewrite Hn in Hn'. injection Hn' as <-.
    cbn [lookup list_lookup as_vec_from]. rewrite Hn. cbn [mbind option_bind].
    rewrite Hq, ArenaListProofs.hd_or_None.
    rewrite (IH (Some i) _ fuel vs' Hs ltac:(cbn in Hf; lia) Hv').
    rewrite <- app_assoc. reflexivity.
Qed.

Lemma diter_from_seg {St} (f : St -> T -> St * T) h st p l fuel vs :
  dseg h p l None -> NoDup l -> length l < fuel -> values h l = Some vs ->
  exists h', iter_from f h st (l !! 0) fuel = Some (h', snd (map_accum f st vs)) /\
    dseg h' p l None /\ values h' l = Some (fst (map_accum f st vs)) /\
    dom h' = dom h /\ (forall j, j ∉ l -> h' !! j = h !! j).
Proof.
  revert h st p fuel vs. induction l as [|i l IH]; intros h st p fuel vs Hs Hnd Hf Hv.
  - injection Hv as <-. exists h. split; [destruct fuel; reflexivity|]. split; [exact I|].
    split; [reflexivity|]. split; [reflexivity | intros; reflexivity].
  - destruct fuel as [|fuel]; [cbn in Hf; lia|].
    apply NoDup_cons in Hnd as [Hi Hnd].
    destruct Hs as (n & Hn & Hp & Hq & Hs).
    destruct (dvalues_cons _ _ _ _ Hv) as (n' & vs' & Hn' & Hv' & ->).
    rewrite Hn in Hn'. injection Hn' as <-.
    cbn [lookup list_lookup iter_from]. rewrite Hn. cbn [mbind option_bind].
    cbn [map_accum]. destruct (f st (value n)) as [st1 v1] eqn:Hfst.
    set (h1 := <[i := mk_node v1 (prev n) (next n)]> h).
    assert (Hs1 : dseg h1 (Some i) l None).
    { apply (dseg_frame h); [exact Hs|]. intros j Hj. unfold h1.
      rewrite lookup_insert_ne by (intros ->; contradiction). reflexivity. }
    assert (Hv1 : values h1 l = Some vs').
    { rewrite (dvalues_frame h h1); [exact Hv'|]. intros j Hj. unfold h1.
      rewrite lookup_insert_ne by (intros ->; contradiction). reflexivity. }
    rewrite Hq, ArenaListProofs.hd_or_None.
    destruct (IH h1 st1 (Some i) fuel vs' Hs1 Hnd ltac:(cbn in Hf; lia) Hv1)
      as (h' & Hit & Hs' & Hv'' & Hdom & Hout).
    rewrite Hit. destruct (map_accum f st1 vs') as [ws st2] eqn:Hma. cbn [fst snd] in *.
    exists h'. split; [reflexivity|].
    assert (Hh'i : h' !! i = Some (mk_node v1 (prev n) (next n))).
    { rewrite (Hout i Hi). unfold h1. apply lookup_insert_eq. }
    split; [|split; [|split]].
    + exists (mk_node v1 (prev n) (next n)). split; [exact Hh'i|].
      split; [exact Hp|]. split; [exact Hq | exact Hs'].
    + unfold values. cbn [mapM]. rewrite Hh'i. cbn [mbind option_bind].
      fold (values h' l). rewrite Hv''. reflexivity.
    + rewrite Hdom. unfold h1. rewrite dom_insert_L.
      apply elem_of_dom_2 in Hn. set_solver.
    + intros j Hj. rewrite Hout by set_solver. unfold h1.
      rewrite lookup_insert_ne by set_solver. reflexivity.
Qed.

End Traverse.
Section Clone.
Context {T : Type}.
Implicit Types (h : gmap nat (Node T)) (dl : DoubleLinkedList T).
Variable alloc : gset nat -> nat.
Hypothesis alloc_fresh : forall X, alloc X ∉ X.

Lemma dinv_empty : DInv (empty (T:=T)) [].
Proof.
  constructor; cbn; [exact I | constructor | reflexivity | reflexivity | reflexivity |].
  apply dom_empty_L.
Qed.

Lemma dinsert_tail_contents dl ch v :
  DInv dl ch ->
  exists vs dl', contents dl = Some vs /\ insert_tail alloc dl v = Some (Ok tt, dl') /\
    DInv dl' (ch ++ [alloc (dom (heap dl))]) /\ contents dl' = Some (vs ++ [v]).
Proof.
  intros Hinv.
  destruct (dinsert_tail_spec alloc alloc_fresh dl ch v Hinv) as (dl' & Hins & Hinv' & Hnew & Hfr).
  destruct (dcontents_inv _ _ Hinv) as (vs0 & Hv0 & _).
  pose proof (dvalues_length _ _ _ Hv0) as Lv.
  assert (Hinv'' : DInv dl' (take (length ch) ch ++ alloc (dom (heap dl)) :: drop (length ch) ch))
    by (rewrite take_ge, drop_ge by lia; exact Hinv').
  destruct (dinsert_contents dl ch (length ch) _ v dl' Hinv (dinv_fresh alloc alloc_fresh _ _ Hinv)
              Hinv'' Hnew Hfr) as (vs & Hc & Hc').
  destruct (dcontents_inv _ _ Hinv) as (vs1 & Hv1 & Hc1). rewrite Hc in Hc1. injection Hc1 as <-.
  pose proof (dvalues_length _ _ _ Hv1) as L1.
  exists vs, dl'. split; [exact Hc|]. split; [exact Hins|]. split; [exact Hinv'|].
  rewrite Hc', take_ge, drop_ge by lia. reflexivity.
Qed.

Lemma dclone_from_seg (clone_t : T -> T) h p l fuel vs nl chn acc :
  dseg h p l None -> length l < fuel -> values h l = Some vs ->
  DInv nl chn -> contents nl = Some acc ->
  exists c chc, clone_from alloc clone_t h nl (l !! 0) fuel = Some c /\ DInv c chc /\
    contents c = Some (acc ++ map clone_t vs).
Proof.
  revert p fuel vs nl chn acc. induction l as [|i l IH]; intros p fuel vs nl chn acc Hs Hf Hv Hnl Hc.
  - injection Hv as <-. exists nl, chn. split; [destruct fuel; reflexivity|].
    split; [exact Hnl|]. rewrite Hc. cbn. rewrite app_nil_r. reflexivity.
  - destruct fuel as [|fuel]; [cbn in Hf; lia|].
    destruct Hs as (n & Hn & _ & Hq & Hs).
    destruct (dvalues_cons _ _ _ _ Hv) as (n' & vs' & Hn' & Hv' & ->).
    rewrite Hn in Hn'. injection Hn' as <-.
    destruct (dinsert_tail_contents nl chn (clone_t (value n)) Hnl) as (acc' & nl' & Hc0 & Hins & Hinv' & Hc').
    rewrite Hc in Hc0. injection Hc0 as <-.
    cbn [lookup list_lookup clone_from]. rewrite Hn. cbn [mbind option_bind]. rewrite Hins.
    cbn [mbind option_bind]. rewrite Hq, ArenaListProofs.hd_or_None.
    destruct (IH (Some i) fuel vs' nl' _ _ Hs ltac:(cbn in Hf; lia) Hv' Hinv' Hc') as (c & chc & Hcl & Hinvc & Hcc).
    exists c, chc. split; [exact Hcl|]. split; [exact Hinvc|]. rewrite Hcc, <- app_assoc. reflexivity.
Qed.

End Clone.
Lemma dcontents_length {T} (dl : DoubleLinkedList T) ch vs :
  DInv dl ch -> contents dl = Some vs -> length vs = len dl.
Proof.
  intros Hinv Hc. destruct (dcontents_inv _ _ Hinv) as (vs' & Hv & Hc').
  rewrite Hc in Hc'. injection Hc' as <-. rewrite (dvalues_length _ _ _ Hv). symmetry. exact (dinv_len _ _ Hinv).
Qed.

(** [insert_head] and [insert_tail] always succeed: the value becomes the
    first, resp. the last, element, and the list stays well formed. *)
Theorem dyn_insert_head_tail {T} (alloc : gset nat -> nat) (Halloc : forall X, alloc X ∉ X)
    (dl : DoubleLinkedList T) ch v :
  DInv dl ch ->
  exists vs, contents dl = Some vs /\
    (exists dl', insert_head alloc dl v = Some (Ok tt, dl') /\ contents dl' = Some (v :: vs) /\
                 exists ch', DInv dl' ch') /\
    (exists dl', insert_tail alloc dl v = Some (Ok tt, dl') /\ contents dl' = Some (vs ++ [v]) /\
                 exists ch', DInv dl' ch').
Proof.
  intros Hinv.
  destruct (dinsert_tail_contents alloc Halloc dl ch v Hinv) as (vs & dlt & Hc & Ht & Hinvt & Hct).
  exists vs. split; [exact Hc|]. split.
  - destruct (dinsert_head_spec alloc Halloc dl ch v Hinv) as (dl' & Hh & Hinv' & Hnew & Hfr).
    destruct (dinsert_contents dl ch 0 _ v dl' Hinv (dinv_fresh alloc Halloc _ _ Hinv)
                ltac:(exact Hinv') Hnew Hfr) as (vs' & Hc' & Hc'').
    rewrite Hc in Hc'. injection Hc' as <-.
    exists dl'. split; [exact Hh|]. split; [exact Hc''|]. exists (alloc (dom (heap dl)) :: ch). exact Hinv'.
  - exists dlt. split; [exact Ht|]. split; [exact Hct|]. eexists. exact Hinvt.
Qed.

(** [insert_after idx v] fails with [IndexOutOfRange] and leaves the list
    unchanged when [idx >= len]; otherwise it inserts [v] just after
    position [idx] and the length grows by one. *)
Theorem dyn_insert_after_inserts {T} (alloc : gset nat -> nat) (Halloc : forall X, alloc X ∉ X)
    (dl : DoubleLinkedList T) ch idx v :
  DInv dl ch ->
  exists vs, contents dl = Some vs /\
    (len dl <= idx -> insert_after alloc dl idx v = Some (Err IndexOutOfRange, dl)) /\
    (idx < len dl -> exists dl', insert_after alloc dl idx v = Some (Ok tt, dl') /\
       contents dl' = Some (take (S idx) vs ++ v :: drop (S idx) vs) /\ len dl' = S (len dl) /\
       exists ch', DInv dl' ch').
Proof.
  intros Hinv. destruct (dcontents_inv _ _ Hinv) as (vs & _ & Hc).
  exists vs. split; [exact Hc|]. split.
  - intros Hi. unfold insert_after. destruct (Nat.leb_spec (len dl) idx); [reflexivity | lia].
  - intros Hi. destruct (dinsert_after_spec alloc Halloc dl ch idx v Hinv Hi) as (dl' & Hins & Hinv' & Hnew & Hfr).
    destruct (dinsert_contents dl ch (S idx) _ v dl' Hinv (dinv_fresh alloc Halloc _ _ Hinv)
                Hinv' Hnew Hfr) as (vs' & Hc' & Hc'').
    rewrite Hc in Hc'. injection Hc' as <-.
    exists dl'. split; [exact Hins|]. split; [exact Hc''|]. split.
    + rewrite <- (dcontents_length _ _ _ Hinv' Hc''), <- (dcontents_length _ _ _ Hinv Hc).
      rewrite length_app, length_take, length_cons, length_drop. lia.
    + eexists. exact Hinv'.
Qed.

(** [insert_before idx v] inserts [v] at position [idx] when [idx < len],
    and into an empty list at [idx = 0]; at any other [idx >= len],
    including [idx = len] on a non-empty list, it fails with
    [IndexOutOfRange] and leaves the list unchanged. *)
Theorem dyn_insert_before_inserts {T} (alloc : gset nat -> nat) (Halloc : forall X, alloc X ∉ X)
    (dl : DoubleLinkedList T) ch idx v :
  DInv dl ch ->
  exists vs, contents dl = Some vs /\
    (len dl <= idx -> ~ (len dl = 0 /\ idx = 0) ->
       insert_before alloc dl idx v = Some (Err IndexOutOfRange, dl)) /\
    (idx < len dl \/ (len dl = 0 /\ idx = 0) -> exists dl', insert_before alloc dl idx v = Some (Ok tt, dl') /\
       contents dl' = Some (take idx vs ++ v :: drop idx vs) /\ len dl' = S (len dl) /\
       exists ch', DInv dl' ch').
Proof.
  intros Hinv. destruct (dcontents_inv _ _ Hinv) as (vs & _ & Hc).
  pose proof (dcontents_length _ _ _ Hinv Hc) as Lv.
  exists vs. split; [exact Hc|]. split.
  - intros Hi Hn. unfold insert_before. destruct (Nat.leb_spec (len dl) idx) as [_|]; [|lia].
    destruct (Nat.eqb_spec (len dl) 0), (Nat.eqb_spec idx 0); cbn; [tauto|reflexivity..].
  - intros Hi.
    assert (Hk : forall k dl', DInv dl' (take k ch ++ alloc (dom (heap dl)) :: drop k ch) ->
              option_map value (heap dl' !! alloc (dom (heap dl))) = Some v ->
              (forall j, j <> alloc (dom (heap dl)) ->
                 option_map value (heap dl' !! j) = option_map value (heap dl !! j)) ->
              k <= len dl ->
              contents dl' = Some (take k vs ++ v :: drop k vs) /\ len dl' = S (len dl)).
    { intros k dl' Hinv' Hnew Hfr Hkl.
      destruct (dinsert_contents dl ch k _ v dl' Hinv (dinv_fresh alloc Halloc _ _ Hinv)
                  Hinv' Hnew Hfr) as (vs' & Hc' & Hc'').
      rewrite Hc in Hc'. injection Hc' as <-. split; [exact Hc''|].
      rewrite <- (dcontents_length _ _ _ Hinv' Hc''), <- Lv.
      rewrite length_app, length_take, length_cons, length_drop. lia. }
    unfold insert_before. destruct (Nat.leb_spec (len dl) idx) as [Hge|Hlt].
    + destruct Hi as [Hi|[Hl0 ->]]; [lia|]. rewrite Hl0. cbn [Nat.eqb andb].
      destruct (dinsert_tail_spec alloc Halloc dl ch v Hinv) as (dl' & Hins & Hinv' & Hnew & Hfr).
      assert (Hch : ch = []) by (apply length_zero_iff_nil; rewrite <- (dinv_len _ _ Hinv); exact Hl0).
      rewrite Hch in Hinv'. cbn [app] in Hinv'.
      destruct (Hk 0 dl') as [Hc' Hl']; [rewrite Hch; exact Hinv' | exact Hnew | exact Hfr | lia |].
      exists dl'. split; [exact Hins|]. split; [exact Hc'|]. split; [lia|]. eexists; exact Hinv'.
    + destruct (Nat.eqb_spec idx 0) as [->|Hi0].
      * destruct (dinsert_head_spec alloc Halloc dl ch v Hinv) as (dl' & Hins & Hinv' & Hnew & Hfr).
        destruct (Hk 0 dl') as [Hc' Hl']; [exact Hinv' | exact Hnew | exact Hfr | lia |].
        exists dl'. split; [exact Hins|]. split; [exact Hc'|]. split; [exact Hl'|]. eexists; exact Hinv'.
      * destruct (dinsert_before_spec alloc Halloc dl ch idx v Hinv ltac:(lia) Hlt)
          as (dl' & Hins & Hinv' & Hnew & Hfr).
        unfold insert_before in Hins. destruct (Nat.leb_spec (len dl) idx) as [|_]; [lia|].
        destruct (Nat.eqb_spec idx 0) as [|_]; [lia|].
        destruct (Hk idx dl') as [Hc' Hl']; [exact Hinv' | exact Hnew | exact Hfr | lia |].
        exists dl'. split; [exact Hins|]. split; [exact Hc'|]. split; [exact Hl'|]. eexists; exact Hinv'.
Qed.

(** [remove idx] fails with [IndexOutOfRange] and leaves the list
    unchanged when [idx >= len]; otherwise it removes the element at
    position [idx], frees its node, and the length drops by one. *)
Theorem dyn_remove_deletes {T} (dl : DoubleLinkedList T) ch idx :
  DInv dl ch ->
  exists vs, contents dl = Some vs /\
    (len dl <= idx -> remove dl idx = Some (Err IndexOutOfRange, dl)) /\
    (idx < len dl -> exists c dl', ch !! idx = Some c /\ remove dl idx = Some (Ok tt, dl') /\
       contents dl' = Some (delete idx vs) /\ len dl' = len dl - 1 /\
       dom (heap dl') = dom (heap dl) ∖ {[c]} /\ exists ch', DInv dl' ch').
Proof.
  intros Hinv. destruct (dcontents_inv _ _ Hinv) as (vs & _ & Hc).
  exists vs. split; [exact Hc|]. split.
  - intros Hi. unfold remove. destruct (Nat.leb_spec (len dl) idx); [reflexivity | lia].
  - intros Hi. destruct (dremove_spec dl ch idx Hinv Hi) as (c & dl' & Hcx & Hrm & Hinv' & Hgone & Hfr).
    pose proof (dinv_len _ _ Hinv) as Hl.
    destruct (dremove_contents dl ch idx dl' Hinv ltac:(lia) Hinv') as (vs' & Hc' & Hc'').
    { intros j Hj. apply Hfr. intros ->. pose proof (dinv_nodup _ _ Hinv) as Hnd.
      rewrite <- (take_drop_middle _ _ _ Hcx) in Hnd.
      apply NoDup_app in Hnd as (_ & Hd & Hnd2). apply NoDup_cons in Hnd2 as [Hn2 _].
      apply elem_of_app in Hj as [Hj|Hj]; [exact (Hd c Hj ltac:(set_solver)) | exact (Hn2 Hj)]. }
    rewrite Hc in Hc'. injection Hc' as <-.
    exists c, dl'. split; [exact Hcx|]. split; [exact Hrm|]. split; [exact Hc''|]. split; [|split].
    + rewrite (dinv_len _ _ Hinv'), length_app, length_take, length_drop. lia.
    + rewrite (dinv_dom _ _ Hinv'), (dinv_dom _ _ Hinv).
      pose proof (dinv_nodup _ _ Hinv) as Hnd.
      rewrite <- (take_drop_middle _ _ _ Hcx) in Hnd.
      replace (list_to_set ch : gset nat) with (list_to_set (take idx ch ++ c :: drop (S idx) ch) : gset nat)
        by (rewrite (take_drop_middle _ _ _ Hcx); reflexivity).
      apply NoDup_app in Hnd as (_ & Hd & Hnd2). apply NoDup_cons in Hnd2 as [Hn2 _].
      apply set_eq. intros z. rewrite elem_of_difference, elem_of_singleton, !elem_of_list_to_set,
        !elem_of_app, elem_of_cons.
      split; [intros [Hz|Hz]; split; [tauto| intros ->; exact (Hd c Hz ltac:(set_solver)) | tauto | intros ->; exact (Hn2 Hz)]|].
      intros [[Hz|[Hz|Hz]] Hzc]; [left; exact Hz | contradiction | right; exact Hz].
    + eexists. exact Hinv'.
Qed.

(** [get idx] reads from the nearer end of the list; the values it returns
    at positions [0 .. len - 1] are those [as_vec] collects from the head
    along [next]; at [idx >= len] it returns [IndexOutOfRange]. *)
Theorem dyn_get_as_vec {T} (clone_t : T -> T) (dl : DoubleLinkedList T) ch :
  DInv dl ch ->
  exists vs, contents dl = Some vs /\ as_vec clone_t dl = Some (map clone_t vs) /\
    (forall idx, idx < len dl -> exists x, vs !! idx = Some x /\ get dl idx = Some (Ok x)) /\
    (forall idx, len dl <= idx -> get dl idx = Some (Err IndexOutOfRange)).
Proof.
  intros Hinv. destruct (dcontents_inv _ _ Hinv) as (vs & Hv & Hc).
  exists vs. split; [exact Hc|]. split; [|split].
  - unfold as_vec. rewrite (dinv_head _ _ Hinv), (dinv_size _ _ Hinv).
    rewrite (das_vec_from_seg clone_t _ None ch [] (S (length ch)) vs (dinv_seg _ _ Hinv) ltac:(lia) Hv). reflexivity.
  - intros idx Hi. destruct (dget_inv _ _ _ Hinv Hi) as (x & n & Hx & Hn & Hg).
    exists (value n). split; [|exact Hg].
    apply mapM_Some_1 in Hv. apply Forall2_lookup with (i := idx) in Hv.
    rewrite Hx in Hv. inversion Hv as [? y Hy|]; subst. rewrite Hn in Hy. cbn in Hy. injection Hy as <-. reflexivity.
  - intros idx Hi. unfold get. destruct (Nat.leb_spec (len dl) idx); [reflexivity | lia].
Qed.

(** [get_index_where f] returns the position in the list of the first
    element satisfying [f], or [None] if there is none. *)
Theorem dyn_get_index_where_position {T} (dl : DoubleLinkedList T) ch (f : T -> bool) :
  DInv dl ch ->
  exists vs, contents dl = Some vs /\
    get_index_where dl f = Some (fst <$> list_find (fun x => f x = true) vs).
Proof.
  intros Hinv. destruct (dcontents_inv _ _ Hinv) as (vs & Hv & Hc).
  exists vs. split; [exact Hc|]. unfold get_index_where.
  rewrite (dinv_head _ _ Hinv), (dinv_size _ _ Hinv).
  rewrite (dget_index_where_from_seg _ f None ch 0 (S (length ch)) vs (dinv_seg _ _ Hinv) ltac:(lia) Hv).
  destruct (list_find _ vs); reflexivity.
Qed.

(** [get_value_where f] returns the first element satisfying [f], and
    [get_where f] all of them, in list order. *)
Theorem dyn_get_value_where_find {T} (dl : DoubleLinkedList T) ch (f : T -> bool) :
  DInv dl ch ->
  exists vs, contents dl = Some vs /\
    get_value_where dl f = Some (List.find f vs) /\ get_where dl f = Some (List.filter f vs).
Proof.
  intros Hinv. destruct (dcontents_inv _ _ Hinv) as (vs & Hv & Hc).
  exists vs. split; [exact Hc|]. unfold get_value_where, get_where.
  rewrite (dinv_head _ _ Hinv), (dinv_size _ _ Hinv). split.
  - exact (dget_value_where_from_seg _ f None ch (S (length ch)) vs (dinv_seg _ _ Hinv) ltac:(lia) Hv).
  - exact (dget_where_from_seg _ f None ch [] (S (length ch)) vs (dinv_seg _ _ Hinv) ltac:(lia) Hv).
Qed.

(** [iter_and_compute f] calls [f] once on each element, from the head to
    the tail, threading the closure's state; each element is replaced by
    the result and the list keeps its nodes and links. *)
Theorem dyn_iter_and_compute_map {T St} (f : St -> T -> St * T) (st : St) (dl : DoubleLinkedList T) ch :
  DInv dl ch ->
  exists vs dl', contents dl = Some vs /\
    iter_and_compute f st dl = Some (dl', snd (map_accum f st vs)) /\
    contents dl' = Some (fst (map_accum f st vs)) /\ DInv dl' ch.
Proof.
  intros Hinv. destruct (dcontents_inv _ _ Hinv) as (vs & Hv & Hc).
  destruct (diter_from_seg f (heap dl) st None ch (S (size (heap dl))) vs (dinv_seg _ _ Hinv)
              (dinv_nodup _ _ Hinv) ltac:(rewrite (dinv_size _ _ Hinv); lia) Hv)
    as (h' & Hit & Hs' & Hv' & Hdom & _).
  set (dl' := mk_list h' (head dl) (tail dl) (len dl)).
  assert (Hinv' : DInv dl' ch).
  { constructor; cbn [heap head tail len dl'].
    - exact Hs'.
    - exact (dinv_nodup _ _ Hinv).
    - exact (dinv_len _ _ Hinv).
    - exact (dinv_head _ _ Hinv).
    - exact (dinv_tail _ _ Hinv).
    - rewrite Hdom. exact (dinv_dom _ _ Hinv). }
  destruct (dcontents_inv _ _ Hinv') as (vs' & Hv'' & Hc').
  cbn [heap dl'] in Hv''. rewrite Hv' in Hv''. injection Hv'' as <-.
  exists vs, dl'. split; [exact Hc|]. split; [|split; [exact Hc' | exact Hinv']].
  unfold iter_and_compute. rewrite (dinv_head _ _ Hinv) at 1. rewrite Hit. reflexivity.
Qed.

(** [clone] (and [copy], which calls it) builds a new well-formed list with
    the cloned values in the same order. *)
Theorem dyn_clone_copies {T} (alloc : gset nat -> nat) (Halloc : forall X, alloc X ∉ X)
    (clone_t : T -> T) (dl : DoubleLinkedList T) ch :
  DInv dl ch ->
  exists vs c, contents dl = Some vs /\ clone alloc clone_t dl = Some c /\
    copy alloc clone_t dl = Some c /\ contents c = Some (map clone_t vs) /\ len c = len dl /\
    exists chc, DInv c chc.
Proof.
  intros Hinv. destruct (dcontents_inv _ _ Hinv) as (vs & Hv & Hc).
  destruct (dclone_from_seg alloc Halloc clone_t (heap dl) None ch (S (size (heap dl))) vs empty []
              [] (dinv_seg _ _ Hinv) ltac:(rewrite (dinv_size _ _ Hinv); lia) Hv dinv_empty eq_refl)
    as (c & chc & Hcl & Hinvc & Hcc).
  exists vs, c. split; [exact Hc|].
  assert (Hcl' : clone alloc clone_t dl = Some c)
    by (unfold clone; rewrite (dinv_head _ _ Hinv); exact Hcl).
  split; [exact Hcl'|]. split; [exact Hcl'|]. split; [exact Hcc|]. split.
  - rewrite <- (dcontents_length _ _ _ Hinvc Hcc), <- (dcontents_length _ _ _ Hinv Hc).
    apply length_map.
  - exists chc. exact Hinvc.
Qed.

Definition dthree : DoubleLinkedList nat :=
  Eval vm_compute in
  match l ← snd <$> insert_tail fresh empty 10; l ← snd <$> insert_tail fresh l 20;
        snd <$> insert_tail fresh l 30 with Some l => l | None => empty end.

Lemma dthree_inv : DInv dthree [0; 1; 2].
Proof.
  split.
  - cbn. repeat match goal with
    | |- exists _, _ => eexists
    | |- _ /\ _ => split
    | |- True => exact I
    | |- _ = _ => reflexivity
    end.
  - apply (bool_decide_unpack _). vm_compute. reflexivity.
  - reflexivity.
  - reflexivity.
  - reflexivity.
  - reflexivity.
Qed.

Lemma dyn_insert_head_tail_witness :
  (forall X : gset nat, fresh X ∉ X) /\ DInv dthree [0; 1; 2] /\
  exists vs, contents dthree = Some vs /\
    (exists dl', insert_head fresh dthree 40 = Some (Ok tt, dl') /\ contents dl' = Some (40 :: vs) /\
                 exists ch', DInv dl' ch') /\
    (exists dl', insert_tail fresh dthree 40 = Some (Ok tt, dl') /\ contents dl' = Some (vs ++ [40]) /\
                 exists ch', DInv dl' ch').
Proof.
  split; [exact is_fresh|]. split; [exact dthree_inv|].
  exact (dyn_insert_head_tail fresh is_fresh dthree [0; 1; 2] 40 dthree_inv).
Defined.

Lemma dyn_insert_after_inserts_witness :
  (forall X : gset nat, fresh X ∉ X) /\ DInv dthree [0; 1; 2] /\
  exists vs, contents dthree = Some vs /\
    (len dthree <= 1 -> insert_after fresh dthree 1 40 = Some (Err IndexOutOfRange, dthree)) /\
    (1 < len dthree -> exists dl', insert_after fresh dthree 1 40 = Some (Ok tt, dl') /\
       contents dl' = Some (take 2 vs ++ 40 :: drop 2 vs) /\ len dl' = S (len dthree) /\
       exists ch', DInv dl' ch').
Proof.
  split; [exact is_fresh|]. split; [exact dthree_inv|].
  exact (dyn_insert_after_inserts fresh is_fresh dthree [0; 1; 2] 1 40 dthree_inv).
Defined.

Lemma dyn_insert_before_inserts_witness :
  (forall X : gset nat, fresh X ∉ X) /\ DInv dthree [0; 1; 2] /\
  exists vs, contents dthree = Some vs /\
    (len dthree <= 3 -> ~ (len dthree = 0 /\ 3 = 0) ->
       insert_before fresh dthree 3 40 = Some (Err IndexOutOfRange, dthree)) /\
    (3 < len dthree \/ (len dthree = 0 /\ 3 = 0) -> exists dl', insert_before fresh dthree 3 40 = Some (Ok tt, dl') /\
       contents dl' = Some (take 3 vs ++ 40 :: drop 3 vs) /\ len dl' = S (len dthree) /\
       exists ch', DInv dl' ch').
Proof.
  split; [exact is_fresh|]. split; [exact dthree_inv|].
  exact (dyn_insert_before_inserts fresh is_fresh dthree [0; 1; 2] 3 40 dthree_inv).
Defined.

Lemma dyn_remove_deletes_witness :
  DInv dthree [0; 1; 2] /\
  exists vs, contents dthree = Some vs /\
    (len dthree <= 1 -> remove dthree 1 = Some (Err IndexOutOfRange, dthree)) /\
    (1 < len dthree -> exists c dl', [0; 1; 2] !! 1 = Some c /\ remove dthree 1 = Some (Ok tt, dl') /\
       contents dl' = Some (delete 1 vs) /\ len dl' = len dthree - 1 /\
       dom (heap dl') = dom (heap dthree) ∖ {[c]} /\ exists ch', DInv dl' ch').
Proof. split; [exact dthree_inv|]. exact (dyn_remove_deletes dthree [0; 1; 2] 1 dthree_inv). Defined.

Lemma dyn_get_as_vec_witness :
  DInv dthree [0; 1; 2] /\
  exists vs, contents dthree = Some vs /\ as_vec id dthree = Some (map id vs) /\
    (forall idx, idx < len dthree -> exists x, vs !! idx = Some x /\ get dthree idx = Some (Ok x)) /\
    (forall idx, len dthree <= idx -> get dthree idx = Some (Err IndexOutOfRange)).
Proof. split; [exact dthree_inv|]. exact (dyn_get_as_vec id dthree [0; 1; 2] dthree_inv). Defined.

Lemma dyn_get_index_where_position_witness :
  DInv dthree [0; 1; 2] /\
  exists vs, contents dthree = Some vs /\
    get_index_where dthree (Nat.eqb 20) = Some (fst <$> list_find (fun x => Nat.eqb 20 x = true) vs).
Proof. split; [exact dthree_inv|]. exact (dyn_get_index_where_position dthree [0; 1; 2] (Nat.eqb 20) dthree_inv). Defined.

Lemma dyn_get_value_where_find_witness :
  DInv dthree [0; 1; 2] /\
  exists vs, contents dthree = Some vs /\
    get_value_where dthree (Nat.ltb 15) = Some (List.find (Nat.ltb 15) vs) /\
    get_where dthree (Nat.ltb 15) = Some (List.filter (Nat.ltb 15) vs).
Proof. split; [exact dthree_inv|]. exact (dyn_get_value_where_find dthree [0; 1; 2] (Nat.ltb 15) dthree_inv). Defined.

Lemma dyn_iter_and_compute_map_witness :
  DInv dthree [0; 1; 2] /\
  exists vs dl', contents dthree = Some vs /\
    iter_and_compute (fun s x => (s + x, s + x)) 0 dthree = Some (dl', snd (map_accum (fun s x => (s + x, s + x)) 0 vs)) /\
    contents dl' = Some (fst (map_accum (fun s x => (s + x, s + x)) 0 vs)) /\ DInv dl' [0; 1; 2].
Proof.
  split; [exact dthree_inv|].
  exact (dyn_iter_and_compute_map (fun s x => (s + x, s + x)) 0 dthree [0; 1; 2] dthree_inv).
Defined.

Lemma dyn_clone_copies_witness :
  (forall X : gset nat, fresh X ∉ X) /\ DInv dthree [0; 1; 2] /\
  exists vs c, contents dthree = Some vs /\ clone fresh id dthree = Some c /\
    copy fresh id dthree = Some c /\ contents c = Some (map id vs) /\ len c = len dthree /\
    exists chc, DInv c chc.
Proof.
  split; [exact is_fresh|]. split; [exact dthree_inv|].
  exact (dyn_clone_copies fresh is_fresh id dthree [0; 1; 2] dthree_inv).
Defined.

Example dyn_insert_before_examples :
  (fst <$> insert_before fresh dthree 3 40 = Some (Err IndexOutOfRange)) /\
  (l ← snd <$> insert_before fresh dthree 2 40; contents l) = Some [10; 20; 40; 30] /\
  (l ← snd <$> remove dthree 0; contents l) = Some [20; 30] /\
  get_index_where dthree (Nat.eqb 30) = Some (Some 2).
Proof. vm_compute. repeat split; reflexivity. Qed.

End DynListProofs.
